(** * Local diffusion-term kernels of sfepy (termsLaplace.c)

    A shallow embedding of [sfepy/terms/extmods/termsLaplace.c] and of the
    parts of the FMField library it calls, followed by the properties of the
    kernels and of the term evaluators.

    Conventions of the embedding.
    - [float64] is an abstract scalar type [F] with the operations the C code
      uses ([Scalar]); algebraic laws are assumed only by the theorems that
      need them, and are stated there.  Instances: [Z] and binary64
      [float] (to run the model) and [R] (a field, to discharge the laws).
    - An [FMField] object is a record holding its shape, its allocation
      [val0] (a list) and its cursor [val] (an offset into the allocation).
      A [float64*] is an offset into an allocation; [p[i]] is a bounds-checked
      [load]/[store], and an access outside the allocation is the fault
      [OutOfBounds].
    - Shapes and loop counters ([int32] in C, never negative in a well-formed
      object) are [nat]; the flags [isDiff] and [mode] are [Z].
    - The global error flag set by [errput] and tested by [ERR_CheckGo] is
      the state of the monad [M]. *)

From Stdlib Require Import ZArith Lia Reals Lra.
From Stdlib Require Import Floats.PrimFloat.
From Stdlib Require Floats.FloatOps Floats.FloatAxioms.
From stdpp Require Import base list.

(** ** Scalars *)

Class Scalar (F : Type) := {
  f0 : F;                      (* 0.0 *)
  f1 : F;                      (* 1.0 *)
  fadd : F → F → F;
  fmul : F → F → F;
  fdiv : F → F → F;
  fis0 : F → bool;             (* x == 0.0 *)
  fleb : F → F → bool          (* x <= y *)
}.

#[export] Instance Z_Scalar : Scalar Z := {|
  f0 := 0%Z; f1 := 1%Z;
  fadd := Z.add; fmul := Z.mul; fdiv := Z.quot;
  fis0 := λ x, Z.eqb x 0; fleb := Z.leb |}.

#[export] Instance R_Scalar : Scalar R := {|
  f0 := 0%R; f1 := 1%R;
  fadd := Rplus; fmul := Rmult; fdiv := Rdiv;
  fis0 := λ x, if Req_EM_T x 0 then true else false;
  fleb := λ x y, if Rle_dec x y then true else false |}.

(** IEEE 754 binary64, the [float64] of the C code. *)
#[export] Instance float_Scalar : Scalar float := {|
  f0 := 0%float; f1 := 1%float;
  fadd := PrimFloat.add; fmul := PrimFloat.mul; fdiv := PrimFloat.div;
  fis0 := λ x, PrimFloat.eqb x 0%float; fleb := PrimFloat.leb |}.

(** ** Faults and results *)

Inductive fault := OutOfBounds | ShapeMismatch | DivByZero.

Inductive Res (A : Type) := Ok (a : A) | Err (e : fault).
Arguments Ok {A} a.
Arguments Err {A} e.

#[export] Instance Res_ret : MRet Res := λ A a, Ok a.
#[export] Instance Res_bind : MBind Res := λ A B f m,
  match m with Ok a => f a | Err e => Err e end.

(** [RET_OK] / [RET_Fail] of common.h. *)
Inductive int32_ret := RET_OK | RET_Fail.

(** The monad of the kernels that touch the error flag: the state is
    [g_error]. *)
Definition M (A : Type) : Type := bool → Res (A * bool).

#[export] Instance M_ret : MRet M := λ A a g, Ok (a, g).
#[export] Instance M_bind : MBind M := λ A B f m g,
  match m g with Ok (a, g') => f a g' | Err e => Err e end.

Definition liftR {A} (r : Res A) : M A := λ g,
  match r with Ok a => Ok (a, g) | Err e => Err e end.

(** Modelled from the spec: [errput] (common.c, not under src/) reports a
    configuration fault; the fault is surfaced to the caller by the next
    [ERR_CheckGo], so [errput] raises the global error flag. *)
Definition errput : M unit := λ _, Ok (tt, true).

(** Modelled from the spec: the test of [ERR_CheckGo] (common.h, not under
    src/): is a fault pending? *)
Definition ERR_Chk : M bool := λ g, Ok (g, g).

(** ** Bounds-checked memory access and loops *)

Section Memory.
Context {A : Type}.

Definition load (b : list A) (i : nat) : Res A :=
  match b !! i with Some x => Ok x | None => Err OutOfBounds end.

Definition store (b : list A) (i : nat) (x : A) : Res (list A) :=
  if decide (i < length b) then Ok (<[i:=x]> b) else Err OutOfBounds.

End Memory.

(** [foldR body [i1; ...; ik] s] runs [body i1], ..., [body ik] in sequence
    on the loop state and stops at the first fault. *)
Fixpoint foldR {S : Type} (body : nat → S → Res S) (l : list nat) (s : S) : Res S :=
  match l with
  | [] => Ok s
  | i :: l' => s' ← body i s; foldR body l' s'
  end.

(** [for (i = 0; i < n; i++) body] *)
Definition for_ {S : Type} (n : nat) (body : nat → S → Res S) (s : S) : Res S :=
  foldR body (seq 0 n) s.

(** The cell loop of every evaluator:
    [for (...) { body; ERR_CheckGo( ret ); }] with [ret = RET_OK] on entry.
    A pending fault after a cell leaves the loop with [RET_Fail]. *)
Fixpoint cell_loop {S : Type} (body : nat → S → M S) (cells : list nat) (s : S)
  : M (int32_ret * S) :=
  match cells with
  | [] => mret (RET_OK, s)
  | ii :: rest =>
      s' ← body ii s;
      e ← ERR_Chk;
      if (e : bool) then mret (RET_Fail, s') else cell_loop body rest s'
  end.

(** ** FMField objects *)

Record FMField (F : Type) := mkFMField {
  nCell : nat;
  nLev : nat;
  nRow : nat;
  nCol : nat;
  cellSize : nat;
  val0 : list F;      (* the allocation *)
  val : nat           (* the cursor, as an offset from val0 *)
}.
Arguments mkFMField {F}.
Arguments nCell {F}. Arguments nLev {F}. Arguments nRow {F}.
Arguments nCol {F}. Arguments cellSize {F}. Arguments val0 {F}.
Arguments val {F}.

Record VolumeGeometry (F : Type) := mkVolumeGeometry {
  bfGM : FMField F;   (* basis-function gradients: dim x nEP per level *)
  det : FMField F     (* Jacobian determinant times weight: 1 x 1 per level *)
}.
Arguments mkVolumeGeometry {F}.
Arguments bfGM {F}. Arguments det {F}.

Record SurfaceGeometry (F : Type) := mkSurfaceGeometry {
  normal : FMField F;
  sdet : FMField F;   (* sg->det *)
  area : FMField F
}.
Arguments mkSurfaceGeometry {F}.
Arguments normal {F}. Arguments sdet {F}. Arguments area {F}.

Section FMF.
Context {F : Type} `{Scalar F}.

Definition set_val (obj : FMField F) (p : nat) : FMField F :=
  mkFMField (nCell obj) (nLev obj) (nRow obj) (nCol obj) (cellSize obj) (val0 obj) p.

Definition set_val0 (obj : FMField F) (b : list F) : FMField F :=
  mkFMField (nCell obj) (nLev obj) (nRow obj) (nCol obj) (cellSize obj) b (val obj).

(** Modelled from the spec: the cursor macros of fmfield.h (not under src/).
    A cursor-positioned buffer is the batch buffer with its cursor moved
    onto one cell; a level slice starts [n * nRow * nCol] after the cursor. *)
Definition FMF_PtrFirst (obj : FMField F) : nat := 0.
Definition FMF_PtrCurrent (obj : FMField F) : nat := val obj.
Definition FMF_PtrLevel (obj : FMField F) (n : nat) : nat :=
  val obj + n * nRow obj * nCol obj.
Definition FMF_SetCell (obj : FMField F) (n : nat) : FMField F :=
  set_val obj (n * cellSize obj).

(** A [float64*] argument such as [coef->val]: allocation and offset. *)
Definition FMF_val (obj : FMField F) : list F * nat := (val0 obj, val obj).

(** Modelled from the spec: [fmf_createAlloc] (fmfield.c, not under src/)
    allocates a scratch buffer of the given shape, cursor on its first
    cell.  The model clears the allocation. *)
Definition fmf_createAlloc (ncell nlev nrow ncol : nat) : FMField F :=
  mkFMField ncell nlev nrow ncol (nlev * nrow * ncol)
    (replicate (ncell * (nlev * nrow * ncol)) f0) 0.

(** Modelled from the spec: [fill(buffer, value)] ([fmf_fillC], fmfield.c,
    not under src/) sets every entry of the current cell to [value]. *)
Definition fmf_fillC (obj : FMField F) (v : F) : Res (FMField F) :=
  b ← for_ (nLev obj * nRow obj * nCol obj)
         (λ i b, store b (val obj + i) v) (val0 obj);
  mret (set_val0 obj b).

(** Modelled from the spec: [scale(buffer, factor)] with a single scalar
    ([fmf_mulC], fmfield.c, not under src/): in-place elementwise multiply
    of the current cell. *)
Definition fmf_mulC (obj : FMField F) (v : F) : Res (FMField F) :=
  b ← for_ (nLev obj * nRow obj * nCol obj)
         (λ i b, x ← load b (val obj + i); store b (val obj + i) (fmul x v))
         (val0 obj);
  mret (set_val0 obj b).

(** Modelled from the spec: [fmf_mulAF] (fmfield.c, not under src/):
    level [il] of [objA] times the scalar [val[il]] goes to level [il] of
    [objR]; [objR] and [objA] are distinct objects. *)
Definition fmf_mulAF (objR objA : FMField F) (v : list F * nat) : Res (FMField F) :=
  b ← for_ (nLev objR) (λ il b,
         let pr := val objR + nCol objR * nRow objR * il in
         let pa := val objA + nCol objA * nRow objA * il in
         for_ (nRow objR * nCol objR) (λ i b,
           a ← load (val0 objA) (pa + i);
           c ← load v.1 (v.2 + il);
           store b (pr + i) (fmul a c)) b) (val0 objR);
  mret (set_val0 objR b).

(** The same routine called as [fmf_mulAF( obj, obj, val )]: result and
    operand are one object, so every operand entry is loaded from the buffer
    under update ([scale(buffer, factor)] with one scalar per level). *)
Definition fmf_mulAF_self (obj : FMField F) (v : list F * nat) : Res (FMField F) :=
  b ← for_ (nLev obj) (λ il b,
         let pr := val obj + nCol obj * nRow obj * il in
         for_ (nRow obj * nCol obj) (λ i b,
           a ← load b (pr + i);
           c ← load v.1 (v.2 + il);
           store b (pr + i) (fmul a c)) b) (val0 obj);
  mret (set_val0 obj b).

(** Modelled from the spec: [reduceWeighted(out, in, weights)]
    ([fmf_sumLevelsMulF], fmfield.c, not under src/): the current cell of
    [objR] is cleared, then every level of [objA], multiplied by
    [val[level]], is added to it. *)
Definition fmf_sumLevelsMulF (objR objA : FMField F) (v : list F * nat)
  : Res (FMField F) :=
  b ← for_ (nRow objR * nCol objR) (λ i b, store b (val objR + i) f0) (val0 objR);
  b ← for_ (nLev objA) (λ il b,
         let pa := val objA + nCol objA * nRow objA * il in
         for_ (nRow objR * nCol objR) (λ i b,
           x ← load b (val objR + i);
           a ← load (val0 objA) (pa + i);
           w ← load v.1 (v.2 + il);
           store b (val objR + i) (fadd x (fmul a w))) b) b;
  mret (set_val0 objR b).

(** Modelled from the spec (aliasing/broadcast rule of 4.1): the slice of an
    operand used at level [il] of a loop over [n] levels is its level slice
    when it has [n] levels, and its current slice otherwise. *)
Definition level_slice (obj : FMField F) (n il : nat) : nat :=
  if decide (nLev obj = n) then val obj + nCol obj * nRow obj * il else val obj.

(** Modelled from the spec: [product(out, A, B, transposeA, transposeB)]
    (the [fmf_mulAB] family of fmfield.c, not under src/).  For every level
    of [objR] the product of the (optionally transposed) slices of [objA]
    and [objB] is written to the level slice of [objR]; incompatible shapes
    are a fatal fault. *)
Definition fmf_product (tA tB : bool) (objR objA objB : FMField F)
  : Res (FMField F) :=
  let rowsA := if tA then nCol objA else nRow objA in
  let inner := if tA then nRow objA else nCol objA in
  let innerB := if tB then nCol objB else nRow objB in
  let colsB := if tB then nRow objB else nCol objB in
  if decide (nRow objR = rowsA ∧ nCol objR = colsB ∧ inner = innerB) then
    b ← for_ (nLev objR) (λ il b,
           let pr := val objR + nCol objR * nRow objR * il in
           let pa := level_slice objA (nLev objR) il in
           let pb := level_slice objB (nLev objR) il in
           for_ (nRow objR) (λ ir b,
             for_ (nCol objR) (λ ic b,
               b ← store b (pr + nCol objR * ir + ic) f0;
               for_ inner (λ ik b,
                 x ← load b (pr + nCol objR * ir + ic);
                 a ← load (val0 objA)
                       (pa + (if tA then nCol objA * ik + ir
                              else nCol objA * ir + ik));
                 c ← load (val0 objB)
                       (pb + (if tB then nCol objB * ic + ik
                              else nCol objB * ik + ic));
                 store b (pr + nCol objR * ir + ic) (fadd x (fmul a c))) b) b) b)
         (val0 objR);
    mret (set_val0 objR b)
  else Err ShapeMismatch.

Definition fmf_mulAB_nn := fmf_product false false.
Definition fmf_mulATB_nn := fmf_product true false.
Definition fmf_mulATBT_nn := fmf_product true true.
Definition fmf_mulAB_n1 := fmf_product false false.
Definition fmf_mulATB_1n := fmf_product true false.

(** Modelled from the spec: [gatherNodalValues(stateVector, connectivity,
    elementIndex)] ([ele_extractNodalValuesNBN], not under src/): row [inod]
    of [out] receives the values of the state vector at the global node
    [conn[inod]]. *)
Definition ele_extractNodalValuesNBN (out inp : FMField F) (conn : list nat * nat)
  : Res (FMField F) :=
  b ← for_ (nRow out) (λ inod b,
         node ← load conn.1 (conn.2 + inod);
         for_ (nCol out) (λ idof b,
           x ← load (val0 inp) (val inp + nCol out * node + idof);
           store b (val out + nCol out * inod + idof) x) b) (val0 out);
  mret (set_val0 out b).

End FMF.

(** ** Kernel builders (termsLaplace.c) *)

Section Kernels.
Context {F : Type} `{Scalar F}.

(** [laplace_build_gtg]: G^T G per quadrature point.  [pout] starts at the
    level slice of [out] and is advanced by [nCol] after each row, so row
    [ir] is written at [pout + nCol * ir]. *)
Definition laplace_build_gtg (out gc : FMField F) : M (int32_ret * FMField F) :=
  let nEP := nCol gc in
  let nQP := nLev gc in
  let nCol_ := nCol out in
  out ← liftR (fmf_fillC out f0);
  match nRow gc with
  | 3 =>
      b ← liftR (for_ nQP (λ iqp b,
             let pg1 := FMF_PtrLevel gc iqp in
             let pg2 := pg1 + nEP in
             let pg3 := pg2 + nEP in
             let pout := FMF_PtrLevel out iqp in
             for_ nEP (λ ir b,
               for_ nEP (λ ic b,
                 g1r ← load (val0 gc) (pg1 + ir);
                 g1c ← load (val0 gc) (pg1 + ic);
                 g2r ← load (val0 gc) (pg2 + ir);
                 g2c ← load (val0 gc) (pg2 + ic);
                 g3r ← load (val0 gc) (pg3 + ir);
                 g3c ← load (val0 gc) (pg3 + ic);
                 store b (pout + nCol_ * ir + ic)
                   (fadd (fadd (fmul g1r g1c) (fmul g2r g2c)) (fmul g3r g3c)))
                 b) b) (val0 out));
      mret (RET_OK, set_val0 out b)
  | 2 =>
      b ← liftR (for_ nQP (λ iqp b,
             let pg1 := FMF_PtrLevel gc iqp in
             let pg2 := pg1 + nEP in
             let pout := FMF_PtrLevel out iqp in
             for_ nEP (λ ir b,
               for_ nEP (λ ic b,
                 g1r ← load (val0 gc) (pg1 + ir);
                 g1c ← load (val0 gc) (pg1 + ic);
                 g2r ← load (val0 gc) (pg2 + ir);
                 g2c ← load (val0 gc) (pg2 + ic);
                 store b (pout + nCol_ * ir + ic)
                   (fadd (fmul g1r g1c) (fmul g2r g2c)))
                 b) b) (val0 out));
      mret (RET_OK, set_val0 out b)
  | _ =>
      errput;;
      mret (RET_Fail, out)
  end.

(** [laplace_act_g_m]: the action of G on [mtx]. *)
Definition laplace_act_g_m (out gc mtx : FMField F) : M (int32_ret * FMField F) :=
  let nEP := nCol gc in
  let nQP := nLev gc in
  let nCol_ := nCol mtx in
  match nRow gc with
  | 3 =>
      b ← liftR (for_ nQP (λ iqp b,
             let pg1 := FMF_PtrLevel gc iqp in
             let pg2 := pg1 + nEP in
             let pg3 := pg2 + nEP in
             let pout := FMF_PtrLevel out iqp in
             let pmtx := if decide (nLev mtx = nQP) then FMF_PtrLevel mtx iqp
                         else FMF_PtrCurrent mtx in
             for_ nCol_ (λ ic b,
               '(val1, val2, val3) ← for_ nEP (λ ik '(val1, val2, val3),
                   g1 ← load (val0 gc) (pg1 + ik);
                   g2 ← load (val0 gc) (pg2 + ik);
                   g3 ← load (val0 gc) (pg3 + ik);
                   m ← load (val0 mtx) (pmtx + (ic + nCol_ * ik));
                   mret (fadd val1 (fmul g1 m), fadd val2 (fmul g2 m),
                         fadd val3 (fmul g3 m))) (f0, f0, f0);
               b ← store b (pout + (ic + 0)) val1;
               b ← store b (pout + (ic + 1)) val2;
               store b (pout + (ic + 2)) val3) b) (val0 out));
      mret (RET_OK, set_val0 out b)
  | 2 =>
      b ← liftR (for_ nQP (λ iqp b,
             let pg1 := FMF_PtrLevel gc iqp in
             let pg2 := pg1 + nEP in
             let pout := FMF_PtrLevel out iqp in
             let pmtx := if decide (nLev mtx = nQP) then FMF_PtrLevel mtx iqp
                         else FMF_PtrCurrent mtx in
             for_ nCol_ (λ ic b,
               '(val1, val2) ← for_ nEP (λ ik '(val1, val2),
                   g1 ← load (val0 gc) (pg1 + ik);
                   g2 ← load (val0 gc) (pg2 + ik);
                   m ← load (val0 mtx) (pmtx + (ic + nCol_ * ik));
                   mret (fadd val1 (fmul g1 m), fadd val2 (fmul g2 m))) (f0, f0);
               b ← store b (pout + (ic + 0)) val1;
               store b (pout + (ic + 1)) val2) b) (val0 out));
      mret (RET_OK, set_val0 out b)
  | _ =>
      errput;;
      mret (RET_Fail, out)
  end.

(** [laplace_act_gt_m]: the action of G^T on [mtx]. *)
Definition laplace_act_gt_m (out gc mtx : FMField F) : M (int32_ret * FMField F) :=
  let nEP := nCol gc in
  let nQP := nLev gc in
  let nCol_ := nCol mtx in
  match nRow gc with
  | 3 =>
      b ← liftR (for_ nQP (λ iqp b,
             let pg1 := FMF_PtrLevel gc iqp in
             let pg2 := pg1 + nEP in
             let pg3 := pg2 + nEP in
             let pmtx := FMF_PtrLevel mtx iqp in
             for_ nEP (λ iep b,
               let pout := FMF_PtrLevel out iqp + nCol_ * iep in
               for_ nCol_ (λ ii b,
                 g1 ← load (val0 gc) (pg1 + iep);
                 m1 ← load (val0 mtx) (pmtx + (0 * nCol_ + ii));
                 g2 ← load (val0 gc) (pg2 + iep);
                 m2 ← load (val0 mtx) (pmtx + (1 * nCol_ + ii));
                 g3 ← load (val0 gc) (pg3 + iep);
                 m3 ← load (val0 mtx) (pmtx + (2 * nCol_ + ii));
                 store b (pout + ii)
                   (fadd (fadd (fmul g1 m1) (fmul g2 m2)) (fmul g3 m3))) b) b)
             (val0 out));
      mret (RET_OK, set_val0 out b)
  | 2 =>
      b ← liftR (for_ nQP (λ iqp b,
             let pg1 := FMF_PtrLevel gc iqp in
             let pg2 := pg1 + nEP in
             let pmtx := FMF_PtrLevel mtx iqp in
             for_ nEP (λ iep b,
               let pout := FMF_PtrLevel out iqp + nCol_ * iep in
               for_ nCol_ (λ ii b,
                 g1 ← load (val0 gc) (pg1 + iep);
                 m1 ← load (val0 mtx) (pmtx + (0 * nCol_ + ii));
                 g2 ← load (val0 gc) (pg2 + iep);
                 m2 ← load (val0 mtx) (pmtx + (1 * nCol_ + ii));
                 store b (pout + ii) (fadd (fmul g1 m1) (fmul g2 m2))) b) b)
             (val0 out));
      mret (RET_OK, set_val0 out b)
  | _ =>
      errput;;
      mret (RET_Fail, out)
  end.

End Kernels.

(** ** Term evaluators (termsLaplace.c) *)

Section Evaluators.
Context {F : Type} `{Scalar F}.

(** A null [FMField*]: scratch buffer that the call does not allocate. *)
Definition fmf_null : FMField F := mkFMField 0 0 0 0 0 [] 0.

(** [if (coef->nCell > 1) FMF_SetCell( coef, ii );] *)
Definition FMF_SetCell_bcast (obj : FMField F) (ii : nat) : FMField F :=
  if decide (1 < nCell obj) then FMF_SetCell obj ii else obj.

(** The scalar division of C has no guard.  The embedding guards it: a zero
    divisor is the fault [DivByZero]. *)
Definition fdiv_guarded (x y : F) : Res F :=
  if fis0 y then Err DivByZero else Ok (fdiv x y).

(** *** dw_laplace *)

Definition dw_laplace_cell (grad coef : FMField F) (vg : VolumeGeometry F)
    (isDiff : Z) (ii : nat) (s : FMField F * (FMField F * FMField F))
  : M (FMField F * (FMField F * FMField F)) :=
  let '(out, (gtg, gtgu)) := s in
  let out := FMF_SetCell out ii in
  let bfGM_ := FMF_SetCell (bfGM vg) ii in
  let det_ := FMF_SetCell (det vg) ii in
  let coef := FMF_SetCell_bcast coef ii in
  if decide (isDiff ≠ 0%Z) then
    '(_, gtg) ← laplace_build_gtg gtg bfGM_;
    gtg ← liftR (fmf_mulAF_self gtg (FMF_val coef));
    out ← liftR (fmf_sumLevelsMulF out gtg (FMF_val det_));
    mret (out, (gtg, gtgu))
  else
    let grad := FMF_SetCell grad ii in
    '(_, gtgu) ← laplace_act_gt_m gtgu bfGM_ grad;
    gtgu ← liftR (fmf_mulAF_self gtgu (FMF_val coef));
    out ← liftR (fmf_sumLevelsMulF out gtgu (FMF_val det_));
    mret (out, (gtg, gtgu)).

Definition dw_laplace (out grad coef : FMField F) (vg : VolumeGeometry F)
    (isDiff : Z) : M (int32_ret * FMField F) :=
  let nQP := nLev (bfGM vg) in
  let nEP := nCol (bfGM vg) in
  let gtg := if decide (isDiff ≠ 0%Z) then fmf_createAlloc 1 nQP nEP nEP
             else fmf_null in
  let gtgu := if decide (isDiff ≠ 0%Z) then fmf_null
              else fmf_createAlloc 1 nQP nEP 1 in
  '(ret, (out, _)) ← cell_loop (dw_laplace_cell grad coef vg isDiff)
                       (seq 0 (nCell out)) (out, (gtg, gtgu));
  mret (ret, out).

(** *** d_laplace *)

Definition d_laplace_cell (gradP1 gradP2 coef : FMField F) (vg : VolumeGeometry F)
    (ii : nat) (s : FMField F * (FMField F * FMField F))
  : M (FMField F * (FMField F * FMField F)) :=
  let '(out, (dgp2, gp1tdgp2)) := s in
  let out := FMF_SetCell out ii in
  let det_ := FMF_SetCell (det vg) ii in
  let gradP1 := FMF_SetCell gradP1 ii in
  let gradP2 := FMF_SetCell gradP2 ii in
  let coef := FMF_SetCell_bcast coef ii in
  dgp2 ← liftR (fmf_mulAF dgp2 gradP2 (FMF_val coef));
  gp1tdgp2 ← liftR (fmf_mulATB_nn gp1tdgp2 gradP1 dgp2);
  out ← liftR (fmf_sumLevelsMulF out gp1tdgp2 (FMF_val det_));
  mret (out, (dgp2, gp1tdgp2)).

Definition d_laplace (out gradP1 gradP2 coef : FMField F) (vg : VolumeGeometry F)
  : M (int32_ret * FMField F) :=
  let nQP := nLev (bfGM vg) in
  let dim := nRow (bfGM vg) in
  let dgp2 := fmf_createAlloc 1 nQP dim 1 in
  let gp1tdgp2 := fmf_createAlloc 1 nQP 1 1 in
  '(ret, (out, _)) ← cell_loop (d_laplace_cell gradP1 gradP2 coef vg)
                       (seq 0 (nCell out)) (out, (dgp2, gp1tdgp2));
  mret (ret, out).

(** *** dw_diffusion *)

Definition dw_diffusion_cell (grad mtxD : FMField F) (vg : VolumeGeometry F)
    (isDiff : Z) (ii : nat)
    (s : FMField F * (FMField F * FMField F * FMField F * FMField F))
  : M (FMField F * (FMField F * FMField F * FMField F * FMField F)) :=
  let '(out, (gtd, gtdg, dgp, gtdgp)) := s in
  let out := FMF_SetCell out ii in
  let bfGM_ := FMF_SetCell (bfGM vg) ii in
  let det_ := FMF_SetCell (det vg) ii in
  let mtxD := FMF_SetCell_bcast mtxD ii in
  if decide (isDiff ≠ 0%Z) then
    gtd ← liftR (fmf_mulATB_nn gtd bfGM_ mtxD);
    gtdg ← liftR (fmf_mulAB_nn gtdg gtd bfGM_);
    out ← liftR (fmf_sumLevelsMulF out gtdg (FMF_val det_));
    mret (out, (gtd, gtdg, dgp, gtdgp))
  else
    let grad := FMF_SetCell grad ii in
    dgp ← liftR (fmf_mulAB_nn dgp mtxD grad);
    gtdgp ← liftR (fmf_mulATB_nn gtdgp bfGM_ dgp);
    out ← liftR (fmf_sumLevelsMulF out gtdgp (FMF_val det_));
    mret (out, (gtd, gtdg, dgp, gtdgp)).

Definition dw_diffusion (out grad mtxD : FMField F) (vg : VolumeGeometry F)
    (isDiff : Z) : M (int32_ret * FMField F) :=
  let nQP := nLev (bfGM vg) in
  let nEP := nCol (bfGM vg) in
  let dim := nRow (bfGM vg) in
  let scratch :=
    if decide (isDiff ≠ 0%Z)
    then (fmf_createAlloc 1 nQP nEP dim, fmf_createAlloc 1 nQP nEP nEP,
          fmf_null, fmf_null)
    else (fmf_null, fmf_null,
          fmf_createAlloc 1 nQP dim 1, fmf_createAlloc 1 nQP nEP 1) in
  '(ret, (out, _)) ← cell_loop (dw_diffusion_cell grad mtxD vg isDiff)
                       (seq 0 (nCell out)) (out, scratch);
  mret (ret, out).

(** *** d_diffusion *)

Definition d_diffusion_cell (gradP1 gradP2 mtxD : FMField F) (vg : VolumeGeometry F)
    (ii : nat) (s : FMField F * (FMField F * FMField F))
  : M (FMField F * (FMField F * FMField F)) :=
  let '(out, (dgp2, gp1tdgp2)) := s in
  let out := FMF_SetCell out ii in
  let det_ := FMF_SetCell (det vg) ii in
  let gradP1 := FMF_SetCell gradP1 ii in
  let gradP2 := FMF_SetCell gradP2 ii in
  let mtxD := FMF_SetCell_bcast mtxD ii in
  dgp2 ← liftR (fmf_mulAB_nn dgp2 mtxD gradP2);
  gp1tdgp2 ← liftR (fmf_mulATB_nn gp1tdgp2 gradP1 dgp2);
  out ← liftR (fmf_sumLevelsMulF out gp1tdgp2 (FMF_val det_));
  mret (out, (dgp2, gp1tdgp2)).

Definition d_diffusion (out gradP1 gradP2 mtxD : FMField F) (vg : VolumeGeometry F)
  : M (int32_ret * FMField F) :=
  let nQP := nLev (bfGM vg) in
  let dim := nRow (bfGM vg) in
  let dgp2 := fmf_createAlloc 1 nQP dim 1 in
  let gp1tdgp2 := fmf_createAlloc 1 nQP 1 1 in
  '(ret, (out, _)) ← cell_loop (d_diffusion_cell gradP1 gradP2 mtxD vg)
                       (seq 0 (nCell out)) (out, (dgp2, gp1tdgp2));
  mret (ret, out).

(** *** dw_permeability_r *)

Definition dw_permeability_r_cell (mtxD : FMField F) (vg : VolumeGeometry F)
    (ii : nat) (s : FMField F * FMField F) : M (FMField F * FMField F) :=
  let '(out, gtd) := s in
  let out := FMF_SetCell out ii in
  let bfGM_ := FMF_SetCell (bfGM vg) ii in
  let det_ := FMF_SetCell (det vg) ii in
  let mtxD := FMF_SetCell_bcast mtxD ii in
  gtd ← liftR (fmf_mulATB_nn gtd bfGM_ mtxD);
  out ← liftR (fmf_sumLevelsMulF out gtd (FMF_val det_));
  mret (out, gtd).

Definition dw_permeability_r (out mtxD : FMField F) (vg : VolumeGeometry F)
  : M (int32_ret * FMField F) :=
  let nQP := nLev (bfGM vg) in
  let nEP := nCol (bfGM vg) in
  let gtd := fmf_createAlloc 1 nQP nEP 1 in
  '(ret, (out, _)) ← cell_loop (dw_permeability_r_cell mtxD vg)
                       (seq 0 (nCell out)) (out, gtd);
  mret (ret, out).

(** *** dw_diffusion_coupling *)

Record coupling_scratch := mkCouplingScratch {
  cs_st : FMField F;
  cs_gtd : FMField F;
  cs_gtdg : FMField F;
  cs_gp : FMField F;
  cs_dgp : FMField F;
  cs_gtdgp : FMField F
}.

Definition dw_diffusion_coupling_cell (state mtxD bf : FMField F)
    (vg : VolumeGeometry F) (conn : list nat) (nEP : nat) (elList : list nat)
    (isDiff mode : Z) (ii : nat) (s : FMField F * coupling_scratch)
  : M (FMField F * coupling_scratch) :=
  let '(out, sc) := s in
  iel ← liftR (load elList ii);
  let out := FMF_SetCell out ii in
  let bfGM_ := FMF_SetCell (bfGM vg) iel in
  let det_ := FMF_SetCell (det vg) iel in
  let mtxD := FMF_SetCell_bcast mtxD ii in
  if decide (isDiff ≠ 0%Z) then
    gtd ← liftR (fmf_mulATB_nn (cs_gtd sc) bfGM_ mtxD);
    gtdg ← liftR (if decide (0 < mode)%Z
                  then fmf_mulATBT_nn (cs_gtdg sc) bf gtd
                  else fmf_mulAB_nn (cs_gtdg sc) gtd bf);
    out ← liftR (fmf_sumLevelsMulF out gtdg (FMF_val det_));
    mret (out, mkCouplingScratch (cs_st sc) gtd gtdg (cs_gp sc) (cs_dgp sc)
                 (cs_gtdgp sc))
  else
    st ← liftR (ele_extractNodalValuesNBN (cs_st sc) state (conn, nEP * iel));
    '(gp, dgp, gtdgp) ←
      (if decide (0 < mode)%Z then
         gp ← liftR (fmf_mulAB_n1 (cs_gp sc) bfGM_ st);
         dgp ← liftR (fmf_mulATB_nn (cs_dgp sc) mtxD gp);
         gtdgp ← liftR (fmf_mulATB_nn (cs_gtdgp sc) bf dgp);
         mret (gp, dgp, gtdgp)
       else
         gp ← liftR (fmf_mulAB_n1 (cs_gp sc) bf st);
         dgp ← liftR (fmf_mulAB_nn (cs_dgp sc) mtxD gp);
         gtdgp ← liftR (fmf_mulATB_nn (cs_gtdgp sc) bfGM_ dgp);
         mret (gp, dgp, gtdgp));
    out ← liftR (fmf_sumLevelsMulF out gtdgp (FMF_val det_));
    mret (out, mkCouplingScratch st (cs_gtd sc) (cs_gtdg sc) gp dgp gtdgp).

Definition dw_diffusion_coupling (out state : FMField F) (offset : nat)
    (mtxD bf : FMField F) (vg : VolumeGeometry F)
    (conn : list nat) (nEl nEP : nat) (elList : list nat) (elList_nRow : nat)
    (isDiff mode : Z) : M (int32_ret * FMField F) :=
  let nQP := nLev (bfGM vg) in
  let dim := nRow (bfGM vg) in
  let state := set_val state (FMF_PtrFirst state + offset) in
  let sc :=
    if decide (isDiff ≠ 0%Z) then
      mkCouplingScratch fmf_null
        (fmf_createAlloc 1 nQP nEP 1) (fmf_createAlloc 1 nQP nEP nEP)
        fmf_null fmf_null fmf_null
    else
      mkCouplingScratch (fmf_createAlloc 1 1 nEP 1) fmf_null fmf_null
        (if decide (0 < mode)%Z then fmf_createAlloc 1 nQP dim 1
         else fmf_createAlloc 1 nQP 1 1)
        (if decide (0 < mode)%Z then fmf_createAlloc 1 nQP 1 1
         else fmf_createAlloc 1 nQP dim 1)
        (fmf_createAlloc 1 nQP nEP 1) in
  '(ret, (out, _)) ←
    cell_loop (dw_diffusion_coupling_cell state mtxD bf vg conn nEP elList
                 isDiff mode)
      (seq 0 elList_nRow) (out, sc);
  mret (ret, out).

(** *** d_diffusion_coupling *)

Definition d_diffusion_coupling_cell (stateP stateQ mtxD bf : FMField F)
    (vg : VolumeGeometry F) (conn : list nat) (nEP : nat) (elList : list nat)
    (mode : Z) (ii : nat)
    (s : FMField F * (FMField F * FMField F * FMField F * FMField F * FMField F))
  : M (FMField F * (FMField F * FMField F * FMField F * FMField F * FMField F)) :=
  let '(out, (st, aux1, aux2, aux3, aux4)) := s in
  iel ← liftR (load elList ii);
  let out := FMF_SetCell out ii in
  let bfGM_ := FMF_SetCell (bfGM vg) iel in
  let det_ := FMF_SetCell (det vg) iel in
  let mtxD := FMF_SetCell_bcast mtxD ii in
  st ← liftR (ele_extractNodalValuesNBN st stateP (conn, nEP * iel));
  '(aux1, aux2, aux3) ←
    (if decide (0 < mode)%Z then
       aux2 ← liftR (fmf_mulAB_n1 aux2 bfGM_ st);
       aux1 ← liftR (fmf_mulATB_nn aux1 mtxD aux2);
       aux3 ← liftR (fmf_mulATB_nn aux3 bf aux1);
       mret (aux1, aux2, aux3)
     else
       aux1 ← liftR (fmf_mulAB_n1 aux1 bf st);
       aux2 ← liftR (fmf_mulAB_nn aux2 mtxD aux1);
       aux3 ← liftR (fmf_mulATB_nn aux3 bfGM_ aux2);
       mret (aux1, aux2, aux3));
  st ← liftR (ele_extractNodalValuesNBN st stateQ (conn, nEP * iel));
  aux4 ← liftR (fmf_mulATB_1n aux4 st aux3);
  out ← liftR (fmf_sumLevelsMulF out aux4 (FMF_val det_));
  mret (out, (st, aux1, aux2, aux3, aux4)).

Definition d_diffusion_coupling (out stateP stateQ mtxD bf : FMField F)
    (vg : VolumeGeometry F)
    (conn : list nat) (nEl nEP : nat) (elList : list nat) (elList_nRow : nat)
    (isDiff mode : Z) : M (int32_ret * FMField F) :=
  let nQP := nLev (bfGM vg) in
  let dim := nRow (bfGM vg) in
  let aux1 := fmf_createAlloc 1 nQP dim 1 in
  let aux2 := fmf_createAlloc 1 nQP 1 1 in
  let aux3 := fmf_createAlloc 1 nQP nEP 1 in
  let aux4 := fmf_createAlloc 1 nQP 1 1 in
  let st := fmf_createAlloc 1 1 nEP 1 in
  '(ret, (out, _)) ←
    cell_loop (d_diffusion_coupling_cell stateP stateQ mtxD bf vg conn nEP
                 elList mode)
      (seq 0 elList_nRow) (out, (st, aux1, aux2, aux3, aux4));
  mret (ret, out).

(** *** d_surface_flux *)

Definition d_surface_flux_cell (grad mtxD : FMField F) (sg : SurfaceGeometry F)
    (mode : Z) (ii : nat) (s : FMField F * (FMField F * FMField F))
  : M (FMField F * (FMField F * FMField F)) :=
  let '(out, (dgp, ntdgp)) := s in
  let out := FMF_SetCell out ii in
  let grad := FMF_SetCell grad ii in
  let mtxD := FMF_SetCell mtxD ii in
  let normal_ := FMF_SetCell (normal sg) ii in
  let det_ := FMF_SetCell (sdet sg) ii in
  dgp ← liftR (fmf_mulAB_nn dgp mtxD grad);
  ntdgp ← liftR (fmf_mulATB_nn ntdgp normal_ dgp);
  out ← liftR (fmf_sumLevelsMulF out ntdgp (FMF_val det_));
  out ← (if decide (mode = 1%Z) then
           let area_ := FMF_SetCell (area sg) ii in
           a ← liftR (load (val0 area_) (val area_ + 0));
           r ← liftR (fdiv_guarded f1 a);
           liftR (fmf_mulC out r)
         else mret out);
  mret (out, (dgp, ntdgp)).

Definition d_surface_flux (out grad mtxD : FMField F) (sg : SurfaceGeometry F)
    (mode : Z) : M (int32_ret * FMField F) :=
  let nQP := nLev (normal sg) in
  let dim := nRow (normal sg) in
  let dgp := fmf_createAlloc 1 nQP dim 1 in
  let ntdgp := fmf_createAlloc 1 nQP 1 1 in
  '(ret, (out, _)) ← cell_loop (d_surface_flux_cell grad mtxD sg mode)
                       (seq 0 (nCell out)) (out, (dgp, ntdgp));
  mret (ret, out).

End Evaluators.

(** ** Auxiliary definitions for the specifications *)

(** Two runs end alike: with the same fault, or with related values. *)
Definition rrel {A B : Type} (P : A → B → Prop) (r1 : Res A) (r2 : Res B) : Prop :=
  match r1, r2 with
  | Ok a1, Ok a2 => P a1 a2
  | Err e1, Err e2 => e1 = e2
  | _, _ => False
  end.

(** Two runs of a kernel that started with the error flag clear end alike,
    and leave the flag clear. *)
Definition srel {A B : Type} (P : A → B → Prop)
    (r1 : Res (A * bool)) (r2 : Res (B * bool)) : Prop :=
  rrel (λ x1 x2, x1.2 = false ∧ x2.2 = false ∧ P x1.1 x2.1) r1 r2.

(** A run that does not end in a division by zero. *)
Definition no_div {A : Type} (r : Res A) : Prop := r ≠ Err DivByZero.

(** Two allocations of length [L] that agree on their first [k] entries. *)
Definition agree {A : Type} (L k : nat) (b1 b2 : list A) : Prop :=
  length b1 = L ∧ length b2 = L ∧ ∀ j, j < k → b1 !! j = b2 !! j.

(** A kernel that leaves the error flag clear when it finds it clear. *)
Definition keeps_flag {A : Type} (m : M A) : Prop :=
  ∀ a g', m false = Ok (a, g') → g' = false.

Section Blocks.
Context {A : Type}.
Implicit Types (b l : list A).

(** [sub b base n]: the [n] entries of [b] from offset [base]. *)
Definition sub b (base n : nat) : list A := take n (drop base b).

(** [splice b base l]: [b] with the entries from offset [base] replaced by
    [l]. *)
Definition splice b (base : nat) l : list A :=
  take base b ++ l ++ drop (base + length l) b.

(** [tab n f = [f 0; ...; f (n-1)]] *)
Definition tab (n : nat) (f : nat → A) : list A := map f (seq 0 n).

End Blocks.

Section SpecDefs.
Context {F : Type} `{Scalar F}.
Implicit Types (out gc grad coef : FMField F) (vg : VolumeGeometry F).

(** [rd b i]: the entry [b[i]] of an allocation known to hold it. *)
Definition rd (b : list F) (i : nat) : F := nth i b f0.

(** The entry [d, i] of the gradient matrix of quadrature point [iqp]. *)
Definition G_entry gc (iqp d i : nat) : F :=
  rd (val0 gc) (FMF_PtrLevel gc iqp + d * nCol gc + i).

(** The expression [laplace_build_gtg] stores at row [ir], column [ic]. *)
Definition gtg_entry gc (iqp ir ic : nat) : F :=
  match nRow gc with
  | 3 => fadd (fadd (fmul (G_entry gc iqp 0 ir) (G_entry gc iqp 0 ic))
                    (fmul (G_entry gc iqp 1 ir) (G_entry gc iqp 1 ic)))
              (fmul (G_entry gc iqp 2 ir) (G_entry gc iqp 2 ic))
  | 2 => fadd (fmul (G_entry gc iqp 0 ir) (G_entry gc iqp 0 ic))
              (fmul (G_entry gc iqp 1 ir) (G_entry gc iqp 1 ic))
  | _ => f0
  end.

(** The buffer [laplace_build_gtg] leaves in the current cell of [out]. *)
Definition gtg_block gc : list F :=
  concat (tab (nLev gc) (λ iqp,
    concat (tab (nCol gc) (λ ir, tab (nCol gc) (λ ic, gtg_entry gc iqp ir ic))))).

(** A buffer of a batch: [cellSize] is the size of a cell and the allocation
    holds [nCell] cells. *)
Definition fmf_wf (obj : FMField F) : Prop :=
  cellSize obj = nLev obj * nRow obj * nCol obj
  ∧ length (val0 obj) = nCell obj * cellSize obj.

(** A per-quadrature-point scalar for [n] cells: one cell broadcast to all
    (read at the cursor the caller left), or one cell per processed cell. *)
Definition scalar_field_ok (obj : FMField F) (ncell nqp : nat) : Prop :=
  fmf_wf obj ∧ nLev obj = nqp ∧ nRow obj = 1 ∧ nCol obj = 1
  ∧ (if decide (1 < nCell obj) then ncell ≤ nCell obj
     else val obj + nqp ≤ length (val0 obj)).

(** The inputs of [dw_laplace] in matrix mode are well formed. *)
Definition dw_laplace_valid out coef vg : Prop :=
  let G := bfGM vg in
  (nRow G = 2 ∨ nRow G = 3)
  ∧ fmf_wf G ∧ nCell out ≤ nCell G
  ∧ fmf_wf (det vg) ∧ nLev (det vg) = nLev G ∧ nRow (det vg) = 1
  ∧ nCol (det vg) = 1 ∧ nCell out ≤ nCell (det vg)
  ∧ scalar_field_ok coef (nCell out) (nLev G)
  ∧ fmf_wf out ∧ nLev out = 1 ∧ nRow out = nCol G ∧ nCol out = nCol G.

(** What the code accumulates at entry [(i, j)] of cell [ii]: the sum over
    the quadrature points, in the order of the code, of
    [(gtg[i,j] * coef[q]) * det[q]]. *)
Definition laplace_mtx_entry coef vg (ii i j : nat) : F :=
  let gc := FMF_SetCell (bfGM vg) ii in
  let cf := FMF_SetCell_bcast coef ii in
  let dt := FMF_SetCell (det vg) ii in
  fold_left (λ acc q,
      fadd acc (fmul (fmul (gtg_entry gc q i j) (rd (val0 cf) (val cf + q)))
                     (rd (val0 dt) (val dt + q))))
    (seq 0 (nLev (bfGM vg))) f0.

Definition same_shape (a b : FMField F) : Prop :=
  nCell a = nCell b ∧ nLev a = nLev b ∧ nRow a = nRow b ∧ nCol a = nCol b
  ∧ cellSize a = cellSize b ∧ length (val0 a) = length (val0 b).

(** Two output objects, with allocations of length [L], that differ at
    most in the entries of their allocations from offset [k] on. *)
Definition out_agree (L k : nat) (o1 o2 : FMField F) : Prop :=
  nCell o1 = nCell o2 ∧ nLev o1 = nLev o2 ∧ nRow o1 = nRow o2
  ∧ nCol o1 = nCol o2 ∧ cellSize o1 = cellSize o2 ∧ val o1 = val o2
  ∧ agree L k (val0 o1) (val0 o2).

(** The invariant of the cell loops on the outputs of two runs, before
    cell [ii]: one level per cell of size [cs], and the cells before [ii]
    agree. *)
Definition out_inv (L cs ii : nat) (o1 o2 : FMField F) : Prop :=
  out_agree L (ii * cs) o1 o2
  ∧ nLev o1 = 1 ∧ cellSize o1 = cs ∧ nRow o1 * nCol o1 = cs.

(** The states of two runs after cell [ii]: the same scratch buffers, and
    outputs that satisfy the invariant for the next cell. *)
Definition cell_post {X : Type} (L cs ii : nat) (s1 s2 : FMField F * X) : Prop :=
  s1.2 = s2.2 ∧ out_inv L cs (S ii) s1.1 s2.1.

(** [o'] is the object [o] with another content. *)
Definition upd_of (o o' : FMField F) : Prop := o' = set_val0 o (val0 o').

(** An output buffer for [ncells] cells: one level per cell, and the
    allocation holds exactly the cells. *)
Definition out_wf (o : FMField F) (ncells : nat) : Prop :=
  nLev o = 1 ∧ cellSize o = nRow o * nCol o
  ∧ length (val0 o) = ncells * cellSize o.

(** The entry [(ir, ic)] that [fmf_product] accumulates at level [il]. *)
Definition product_entry (tA tB : bool) (objR objA objB : FMField F)
    (il ir ic : nat) : F :=
  fold_left (λ acc ik,
      fadd acc
        (fmul (rd (val0 objA)
                 (level_slice objA (nLev objR) il
                  + (if tA then nCol objA * ik + ir else nCol objA * ir + ik)))
              (rd (val0 objB)
                 (level_slice objB (nLev objR) il
                  + (if tB then nCol objB * ic + ik else nCol objB * ik + ic)))))
    (seq 0 (if tA then nRow objA else nCol objA)) f0.

(** The block [fmf_product] leaves in the current cell of [objR]. *)
Definition product_block (tA tB : bool) (objR objA objB : FMField F) : list F :=
  concat (tab (nLev objR) (λ il,
    concat (tab (nRow objR) (λ ir,
      tab (nCol objR) (λ ic, product_entry tA tB objR objA objB il ir ic))))).

(** The operands of [fmf_product] have compatible shapes, and every slice
    the product reads or writes lies inside its allocation. *)
Definition product_ok (tA tB : bool) (objR objA objB : FMField F) : Prop :=
  (nRow objR = (if tA then nCol objA else nRow objA)
   ∧ nCol objR = (if tB then nRow objB else nCol objB)
   ∧ (if tA then nRow objA else nCol objA)
     = (if tB then nCol objB else nRow objB))
  ∧ val objR + nLev objR * (nRow objR * nCol objR) ≤ length (val0 objR)
  ∧ (∀ il, il < nLev objR →
       level_slice objA (nLev objR) il + nRow objA * nCol objA
       ≤ length (val0 objA))
  ∧ (∀ il, il < nLev objR →
       level_slice objB (nLev objR) il + nRow objB * nCol objB
       ≤ length (val0 objB)).

(** *** The surface flux *)

(** The inputs of [d_surface_flux] are well formed: normals [dim x 1],
    gradients [dim x 1] and tensor coefficients [dim x dim] per quadrature
    point, one of each per processed cell, and a scalar output per cell. *)
Definition d_surface_flux_valid (out grad mtxD : FMField F)
    (sg : SurfaceGeometry F) : Prop :=
  let nQP := nLev (normal sg) in
  let dim := nRow (normal sg) in
  (fmf_wf (normal sg) ∧ nCol (normal sg) = 1 ∧ nCell out ≤ nCell (normal sg))
  ∧ (fmf_wf (sdet sg) ∧ nLev (sdet sg) = nQP ∧ nRow (sdet sg) = 1
     ∧ nCol (sdet sg) = 1 ∧ nCell out ≤ nCell (sdet sg))
  ∧ (fmf_wf grad ∧ nLev grad = nQP ∧ nRow grad = dim ∧ nCol grad = 1
     ∧ nCell out ≤ nCell grad)
  ∧ (fmf_wf mtxD ∧ nLev mtxD = nQP ∧ nRow mtxD = dim ∧ nCol mtxD = dim
     ∧ nCell out ≤ nCell mtxD)
  ∧ (fmf_wf out ∧ nLev out = 1 ∧ nRow out = 1 ∧ nCol out = 1).

(** The facet area of cell [ii]: [sg->area->val[0]] after
    [FMF_SetCell( sg->area, ii )]. *)
Definition flux_area (sg : SurfaceGeometry F) (ii : nat) : F :=
  rd (val0 (area sg)) (ii * cellSize (area sg) + 0).

(** The facet area of every processed cell is stored, and is not zero. *)
Definition areas_nonzero (out : FMField F) (sg : SurfaceGeometry F) : Prop :=
  ∀ ii, ii < nCell out →
    ii * cellSize (area sg) + 0 < length (val0 (area sg))
    ∧ fis0 (flux_area sg ii) = false.

(** The total flux the code accumulates for cell [ii]: the scratch buffers
    [dgp = D grad] and [ntdgp = n^T dgp], then the weighted sum over the
    quadrature points. *)
Definition flux_total (grad mtxD : FMField F) (sg : SurfaceGeometry F)
    (ii : nat) : F :=
  let nQP := nLev (normal sg) in
  let dim := nRow (normal sg) in
  let dgp := fmf_createAlloc 1 nQP dim 1 in
  let ntdgp := fmf_createAlloc 1 nQP 1 1 in
  let dgp1 := set_val0 dgp (product_block false false dgp
                              (FMF_SetCell mtxD ii) (FMF_SetCell grad ii)) in
  let ntdgp1 := set_val0 ntdgp (product_block true false ntdgp
                                  (FMF_SetCell (normal sg) ii) dgp1) in
  let det_ := FMF_SetCell (sdet sg) ii in
  fold_left (λ acc il,
      fadd acc (fmul (rd (val0 ntdgp1) (0 + 1 * 1 * il + 0))
                     (rd (val0 det_) (val det_ + il))))
    (seq 0 nQP) f0.

(** The value [d_surface_flux] leaves for cell [ii]. *)
Definition flux_cell (grad mtxD : FMField F) (sg : SurfaceGeometry F)
    (mode : Z) (ii : nat) : F :=
  if decide (mode = 1%Z)
  then fmul (flux_total grad mtxD sg ii) (fdiv f1 (flux_area sg ii))
  else flux_total grad mtxD sg ii.

(** *** The coupling matrix *)

(** The inputs of [dw_diffusion_coupling] in matrix mode are well formed:
    gradients [dim x nEP], the coefficient [dim x 1] and the shape functions
    [bf] [1 x nEP] per quadrature point; the listed elements are cells of
    the geometry; the output has one [nEP x nEP] cell per listed element. *)
Definition coupling_valid (out mtxD bf : FMField F) (vg : VolumeGeometry F)
    (nEP : nat) (elList : list nat) (elList_nRow : nat) : Prop :=
  let G := bfGM vg in
  let nQP := nLev G in
  let dim := nRow G in
  (fmf_wf G ∧ nCol G = nEP)
  ∧ (fmf_wf (det vg) ∧ nLev (det vg) = nQP ∧ nRow (det vg) = 1
     ∧ nCol (det vg) = 1)
  ∧ (∀ ii, ii < elList_nRow →
       ∃ iel, elList !! ii = Some iel ∧ iel < nCell G ∧ iel < nCell (det vg))
  ∧ (fmf_wf mtxD ∧ nLev mtxD = nQP ∧ nRow mtxD = dim ∧ nCol mtxD = 1
     ∧ (if decide (1 < nCell mtxD) then elList_nRow ≤ nCell mtxD
        else val mtxD + nQP * (dim * 1) ≤ length (val0 mtxD)))
  ∧ (nLev bf = nQP ∧ nRow bf = 1 ∧ nCol bf = nEP
     ∧ val bf + nQP * (1 * nEP) ≤ length (val0 bf))
  ∧ (nLev out = 1 ∧ nRow out = nEP ∧ nCol out = nEP
     ∧ cellSize out = nEP * nEP
     ∧ length (val0 out) = elList_nRow * cellSize out).

(** The scratch buffer [gtd = G^T D] of the element listed at [ii]. *)
Definition coupling_gtd (mtxD : FMField F) (vg : VolumeGeometry F)
    (nEP : nat) (elList : list nat) (ii : nat) : FMField F :=
  let gtd0 := fmf_createAlloc 1 (nLev (bfGM vg)) nEP 1 in
  set_val0 gtd0
    (product_block true false gtd0
       (FMF_SetCell (bfGM vg) (nth ii elList 0)) (FMF_SetCell_bcast mtxD ii)).

(** The scratch buffer [gtdg]: [bf^T gtd^T] when [mode > 0], [gtd bf]
    otherwise. *)
Definition coupling_gtdg (mtxD bf : FMField F) (vg : VolumeGeometry F)
    (nEP : nat) (elList : list nat) (mode : Z) (ii : nat) : FMField F :=
  let gtdg0 := fmf_createAlloc 1 (nLev (bfGM vg)) nEP nEP in
  let gtd := coupling_gtd mtxD vg nEP elList ii in
  set_val0 gtdg0
    (if decide (0 < mode)%Z then product_block true true gtdg0 bf gtd
     else product_block false false gtdg0 gtd bf).

(** Entry [(i, j)] of the coupling matrix of the element listed at [ii]. *)
Definition coupling_entry (mtxD bf : FMField F) (vg : VolumeGeometry F)
    (nEP : nat) (elList : list nat) (mode : Z) (ii i j : nat) : F :=
  let gtdg := coupling_gtdg mtxD bf vg nEP elList mode ii in
  let det_ := FMF_SetCell (det vg) (nth ii elList 0) in
  fold_left (λ acc il,
      fadd acc (fmul (rd (val0 gtdg) (0 + nEP * nEP * il + (i * nEP + j)))
                     (rd (val0 det_) (val det_ + il))))
    (seq 0 (nLev (bfGM vg))) f0.

(** *** Scalar laws and sums *)

(** The laws of a commutative semiring; they hold of the real numbers that
    [float64] approximates. *)
Record SemiringLaws : Prop := {
  fadd_0_l : ∀ x : F, fadd f0 x = x;
  fadd_comm : ∀ x y : F, fadd x y = fadd y x;
  fadd_assoc : ∀ x y z : F, fadd x (fadd y z) = fadd (fadd x y) z;
  fmul_1_l : ∀ x : F, fmul f1 x = x;
  fmul_0_l : ∀ x : F, fmul f0 x = f0;
  fmul_comm : ∀ x y : F, fmul x y = fmul y x;
  fmul_assoc : ∀ x y z : F, fmul x (fmul y z) = fmul (fmul x y) z;
  fmul_add_distr_r : ∀ x y z : F, fmul (fadd x y) z = fadd (fmul x z) (fmul y z)
}.

(** The order laws used for positive semi-definiteness. *)
Record OrderLaws : Prop := {
  fle_0_0 : fleb (f0 : F) f0 = true;
  fle_add : ∀ x y : F, fleb f0 x = true → fleb f0 y = true →
            fleb f0 (fadd x y) = true;
  fle_mul : ∀ x y : F, fleb f0 x = true → fleb f0 y = true →
            fleb f0 (fmul x y) = true;
  fle_sqr : ∀ x : F, fleb f0 (fmul x x) = true
}.

(** [fsum n f = f 0 + ... + f (n-1)], summed from the left starting at 0. *)
Definition fsum (n : nat) (f : nat → F) : F :=
  fold_left (λ acc k, fadd acc (f k)) (seq 0 n) f0.

(** Entry [(i, j)] of G^T G at quadrature point [iqp]: Sum_d G[d,i]*G[d,j]. *)
Definition gramian_entry gc (iqp i j : nat) : F :=
  fsum (nRow gc) (λ d, fmul (G_entry gc iqp d i) (G_entry gc iqp d j)).

(** Entry [(i, j)] of Sum_q w_q * coef_q * G_q^T G_q for the cell [ii]. *)
Definition laplace_matrix coef vg (ii i j : nat) : F :=
  let gc := FMF_SetCell (bfGM vg) ii in
  let cf := FMF_SetCell_bcast coef ii in
  let dt := FMF_SetCell (det vg) ii in
  fsum (nLev (bfGM vg)) (λ q,
    fmul (fmul (rd (val0 dt) (val dt + q)) (rd (val0 cf) (val cf + q)))
         (gramian_entry gc q i j)).

(** Entry [(d, c)] of G M at quadrature point [iqp], for [mtx] with its
    slice at offset [pmtx]: Sum_k G[d,k] * M[k,c]. *)
Definition gm_entry gc (mtx : FMField F) (pmtx iqp d c : nat) : F :=
  fsum (nCol gc) (λ k,
    fmul (G_entry gc iqp d k) (rd (val0 mtx) (pmtx + nCol mtx * k + c))).

(** The quadratic form x^T A x of an [n] x [n] matrix. *)
Definition quad_form (n : nat) (A : nat → nat → F) (x : nat → F) : F :=
  fsum n (λ i, fsum n (λ j, fmul (fmul (x i) (A i j)) (x j))).

(** The matrix stored in cell [ii] of an output buffer of [n] x [n] cells. *)
Definition cell_matrix (o : FMField F) (n ii : nat) (i j : nat) : F :=
  rd (val0 o) (ii * cellSize o + i * n + j).

End SpecDefs.

(** ** Concrete inputs over [Z] *)

(** One tetrahedral cell: 4 local dofs, one quadrature point, weight 1,
    coefficient 2. *)
Definition tetra_G : FMField Z :=
  mkFMField 1 1 3 4 12 [1; 2; 3; 4; 5; 6; 7; 8; 9; 10; 11; 12]%Z 0.
Definition tetra_det : FMField Z := mkFMField 1 1 1 1 1 [1%Z] 0.
Definition tetra_coef : FMField Z := mkFMField 1 1 1 1 1 [2%Z] 0.
Definition tetra_out : FMField Z := mkFMField 1 1 4 4 16 (replicate 16 7%Z) 0.
Definition tetra_vg : VolumeGeometry Z := mkVolumeGeometry tetra_G tetra_det.

(** One 2-D cell with one local dof and a negative coefficient. *)
Definition neg_G : FMField Z := mkFMField 1 1 2 1 2 [1; 0]%Z 0.
Definition neg_det : FMField Z := mkFMField 1 1 1 1 1 [1%Z] 0.
Definition neg_coef : FMField Z := mkFMField 1 1 1 1 1 [(-1)%Z] 0.
Definition neg_out : FMField Z := mkFMField 1 1 1 1 1 [0%Z] 0.
Definition neg_vg : VolumeGeometry Z := mkVolumeGeometry neg_G neg_det.

(** A gradient buffer with one row (space dimension 1). *)
Definition dim1_gc : FMField Z := mkFMField 1 1 1 1 1 [3%Z] 0.
Definition dim1_out : FMField Z := mkFMField 1 1 1 1 1 [5%Z] 0.

(** A 2 x 1 gradient and a 1 x 2 matrix, for [laplace_act_g_m]. *)
Definition act_G : FMField Z := mkFMField 1 1 2 1 2 [1; 2]%Z 0.
Definition act_M : FMField Z := mkFMField 1 1 1 2 2 [1; 3]%Z 0.
Definition act_out : FMField Z := mkFMField 1 1 2 2 4 [9; 9; 9; 9]%Z 0.

(** Two boundary cells in 2-D, one quadrature point each; the tensor
    coefficient 2 I given once ([flux_D1]) and once per cell ([flux_D2]). *)
Definition flux_sg : SurfaceGeometry Z :=
  mkSurfaceGeometry (mkFMField 2 1 2 1 2 [1; 0; 0; 1]%Z 0)
                    (mkFMField 2 1 1 1 1 [1; 1]%Z 0)
                    (mkFMField 2 1 1 1 1 [2; 4]%Z 0).
Definition flux_grad : FMField Z := mkFMField 2 1 2 1 2 [1; 2; 3; 4]%Z 0.
Definition flux_D1 : FMField Z := mkFMField 1 1 2 2 4 [2; 0; 0; 2]%Z 0.
Definition flux_D2 : FMField Z :=
  mkFMField 2 1 2 2 4 [2; 0; 0; 2; 2; 0; 0; 2]%Z 0.
Definition flux_out : FMField Z := mkFMField 2 1 1 1 1 [0; 0]%Z 0.

(** The output buffer [tetra_out] with other initial contents. *)
Definition tetra_out' : FMField Z := mkFMField 1 1 4 4 16 (replicate 16 0%Z) 0.

(** ** Concrete inputs over [R] *)

(** The two boundary cells of [flux_sg], over the reals. *)
Definition rflux_sg : SurfaceGeometry R :=
  mkSurfaceGeometry (mkFMField 2 1 2 1 2 [1; 0; 0; 1]%R 0)
                    (mkFMField 2 1 1 1 1 [1; 1]%R 0)
                    (mkFMField 2 1 1 1 1 [2; 4]%R 0).
Definition rflux_grad : FMField R := mkFMField 2 1 2 1 2 [1; 2; 3; 4]%R 0.
Definition rflux_D : FMField R :=
  mkFMField 2 1 2 2 4 [2; 0; 0; 2; 2; 0; 0; 2]%R 0.
Definition rflux_out : FMField R := mkFMField 2 1 1 1 1 [0; 0]%R 0.

(** [flux_sg] with a degenerate first facet (area 0). *)
Definition flux_sg0 : SurfaceGeometry Z :=
  mkSurfaceGeometry (mkFMField 2 1 2 1 2 [1; 0; 0; 1]%Z 0)
                    (mkFMField 2 1 1 1 1 [1; 1]%Z 0)
                    (mkFMField 2 1 1 1 1 [0; 4]%Z 0).

(** ** Concrete inputs for the coupling term *)

(** One element with two local dofs in one space dimension, so that the
    shape-function buffer can be the gradient buffer itself. *)
Definition cpl_G : FMField Z := mkFMField 1 1 1 2 2 [3; 5]%Z 0.
Definition cpl_det : FMField Z := mkFMField 1 1 1 1 1 [1%Z] 0.
Definition cpl_vg : VolumeGeometry Z := mkVolumeGeometry cpl_G cpl_det.
Definition cpl_D : FMField Z := mkFMField 1 1 1 1 1 [2%Z] 0.
Definition cpl_out : FMField Z := mkFMField 1 1 2 2 4 [0; 0; 0; 0]%Z 0.

(** ** Concrete inputs over binary64 *)

(** The tetrahedral cell of [tetra_G] with binary64 entries. *)
Definition ftetra_G : FMField float :=
  mkFMField 1 1 3 4 12
    [0.5; 2; 3; 4; 5; 6; 7; 8; 9; 10; 11; 0.25]%float 0.
Definition ftetra_det : FMField float := mkFMField 1 1 1 1 1 [1%float] 0.
Definition ftetra_coef : FMField float := mkFMField 1 1 1 1 1 [2%float] 0.
Definition ftetra_out : FMField float :=
  mkFMField 1 1 4 4 16 (replicate 16 7%float) 0.
Definition ftetra_vg : VolumeGeometry float :=
  mkVolumeGeometry ftetra_G ftetra_det.

(** ** Concrete inputs that round *)

(** One 2-D cell with two local dofs and one quadrature point whose
    gradient matrix holds 1 - 2^-53, the largest binary64 number below 1;
    weight 1 and coefficient 1. *)
Definition fround_G : FMField float :=
  mkFMField 1 1 2 2 4 [1; 1; 1; 0x1.fffffffffffffp-1]%float 0.
Definition fround_det : FMField float := mkFMField 1 1 1 1 1 [1%float] 0.
Definition fround_coef : FMField float := mkFMField 1 1 1 1 1 [1%float] 0.
Definition fround_out : FMField float :=
  mkFMField 1 1 2 2 4 (replicate 4 0%float) 0.
Definition fround_vg : VolumeGeometry float :=
  mkVolumeGeometry fround_G fround_det.

(** One facet in 2-D with one quadrature point, the unit tensor, total flux
    5 and facet area 3. *)
Definition fflux_sg : SurfaceGeometry float :=
  mkSurfaceGeometry (mkFMField 1 1 2 1 2 [1; 0]%float 0)
                    (mkFMField 1 1 1 1 1 [1%float] 0)
                    (mkFMField 1 1 1 1 1 [3%float] 0).
Definition fflux_grad : FMField float := mkFMField 1 1 2 1 2 [5; 0]%float 0.
Definition fflux_D : FMField float := mkFMField 1 1 2 2 4 [1; 0; 0; 1]%float 0.
Definition fflux_out : FMField float := mkFMField 1 1 1 1 1 [0%float] 0.

(** ** Buffers of the evaluators: shapes and entries *)

Section CellDefs.
Context {F : Type} `{Scalar F}.

(** The scratch buffer [fmf_createAlloc( &x, 1, nL, nR, nC )] with the
    contents [b]. *)
Definition scratch (nL nR nC : nat) (b : list F) : FMField F :=
  mkFMField 1 nL nR nC (nL * nR * nC) b 0.

(** Entry [(r, c)] of the slice of [X] that a loop over [nQP] quadrature
    points uses at point [q]. *)
Definition at_qp (X : FMField F) (nQP q r c : nat) : F :=
  rd (val0 X) (level_slice X nQP q + (nCol X * r + c)).

(** The weight stored for quadrature point [q] in the current cell. *)
Definition wt_qp (dt : FMField F) (q : nat) : F := rd (val0 dt) (val dt + q).

(** Every slice of [X] used by a loop over [nL] levels is allocated. *)
Definition slices_ok (X : FMField F) (nL : nat) : Prop :=
  ∀ il, il < nL → level_slice X nL il + nRow X * nCol X ≤ length (val0 X).

(** A batch input of [nL] levels of shape [nR x nC], with a cell for each of
    the cells [0 .. n-1]. *)
Definition batch_ok (X : FMField F) (n nL nR nC : nat) : Prop :=
  fmf_wf X ∧ nLev X = nL ∧ nRow X = nR ∧ nCol X = nC ∧ n ≤ nCell X.

(** A material parameter of [nL] levels of shape [nR x nC]: a cell for each
    processed cell, or a single cell (read at the cursor the caller left)
    that serves every cell. *)
Definition bcast_ok (X : FMField F) (n nL nR nC : nat) : Prop :=
  fmf_wf X ∧ nLev X = nL ∧ nRow X = nR ∧ nCol X = nC
  ∧ (if decide (1 < nCell X) then n ≤ nCell X
     else val X + nL * (nR * nC) ≤ length (val0 X)).

(** An output buffer with one [nR x nC] block per cell. *)
Definition out_ok (out : FMField F) (nR nC : nat) : Prop :=
  fmf_wf out ∧ nLev out = 1 ∧ nRow out = nR ∧ nCol out = nC.

(** The block of an [nR x nC] matrix given by its entries. *)
Definition mat_block (nR nC : nat) (e : nat → nat → F) : list F :=
  concat (tab nR (λ r, tab nC (λ c, e r c))).

(** *** dw_permeability_r *)

(** Entry [i] of the vector the code accumulates for cell [ii]:
    Sum_q (Sum_d G_q[d,i] * D_q[d]) * w_q. *)
Definition permeability_entry (mtxD : FMField F) (vg : VolumeGeometry F)
    (ii i : nat) : F :=
  let nQP := nLev (bfGM vg) in
  let G := FMF_SetCell (bfGM vg) ii in
  let D := FMF_SetCell_bcast mtxD ii in
  let dt := FMF_SetCell (det vg) ii in
  fsum nQP (λ q,
    fmul (fsum (nRow G) (λ d, fmul (at_qp G nQP q d i) (at_qp D nQP q d 0)))
         (wt_qp dt q)).

Definition dw_permeability_r_valid (out mtxD : FMField F)
    (vg : VolumeGeometry F) : Prop :=
  let G := bfGM vg in
  batch_ok G (nCell out) (nLev G) (nRow G) (nCol G)
  ∧ batch_ok (det vg) (nCell out) (nLev G) 1 1
  ∧ bcast_ok mtxD (nCell out) (nLev G) (nRow G) 1
  ∧ out_ok out (nCol G) 1.

End CellDefs.

(** ** The actions of the gradient matrix *)

Section ActDefs.
Context {F : Type} `{Scalar F}.
Implicit Types (out gc mtx : FMField F).

(** Entry [(d, c)] of the level slice of [mtx] at quadrature point [iqp]. *)
Definition M_entry mtx (iqp d c : nat) : F :=
  rd (val0 mtx) (FMF_PtrLevel mtx iqp + (d * nCol mtx + c)).

(** The expression [laplace_act_gt_m] stores at row [iep], column [ii]. *)
Definition gt_m_entry gc mtx (iqp iep ii : nat) : F :=
  match nRow gc with
  | 3 => fadd (fadd (fmul (G_entry gc iqp 0 iep) (M_entry mtx iqp 0 ii))
                    (fmul (G_entry gc iqp 1 iep) (M_entry mtx iqp 1 ii)))
              (fmul (G_entry gc iqp 2 iep) (M_entry mtx iqp 2 ii))
  | 2 => fadd (fmul (G_entry gc iqp 0 iep) (M_entry mtx iqp 0 ii))
              (fmul (G_entry gc iqp 1 iep) (M_entry mtx iqp 1 ii))
  | _ => f0
  end.

(** The buffer [laplace_act_gt_m] leaves in the current cell of [out]. *)
Definition gt_m_block gc mtx : list F :=
  concat (tab (nLev gc) (λ iqp,
    mat_block (nCol gc) (nCol mtx) (gt_m_entry gc mtx iqp))).

(** The operands of [laplace_act_gt_m] are allocated: [gc] holds [nQP]
    slices of shape [dim x nEP], [mtx] holds [nQP] level slices of [dim]
    rows, and [out] holds [nQP] level slices of shape [nEP x nCol mtx]. *)
Definition act_gt_m_ok out gc mtx : Prop :=
  val gc + nLev gc * (nRow gc * nCol gc) ≤ length (val0 gc)
  ∧ (∀ iqp, iqp < nLev gc →
       FMF_PtrLevel mtx iqp + nRow gc * nCol mtx ≤ length (val0 mtx))
  ∧ nRow out * nCol out = nCol gc * nCol mtx
  ∧ val out + nLev gc * (nCol gc * nCol mtx) ≤ length (val0 out).

End ActDefs.

Section ActGDefs.
Context {F : Type} `{Scalar F}.
Implicit Types (out gc mtx : FMField F).

(** The slice of [mtx] that [laplace_act_g_m] reads at quadrature point
    [iqp]: the level slice when [mtx] has one level per quadrature point,
    the current slice otherwise. *)
Definition act_g_m_slice gc mtx (iqp : nat) : nat :=
  if decide (nLev mtx = nLev gc) then FMF_PtrLevel mtx iqp
  else FMF_PtrCurrent mtx.

(** The buffer [laplace_act_g_m] leaves in the current cell of [out] for a
    one-column [mtx]: the column G M of every quadrature point. *)
Definition g_m_block gc mtx : list F :=
  concat (tab (nLev gc) (λ iqp,
    tab (nRow gc) (λ d, gm_entry gc mtx (act_g_m_slice gc mtx iqp) iqp d 0))).

(** The operands of [laplace_act_g_m] for a one-column [mtx] are
    allocated. *)
Definition act_g_m_ok out gc mtx : Prop :=
  val gc + nLev gc * (nRow gc * nCol gc) ≤ length (val0 gc)
  ∧ (∀ iqp, iqp < nLev gc →
       act_g_m_slice gc mtx iqp + nCol gc ≤ length (val0 mtx))
  ∧ nRow out * nCol out = nRow gc
  ∧ val out + nLev gc * nRow gc ≤ length (val0 out).

End ActGDefs.

(** ** dw_laplace in residual mode, and d_laplace *)

Section LaplaceDefs.
Context {F : Type} `{Scalar F}.
Implicit Types (out grad coef : FMField F) (vg : VolumeGeometry F).

(** The geometry of a volume evaluator covers the cells [0 .. n-1]. *)
Definition vg_ok vg (n : nat) : Prop :=
  let G := bfGM vg in
  batch_ok G n (nLev G) (nRow G) (nCol G) ∧ batch_ok (det vg) n (nLev G) 1 1.

(** Entry [i] of the vector [dw_laplace] accumulates for cell [ii] in
    residual mode: the sum over the quadrature points, in the order of the
    code, of [(gtgu[i] * coef[q]) * det[q]]. *)
Definition laplace_res_entry grad coef vg (ii i : nat) : F :=
  let G := FMF_SetCell (bfGM vg) ii in
  let gr := FMF_SetCell grad ii in
  let cf := FMF_SetCell_bcast coef ii in
  let dt := FMF_SetCell (det vg) ii in
  fsum (nLev (bfGM vg)) (λ q,
    fmul (fmul (gt_m_entry G gr q i 0) (wt_qp cf q)) (wt_qp dt q)).

Definition dw_laplace_res_valid out grad coef vg : Prop :=
  let G := bfGM vg in
  (nRow G = 2 ∨ nRow G = 3)
  ∧ vg_ok vg (nCell out)
  ∧ batch_ok grad (nCell out) (nLev G) (nRow G) 1
  ∧ bcast_ok coef (nCell out) (nLev G) 1 1
  ∧ out_ok out (nCol G) 1.

(** The value [d_laplace] accumulates for cell [ii]:
    Sum_q (Sum_d gradP1_q[d] * (gradP2_q[d] * coef_q)) * w_q. *)
Definition d_laplace_entry (gradP1 gradP2 : FMField F) coef vg (ii : nat) : F :=
  let nQP := nLev (bfGM vg) in
  let p1 := FMF_SetCell gradP1 ii in
  let p2 := FMF_SetCell gradP2 ii in
  let cf := FMF_SetCell_bcast coef ii in
  let dt := FMF_SetCell (det vg) ii in
  fsum nQP (λ q,
    fmul (fsum (nRow p1) (λ d,
            fmul (at_qp p1 nQP q d 0) (fmul (at_qp p2 nQP q d 0) (wt_qp cf q))))
         (wt_qp dt q)).

Definition d_laplace_valid out (gradP1 gradP2 : FMField F) coef vg : Prop :=
  let G := bfGM vg in
  batch_ok (det vg) (nCell out) (nLev G) 1 1
  ∧ batch_ok gradP1 (nCell out) (nLev G) (nRow G) 1
  ∧ batch_ok gradP2 (nCell out) (nLev G) (nRow G) 1
  ∧ bcast_ok coef (nCell out) (nLev G) 1 1
  ∧ out_ok out 1 1.

End LaplaceDefs.

(** ** dw_diffusion and d_diffusion *)

Section DiffusionDefs.
Context {F : Type} `{Scalar F}.
Implicit Types (out grad mtxD : FMField F) (vg : VolumeGeometry F).

(** Entry [(i, j)] of the matrix [dw_diffusion] accumulates for cell [ii]:
    Sum_q (Sum_e (Sum_d G_q[d,i] * D_q[d,e]) * G_q[e,j]) * w_q. *)
Definition diffusion_mtx_entry mtxD vg (ii i j : nat) : F :=
  let nQP := nLev (bfGM vg) in
  let dim := nRow (bfGM vg) in
  let G := FMF_SetCell (bfGM vg) ii in
  let D := FMF_SetCell_bcast mtxD ii in
  let dt := FMF_SetCell (det vg) ii in
  fsum nQP (λ q,
    fmul (fsum dim (λ e,
            fmul (fsum dim (λ d, fmul (at_qp G nQP q d i) (at_qp D nQP q d e)))
                 (at_qp G nQP q e j)))
         (wt_qp dt q)).

Definition dw_diffusion_mtx_valid out mtxD vg : Prop :=
  let G := bfGM vg in
  vg_ok vg (nCell out)
  ∧ bcast_ok mtxD (nCell out) (nLev G) (nRow G) (nRow G)
  ∧ out_ok out (nCol G) (nCol G).

(** Entry [i] of the vector [dw_diffusion] accumulates for cell [ii] in
    residual mode:
    Sum_q (Sum_d G_q[d,i] * (Sum_e D_q[d,e] * grad_q[e])) * w_q. *)
Definition diffusion_res_entry grad mtxD vg (ii i : nat) : F :=
  let nQP := nLev (bfGM vg) in
  let dim := nRow (bfGM vg) in
  let G := FMF_SetCell (bfGM vg) ii in
  let D := FMF_SetCell_bcast mtxD ii in
  let gr := FMF_SetCell grad ii in
  let dt := FMF_SetCell (det vg) ii in
  fsum nQP (λ q,
    fmul (fsum dim (λ d,
            fmul (at_qp G nQP q d i)
                 (fsum dim (λ e, fmul (at_qp D nQP q d e) (at_qp gr nQP q e 0)))))
         (wt_qp dt q)).

Definition dw_diffusion_res_valid out grad mtxD vg : Prop :=
  let G := bfGM vg in
  vg_ok vg (nCell out)
  ∧ bcast_ok mtxD (nCell out) (nLev G) (nRow G) (nRow G)
  ∧ batch_ok grad (nCell out) (nLev G) (nRow G) 1
  ∧ out_ok out (nCol G) 1.

(** The value [d_diffusion] accumulates for cell [ii]:
    Sum_q (Sum_d gradP1_q[d] * (Sum_e D_q[d,e] * gradP2_q[e])) * w_q. *)
Definition d_diffusion_entry (gradP1 gradP2 : FMField F) mtxD vg (ii : nat) : F :=
  let nQP := nLev (bfGM vg) in
  let dim := nRow (bfGM vg) in
  let p1 := FMF_SetCell gradP1 ii in
  let p2 := FMF_SetCell gradP2 ii in
  let D := FMF_SetCell_bcast mtxD ii in
  let dt := FMF_SetCell (det vg) ii in
  fsum nQP (λ q,
    fmul (fsum dim (λ d,
            fmul (at_qp p1 nQP q d 0)
                 (fsum dim (λ e, fmul (at_qp D nQP q d e) (at_qp p2 nQP q e 0)))))
         (wt_qp dt q)).

Definition d_diffusion_valid out (gradP1 gradP2 : FMField F) mtxD vg : Prop :=
  let G := bfGM vg in
  batch_ok (det vg) (nCell out) (nLev G) 1 1
  ∧ batch_ok gradP1 (nCell out) (nLev G) (nRow G) 1
  ∧ batch_ok gradP2 (nCell out) (nLev G) (nRow G) 1
  ∧ bcast_ok mtxD (nCell out) (nLev G) (nRow G) (nRow G)
  ∧ out_ok out 1 1.

End DiffusionDefs.

(** ** The coupling evaluators on nodal values *)

Section CouplingDefs.
Context {F : Type} `{Scalar F}.
Implicit Types (out state mtxD bf : FMField F) (vg : VolumeGeometry F).

(** The value of the state vector at the local node [inod] of the element
    whose connectivity row starts at [base]. *)
Definition nodal state (conn : list nat) (base inod : nat) : F :=
  rd (val0 state) (val state + nth (base + inod) conn 0).

(** The geometry, the coefficient [dim x 1] and the shape functions
    [1 x nEP] of a coupling evaluator cover the [n] listed elements. *)
Definition coupling_geom_ok mtxD bf vg (nEP : nat) (elList : list nat)
    (n : nat) : Prop :=
  let G := bfGM vg in
  (fmf_wf G ∧ nCol G = nEP)
  ∧ (fmf_wf (det vg) ∧ nLev (det vg) = nLev G ∧ nRow (det vg) = 1
     ∧ nCol (det vg) = 1)
  ∧ (∀ ii, ii < n →
       ∃ iel, elList !! ii = Some iel ∧ iel < nCell G ∧ iel < nCell (det vg))
  ∧ bcast_ok mtxD n (nLev G) (nRow G) 1
  ∧ (nLev bf = nLev G ∧ nRow bf = 1 ∧ nCol bf = nEP
     ∧ val bf + nLev G * (1 * nEP) ≤ length (val0 bf)).

(** The connectivity rows of the listed elements are stored, and name
    entries of the state vector. *)
Definition gather_ok state (conn : list nat) (nEP : nat) (elList : list nat)
    (n : nat) : Prop :=
  ∀ ii inod, ii < n → inod < nEP →
    nEP * nth ii elList 0 + inod < length conn
    ∧ val state + nth (nEP * nth ii elList 0 + inod) conn 0
      < length (val0 state).

(** Entry [i] of the vector [dw_diffusion_coupling] accumulates in residual
    mode for the element listed at [ii], in the order of the code. *)
Definition coupling_res_entry state mtxD bf vg (conn : list nat) (nEP : nat)
    (elList : list nat) (mode : Z) (ii i : nat) : F :=
  let nQP := nLev (bfGM vg) in
  let dim := nRow (bfGM vg) in
  let iel := nth ii elList 0 in
  let G := FMF_SetCell (bfGM vg) iel in
  let D := FMF_SetCell_bcast mtxD ii in
  let dt := FMF_SetCell (det vg) iel in
  let p := nodal state conn (nEP * iel) in
  if decide (0 < mode)%Z then
    fsum nQP (λ q,
      fmul (fsum 1 (λ k,
              fmul (at_qp bf nQP q k i)
                   (fsum dim (λ d,
                      fmul (at_qp D nQP q d k)
                           (fsum nEP (λ n, fmul (at_qp G nQP q d n) (p n)))))))
           (wt_qp dt q))
  else
    fsum nQP (λ q,
      fmul (fsum dim (λ d,
              fmul (at_qp G nQP q d i)
                   (fsum 1 (λ k,
                      fmul (at_qp D nQP q d k)
                           (fsum nEP (λ n, fmul (at_qp bf nQP q k n) (p n)))))))
           (wt_qp dt q)).

(** The value [d_diffusion_coupling] accumulates for the element listed at
    [ii]: Sum_q (Sum_i q_i * aux3_q[i]) * w_q, where [aux3] is the vector of
    [coupling_res_entry] before the sum over the quadrature points. *)
Definition d_coupling_entry (stateP stateQ : FMField F) mtxD bf vg
    (conn : list nat) (nEP : nat) (elList : list nat) (mode : Z) (ii : nat) : F :=
  let nQP := nLev (bfGM vg) in
  let dim := nRow (bfGM vg) in
  let iel := nth ii elList 0 in
  let G := FMF_SetCell (bfGM vg) iel in
  let D := FMF_SetCell_bcast mtxD ii in
  let dt := FMF_SetCell (det vg) iel in
  let p := nodal stateP conn (nEP * iel) in
  let r := nodal stateQ conn (nEP * iel) in
  if decide (0 < mode)%Z then
    fsum nQP (λ q,
      fmul (fsum nEP (λ i,
              fmul (r i)
                   (fsum 1 (λ k,
                      fmul (at_qp bf nQP q k i)
                           (fsum dim (λ d,
                              fmul (at_qp D nQP q d k)
                                   (fsum nEP (λ n,
                                      fmul (at_qp G nQP q d n) (p n)))))))))
           (wt_qp dt q))
  else
    fsum nQP (λ q,
      fmul (fsum nEP (λ i,
              fmul (r i)
                   (fsum dim (λ d,
                      fmul (at_qp G nQP q d i)
                           (fsum 1 (λ k,
                              fmul (at_qp D nQP q d k)
                                   (fsum nEP (λ n,
                                      fmul (at_qp bf nQP q k n) (p n)))))))))
           (wt_qp dt q)).

End CouplingDefs.

(** ** The closed forms of the evaluators *)

Section ClosedForms.
Context {F : Type} `{Scalar F}.
Implicit Types (out grad coef : FMField F) (vg : VolumeGeometry F).

(** Entry [i] of the Laplace residual of cell [ii]:
    Sum_q ((Sum_d G_q[d,i] * grad_q[d]) * coef_q) * w_q. *)
Definition laplace_residual grad coef vg (ii i : nat) : F :=
  let nQP := nLev (bfGM vg) in
  let G := FMF_SetCell (bfGM vg) ii in
  let gr := FMF_SetCell grad ii in
  let cf := FMF_SetCell_bcast coef ii in
  let dt := FMF_SetCell (det vg) ii in
  fsum nQP (λ q,
    fmul (fmul (fsum (nRow G) (λ d,
                  fmul (at_qp G nQP q d i) (at_qp gr nQP q d 0)))
               (wt_qp cf q))
         (wt_qp dt q)).

End ClosedForms.


(** ** A coefficient repeated for every cell, and the total flux as a sum *)

Section MoreDefs.
Context {F : Type} `{Scalar F}.
Implicit Types (X grad mtxD : FMField F) (sg : SurfaceGeometry F).

(** The batch buffer that repeats the single cell of [X] for [n] cells. *)
Definition replicate_cells X (n : nat) : FMField F :=
  mkFMField n (nLev X) (nRow X) (nCol X) (cellSize X)
    (concat (replicate n (val0 X))) 0.

(** Sum_q (Sum_d n_q[d] * (Sum_e D_q[d,e] * grad_q[e])) * w_q for the
    facet [ii]. *)
Definition flux_sum grad mtxD sg (ii : nat) : F :=
  let nQP := nLev (normal sg) in
  let dim := nRow (normal sg) in
  let nm := FMF_SetCell (normal sg) ii in
  let D := FMF_SetCell mtxD ii in
  let gr := FMF_SetCell grad ii in
  let dt := FMF_SetCell (sdet sg) ii in
  fsum nQP (λ q,
    fmul (fsum dim (λ d,
            fmul (at_qp nm nQP q d 0)
                 (fsum dim (λ e, fmul (at_qp D nQP q d e) (at_qp gr nQP q e 0)))))
         (wt_qp dt q)).

End MoreDefs.

(** ** Concrete inputs for the evaluators *)

(** Two 2-D cells with two local dofs and one quadrature point each. *)
Definition quad_G : FMField Z :=
  mkFMField 2 1 2 2 4 [1; 2; 3; 4; 5; 6; 7; 8]%Z 0.
Definition quad_det : FMField Z := mkFMField 2 1 1 1 1 [1; 2]%Z 0.
Definition quad_vg : VolumeGeometry Z := mkVolumeGeometry quad_G quad_det.

(** Gradients of two fields at the quadrature points of the two cells. *)
Definition quad_gradP : FMField Z := mkFMField 2 1 2 1 2 [1; 2; 3; 4]%Z 0.
Definition quad_gradQ : FMField Z := mkFMField 2 1 2 1 2 [4; 3; 2; 1]%Z 0.

(** The gradients G u of the field with nodal values u = (1, 1) in both
    cells. *)
Definition quad_gradU : FMField Z := mkFMField 2 1 2 1 2 [3; 7; 11; 15]%Z 0.

(** A scalar coefficient, a symmetric tensor and a vector coefficient, each
    given once for all cells. *)
Definition quad_coef : FMField Z := mkFMField 1 1 1 1 1 [3%Z] 0.
Definition quad_D : FMField Z := mkFMField 1 1 2 2 4 [2; 1; 1; 3]%Z 0.
Definition quad_Dv : FMField Z := mkFMField 1 1 2 1 2 [1; 2]%Z 0.

(** The tensor 3 I, the isotropic counterpart of [quad_coef]. *)
Definition quad_D_iso : FMField Z := mkFMField 1 1 2 2 4 [3; 0; 0; 3]%Z 0.

(** Output buffers for two cells: matrices, vectors and scalars. *)
Definition quad_out_m : FMField Z := mkFMField 2 1 2 2 4 (replicate 8 9%Z) 0.
Definition quad_out_v : FMField Z := mkFMField 2 1 2 1 2 (replicate 4 9%Z) 0.
Definition quad_out_s : FMField Z := mkFMField 2 1 1 1 1 [9; 9]%Z 0.

(** Shape functions of the second field, a state vector on three nodes,
    the connectivity of the two cells and the list of both elements. *)
Definition quad_bf : FMField Z := mkFMField 1 1 1 2 2 [1; 2]%Z 0.
Definition quad_state : FMField Z := mkFMField 1 1 3 1 3 [5; 6; 7]%Z 0.
Definition quad_conn : list nat := [0; 1; 1; 2].
Definition quad_elList : list nat := [0; 1].

(** An output buffer of three vector cells, for a list of two elements. *)
Definition quad_out_v3 : FMField Z := mkFMField 3 1 2 1 2 (replicate 6 9%Z) 0.

(** One cell in one space dimension (row count 1) with two local dofs. *)
Definition line_G : FMField Z := mkFMField 1 1 1 2 2 [1; 2]%Z 0.
Definition line_vg : VolumeGeometry Z :=
  mkVolumeGeometry line_G (mkFMField 1 1 1 1 1 [1%Z] 0).
Definition line_out_m : FMField Z := mkFMField 1 1 2 2 4 (replicate 4 9%Z) 0.
Definition line_out_s : FMField Z := mkFMField 1 1 1 1 1 [9%Z] 0.

(** Operands of the two actions: a one-column matrix with two rows, and
    result buffers of one level. *)
Definition act_col : FMField Z := mkFMField 1 1 2 1 2 [1; 1]%Z 0.
Definition act_out_col : FMField Z := mkFMField 1 1 2 1 2 [9; 9]%Z 0.
Definition gtg_out : FMField Z := mkFMField 1 1 2 2 4 [9; 9; 9; 9]%Z 0.


(** ** Buffers: slices and block updates *)

(** The last entry of block [a] of [n] blocks of width [m] is in range. *)
Lemma block_bound a b n m : a < n → b ≤ m → a * m + b ≤ n * m.
Proof. nia. Qed.

Section Splice.
Context {A : Type}.
Implicit Types (b l x y : list A) (f g : nat → A).

Lemma length_tab n f : length (tab n f) = n.
Proof. unfold tab. by rewrite length_map, length_seq. Qed.

Lemma lookup_tab n f i : i < n → tab n f !! i = Some (f i).
Proof.
  intros Hi. unfold tab. rewrite list_lookup_fmap, lookup_seq_lt by done. done.
Qed.

Lemma lookup_tab_ge n f i : n ≤ i → tab n f !! i = None.
Proof. intros Hi. apply lookup_ge_None_2. by rewrite length_tab. Qed.

Lemma tab_S n f : tab (S n) f = tab n f ++ [f n].
Proof. unfold tab. by rewrite seq_S, map_app. Qed.

Lemma tab_ext n f g : (∀ i, i < n → f i = g i) → tab n f = tab n g.
Proof.
  intros Hfg. apply list_eq. intros i. destruct (decide (i < n)).
  - rewrite !lookup_tab by done. f_equal. auto.
  - rewrite !lookup_tab_ge by lia. done.
Qed.

Lemma length_sub b base n : base + n ≤ length b → length (sub b base n) = n.
Proof. intros. unfold sub. rewrite length_take, length_drop. lia. Qed.

Lemma lookup_sub b base n k : k < n → sub b base n !! k = b !! (base + k).
Proof. intros. unfold sub. by rewrite lookup_take_lt, lookup_drop. Qed.

Lemma lookup_sub_ge b base n k : n ≤ k → sub b base n !! k = None.
Proof. intros. unfold sub. by rewrite lookup_take_ge. Qed.

Lemma length_splice b base l :
  base + length l ≤ length b → length (splice b base l) = length b.
Proof.
  intros. unfold splice. rewrite !length_app, length_take, length_drop. lia.
Qed.

Lemma lookup_splice_lt b base l j :
  base + length l ≤ length b → j < base → splice b base l !! j = b !! j.
Proof.
  intros. unfold splice.
  rewrite lookup_app_l by (rewrite length_take; lia).
  by rewrite lookup_take_lt.
Qed.

Lemma lookup_splice_in b base l k :
  base + length l ≤ length b → k < length l →
  splice b base l !! (base + k) = l !! k.
Proof.
  intros. unfold splice.
  rewrite lookup_app_r by (rewrite length_take; lia).
  rewrite length_take, lookup_app_l by lia. f_equal. lia.
Qed.

Lemma lookup_splice_at b base l :
  base + length l ≤ length b → 0 < length l →
  splice b base l !! base = l !! 0.
Proof.
  intros. pose proof (lookup_splice_in b base l 0) as Hl.
  rewrite Nat.add_0_r in Hl. by apply Hl.
Qed.

Lemma lookup_splice_ge b base l j :
  base + length l ≤ length b → base + length l ≤ j →
  splice b base l !! j = b !! j.
Proof.
  intros. unfold splice.
  rewrite lookup_app_r by (rewrite length_take; lia).
  rewrite length_take, lookup_app_r by lia.
  rewrite lookup_drop. f_equal. lia.
Qed.

(** Two buffers of one length that agree inside and outside a block are
    equal. *)
Lemma splice_eq b b' base l :
  base + length l ≤ length b →
  length b' = length b →
  (∀ k, k < length l → b' !! (base + k) = l !! k) →
  (∀ j, j < base ∨ base + length l ≤ j → b' !! j = b !! j) →
  b' = splice b base l.
Proof.
  intros Hlen Hlen' Hin Hout. apply list_eq. intros j.
  destruct (decide (j < base)).
  { rewrite lookup_splice_lt by done. auto. }
  destruct (decide (j < base + length l)).
  - replace j with (base + (j - base)) by lia.
    rewrite lookup_splice_in by lia. apply Hin. lia.
  - rewrite lookup_splice_ge by lia. apply Hout. lia.
Qed.

Lemma splice_nil b base : base ≤ length b → splice b base [] = b.
Proof.
  intros. symmetry. apply splice_eq; simpl; try done; try lia.
Qed.

Lemma insert_splice b i v : i < length b → <[i:=v]> b = splice b i [v].
Proof.
  intros. apply splice_eq; simpl; try lia.
  - by rewrite length_insert.
  - intros k Hk. replace (i + k) with i by lia. replace k with 0 by lia.
    by rewrite list_lookup_insert_eq.
  - intros j Hj. rewrite list_lookup_insert_ne by lia. done.
Qed.

Lemma splice_app b base x y :
  base + length x + length y ≤ length b →
  splice (splice b base x) (base + length x) y = splice b base (x ++ y).
Proof.
  intros.
  assert (length (splice b base x) = length b) as Hx
    by (apply length_splice; lia).
  apply splice_eq.
  - rewrite length_app. lia.
  - rewrite length_splice; lia.
  - rewrite length_app. intros k Hk. destruct (decide (k < length x)).
    + rewrite lookup_splice_lt, lookup_splice_in, lookup_app_l by lia. done.
    + replace (base + k) with (base + length x + (k - length x)) by lia.
      rewrite lookup_splice_in, lookup_app_r by lia. done.
  - rewrite length_app. intros j [Hj|Hj].
    + rewrite !lookup_splice_lt by (rewrite ?length_app; lia). done.
    + rewrite !lookup_splice_ge by (rewrite ?length_app; lia). done.
Qed.

Lemma splice_splice b base x y :
  length x = length y → base + length x ≤ length b →
  splice (splice b base x) base y = splice b base y.
Proof.
  intros Hxy ?.
  assert (length (splice b base x) = length b) as Hx
    by (apply length_splice; lia).
  apply splice_eq.
  - lia.
  - rewrite length_splice; lia.
  - intros k Hk. by rewrite lookup_splice_in by lia.
  - intros j [Hj|Hj].
    + rewrite !lookup_splice_lt by lia. done.
    + rewrite !lookup_splice_ge by lia. done.
Qed.

Lemma sub_splice b base l :
  base + length l ≤ length b → sub (splice b base l) base (length l) = l.
Proof.
  intros. apply list_eq. intros k. destruct (decide (k < length l)).
  - rewrite lookup_sub, lookup_splice_in by done. done.
  - rewrite lookup_sub_ge by lia. symmetry. apply lookup_ge_None_2. lia.
Qed.

Lemma sub_splice' b base l n :
  length l = n → base + n ≤ length b → sub (splice b base l) base n = l.
Proof. intros <- ?. by apply sub_splice. Qed.

Lemma sub_splice_ge b base l k n :
  base + length l ≤ length b → base + length l ≤ k →
  sub (splice b base l) k n = sub b k n.
Proof.
  intros. apply list_eq. intros i. destruct (decide (i < n)).
  - rewrite !lookup_sub, lookup_splice_ge by lia. done.
  - rewrite !lookup_sub_ge by lia. done.
Qed.

Lemma sub_sub b base n k m :
  k + m ≤ n → sub (sub b base n) k m = sub b (base + k) m.
Proof.
  intros. apply list_eq. intros i. destruct (decide (i < m)).
  - rewrite !lookup_sub by lia. f_equal. lia.
  - rewrite !lookup_sub_ge by lia. done.
Qed.

Lemma splice_sub b base n : base + n ≤ length b → splice b base (sub b base n) = b.
Proof.
  intros. symmetry. apply splice_eq; rewrite ?length_sub by done; try done.
  intros k Hk. by rewrite lookup_sub.
Qed.

End Splice.

(** ** The result monads *)

Lemma Res_bind_Ok {A B} (a : A) (f : A → Res B) : (Ok a ≫= f) = f a.
Proof. reflexivity. Qed.

Lemma Res_bind_Err {A B} e (f : A → Res B) : (Err e ≫= f) = Err e.
Proof. reflexivity. Qed.

Lemma Res_bind_inv {A B} (m : Res A) (f : A → Res B) r :
  (m ≫= f) = Ok r → ∃ a, m = Ok a ∧ f a = Ok r.
Proof. destruct m as [a|e]; [eauto | discriminate]. Qed.

Lemma M_bind_Ok {A B} (m : M A) (f : A → M B) g a g' :
  m g = Ok (a, g') → (m ≫= f) g = f a g'.
Proof. intros Hm. unfold mbind, M_bind. by rewrite Hm. Qed.

Lemma M_bind_Err {A B} (m : M A) (f : A → M B) g e :
  m g = Err e → (m ≫= f) g = Err e.
Proof. intros Hm. unfold mbind, M_bind. by rewrite Hm. Qed.

Lemma M_bind_congr_l {A B} (m1 m2 : M A) (f : A → M B) g :
  m1 g = m2 g → (m1 ≫= f) g = (m2 ≫= f) g.
Proof. intros Hm. unfold mbind, M_bind. by rewrite Hm. Qed.

Lemma M_bind_assoc {A B C} (m : M A) (f : A → M B) (k : B → M C) g :
  ((m ≫= f) ≫= k) g = (m ≫= (λ a, f a ≫= k)) g.
Proof.
  unfold mbind, M_bind. destruct (m g) as [[a g']|e]; done.
Qed.

Lemma liftR_Ok {A} (r : Res A) a g : r = Ok a → liftR r g = Ok (a, g).
Proof. by intros ->. Qed.

Lemma liftR_Err {A} (r : Res A) e g : r = Err e → liftR r g = Err e.
Proof. by intros ->. Qed.

(** ** Loads, stores and loops *)

Section Loops.
Context {A : Type}.
Implicit Types (b x : list A).

Lemma load_nth b i d : i < length b → load b i = Ok (nth i b d).
Proof.
  intros Hi. unfold load.
  destruct (nth_lookup_or_length b i d) as [-> | ?]; [done | lia].
Qed.

Lemma load_Some b i v : b !! i = Some v → load b i = Ok v.
Proof. unfold load. by intros ->. Qed.

Lemma load_ge b i : length b ≤ i → load b i = Err OutOfBounds.
Proof. intros Hi. unfold load. by rewrite lookup_ge_None_2. Qed.

Lemma store_lt b i v : i < length b → store b i v = Ok (<[i:=v]> b).
Proof. intros Hi. unfold store. by rewrite decide_True. Qed.

Lemma store_ge b i v : length b ≤ i → store b i v = Err OutOfBounds.
Proof. intros Hi. unfold store. rewrite decide_False; [done | lia]. Qed.

Lemma nth_tab n (f : nat → A) i d : i < n → nth i (tab n f) d = f i.
Proof. intros. apply nth_lookup_Some. by apply lookup_tab. Qed.

Lemma nth_sub b base n k d : k < n → nth k (sub b base n) d = nth (base + k) b d.
Proof. intros. by rewrite !nth_lookup, lookup_sub. Qed.

Lemma nth_splice_in b base l k d :
  base + length l ≤ length b → k < length l →
  nth (base + k) (splice b base l) d = nth k l d.
Proof. intros. by rewrite !nth_lookup, lookup_splice_in. Qed.

Lemma nth_splice_lt b base l j d :
  base + length l ≤ length b → j < base →
  nth j (splice b base l) d = nth j b d.
Proof. intros. by rewrite !nth_lookup, lookup_splice_lt. Qed.

Lemma nth_splice_ge b base l j d :
  base + length l ≤ length b → base + length l ≤ j →
  nth j (splice b base l) d = nth j b d.
Proof. intros. by rewrite !nth_lookup, lookup_splice_ge. Qed.

End Loops.

Section ForLoops.
Context {St : Type}.
Implicit Types (body : nat → St → Res St).

Lemma foldR_app body l1 l2 s :
  foldR body (l1 ++ l2) s = (s' ← foldR body l1 s; foldR body l2 s').
Proof.
  revert s. induction l1 as [|i l1 IH]; intros s; simpl; [done|].
  destruct (body i s) as [s1|e]; simpl; [apply IH | done].
Qed.

Lemma for_0 body s : for_ 0 body s = Ok s.
Proof. reflexivity. Qed.

Lemma for_S n body s : for_ (S n) body s = (s' ← for_ n body s; body n s').
Proof.
  unfold for_. rewrite seq_S, foldR_app. simpl.
  destruct (foldR body (seq 0 n) s) as [s1|e]; simpl; [|done].
  by destruct (body n s1).
Qed.

(** A loop whose iterations preserve an invariant and never fault. *)
Lemma for_inv (P : nat → St → Prop) n body s :
  P 0 s →
  (∀ i s, i < n → P i s → ∃ s', body i s = Ok s' ∧ P (S i) s') →
  ∃ s', for_ n body s = Ok s' ∧ P n s'.
Proof.
  intros H0 Hstep. induction n as [|n IH].
  - exists s. by rewrite for_0.
  - destruct IH as (s1 & Hs1 & HP); [intros; apply Hstep; [lia|done]|].
    destruct (Hstep n s1) as (s2 & Hs2 & HP2); [lia|done|].
    exists s2. by rewrite for_S, Hs1, Res_bind_Ok.
Qed.

End ForLoops.

Section BlockLoops.
Context {A : Type}.
Implicit Types (b x : list A) (body : nat → list A → Res (list A)).

Lemma length_concat_tab n w (f : nat → list A) :
  (∀ i, i < n → length (f i) = w) → length (concat (tab n f)) = n * w.
Proof.
  induction n as [|n IH]; intros Hf; [done|].
  rewrite tab_S, concat_app, length_app, IH by (intros; apply Hf; lia).
  simpl. rewrite length_app, Hf by lia. simpl. lia.
Qed.

Lemma lookup_concat_tab n w (f : nat → list A) i k :
  (∀ i, i < n → length (f i) = w) → i < n → k < w →
  concat (tab n f) !! (i * w + k) = f i !! k.
Proof.
  induction n as [|n IH]; intros Hf Hi Hk; [lia|].
  rewrite tab_S, concat_app. simpl. rewrite app_nil_r.
  assert (length (concat (tab n f)) = n * w) as Hlen
    by (apply length_concat_tab; intros; apply Hf; lia).
  destruct (decide (i = n)) as [->|].
  - rewrite lookup_app_r by lia. f_equal. lia.
  - rewrite lookup_app_l by nia. apply IH; [intros; apply Hf| |]; lia.
Qed.

Lemma tab_add n m (f : nat → A) :
  tab (n + m) f = tab n f ++ tab m (λ j, f (n + j)).
Proof.
  apply list_eq. intros i. destruct (decide (i < n)).
  - rewrite lookup_app_l by (rewrite length_tab; lia).
    by rewrite !lookup_tab by lia.
  - rewrite lookup_app_r by (rewrite length_tab; lia). rewrite length_tab.
    destruct (decide (i < n + m)).
    + rewrite !lookup_tab by lia. do 2 f_equal. lia.
    + by rewrite !lookup_tab_ge by lia.
Qed.

(** A row-major matrix is the concatenation of its rows. *)
Lemma tab_concat n m (f : nat → A) (g : nat → nat → A) :
  (∀ i j, i < n → j < m → f (i * m + j) = g i j) →
  tab (n * m) f = concat (tab n (λ i, tab m (g i))).
Proof.
  induction n as [|n IH]; intros Hfg; [done|].
  rewrite tab_S, concat_app. simpl. rewrite app_nil_r.
  replace (m + n * m) with (n * m + m) by lia.
  rewrite tab_add, IH by (intros; apply Hfg; lia).
  f_equal. apply tab_ext. intros j Hj. apply Hfg; lia.
Qed.

(** A loop whose iteration [i] rewrites the [i]-th block of width [w]. *)
Lemma for_blocks w n base body (g : nat → list A → list A) b0 :
  base + n * w ≤ length b0 →
  (∀ i x, i < n → length x = w → length (g i x) = w) →
  (∀ i b, i < n → length b = length b0 →
     body i b = Ok (splice b (base + i * w) (g i (sub b (base + i * w) w)))) →
  for_ n body b0
  = Ok (splice b0 base (concat (tab n (λ i, g i (sub b0 (base + i * w) w))))).
Proof.
  induction n as [|n IH]; intros Hlen Hg Hbody.
  - rewrite for_0. f_equal. symmetry. apply splice_nil. lia.
  - set (f := λ i, g i (sub b0 (base + i * w) w)).
    assert (∀ i, i < S n → length (f i) = w) as Hf.
    { intros i Hi. apply Hg; [done|]. apply length_sub. nia. }
    assert (length (concat (tab n f)) = n * w) as HX
      by (apply length_concat_tab; intros; apply Hf; lia).
    rewrite for_S, IH, Res_bind_Ok; [|nia|intros; apply Hg; [lia|done]
                                     |intros; apply Hbody; [lia|done]].
    fold f.
    rewrite Hbody by (rewrite ?length_splice; lia).
    rewrite sub_splice_ge by lia. fold (f n).
    f_equal. rewrite tab_S, concat_app. simpl. rewrite app_nil_r.
    rewrite <-HX at 1. apply splice_app. rewrite HX, Hf by lia. nia.
Qed.

(** A loop whose every iteration rewrites the same block of width [w]. *)
Lemma for_iter w n base body (g : nat → list A → list A) b0 :
  base + w ≤ length b0 →
  (∀ i x, i < n → length x = w → length (g i x) = w) →
  (∀ i b, i < n → length b = length b0 →
     body i b = Ok (splice b base (g i (sub b base w)))) →
  for_ n body b0
  = Ok (splice b0 base (fold_left (λ x i, g i x) (seq 0 n) (sub b0 base w)))
  ∧ length (fold_left (λ x i, g i x) (seq 0 n) (sub b0 base w)) = w.
Proof.
  induction n as [|n IH]; intros Hlen Hg Hbody.
  - rewrite for_0. simpl. rewrite splice_sub, length_sub by done. done.
  - destruct IH as [IH HX]; [done|intros; apply Hg; [lia|done]
                            |intros; apply Hbody; [lia|done]|].
    rewrite seq_S, fold_left_app. simpl.
    set (X := fold_left (λ x i, g i x) (seq 0 n) (sub b0 base w)) in *.
    rewrite for_S, IH, Res_bind_Ok.
    rewrite Hbody by (rewrite ?length_splice; lia).
    assert (sub (splice b0 base X) base w = X) as ->
      by (rewrite <-HX; apply sub_splice; lia).
    rewrite splice_splice by (rewrite ?Hg; lia).
    split; [done|]. apply Hg; [lia|done].
Qed.

(** A loop whose iteration [i] rewrites the single entry [base + i]. *)
Lemma for_points n base body (h : nat → A → A) b0 d :
  base + n ≤ length b0 →
  (∀ i b, i < n → length b = length b0 →
     body i b = Ok (<[base + i := h i (nth (base + i) b d)]> b)) →
  for_ n body b0 = Ok (splice b0 base (tab n (λ i, h i (nth (base + i) b0 d)))).
Proof.
  induction n as [|n IH]; intros Hlen Hbody.
  - rewrite for_0. f_equal. symmetry. apply splice_nil. lia.
  - rewrite for_S, IH, Res_bind_Ok by (try lia; intros; apply Hbody; lia).
    set (X := tab n (λ i, h i (nth (base + i) b0 d))).
    assert (length X = n) as HX by apply length_tab.
    rewrite Hbody by (rewrite ?length_splice; lia).
    rewrite nth_splice_ge by lia.
    rewrite insert_splice by (rewrite length_splice; lia).
    f_equal. rewrite tab_S. fold X. rewrite <-HX at 1.
    apply splice_app. simpl. lia.
Qed.

End BlockLoops.

(** ** Specifications of the FMField primitives *)

Section Rd.
Context {F : Type} `{Scalar F}.
Implicit Types (b : list F).

Lemma load_rd b i : i < length b → load b i = Ok (rd b i).
Proof. apply load_nth. Qed.

Lemma bind_load {B} b i (f : F → Res B) :
  i < length b → (load b i ≫= f) = f (rd b i).
Proof. intros Hi. by rewrite load_rd. Qed.

Lemma rd_tab n (f : nat → F) i : i < n → rd (tab n f) i = f i.
Proof. apply nth_tab. Qed.

Lemma lookup_rd b i : i < length b → b !! i = Some (rd b i).
Proof.
  intros Hi. unfold rd.
  destruct (nth_lookup_or_length b i f0) as [-> | ?]; [done | lia].
Qed.

Lemma rd_lookup b i v : b !! i = Some v → rd b i = v.
Proof. apply nth_lookup_Some. Qed.

Lemma tab_const n (v : F) : tab n (λ _, v) = replicate n v.
Proof.
  apply list_eq. intros i. destruct (decide (i < n)).
  - by rewrite lookup_tab, lookup_replicate_2.
  - rewrite lookup_tab_ge by lia. symmetry. apply lookup_replicate_None. lia.
Qed.

Lemma fold_left_seq_ext {B} (f g : B → nat → B) k n a :
  (∀ i acc, k ≤ i < k + n → f acc i = g acc i) →
  fold_left f (seq k n) a = fold_left g (seq k n) a.
Proof.
  revert k a. induction n as [|n IH]; intros k a Hfg; [done|].
  simpl. rewrite Hfg by lia. apply IH. intros. apply Hfg. lia.
Qed.

(** Folding pointwise updates of a block is the block of the folds. *)
Lemma fold_left_tab w (step : nat → nat → F → F) l (x : list F) :
  length x = w →
  fold_left (λ x il, tab w (λ i, step il i (rd x i))) l x
  = tab w (λ i, fold_left (λ acc il, step il i acc) l (rd x i)).
Proof.
  revert x. induction l as [|il l IH]; intros x Hx; simpl.
  - apply list_eq. intros i. destruct (decide (i < w)).
    + rewrite lookup_tab by done. apply lookup_rd. lia.
    + rewrite lookup_tab_ge by lia. apply lookup_ge_None_2. lia.
  - rewrite IH by apply length_tab. apply tab_ext. intros i Hi.
    by rewrite rd_tab.
Qed.

(** The accumulation [p[idx] += t k] for [k < n]. *)
Lemma for_acc n idx (body : nat → list F → Res (list F)) (t : nat → F) b :
  idx < length b →
  (∀ k b', k < n → length b' = length b →
     body k b' = Ok (<[idx := fadd (rd b' idx) (t k)]> b')) →
  for_ n body b
  = Ok (<[idx := fold_left (λ acc k, fadd acc (t k)) (seq 0 n) (rd b idx)]> b).
Proof.
  intros Hidx Hbody. induction n as [|n IH].
  - rewrite for_0. simpl. f_equal. symmetry. apply list_insert_id.
    by apply lookup_rd.
  - rewrite for_S, IH, Res_bind_Ok by (intros; apply Hbody; lia).
    rewrite Hbody by (rewrite ?length_insert; lia).
    rewrite list_insert_insert_eq. f_equal. f_equal.
    rewrite seq_S, fold_left_app. simpl. f_equal.
    apply rd_lookup. by rewrite list_lookup_insert_eq.
Qed.

Lemma rd_sub b base n k : k < n → rd (sub b base n) k = rd b (base + k).
Proof. apply nth_sub. Qed.

Lemma rd_splice_in b base l k :
  base + length l ≤ length b → k < length l →
  rd (splice b base l) (base + k) = rd l k.
Proof. apply nth_splice_in. Qed.

Lemma rd_splice_lt b base l j :
  base + length l ≤ length b → j < base → rd (splice b base l) j = rd b j.
Proof. apply nth_splice_lt. Qed.

Lemma rd_splice_ge b base l j :
  base + length l ≤ length b → base + length l ≤ j →
  rd (splice b base l) j = rd b j.
Proof. apply nth_splice_ge. Qed.

Lemma for_points_rd n base (body : nat → list F → Res (list F))
    (h : nat → F → F) b0 :
  base + n ≤ length b0 →
  (∀ i b, i < n → length b = length b0 →
     body i b = Ok (<[base + i := h i (rd b (base + i))]> b)) →
  for_ n body b0 = Ok (splice b0 base (tab n (λ i, h i (rd b0 (base + i))))).
Proof. apply for_points. Qed.

End Rd.

(** Resolve the load at the head of the goal, given that it is in range. *)
Ltac step_load tac :=
  match goal with
  | |- (load ?b ?i ≫= ?f) = _ => rewrite (bind_load b i f) by tac
  end.

(** Equality of two scalar expressions of one shape, up to index arithmetic. *)
Ltac scalar_eq :=
  repeat match goal with
         | |- fadd _ _ = fadd _ _ => f_equal
         | |- fmul _ _ = fmul _ _ => f_equal
         | |- rd _ _ = rd _ _ => f_equal
         end;
  try done; try lia.

Section PrimSpecs.
Context {F : Type} `{Scalar F}.
Implicit Types (b : list F) (obj : FMField F).

Lemma fmf_fillC_spec obj v :
  val obj + nLev obj * nRow obj * nCol obj ≤ length (val0 obj) →
  fmf_fillC obj v
  = Ok (set_val0 obj (splice (val0 obj) (val obj)
          (replicate (nLev obj * nRow obj * nCol obj) v))).
Proof.
  intros Hlen. unfold fmf_fillC.
  rewrite (for_points_rd _ (val obj) _ (λ _ _, v)), Res_bind_Ok.
  - by rewrite tab_const.
  - done.
  - intros i b Hi Hb. apply store_lt. lia.
Qed.

Lemma fmf_mulC_spec obj v :
  val obj + nLev obj * nRow obj * nCol obj ≤ length (val0 obj) →
  fmf_mulC obj v
  = Ok (set_val0 obj (splice (val0 obj) (val obj)
          (tab (nLev obj * nRow obj * nCol obj)
             (λ i, fmul (rd (val0 obj) (val obj + i)) v)))).
Proof.
  intros Hlen. unfold fmf_mulC.
  rewrite (for_points_rd _ (val obj) _ (λ _ x, fmul x v)), Res_bind_Ok; [done..|].
  intros i b Hi Hb. step_load lia. apply store_lt. lia.
Qed.

Lemma fmf_mulAF_self_spec obj (v : list F * nat) :
  val obj + nLev obj * (nRow obj * nCol obj) ≤ length (val0 obj) →
  v.2 + nLev obj ≤ length v.1 →
  fmf_mulAF_self obj v
  = Ok (set_val0 obj (splice (val0 obj) (val obj)
          (concat (tab (nLev obj) (λ il,
             tab (nRow obj * nCol obj) (λ i,
               fmul (rd (val0 obj) (val obj + il * (nRow obj * nCol obj) + i))
                    (rd v.1 (v.2 + il)))))))).
Proof.
  intros Hlen Hv. unfold fmf_mulAF_self.
  set (w := nRow obj * nCol obj) in *.
  rewrite (for_blocks w (nLev obj) (val obj) _
             (λ il x, tab w (λ i, fmul (rd x i) (rd v.1 (v.2 + il))))),
    Res_bind_Ok.
  - f_equal. f_equal. f_equal. f_equal. apply tab_ext. intros il Hil.
    apply tab_ext. intros i Hi. by rewrite rd_sub.
  - lia.
  - intros. apply length_tab.
  - intros il b Hil Hb.
    replace (val obj + nCol obj * nRow obj * il) with (val obj + il * w)
      by (unfold w; lia).
    rewrite (for_points_rd _ (val obj + il * w) _
               (λ _ x, fmul x (rd v.1 (v.2 + il)))).
    + f_equal. f_equal. apply tab_ext. intros i Hi. by rewrite rd_sub.
    + nia.
    + intros i b' Hi Hb'.
      step_load nia. step_load lia. apply store_lt. nia.
Qed.

Lemma fmf_sumLevelsMulF_spec objR objA (v : list F * nat) :
  val objR + nRow objR * nCol objR ≤ length (val0 objR) →
  (∀ il i, il < nLev objA → i < nRow objR * nCol objR →
     val objA + nCol objA * nRow objA * il + i < length (val0 objA)) →
  v.2 + nLev objA ≤ length v.1 →
  fmf_sumLevelsMulF objR objA v
  = Ok (set_val0 objR (splice (val0 objR) (val objR)
          (tab (nRow objR * nCol objR) (λ i,
             fold_left (λ acc il,
                 fadd acc (fmul (rd (val0 objA)
                                   (val objA + nCol objA * nRow objA * il + i))
                                (rd v.1 (v.2 + il))))
               (seq 0 (nLev objA)) f0)))).
Proof.
  intros Hlen HA Hv. unfold fmf_sumLevelsMulF.
  set (w := nRow objR * nCol objR) in *.
  rewrite (for_points_rd _ (val objR) _ (λ _ _, f0)), Res_bind_Ok, tab_const;
    [|done|intros; apply store_lt; lia].
  set (b1 := splice (val0 objR) (val objR) (replicate w f0)).
  assert (length b1 = length (val0 objR)) as Hb1
    by (apply length_splice; rewrite length_replicate; lia).
  set (step := λ il i acc,
         fadd acc (fmul (rd (val0 objA) (val objA + nCol objA * nRow objA * il + i))
                        (rd v.1 (v.2 + il)))).
  destruct (for_iter w (nLev objA) (val objR)
              (λ il b, for_ w (λ i b,
                 x ← load b (val objR + i);
                 a ← load (val0 objA) (val objA + nCol objA * nRow objA * il + i);
                 w0 ← load v.1 (v.2 + il);
                 store b (val objR + i) (fadd x (fmul a w0))) b)
              (λ il x, tab w (λ i, step il i (rd x i))) b1) as [Hit _].
  - lia.
  - intros. apply length_tab.
  - intros il b Hil Hb.
    rewrite (for_points_rd _ (val objR) _ (λ i x, step il i x)).
    + f_equal. f_equal. apply tab_ext. intros i Hi. by rewrite rd_sub.
    + lia.
    + intros i b' Hi Hb'.
      step_load lia. step_load ltac:(by apply HA). step_load lia.
      apply store_lt. lia.
  - rewrite Hit, Res_bind_Ok. f_equal. f_equal.
    rewrite fold_left_tab by (apply length_sub; lia).
    unfold b1. rewrite sub_splice' by (rewrite ?length_replicate; lia).
    rewrite splice_splice by (rewrite ?length_tab, ?length_replicate; lia).
    f_equal. apply tab_ext. intros i Hi.
    f_equal. apply rd_lookup. by apply lookup_replicate_2.
Qed.

End PrimSpecs.

(** ** Specification of [fmf_product] *)

Section ProductSpec.
Context {F : Type} `{Scalar F}.
Implicit Types (objR objA objB : FMField F).

Lemma length_product_block tA tB objR objA objB :
  length (product_block tA tB objR objA objB)
  = nLev objR * (nRow objR * nCol objR).
Proof.
  apply length_concat_tab. intros. apply length_concat_tab. intros.
  apply length_tab.
Qed.

Lemma lookup_product_block tA tB objR objA objB il ir ic :
  il < nLev objR → ir < nRow objR → ic < nCol objR →
  product_block tA tB objR objA objB
    !! (il * (nRow objR * nCol objR) + ir * nCol objR + ic)
  = Some (product_entry tA tB objR objA objB il ir ic).
Proof.
  intros. unfold product_block. rewrite <-Nat.add_assoc.
  rewrite (lookup_concat_tab _ (nRow objR * nCol objR)); [| |done|nia].
  - rewrite (lookup_concat_tab _ (nCol objR)); [| |done|done].
    + by apply lookup_tab.
    + intros. apply length_tab.
  - intros. apply length_concat_tab. intros. apply length_tab.
Qed.

Lemma fmf_product_spec tA tB objR objA objB :
  product_ok tA tB objR objA objB →
  fmf_product tA tB objR objA objB
  = Ok (set_val0 objR (splice (val0 objR) (val objR)
                         (product_block tA tB objR objA objB))).
Proof.
  intros (Hshape & HR & HA & HB). unfold fmf_product.
  rewrite decide_True by done. destruct Hshape as (HrA & HcB & Hin).
  set (nL := nLev objR) in *. set (nR := nRow objR) in *.
  set (nC := nCol objR) in *.
  rewrite (for_blocks (nR * nC) nL (val objR) _
             (λ il _, concat (tab nR (λ ir, tab nC (λ ic,
                product_entry tA tB objR objA objB il ir ic))))).
  - done.
  - lia.
  - intros. apply length_concat_tab. intros. apply length_tab.
  - intros il b Hil Hb.
    assert (il * (nR * nC) + nR * nC ≤ nL * (nR * nC)) as Hlev
      by (by apply block_bound).
    replace (val objR + nC * nR * il) with (val objR + il * (nR * nC)) by lia.
    rewrite (for_blocks nC nR (val objR + il * (nR * nC)) _
               (λ ir _, tab nC (λ ic,
                  product_entry tA tB objR objA objB il ir ic))).
    + done.
    + lia.
    + intros. apply length_tab.
    + intros ir b' Hir Hb'.
      assert (nC * ir + nC ≤ nR * nC) as Hrow by nia.
      replace (val objR + il * (nR * nC) + ir * nC)
        with (val objR + il * (nR * nC) + nC * ir) by lia.
      rewrite (for_points_rd _ (val objR + il * (nR * nC) + nC * ir) _
                 (λ ic _, product_entry tA tB objR objA objB il ir ic)).
      * done.
      * lia.
      * intros ic b'' Hic Hb''.
        set (idx := val objR + il * (nR * nC) + nC * ir + ic).
        assert (idx < length b'') as Hidx by (unfold idx; lia).
        rewrite store_lt, Res_bind_Ok by done.
        rewrite (for_acc _ idx _ (λ ik,
          fmul (rd (val0 objA)
                  (level_slice objA nL il
                   + (if tA then nCol objA * ik + ir else nCol objA * ir + ik)))
               (rd (val0 objB)
                  (level_slice objB nL il
                   + (if tB then nCol objB * ic + ik else nCol objB * ik + ic))))).
        -- rewrite list_insert_insert_eq. f_equal. f_equal.
           unfold product_entry. fold nL. f_equal.
           apply rd_lookup. by rewrite list_lookup_insert_eq.
        -- by rewrite length_insert.
        -- intros ik c Hik Hc. rewrite length_insert in Hc.
           specialize (HA il Hil). specialize (HB il Hil).
           step_load lia.
           step_load ltac:(destruct tA, tB; nia).
           step_load ltac:(destruct tA, tB; nia).
           apply store_lt. lia.
Qed.

End ProductSpec.

(** ** Specification of the kernel builder [laplace_build_gtg] *)

Lemma bind_liftR_Ok {A B} (r : Res A) (f : A → M B) a g :
  r = Ok a → (liftR r ≫= f) g = f a g.
Proof. intros ->. reflexivity. Qed.

Lemma bind_liftR_Err {A B} (r : Res A) (f : A → M B) e g :
  r = Err e → (liftR r ≫= f) g = Err e.
Proof. intros ->. reflexivity. Qed.

Section GtgSpec.
Context {F : Type} `{Scalar F}.
Implicit Types (out gc : FMField F).

Lemma length_gtg_block gc :
  length (gtg_block gc) = nLev gc * (nCol gc * nCol gc).
Proof.
  apply length_concat_tab. intros. apply length_concat_tab. intros.
  apply length_tab.
Qed.

Lemma lookup_gtg_block gc iqp ir ic :
  iqp < nLev gc → ir < nCol gc → ic < nCol gc →
  gtg_block gc !! (iqp * (nCol gc * nCol gc) + ir * nCol gc + ic)
  = Some (gtg_entry gc iqp ir ic).
Proof.
  intros. unfold gtg_block. rewrite <-Nat.add_assoc.
  rewrite (lookup_concat_tab _ (nCol gc * nCol gc)); [| |done|nia].
  - rewrite (lookup_concat_tab _ (nCol gc)); [| |done|done].
    + by apply lookup_tab.
    + intros. apply length_tab.
  - intros. apply length_concat_tab. intros. apply length_tab.
Qed.

Lemma laplace_build_gtg_spec out gc g :
  nRow gc = 2 ∨ nRow gc = 3 →
  nRow out = nCol gc → nCol out = nCol gc → nLev out = nLev gc →
  val gc + nLev gc * (nRow gc * nCol gc) ≤ length (val0 gc) →
  val out + nLev gc * (nCol gc * nCol gc) ≤ length (val0 out) →
  laplace_build_gtg out gc g
  = Ok ((RET_OK, set_val0 out (splice (val0 out) (val out) (gtg_block gc))), g).
Proof.
  intros Hdim HoR HoC HoL Hgc Hout. unfold laplace_build_gtg.
  set (nEP := nCol gc) in *. set (nQP := nLev gc) in *.
  erewrite bind_liftR_Ok
    by (apply fmf_fillC_spec; rewrite HoR, HoC, HoL; lia).
  set (b1 := splice (val0 out) (val out) _).
  assert (length b1 = length (val0 out)) as Hb1.
  { apply length_splice. rewrite length_replicate, HoR, HoC, HoL. lia. }
  assert (∀ body : nat → nat → nat → list F → Res (list F),
    (∀ iqp ir ic b, iqp < nQP → ir < nEP → ic < nEP →
       length b = length b1 →
       body iqp ir ic b
       = Ok (<[val out + iqp * (nEP * nEP) + ir * nEP + ic
               := gtg_entry gc iqp ir ic]> b)) →
    for_ nQP (λ iqp b, for_ nEP (λ ir b, for_ nEP (λ ic b, body iqp ir ic b) b) b) b1
    = Ok (splice (val0 out) (val out) (gtg_block gc))) as Hloops.
  { intros body Hbody.
    rewrite (for_blocks (nEP * nEP) nQP (val out) _
               (λ iqp _, concat (tab nEP (λ ir, tab nEP (λ ic, gtg_entry gc iqp ir ic))))).
    - fold (gtg_block gc). unfold b1. apply f_equal, splice_splice.
      + rewrite length_replicate, length_gtg_block, HoR, HoC, HoL.
        unfold nEP, nQP. lia.
      + rewrite length_replicate, HoR, HoC, HoL. lia.
    - lia.
    - intros. apply length_concat_tab. intros. apply length_tab.
    - intros iqp b Hiqp Hb.
      rewrite (for_blocks nEP nEP (val out + iqp * (nEP * nEP)) _
                 (λ ir _, tab nEP (λ ic, gtg_entry gc iqp ir ic))).
      + done.
      + nia.
      + intros. apply length_tab.
      + intros ir b' Hir Hb'.
        rewrite (for_points_rd _ (val out + iqp * (nEP * nEP) + ir * nEP) _
                   (λ ic _, gtg_entry gc iqp ir ic)).
        * done.
        * nia.
        * intros ic b'' Hic Hb''. apply Hbody; [done..|lia]. }
  assert (∀ iqp d i, iqp < nQP → d < nRow gc → i < nEP →
            FMF_PtrLevel gc iqp + d * nEP + i < length (val0 gc)) as Hin.
  { intros iqp d i Hq Hd Hi. unfold FMF_PtrLevel. fold nEP. nia. }
  destruct Hdim as [Hd|Hd]; rewrite Hd in *.
  - erewrite bind_liftR_Ok; [reflexivity|]. simpl val0. simpl val.
    apply Hloops. intros iqp ir ic b Hq Hr Hc Hb.
    pose proof (Hin iqp 0 ir Hq). pose proof (Hin iqp 0 ic Hq).
    pose proof (Hin iqp 1 ir Hq). pose proof (Hin iqp 1 ic Hq).
    repeat step_load lia.
    rewrite store_lt by (unfold FMF_PtrLevel; simpl; rewrite HoR, HoC; nia).
    unfold gtg_entry, G_entry. rewrite Hd. fold nEP.
    f_equal. f_equal; [unfold FMF_PtrLevel; simpl; rewrite HoR, HoC; lia|].
    scalar_eq.
  - erewrite bind_liftR_Ok; [reflexivity|]. simpl val0. simpl val.
    apply Hloops. intros iqp ir ic b Hq Hr Hc Hb.
    pose proof (Hin iqp 0 ir Hq). pose proof (Hin iqp 0 ic Hq).
    pose proof (Hin iqp 1 ir Hq). pose proof (Hin iqp 1 ic Hq).
    pose proof (Hin iqp 2 ir Hq). pose proof (Hin iqp 2 ic Hq).
    repeat step_load lia.
    rewrite store_lt by (unfold FMF_PtrLevel; simpl; rewrite HoR, HoC; nia).
    unfold gtg_entry, G_entry. rewrite Hd. fold nEP.
    f_equal. f_equal; [unfold FMF_PtrLevel; simpl; rewrite HoR, HoC; lia|].
    scalar_eq.
Qed.

End GtgSpec.

(** ** The cell loop *)

Lemma cell_loop_inv {St} (P : nat → St → Prop) (body : nat → St → M St) n k s :
  P k s →
  (∀ i s, k ≤ i < k + n → P i s →
     ∃ s', body i s false = Ok (s', false) ∧ P (S i) s') →
  ∃ s', cell_loop body (seq k n) s false = Ok ((RET_OK, s'), false) ∧ P (k + n) s'.
Proof.
  revert k s. induction n as [|n IH]; intros k s HP Hstep.
  - exists s. rewrite Nat.add_0_r. done.
  - destruct (Hstep k s) as (s1 & Hs1 & HP1); [lia|done|].
    destruct (IH (S k) s1) as (s2 & Hs2 & HP2); [done| |].
    { intros i s' Hi. apply Hstep. lia. }
    exists s2. split; [|by replace (k + S n) with (S k + n) by lia].
    simpl. erewrite M_bind_Ok by exact Hs1. done.
Qed.

(** ** dw_laplace in matrix mode *)

Section LaplaceSpec.
Context {F : Type} `{Scalar F}.
Implicit Types (out grad coef : FMField F) (vg : VolumeGeometry F).

Lemma splice_full {A} (b l : list A) : length l = length b → splice b 0 l = l.
Proof.
  intros Hl. unfold splice. simpl. rewrite drop_ge by lia. apply app_nil_r.
Qed.

Lemma dw_laplace_cell_spec out grad coef vg isDiff ii o gtg gtgu :
  isDiff ≠ 0%Z →
  dw_laplace_valid out coef vg →
  ii < nCell out →
  same_shape o out →
  nLev gtg = nLev (bfGM vg) → nRow gtg = nCol (bfGM vg) →
  nCol gtg = nCol (bfGM vg) → val gtg = 0 →
  length (val0 gtg) = nLev (bfGM vg) * (nCol (bfGM vg) * nCol (bfGM vg)) →
  ∃ bg, length bg = length (val0 gtg) ∧
  dw_laplace_cell grad coef vg isDiff ii (o, (gtg, gtgu)) false
  = Ok ((set_val0 (FMF_SetCell o ii)
           (splice (val0 o) (ii * cellSize out)
              (concat (tab (nCol (bfGM vg)) (λ i, tab (nCol (bfGM vg)) (λ j,
                 laplace_mtx_entry coef vg ii i j))))),
         (set_val0 gtg bg, gtgu)), false).
Proof.
  intros HD (Hdim & [HGcs HGlen] & HGn & [Hdcs Hdlen] & HdL & HdR & HdC & Hdn
             & ([Hccs Hclen] & HcL & HcR & HcC & Hcn)
             & [Hocs Holen] & HoL & HoR & HoC)
         Hii (So1 & So2 & So3 & So4 & So5 & So6) HgL HgR HgC Hgv Hglen.
  set (G := bfGM vg) in *. set (nQP := nLev G) in *. set (nEP := nCol G) in *.
  set (gc := FMF_SetCell G ii).
  set (cf := FMF_SetCell_bcast coef ii).
  set (dt := FMF_SetCell (det vg) ii).
  set (w := nEP * nEP).
  assert (val gc + nQP * (nRow G * nEP) ≤ length (val0 G)) as Hgcin.
  { unfold gc. simpl. rewrite HGlen, HGcs. fold nQP nEP. nia. }
  assert (val cf + nQP ≤ length (val0 cf)) as Hcfin.
  { unfold cf, FMF_SetCell_bcast. destruct (decide (1 < nCell coef)).
    - simpl. rewrite Hclen, Hccs, HcL, HcR, HcC. nia.
    - done. }
  assert (val dt + nQP ≤ length (val0 dt)) as Hdtin.
  { unfold dt. simpl. rewrite Hdlen, Hdcs, HdL, HdR, HdC. nia. }
  assert (cellSize out = w) as Hcs by (rewrite Hocs, HoL, HoR, HoC; unfold w; lia).
  assert (ii * w + w ≤ length (val0 o)) as Hoin by (rewrite So6, Holen, Hcs; nia).
  unfold dw_laplace_cell. rewrite decide_True by done.
  fold G gc cf dt.
  destruct gtg as [gn gl gr gcol gcs gb gv]. simpl in HgL, HgR, HgC, Hgv, Hglen.
  subst gl gr gcol gv.
  erewrite M_bind_Ok; cycle 1.
  { apply laplace_build_gtg_spec; unfold gc; simpl; fold G nQP nEP; try done.
    rewrite Hglen. done. }
  simpl.
  rewrite splice_full by (rewrite length_gtg_block; done).
  erewrite bind_liftR_Ok; cycle 1.
  { apply fmf_mulAF_self_spec; simpl.
    - rewrite length_gtg_block. done.
    - done. }
  simpl. fold w.
  set (B2 := splice (gtg_block gc) 0 _).
  assert (length B2 = nQP * w) as HB2.
  { unfold B2. rewrite length_splice; [apply length_gtg_block|].
    rewrite (length_concat_tab _ w), length_gtg_block; [done|].
    intros. apply length_tab. }
  assert (∀ il k, il < nQP → k < w →
            rd B2 (nEP * nEP * il + k)
            = fmul (rd (gtg_block gc) (il * w + k)) (rd (val0 cf) (val cf + il)))
    as HB2rd.
  { intros il k Hil Hk. apply rd_lookup. unfold B2.
    rewrite splice_full.
    - fold w. replace (w * il + k) with (il * w + k) by lia.
      rewrite (lookup_concat_tab _ w); [|intros; apply length_tab|done|done].
      rewrite lookup_tab by done. simpl. done.
    - rewrite (length_concat_tab _ w), length_gtg_block; [done|].
      intros. apply length_tab. }
  erewrite bind_liftR_Ok; cycle 1.
  { apply fmf_sumLevelsMulF_spec; simpl.
    - rewrite So3, So4, So5, HoR, HoC, Hcs. fold w. lia.
    - rewrite So3, So4, HoR, HoC. fold nQP nEP w.
      intros il i Hil Hi. rewrite HB2. nia.
    - done. }
  simpl. exists B2. split; [by rewrite HB2, Hglen|].
  unfold mret, M_ret. do 3 f_equal. unfold set_val0. simpl.
  f_equal. rewrite So5. f_equal.
  rewrite So3, So4, HoR, HoC. fold nQP nEP w.
  f_equal. unfold w. apply tab_concat. intros i j Hi Hj.
  unfold laplace_mtx_entry. fold G gc cf dt nQP.
  apply fold_left_seq_ext. intros il acc Hil. f_equal.
  replace (nEP * nEP * il + (i * nEP + j)) with (w * il + (i * nEP + j)) by done.
  fold w. rewrite HB2rd by (unfold w; nia). f_equal. f_equal.
  apply rd_lookup. rewrite Nat.add_assoc.
  apply (lookup_gtg_block gc); [unfold gc; simpl; fold G nQP; lia|done..].
Qed.

End LaplaceSpec.

Section LaplaceMatrix.
Context {F : Type} `{Scalar F}.
Implicit Types (out grad coef : FMField F) (vg : VolumeGeometry F).

(** The matrix mode of [dw_laplace] on well-formed inputs: the call
    succeeds and every entry of every cell holds [laplace_mtx_entry]. *)
Lemma dw_laplace_matrix_spec out grad coef vg isDiff :
  isDiff ≠ 0%Z →
  dw_laplace_valid out coef vg →
  ∃ out',
    dw_laplace out grad coef vg isDiff false = Ok ((RET_OK, out'), false)
    ∧ same_shape out' out
    ∧ ∀ ii i j, ii < nCell out → i < nCol (bfGM vg) → j < nCol (bfGM vg) →
        val0 out' !! (ii * cellSize out + i * nCol (bfGM vg) + j)
        = Some (laplace_mtx_entry coef vg ii i j).
Proof.
  intros HD Hvalid.
  set (nEP := nCol (bfGM vg)). set (nQP := nLev (bfGM vg)).
  assert (cellSize out = nEP * nEP) as Hcs.
  { destruct Hvalid as (_ & _ & _ & _ & _ & _ & _ & _ & _ & [Hocs _] & HoL & HoR & HoC).
    rewrite Hocs, HoL, HoR, HoC. fold nEP. lia. }
  assert (length (val0 out) = nCell out * cellSize out) as Holen.
  { by destruct Hvalid as (_ & _ & _ & _ & _ & _ & _ & _ & _ & [_ ?] & _). }
  set (P := λ (k : nat) (s : FMField F * (FMField F * FMField F)),
         let '(o, (gtg, gtgu)) := s in
         same_shape o out
         ∧ (nLev gtg = nQP ∧ nRow gtg = nEP ∧ nCol gtg = nEP ∧ val gtg = 0
            ∧ length (val0 gtg) = nQP * (nEP * nEP))
         ∧ ∀ ii i j, ii < k → i < nEP → j < nEP →
             val0 o !! (ii * cellSize out + i * nEP + j)
             = Some (laplace_mtx_entry coef vg ii i j)).
  destruct (cell_loop_inv P (dw_laplace_cell grad coef vg isDiff) (nCell out) 0
              (out, (fmf_createAlloc 1 nQP nEP nEP, fmf_null)))
    as ([o [gtg gtgu]] & Hrun & Ho & _ & Hent).
  - unfold P. split; [done|]. split; [|intros; lia].
    simpl. rewrite length_replicate. repeat split; lia.
  - intros ii [o [gtg gtgu]] Hii (Ho & (HgL & HgR & HgC & Hgv & Hglen) & Hent).
    destruct (dw_laplace_cell_spec out grad coef vg isDiff ii o gtg gtgu)
      as (bg & Hbg & Hcell); try done; try lia.
    unfold P. clear P. unfold nEP, nQP in *. clear nEP nQP.
    eexists. split; [exact Hcell|].
    destruct Ho as (So1 & So2 & So3 & So4 & So5 & So6).
    assert (length (concat (tab (nCol (bfGM vg)) (λ i, tab (nCol (bfGM vg)) (λ j,
              laplace_mtx_entry coef vg ii i j))))
            = nCol (bfGM vg) * nCol (bfGM vg)) as HT.
    { apply length_concat_tab. intros. apply length_tab. }
    assert (ii * cellSize out + nCol (bfGM vg) * nCol (bfGM vg) ≤ length (val0 o))
      as Hin by (rewrite So6, Holen, Hcs; nia).
    simpl. split; [|split].
    + unfold same_shape. simpl. rewrite length_splice by (rewrite HT; done).
      done.
    + simpl. repeat split; try done. lia.
    + intros ii' i j Hii' Hi Hj. destruct (decide (ii' = ii)) as [->|Hne].
      * rewrite <-Nat.add_assoc, lookup_splice_in by (rewrite HT; nia).
        rewrite (lookup_concat_tab _ (nCol (bfGM vg)));
          [|intros; apply length_tab|done..].
        by apply lookup_tab.
      * rewrite lookup_splice_lt by (rewrite ?HT, ?Hcs; nia).
        apply Hent; [lia|done..].
  - exists o. split; [|split; [done|]].
    + unfold dw_laplace. rewrite !decide_True by done. fold nQP nEP.
      erewrite M_bind_Ok by exact Hrun. done.
    + intros ii i j Hii Hi Hj. apply Hent; [lia|done..].
Qed.

End LaplaceMatrix.

(** ** d_surface_flux on well-formed inputs *)

(** Compute the fields of the objects built by the cursor macros. *)
Ltac fmf_simpl :=
  cbn [nCell nLev nRow nCol cellSize val0 val set_val0 set_val FMF_SetCell
       fmf_createAlloc fst snd].

Section FluxSpec.
Context {F : Type} `{Scalar F}.
Implicit Types (out grad mtxD : FMField F) (sg : SurfaceGeometry F).

Lemma d_surface_flux_cell_spec out grad mtxD sg mode ii o bd bn :
  d_surface_flux_valid out grad mtxD sg →
  (mode = 1%Z → areas_nonzero out sg) →
  ii < nCell out →
  same_shape o out →
  length bd = nLev (normal sg) * (nRow (normal sg) * 1) →
  length bn = nLev (normal sg) * (1 * 1) →
  ∃ bd' bn',
    length bd' = length bd ∧ length bn' = length bn ∧
    d_surface_flux_cell grad mtxD sg mode ii
      (o, (set_val0 (fmf_createAlloc 1 (nLev (normal sg)) (nRow (normal sg)) 1) bd,
           set_val0 (fmf_createAlloc 1 (nLev (normal sg)) 1 1) bn)) false
    = Ok ((set_val0 (FMF_SetCell o ii)
             (splice (val0 o) (ii * cellSize out) [flux_cell grad mtxD sg mode ii]),
           (set_val0 (fmf_createAlloc 1 (nLev (normal sg)) (nRow (normal sg)) 1) bd',
            set_val0 (fmf_createAlloc 1 (nLev (normal sg)) 1 1) bn')), false).
Proof.
  intros (([Hncs Hnlen] & HnC & Hnn)
          & ([Hdcs Hdlen] & HdL & HdR & HdC & Hdn)
          & ([Hgcs Hglen] & HgL & HgR & HgC & Hgn)
          & ([HDcs HDlen] & HDL & HDR & HDC & HDn)
          & ([Hocs Holen] & HoL & HoR & HoC))
         Harea Hii (So1 & So2 & So3 & So4 & So5 & So6) Hbd Hbn.
  set (nQP := nLev (normal sg)) in *. set (dim := nRow (normal sg)) in *.
  assert (cellSize out = 1) as Hcs by (rewrite Hocs, HoL, HoR, HoC; done).
  set (D0 := fmf_createAlloc 1 nQP dim 1 : FMField F).
  set (N0 := fmf_createAlloc 1 nQP 1 1 : FMField F).
  unfold d_surface_flux_cell.
  set (dgp1 := set_val0 D0 (product_block false false D0
                              (FMF_SetCell mtxD ii) (FMF_SetCell grad ii))).
  set (ntdgp1 := set_val0 N0 (product_block true false N0
                                (FMF_SetCell (normal sg) ii) dgp1)).
  exists (product_block false false D0 (FMF_SetCell mtxD ii) (FMF_SetCell grad ii)),
         (product_block true false N0 (FMF_SetCell (normal sg) ii) dgp1).
  split; [rewrite length_product_block; simpl; lia|].
  split; [rewrite length_product_block; simpl; lia|].
  (* dgp = D grad *)
  erewrite bind_liftR_Ok; cycle 1.
  { unfold fmf_mulAB_nn. apply fmf_product_spec.
    unfold product_ok, level_slice, D0. fmf_simpl.
    rewrite HDL, HgL, HDR, HDC, HgR, HgC. fold nQP dim.
    repeat split; try done; try lia.
    - intros il Hil. rewrite decide_True by done.
      rewrite HDlen, HDcs, HDL, HDR, HDC. fold nQP dim.
      assert (ii * (nQP * dim * dim) + (nQP * dim * dim)
              ≤ nCell mtxD * (nQP * dim * dim)) by (apply block_bound; lia).
      assert (il * (dim * dim) + dim * dim ≤ nQP * (dim * dim))
        by (by apply block_bound).
      lia.
    - intros il Hil. rewrite decide_True by done.
      rewrite Hglen, Hgcs, HgL, HgR, HgC. fold nQP dim.
      assert (ii * (nQP * dim * 1) + (nQP * dim * 1)
              ≤ nCell grad * (nQP * dim * 1)) by (apply block_bound; lia).
      assert (il * (dim * 1) + dim * 1 ≤ nQP * (dim * 1))
        by (by apply block_bound).
      lia. }
  match goal with
  | |- context [set_val0 (set_val0 D0 bd) ?x] =>
      replace (set_val0 (set_val0 D0 bd) x) with dgp1
  end; cycle 1.
  { unfold dgp1. fmf_simpl.
    rewrite splice_full by (rewrite length_product_block; simpl; lia). done. }
  (* ntdgp = n^T dgp *)
  erewrite bind_liftR_Ok; cycle 1.
  { unfold fmf_mulATB_nn. apply fmf_product_spec.
    unfold product_ok, level_slice, N0. fmf_simpl.
    rewrite HnC. fold nQP dim.
    repeat split; try done; try lia.
    - intros il Hil. rewrite decide_True by done.
      rewrite Hnlen, Hncs, HnC. fold nQP dim.
      assert (ii * (nQP * dim * 1) + (nQP * dim * 1)
              ≤ nCell (normal sg) * (nQP * dim * 1)) by (apply block_bound; lia).
      assert (il * (dim * 1) + dim * 1 ≤ nQP * (dim * 1))
        by (by apply block_bound).
      lia.
    - intros il Hil. rewrite decide_True by done.
      unfold dgp1, D0. fmf_simpl. rewrite length_product_block. fmf_simpl.
      assert (il * (dim * 1) + dim * 1 ≤ nQP * (dim * 1))
        by (by apply block_bound).
      lia. }
  match goal with
  | |- context [set_val0 (set_val0 N0 bn) ?x] =>
      replace (set_val0 (set_val0 N0 bn) x) with ntdgp1
  end; cycle 1.
  { unfold ntdgp1. fmf_simpl.
    rewrite splice_full by (rewrite length_product_block; simpl; lia). done. }
  (* the weighted sum *)
  assert (ii * 1 + 1 ≤ length (val0 o)) as Hoin
    by (rewrite So6, Holen, Hcs; nia).
  erewrite bind_liftR_Ok; cycle 1.
  { apply fmf_sumLevelsMulF_spec; simpl.
    - rewrite So3, So4, So5, HoR, HoC, Hcs. lia.
    - rewrite So3, So4, HoR, HoC. intros il i Hil Hi.
      rewrite length_product_block. simpl. fold nQP. nia.
    - rewrite Hdlen, Hdcs, HdL, HdR, HdC. fold nQP.
      assert (ii * (nQP * 1 * 1) + nQP * 1 * 1 ≤ nCell (sdet sg) * (nQP * 1 * 1))
        by (apply block_bound; lia).
      lia. }
  simpl val0. simpl val. simpl nRow. simpl nCol. simpl nLev.
  rewrite So3, So4, So5, HoR, HoC, Hcs. fold nQP.
  change (tab (1 * 1) _) with [flux_total grad mtxD sg ii].
  unfold flux_cell. destruct (decide (mode = 1%Z)) as [Hm|Hm]; [|done].
  destruct (Harea Hm ii Hii) as [Hain Hanz].
  rewrite M_bind_assoc.
  erewrite bind_liftR_Ok; cycle 1.
  { simpl. apply load_rd. done. }
  fold (flux_area sg ii). rewrite M_bind_assoc.
  erewrite bind_liftR_Ok; cycle 1.
  { unfold fdiv_guarded. rewrite Hanz. done. }
  erewrite bind_liftR_Ok; cycle 1.
  { apply fmf_mulC_spec. simpl. rewrite So2, So3, So4, So5, HoL, HoR, HoC, Hcs.
    rewrite length_splice by (simpl; lia). lia. }
  simpl. rewrite So2, So3, So4, So5, HoL, HoR, HoC, Hcs.
  assert (rd (splice (val0 o) (ii * 1) [flux_total grad mtxD sg ii]) (ii * 1 + 0)
          = flux_total grad mtxD sg ii) as Hrd
    by (rewrite rd_splice_in by (simpl; lia); done).
  unfold tab. simpl map. rewrite Hrd.
  rewrite splice_splice by (simpl; lia). done.
Qed.

End FluxSpec.

Section FluxLoop.
Context {F : Type} `{Scalar F}.
Implicit Types (out grad mtxD : FMField F) (sg : SurfaceGeometry F).

(** [d_surface_flux] on well-formed inputs: the call succeeds and cell [ii]
    of the output holds [flux_cell]. *)
Lemma d_surface_flux_spec out grad mtxD sg mode :
  d_surface_flux_valid out grad mtxD sg →
  (mode = 1%Z → areas_nonzero out sg) →
  ∃ out',
    d_surface_flux out grad mtxD sg mode false = Ok ((RET_OK, out'), false)
    ∧ same_shape out' out
    ∧ ∀ ii, ii < nCell out →
        val0 out' !! ii = Some (flux_cell grad mtxD sg mode ii).
Proof.
  intros Hvalid Harea.
  set (nQP := nLev (normal sg)). set (dim := nRow (normal sg)).
  assert (cellSize out = 1 ∧ length (val0 out) = nCell out * cellSize out)
    as [Hcs Holen].
  { destruct Hvalid as (_ & _ & _ & _ & [Hocs ?] & HoL & HoR & HoC).
    split; [|done]. rewrite Hocs, HoL, HoR, HoC. done. }
  set (P := λ (k : nat) (s : FMField F * (FMField F * FMField F)),
         let '(o, (dgp, ntdgp)) := s in
         same_shape o out
         ∧ (∃ bd, dgp = set_val0 (fmf_createAlloc 1 nQP dim 1) bd
                  ∧ length bd = nQP * (dim * 1))
         ∧ (∃ bn, ntdgp = set_val0 (fmf_createAlloc 1 nQP 1 1) bn
                  ∧ length bn = nQP * (1 * 1))
         ∧ ∀ ii, ii < k → val0 o !! ii = Some (flux_cell grad mtxD sg mode ii)).
  destruct (cell_loop_inv P (d_surface_flux_cell grad mtxD sg mode) (nCell out) 0
              (out, (fmf_createAlloc 1 nQP dim 1, fmf_createAlloc 1 nQP 1 1)))
    as ([o [dgp ntdgp]] & Hrun & Ho & _ & _ & Hent).
  - unfold P. split; [done|]. split; [|split; [|intros; lia]].
    + eexists. split; [reflexivity|]. simpl. rewrite length_replicate. lia.
    + eexists. split; [reflexivity|]. simpl. rewrite length_replicate. lia.
  - intros ii [o [dgp ntdgp]] Hii
      (Ho & (bd & -> & Hbd) & (bn & -> & Hbn) & Hent).
    destruct (d_surface_flux_cell_spec out grad mtxD sg mode ii o bd bn)
      as (bd' & bn' & Hbd' & Hbn' & Hcell); try done; try lia.
    eexists. split; [exact Hcell|].
    destruct Ho as (So1 & So2 & So3 & So4 & So5 & So6).
    assert (ii * cellSize out + 1 ≤ length (val0 o))
      by (rewrite So6, Holen, Hcs; nia).
    unfold P. split; [|split; [|split]].
    + unfold same_shape. simpl. rewrite length_splice by (simpl; lia). done.
    + exists bd'. split; [done|]. lia.
    + exists bn'. split; [done|]. lia.
    + intros ii' Hii'. simpl. rewrite Hcs, Nat.mul_1_r in *.
      destruct (decide (ii' = ii)) as [->|Hne].
      * by rewrite lookup_splice_at by (simpl; lia).
      * rewrite lookup_splice_lt by (simpl; lia). apply Hent. lia.
  - exists o. split; [|split; [done|]].
    + unfold d_surface_flux. fold nQP dim.
      erewrite M_bind_Ok by exact Hrun. done.
    + intros ii Hii. apply Hent. lia.
Qed.

End FluxLoop.

(** ** dw_diffusion_coupling in matrix mode *)

Section CouplingSpec.
Context {F : Type} `{Scalar F}.
Implicit Types (out state mtxD bf : FMField F) (vg : VolumeGeometry F).

Lemma dw_diffusion_coupling_cell_spec out state mtxD bf vg conn nEP elList
    elList_nRow isDiff mode ii o sc b1 b2 :
  isDiff ≠ 0%Z →
  coupling_valid out mtxD bf vg nEP elList elList_nRow →
  ii < elList_nRow →
  same_shape o out →
  cs_gtd sc = set_val0 (fmf_createAlloc 1 (nLev (bfGM vg)) nEP 1) b1 →
  length b1 = nLev (bfGM vg) * (nEP * 1) →
  cs_gtdg sc = set_val0 (fmf_createAlloc 1 (nLev (bfGM vg)) nEP nEP) b2 →
  length b2 = nLev (bfGM vg) * (nEP * nEP) →
  dw_diffusion_coupling_cell state mtxD bf vg conn nEP elList isDiff mode ii
    (o, sc) false
  = Ok ((set_val0 (FMF_SetCell o ii)
           (splice (val0 o) (ii * cellSize out)
              (concat (tab nEP (λ i, tab nEP (λ j,
                 coupling_entry mtxD bf vg nEP elList mode ii i j))))),
         mkCouplingScratch (cs_st sc)
           (coupling_gtd mtxD vg nEP elList ii)
           (coupling_gtdg mtxD bf vg nEP elList mode ii)
           (cs_gp sc) (cs_dgp sc) (cs_gtdgp sc)), false).
Proof.
  intros HD (([HGcs HGlen] & HGC)
             & ([Hdcs Hdlen] & HdL & HdR & HdC)
             & Hel
             & ([HDcs HDlen] & HDL & HDR & HDC & HDn)
             & (HbL & HbR & HbC & Hbin)
             & (HoL & HoR & HoC & Hocs & Holen))
         Hii (So1 & So2 & So3 & So4 & So5 & So6) Hgtd Hb1 Hgtdg Hb2.
  destruct (Hel ii Hii) as (iel & Hiel & HielG & Hield).
  assert (nth ii elList 0 = iel) as Hnth by (by apply nth_lookup_Some).
  set (G := bfGM vg) in *. set (nQP := nLev G) in *. set (dim := nRow G) in *.
  unfold dw_diffusion_coupling_cell.
  erewrite bind_liftR_Ok by (by apply load_Some).
  rewrite decide_True by done. rewrite Hgtd, Hgtdg.
  assert (val (FMF_SetCell_bcast mtxD ii) + nQP * (dim * 1)
          ≤ length (val0 (FMF_SetCell_bcast mtxD ii))) as HDin.
  { unfold FMF_SetCell_bcast. destruct (decide (1 < nCell mtxD)); [|done].
    fmf_simpl. rewrite HDlen, HDcs, HDL, HDR, HDC.
    assert (ii * (nQP * dim * 1) + nQP * dim * 1 ≤ nCell mtxD * (nQP * dim * 1))
      by (apply block_bound; lia).
    lia. }
  assert (nLev (FMF_SetCell_bcast mtxD ii) = nQP
          ∧ nRow (FMF_SetCell_bcast mtxD ii) = dim
          ∧ nCol (FMF_SetCell_bcast mtxD ii) = 1) as (HDL' & HDR' & HDC').
  { unfold FMF_SetCell_bcast. by destruct (decide (1 < nCell mtxD)). }
  (* gtd = G^T D *)
  erewrite bind_liftR_Ok; cycle 1.
  { unfold fmf_mulATB_nn. apply fmf_product_spec.
    unfold product_ok, level_slice. fmf_simpl. fold G nQP dim.
    rewrite HDL', HDR', HDC', HGC.
    repeat split; try done; try lia.
    - intros il Hil. rewrite decide_True by done.
      rewrite HGlen, HGcs, HGC. fold nQP dim.
      assert (iel * (nQP * dim * nEP) + nQP * dim * nEP
              ≤ nCell G * (nQP * dim * nEP)) by (apply block_bound; lia).
      assert (il * (dim * nEP) + dim * nEP ≤ nQP * (dim * nEP))
        by (by apply block_bound).
      lia.
    - intros il Hil. rewrite decide_True by done.
      assert (il * (dim * 1) + dim * 1 ≤ nQP * (dim * 1))
        by (by apply block_bound).
      lia. }
  match goal with
  | |- context [set_val0 (set_val0 ?d b1) ?x] =>
      replace (set_val0 (set_val0 d b1) x)
        with (coupling_gtd mtxD vg nEP elList ii)
  end; cycle 1.
  { unfold coupling_gtd. fmf_simpl. rewrite Hnth. fold G nQP.
    rewrite splice_full by (rewrite length_product_block; simpl; lia). done. }
  set (gtd := coupling_gtd mtxD vg nEP elList ii).
  assert (length (val0 gtd) = nQP * (nEP * 1)) as Hgtdlen.
  { unfold gtd, coupling_gtd. fmf_simpl. by rewrite length_product_block. }
  assert (nLev gtd = nQP ∧ nRow gtd = nEP ∧ nCol gtd = 1 ∧ val gtd = 0)
    as (HtL & HtR & HtC & Htv) by done.
  (* gtdg *)
  erewrite bind_liftR_Ok; cycle 1.
  { instantiate (1 := coupling_gtdg mtxD bf vg nEP elList mode ii).
    unfold coupling_gtdg. fold G nQP gtd.
    destruct (decide (0 < mode)%Z).
    - unfold fmf_mulATBT_nn. rewrite fmf_product_spec.
      + fmf_simpl.
        rewrite splice_full by (rewrite length_product_block; simpl; lia). done.
      + unfold product_ok, level_slice. fmf_simpl.
        rewrite ?HbL, ?HbR, ?HbC, ?HtL, ?HtR, ?HtC, ?Htv.
        repeat split; try done; try lia.
        * intros il Hil. rewrite decide_True by done.
          assert (il * (1 * nEP) + 1 * nEP ≤ nQP * (1 * nEP))
            by (by apply block_bound).
          lia.
        * intros il Hil. rewrite decide_True by done.
          rewrite ?Hgtdlen, ?HtR, ?HtC, ?Htv.
          assert (il * (nEP * 1) + nEP * 1 ≤ nQP * (nEP * 1))
            by (by apply block_bound).
          lia.
    - unfold fmf_mulAB_nn. rewrite fmf_product_spec.
      + fmf_simpl.
        rewrite splice_full by (rewrite length_product_block; simpl; lia). done.
      + unfold product_ok, level_slice. fmf_simpl.
        rewrite ?HbL, ?HbR, ?HbC, ?HtL, ?HtR, ?HtC, ?Htv.
        repeat split; try done; try lia.
        * intros il Hil. rewrite decide_True by done.
          rewrite ?Hgtdlen, ?HtR, ?HtC, ?Htv.
          assert (il * (nEP * 1) + nEP * 1 ≤ nQP * (nEP * 1))
            by (by apply block_bound).
          lia.
        * intros il Hil. rewrite decide_True by done.
          assert (il * (1 * nEP) + 1 * nEP ≤ nQP * (1 * nEP))
            by (by apply block_bound).
          lia. }
  set (gtdg := coupling_gtdg mtxD bf vg nEP elList mode ii).
  assert (length (val0 gtdg) = nQP * (nEP * nEP)) as Hgtdglen.
  { unfold gtdg, coupling_gtdg. fmf_simpl.
    destruct (decide (0 < mode)%Z); by rewrite length_product_block. }
  (* the weighted sum *)
  assert (ii * (nEP * nEP) + nEP * nEP ≤ length (val0 o)) as Hoin.
  { rewrite So6, Holen, Hocs. apply block_bound; lia. }
  erewrite bind_liftR_Ok; cycle 1.
  { apply fmf_sumLevelsMulF_spec.
    - fmf_simpl. rewrite So3, So4, So5, HoR, HoC, Hocs. lia.
    - fmf_simpl. rewrite So3, So4, HoR, HoC. intros il i Hil Hi.
      rewrite Hgtdglen. unfold gtdg, coupling_gtdg. fmf_simpl. fold nQP.
      assert (il * (nEP * nEP) + nEP * nEP ≤ nQP * (nEP * nEP))
        by (by apply block_bound).
      lia.
    - unfold gtdg, coupling_gtdg, FMF_val. fmf_simpl. fold G nQP.
      rewrite Hdlen, Hdcs, HdL, HdR, HdC.
      assert (iel * (nQP * 1 * 1) + nQP * 1 * 1 ≤ nCell (det vg) * (nQP * 1 * 1))
        by (apply block_bound; lia).
      lia. }
  unfold mret, M_ret. do 3 f_equal. fmf_simpl.
  rewrite So3, So4, So5, HoR, HoC. f_equal. f_equal.
  apply tab_concat. intros i j Hi Hj.
  unfold coupling_entry. fold gtdg G nQP. rewrite Hnth.
  unfold gtdg at 1 2 3, coupling_gtdg. fmf_simpl. done.
Qed.

End CouplingSpec.

Section CouplingLoop.
Context {F : Type} `{Scalar F}.
Implicit Types (out state mtxD bf : FMField F) (vg : VolumeGeometry F).

(** The matrix mode of [dw_diffusion_coupling] on well-formed inputs: the
    call succeeds and the cell of the element listed at [ii] holds
    [coupling_entry]. *)
Lemma dw_diffusion_coupling_matrix_spec out state offset mtxD bf vg conn nEl nEP
    elList elList_nRow isDiff mode :
  isDiff ≠ 0%Z →
  coupling_valid out mtxD bf vg nEP elList elList_nRow →
  ∃ out',
    dw_diffusion_coupling out state offset mtxD bf vg conn nEl nEP
      elList elList_nRow isDiff mode false
    = Ok ((RET_OK, out'), false)
    ∧ same_shape out' out
    ∧ ∀ ii i j, ii < elList_nRow → i < nEP → j < nEP →
        val0 out' !! (ii * cellSize out + i * nEP + j)
        = Some (coupling_entry mtxD bf vg nEP elList mode ii i j).
Proof.
  intros HD Hvalid.
  set (nQP := nLev (bfGM vg)).
  assert (cellSize out = nEP * nEP
          ∧ length (val0 out) = elList_nRow * cellSize out) as [Hcs Holen].
  { by destruct Hvalid as (_ & _ & _ & _ & _ & _ & _ & _ & ? & ?). }
  set (P := λ (k : nat) (s : FMField F * coupling_scratch),
         same_shape s.1 out
         ∧ (∃ b1, cs_gtd s.2 = set_val0 (fmf_createAlloc 1 nQP nEP 1) b1
                  ∧ length b1 = nQP * (nEP * 1))
         ∧ (∃ b2, cs_gtdg s.2 = set_val0 (fmf_createAlloc 1 nQP nEP nEP) b2
                  ∧ length b2 = nQP * (nEP * nEP))
         ∧ ∀ ii i j, ii < k → i < nEP → j < nEP →
             val0 s.1 !! (ii * cellSize out + i * nEP + j)
             = Some (coupling_entry mtxD bf vg nEP elList mode ii i j)).
  destruct (cell_loop_inv P
              (dw_diffusion_coupling_cell
                 (set_val state (FMF_PtrFirst state + offset))
                 mtxD bf vg conn nEP elList isDiff mode)
              elList_nRow 0
              (out, mkCouplingScratch fmf_null
                      (fmf_createAlloc 1 nQP nEP 1)
                      (fmf_createAlloc 1 nQP nEP nEP)
                      fmf_null fmf_null fmf_null))
    as ([o sc] & Hrun & Ho & _ & _ & Hent).
  - unfold P. simpl. split; [done|]. split; [|split; [|intros; lia]].
    + eexists. split; [reflexivity|]. simpl. rewrite length_replicate. lia.
    + eexists. split; [reflexivity|]. simpl. rewrite length_replicate. lia.
  - intros ii [o sc] Hii (Ho & (b1 & Hgtd & Hb1) & (b2 & Hgtdg & Hb2) & Hent).
    simpl in Ho, Hgtd, Hgtdg, Hent.
    eexists. split.
    { eapply dw_diffusion_coupling_cell_spec; try done; lia. }
    destruct Ho as (So1 & So2 & So3 & So4 & So5 & So6).
    assert (length (concat (tab nEP (λ i, tab nEP (λ j,
              coupling_entry mtxD bf vg nEP elList mode ii i j)))) = nEP * nEP)
      as HT.
    { apply length_concat_tab. intros. apply length_tab. }
    assert (ii * cellSize out + nEP * nEP ≤ length (val0 o)) as Hin.
    { rewrite So6, Holen, Hcs. apply block_bound; lia. }
    unfold P. simpl. split; [|split; [|split]].
    + unfold same_shape. simpl. rewrite length_splice by (rewrite HT; done).
      done.
    + eexists. split; [reflexivity|]. fmf_simpl.
      rewrite length_product_block. done.
    + eexists. split; [reflexivity|]. fmf_simpl.
      destruct (decide (0 < mode)%Z); rewrite length_product_block; done.
    + intros ii' i j Hii' Hi Hj. destruct (decide (ii' = ii)) as [->|Hne].
      * rewrite <-Nat.add_assoc, lookup_splice_in by (rewrite HT; nia).
        rewrite (lookup_concat_tab _ nEP); [|intros; apply length_tab|done..].
        by apply lookup_tab.
      * rewrite lookup_splice_lt by (rewrite ?HT, ?Hcs; nia).
        apply Hent; [lia|done..].
  - exists o. split; [|split; [done|]].
    + unfold dw_diffusion_coupling. rewrite !decide_True by done. fold nQP.
      erewrite M_bind_Ok by exact Hrun. done.
    + intros ii i j Hii Hi Hj. apply Hent; [lia|done..].
Qed.

(** With [bf] one row per level, the entry [(i, j)] of the block for
    [mode > 0] is the entry [(j, i)] of the block for [mode <= 0]. *)
Lemma coupling_entry_transpose out mtxD bf vg nEP elList elList_nRow
    modeP modeN ii i j :
  (∀ x y : F, fmul x y = fmul y x) →
  coupling_valid out mtxD bf vg nEP elList elList_nRow →
  (0 < modeP)%Z → (modeN ≤ 0)%Z →
  i < nEP → j < nEP →
  coupling_entry mtxD bf vg nEP elList modeP ii i j
  = coupling_entry mtxD bf vg nEP elList modeN ii j i.
Proof.
  intros Hcomm (_ & _ & _ & _ & (HbL & HbR & HbC & _) & _) HP HN Hi Hj.
  unfold coupling_entry. apply fold_left_seq_ext. intros il acc Hil.
  f_equal. f_equal.
  unfold coupling_gtdg. fmf_simpl.
  rewrite decide_True by done. rewrite decide_False by lia.
  set (gtdg0 := fmf_createAlloc 1 (nLev (bfGM vg)) nEP nEP : FMField F).
  set (gtd := coupling_gtd mtxD vg nEP elList ii).
  replace (0 + nEP * nEP * il + (i * nEP + j))
    with (il * (nRow gtdg0 * nCol gtdg0) + i * nCol gtdg0 + j)
    by (unfold gtdg0; fmf_simpl; lia).
  replace (0 + nEP * nEP * il + (j * nEP + i))
    with (il * (nRow gtdg0 * nCol gtdg0) + j * nCol gtdg0 + i)
    by (unfold gtdg0; fmf_simpl; lia).
  erewrite !rd_lookup by (apply lookup_product_block; unfold gtdg0; simpl; lia).
  unfold product_entry. rewrite HbR.
  change (nCol gtd) with 1. simpl. rewrite Hcomm. scalar_eq.
Qed.

End CouplingLoop.

(** ** Sums over a commutative semiring *)

Section Algebra.
Context {F : Type} `{Scalar F} (L : SemiringLaws (F:=F)).

Lemma F_semi_ring : semi_ring_theory (f0 : F) f1 fadd fmul eq.
Proof.
  constructor.
  - apply L.
  - apply L.
  - apply L.
  - apply L.
  - apply L.
  - apply L.
  - apply L.
  - apply L.
Qed.

Add Ring F_ring : F_semi_ring.

Lemma fsum_0 (f : nat → F) : fsum 0 f = f0.
Proof. reflexivity. Qed.

Lemma fsum_S n (f : nat → F) : fsum (S n) f = fadd (fsum n f) (f n).
Proof. unfold fsum. by rewrite seq_S, fold_left_app. Qed.

Lemma fsum_ext n (f g : nat → F) :
  (∀ k, k < n → f k = g k) → fsum n f = fsum n g.
Proof.
  intros Hfg. unfold fsum. apply fold_left_seq_ext. intros k acc Hk.
  rewrite Hfg by lia. done.
Qed.

Lemma fsum_2 (f : nat → F) : fsum 2 f = fadd (f 0) (f 1).
Proof. rewrite !fsum_S, fsum_0. ring. Qed.

Lemma fsum_3 (f : nat → F) : fsum 3 f = fadd (fadd (f 0) (f 1)) (f 2).
Proof. rewrite !fsum_S, fsum_0. ring. Qed.

Lemma fsum_add n (f g : nat → F) :
  fsum n (λ k, fadd (f k) (g k)) = fadd (fsum n f) (fsum n g).
Proof.
  induction n as [|n IH]; [rewrite !fsum_0; ring|].
  rewrite !fsum_S, IH. ring.
Qed.

Lemma fsum_mul_l n c (f : nat → F) :
  fmul c (fsum n f) = fsum n (λ k, fmul c (f k)).
Proof.
  induction n as [|n IH]; [rewrite !fsum_0; ring|].
  rewrite !fsum_S, <-IH. ring.
Qed.

Lemma fsum_mul_r n c (f : nat → F) :
  fmul (fsum n f) c = fsum n (λ k, fmul (f k) c).
Proof.
  induction n as [|n IH]; [rewrite !fsum_0; ring|].
  rewrite !fsum_S, <-IH. ring.
Qed.

Lemma fsum_const_0 n : fsum n (λ _, f0 : F) = f0.
Proof.
  induction n as [|n IH]; [done|]. rewrite fsum_S, IH. ring.
Qed.

Lemma fsum_exchange n m (f : nat → nat → F) :
  fsum n (λ i, fsum m (λ j, f i j)) = fsum m (λ j, fsum n (λ i, f i j)).
Proof.
  induction n as [|n IH].
  - rewrite fsum_0. symmetry. apply fsum_const_0.
  - rewrite fsum_S, IH, <-fsum_add. apply fsum_ext. intros j Hj.
    by rewrite fsum_S.
Qed.

(** (Sum_i a_i) * (Sum_j b_j) = Sum_i Sum_j a_i * b_j *)
Lemma fsum_mul_fsum n m (a b : nat → F) :
  fmul (fsum n a) (fsum m b) = fsum n (λ i, fsum m (λ j, fmul (a i) (b j))).
Proof.
  rewrite fsum_mul_r. apply fsum_ext. intros i Hi. apply fsum_mul_l.
Qed.

(** The expression of the code is the Gramian entry. *)
Lemma gtg_entry_gramian (gc : FMField F) iqp i j :
  nRow gc = 2 ∨ nRow gc = 3 →
  gtg_entry gc iqp i j = gramian_entry gc iqp i j.
Proof.
  unfold gtg_entry, gramian_entry. intros [-> | ->].
  - by rewrite fsum_2.
  - by rewrite fsum_3.
Qed.

Lemma laplace_mtx_entry_matrix (coef : FMField F) vg ii i j :
  nRow (bfGM vg) = 2 ∨ nRow (bfGM vg) = 3 →
  laplace_mtx_entry coef vg ii i j = laplace_matrix coef vg ii i j.
Proof.
  intros Hdim. unfold laplace_mtx_entry, laplace_matrix.
  apply fsum_ext. intros q Hq. rewrite gtg_entry_gramian by done. ring.
Qed.

End Algebra.

(** ** Quadratic forms *)

Section QuadForm.
Context {F : Type} `{Scalar F} (L : SemiringLaws (F:=F)) (O : OrderLaws (F:=F)).

Add Ring F_ring' : (F_semi_ring L).

Lemma quad_form_ext n (A B : nat → nat → F) x :
  (∀ i j, i < n → j < n → A i j = B i j) → quad_form n A x = quad_form n B x.
Proof.
  intros HAB. unfold quad_form. apply fsum_ext. intros i Hi.
  apply fsum_ext. intros j Hj. by rewrite HAB.
Qed.

Lemma quad_form_sum n m (T : nat → nat → nat → F) x :
  quad_form n (λ i j, fsum m (λ q, T q i j)) x
  = fsum m (λ q, quad_form n (T q) x).
Proof.
  unfold quad_form.
  transitivity (fsum n (λ i, fsum m (λ q, fsum n (λ j,
                  fmul (fmul (x i) (T q i j)) (x j))))).
  - apply fsum_ext. intros i Hi.
    rewrite <-(fsum_exchange L). apply fsum_ext. intros j Hj.
    by rewrite (fsum_mul_l L), (fsum_mul_r L).
  - apply (fsum_exchange L).
Qed.

Lemma quad_form_scale n (g : nat → nat → F) c w x :
  quad_form n (λ i j, fmul (fmul (g i j) c) w) x
  = fmul (fmul c w) (quad_form n g x).
Proof.
  unfold quad_form. rewrite (fsum_mul_l L). apply fsum_ext. intros i Hi.
  rewrite (fsum_mul_l L). apply fsum_ext. intros j Hj. ring.
Qed.

Lemma quad_form_add n (g h : nat → nat → F) x :
  quad_form n (λ i j, fadd (g i j) (h i j)) x
  = fadd (quad_form n g x) (quad_form n h x).
Proof.
  unfold quad_form. rewrite <-(fsum_add L). apply fsum_ext. intros i Hi.
  rewrite <-(fsum_add L). apply fsum_ext. intros j Hj. ring.
Qed.

(** x^T (a a^T) x = (a . x)^2 *)
Lemma quad_form_rank1 n (a : nat → F) x :
  quad_form n (λ i j, fmul (a i) (a j)) x
  = fmul (fsum n (λ i, fmul (a i) (x i))) (fsum n (λ i, fmul (a i) (x i))).
Proof.
  rewrite (fsum_mul_fsum L). unfold quad_form. apply fsum_ext. intros i Hi.
  apply fsum_ext. intros j Hj. ring.
Qed.

Lemma fsum_nonneg n (f : nat → F) :
  (∀ k, k < n → fleb f0 (f k) = true) → fleb f0 (fsum n f) = true.
Proof.
  induction n as [|n IH]; intros Hf.
  - apply (fle_0_0 O).
  - rewrite fsum_S.
    apply (fle_add O); [apply IH; intros; apply Hf; lia | apply Hf; lia].
Qed.

(** x^T (G^T G) x >= 0 for the expression of the code. *)
Lemma quad_form_gtg_nonneg (gc : FMField F) iqp x :
  fleb f0 (quad_form (nCol gc) (gtg_entry gc iqp) x) = true.
Proof.
  unfold gtg_entry. destruct (nRow gc) as [|[|[|[|?]]]].
  1,2,5: unfold quad_form; apply fsum_nonneg; intros i Hi;
         apply fsum_nonneg; intros j Hj;
         (assert (fmul (fmul (x i) f0) (x j) = f0) as -> by ring);
         apply (fle_0_0 O).
  - rewrite quad_form_add, !quad_form_rank1.
    apply (fle_add O); apply (fle_sqr O).
  - rewrite !quad_form_add, !quad_form_rank1.
    apply (fle_add O); [apply (fle_add O)|]; apply (fle_sqr O).
Qed.

Lemma gtg_entry_sym (gc : FMField F) iqp i j :
  gtg_entry gc iqp i j = gtg_entry gc iqp j i.
Proof.
  unfold gtg_entry. destruct (nRow gc) as [|[|[|[|?]]]]; try done.
  - by rewrite (fmul_comm L (G_entry gc iqp 0 i)),
               (fmul_comm L (G_entry gc iqp 1 i)).
  - by rewrite (fmul_comm L (G_entry gc iqp 0 i)),
               (fmul_comm L (G_entry gc iqp 1 i)),
               (fmul_comm L (G_entry gc iqp 2 i)).
Qed.

Lemma laplace_mtx_entry_sym (coef : FMField F) vg ii i j :
  laplace_mtx_entry coef vg ii i j = laplace_mtx_entry coef vg ii j i.
Proof.
  unfold laplace_mtx_entry. apply fold_left_seq_ext. intros q acc Hq.
  by rewrite gtg_entry_sym.
Qed.

Lemma laplace_mtx_entry_psd (coef : FMField F) vg ii x :
  (∀ q, q < nLev (bfGM vg) →
     fleb f0 (fmul (rd (val0 (FMF_SetCell_bcast coef ii))
                       (val (FMF_SetCell_bcast coef ii) + q))
                   (rd (val0 (det vg)) (val (FMF_SetCell (det vg) ii) + q)))
     = true) →
  fleb f0 (quad_form (nCol (bfGM vg)) (laplace_mtx_entry coef vg ii) x) = true.
Proof.
  intros Hpos. unfold laplace_mtx_entry.
  change (fleb f0 (quad_form (nCol (bfGM vg)) (λ i j,
    fsum (nLev (bfGM vg)) (λ q,
      fmul (fmul (gtg_entry (FMF_SetCell (bfGM vg) ii) q i j)
                 (rd (val0 (FMF_SetCell_bcast coef ii))
                     (val (FMF_SetCell_bcast coef ii) + q)))
           (rd (val0 (FMF_SetCell (det vg) ii))
               (val (FMF_SetCell (det vg) ii) + q)))) x) = true).
  rewrite quad_form_sum. apply fsum_nonneg. intros q Hq.
  rewrite quad_form_scale. apply (fle_mul O); [by apply Hpos|].
  apply (quad_form_gtg_nonneg (FMF_SetCell (bfGM vg) ii)).
Qed.

End QuadForm.

(** ** Laws of the instances *)

Lemma Z_SemiringLaws : SemiringLaws (F:=Z).
Proof. constructor; intros; simpl; lia. Qed.

Lemma Z_OrderLaws : OrderLaws (F:=Z).
Proof.
  constructor; simpl.
  - done.
  - intros x y Hx%Z.leb_le Hy%Z.leb_le. apply Z.leb_le. lia.
  - intros x y Hx%Z.leb_le Hy%Z.leb_le. apply Z.leb_le. lia.
  - intros x. apply Z.leb_le. nia.
Qed.

(** ** The Laplace evaluator in matrix mode *)

(** C1. In matrix mode ([isDiff] nonzero) and on well-formed inputs (space
    dimension 2 or 3) [dw_laplace] succeeds and leaves, at entry [(i, j)] of
    every cell, Sum_q w_q * coef_q * (G_q^T G_q)[i,j], where
    (G^T G)[i,j] = Sum_d G[d,i] * G[d,j].  In particular, for one 3-D cell
    with 4 local dofs, one quadrature point, weight 1.0 and coefficient 2.0
    the cell holds 2.0 * G^T G. *)
Theorem dw_laplace_matrix_mode {F : Type} `{Scalar F} :
  SemiringLaws (F:=F) →
  (∀ (out grad coef : FMField F) (vg : VolumeGeometry F) (isDiff : Z),
     isDiff ≠ 0%Z →
     dw_laplace_valid out coef vg →
     ∃ out',
       dw_laplace out grad coef vg isDiff false = Ok ((RET_OK, out'), false)
       ∧ same_shape out' out
       ∧ ∀ ii i j, ii < nCell out → i < nCol (bfGM vg) → j < nCol (bfGM vg) →
           val0 out' !! (ii * cellSize out + i * nCol (bfGM vg) + j)
           = Some (laplace_matrix coef vg ii i j))
  ∧ (∀ (gbuf obuf : list F) (grad : FMField F) (isDiff : Z),
       isDiff ≠ 0%Z → length gbuf = 12 → length obuf = 16 →
       ∃ out',
         dw_laplace (mkFMField 1 1 4 4 16 obuf 0) grad
           (mkFMField 1 1 1 1 1 [fadd f1 f1] 0)
           (mkVolumeGeometry (mkFMField 1 1 3 4 12 gbuf 0)
              (mkFMField 1 1 1 1 1 [f1] 0))
           isDiff false
         = Ok ((RET_OK, out'), false)
         ∧ ∀ i j, i < 4 → j < 4 →
             val0 out' !! (i * 4 + j)
             = Some (fmul (fadd f1 f1)
                       (fsum 3 (λ d, fmul (rd gbuf (d * 4 + i))
                                          (rd gbuf (d * 4 + j)))))).
Proof.
  intros L.
  assert (∀ (out grad coef : FMField F) (vg : VolumeGeometry F) (isDiff : Z),
     isDiff ≠ 0%Z →
     dw_laplace_valid out coef vg →
     ∃ out',
       dw_laplace out grad coef vg isDiff false = Ok ((RET_OK, out'), false)
       ∧ same_shape out' out
       ∧ ∀ ii i j, ii < nCell out → i < nCol (bfGM vg) → j < nCol (bfGM vg) →
           val0 out' !! (ii * cellSize out + i * nCol (bfGM vg) + j)
           = Some (laplace_matrix coef vg ii i j)) as Hgen.
  { intros out grad coef vg isDiff HD Hvalid.
    destruct (dw_laplace_matrix_spec out grad coef vg isDiff HD Hvalid)
      as (out' & Hrun & Hshape & Hent).
    exists out'. split; [done|]. split; [done|].
    intros ii i j Hii Hi Hj. rewrite Hent by done.
    rewrite (laplace_mtx_entry_matrix L); [done|]. apply Hvalid. }
  split; [exact Hgen|].
  intros gbuf obuf grad isDiff HD Hg Ho.
  destruct (Hgen (mkFMField 1 1 4 4 16 obuf 0) grad
              (mkFMField 1 1 1 1 1 [fadd f1 f1] 0)
              (mkVolumeGeometry (mkFMField 1 1 3 4 12 gbuf 0)
                 (mkFMField 1 1 1 1 1 [f1] 0)) isDiff HD)
    as (out' & Hrun & _ & Hent).
  { unfold dw_laplace_valid, scalar_field_ok, fmf_wf. simpl.
    rewrite Hg, Ho. repeat split; try done; try lia; try (by right). }
  exists out'. split; [done|]. intros i j Hi Hj.
  specialize (Hent 0 i j). simpl in Hent. rewrite Hent by lia. f_equal.
  unfold laplace_matrix, gramian_entry, G_entry. simpl.
  pose proof (F_semi_ring L) as Hsr.
  rewrite fsum_S, fsum_0. unfold rd at 1 2. simpl.
  transitivity (fmul (fadd f1 f1)
    (fsum 3 (λ d, fmul (rd gbuf (0 + d * 4 + i)) (rd gbuf (0 + d * 4 + j))))).
  - rewrite (fadd_0_l L), (fmul_1_l L). done.
  - done.
Qed.

Lemma dw_laplace_matrix_mode_witness :
  SemiringLaws (F:=Z)
  ∧ dw_laplace_valid tetra_out tetra_coef tetra_vg
  ∧ ∃ out',
      dw_laplace tetra_out fmf_null tetra_coef tetra_vg 1 false
      = Ok ((RET_OK, out'), false)
      ∧ val0 out' !! 0 = Some (laplace_matrix tetra_coef tetra_vg 0 0 0).
Proof.
  assert (dw_laplace_valid tetra_out tetra_coef tetra_vg) as Hvalid.
  { unfold dw_laplace_valid, scalar_field_ok, fmf_wf. simpl.
    repeat split; try done; try lia; try (by right). }
  split; [exact Z_SemiringLaws|]. split; [exact Hvalid|].
  destruct (proj1 (dw_laplace_matrix_mode Z_SemiringLaws)
              tetra_out fmf_null tetra_coef tetra_vg 1%Z)
    as (out' & Hrun & _ & Hent); [done|exact Hvalid|].
  exists out'. split; [exact Hrun|]. apply (Hent 0 0 0); simpl; lia.
Defined.

(** The scenario of C1 run on binary64: with weight 1.0 and coefficient
    2.0 the cell is 2.0 * G^T G, entry by entry and without rounding
    (the products by 2.0 and 1.0 are exact). *)
Lemma dw_laplace_tetra_binary64 :
  ∃ out',
    dw_laplace ftetra_out fmf_null ftetra_coef ftetra_vg 1 false
    = Ok ((RET_OK, out'), false)
    ∧ val0 out' = map (fmul 2%float) (gtg_block ftetra_G).
Proof. eexists. split; vm_compute; reflexivity. Qed.

(** ** Symmetry and definiteness of the Laplace matrix *)

(** The product of binary64 is commutative. *)
Lemma float_mul_comm (x y : float) : fmul x y = fmul y x.
Proof.
  apply FloatAxioms.Prim2SF_inj. simpl. rewrite !FloatAxioms.mul_spec.
  destruct (FloatOps.Prim2SF x) as [sx|sx| |sx mx ex], (FloatOps.Prim2SF y) as [sy|sy| |sy my ey];
    simpl; rewrite ?(Bool.xorb_comm sx sy); try reflexivity.
  by rewrite Pos.mul_comm, Z.add_comm.
Qed.

Section CommutativeProduct.
Context {F : Type} `{Scalar F}.
Hypothesis fmul_commutes : ∀ x y : F, fmul x y = fmul y x.

(** The entries of G^T G, as [laplace_build_gtg] computes them, are
    symmetric as soon as the product commutes: the two entries add the same
    products in the same order. *)
Lemma gtg_entry_comm (gc : FMField F) iqp i j :
  gtg_entry gc iqp i j = gtg_entry gc iqp j i.
Proof.
  unfold gtg_entry. destruct (nRow gc) as [|[|[|[|?]]]]; try done.
  - by rewrite (fmul_commutes (G_entry gc iqp 0 i)),
               (fmul_commutes (G_entry gc iqp 1 i)).
  - by rewrite (fmul_commutes (G_entry gc iqp 0 i)),
               (fmul_commutes (G_entry gc iqp 1 i)),
               (fmul_commutes (G_entry gc iqp 2 i)).
Qed.

Lemma laplace_mtx_entry_comm (coef : FMField F) vg ii i j :
  laplace_mtx_entry coef vg ii i j = laplace_mtx_entry coef vg ii j i.
Proof.
  unfold laplace_mtx_entry. apply fold_left_seq_ext. intros q acc Hq.
  by rewrite gtg_entry_comm.
Qed.

End CommutativeProduct.

(** C5, as stated, fails, and for two reasons.  With the coefficient -1 the
    single entry of the cell matrix is -1, and x^T A x = -1 < 0 at x = 1.
    And in binary64, with coefficient 1 and weight 1, the gradient matrix
    [fround_G] gives the cell (2, 2; 2, 2 - 2^-52), because 1 + (1 - 2^-53)
    rounds to 2: x^T A x = -2^-52 < 0 at x = (1, -1). *)
Lemma dw_laplace_psd_counterexample :
  (dw_laplace_valid neg_out neg_coef neg_vg
   ∧ ∃ out',
       dw_laplace neg_out fmf_null neg_coef neg_vg 1 false
       = Ok ((RET_OK, out'), false)
       ∧ fleb f0 (quad_form 1 (cell_matrix out' 1 0) (λ _, 1%Z)) = false)
  ∧ (dw_laplace_valid fround_out fround_coef fround_vg
     ∧ fleb f0 (fmul (rd (val0 fround_coef) 0) (rd (val0 fround_det) 0)) = true
     ∧ ∃ out',
         dw_laplace fround_out fmf_null fround_coef fround_vg 1 false
         = Ok ((RET_OK, out'), false)
         ∧ fleb f0 (quad_form 2 (cell_matrix out' 2 0)
                      (λ i, match i with 0 => 1 | _ => -1 end)%float) = false).
Proof.
  split; split.
  - unfold dw_laplace_valid, scalar_field_ok, fmf_wf. simpl.
    repeat split; try done; try lia; try (by left).
  - eexists. split; [vm_compute; reflexivity|]. vm_compute. reflexivity.
  - unfold dw_laplace_valid, scalar_field_ok, fmf_wf. simpl.
    repeat split; try done; try lia; try (by left).
  - split; [vm_compute; reflexivity|].
    eexists. split; [vm_compute; reflexivity|]. vm_compute. reflexivity.
Qed.

(** C5 (amended). In matrix mode and on well-formed inputs every cell matrix
    written by [dw_laplace] is symmetric, for every scalar type whose product
    commutes, binary64 included.  In exact arithmetic (the scalars form an
    ordered commutative semiring: no rounding) the cell matrix is positive
    semi-definite when at every quadrature point of the cell the product of
    the coefficient and of the determinant weight is non-negative. *)
Theorem dw_laplace_matrix_sym_psd {F : Type} `{Scalar F}
    (out grad coef : FMField F) (vg : VolumeGeometry F) (isDiff : Z) :
  (∀ x y : F, fmul x y = fmul y x) →
  isDiff ≠ 0%Z →
  dw_laplace_valid out coef vg →
  ∃ out',
    dw_laplace out grad coef vg isDiff false = Ok ((RET_OK, out'), false)
    ∧ (∀ ii i j, ii < nCell out → i < nCol (bfGM vg) → j < nCol (bfGM vg) →
         cell_matrix out' (nCol (bfGM vg)) ii i j
         = cell_matrix out' (nCol (bfGM vg)) ii j i)
    ∧ (SemiringLaws (F:=F) → OrderLaws (F:=F) →
       ∀ ii, ii < nCell out →
         (∀ q, q < nLev (bfGM vg) →
            fleb f0 (fmul (rd (val0 (FMF_SetCell_bcast coef ii))
                              (val (FMF_SetCell_bcast coef ii) + q))
                          (rd (val0 (det vg))
                              (val (FMF_SetCell (det vg) ii) + q))) = true) →
         ∀ x, fleb f0 (quad_form (nCol (bfGM vg))
                         (cell_matrix out' (nCol (bfGM vg)) ii) x) = true).
Proof.
  intros Hcomm HD Hvalid.
  destruct (dw_laplace_matrix_spec out grad coef vg isDiff HD Hvalid)
    as (out' & Hrun & Hshape & Hent).
  assert (∀ ii i j, ii < nCell out → i < nCol (bfGM vg) → j < nCol (bfGM vg) →
            cell_matrix out' (nCol (bfGM vg)) ii i j
            = laplace_mtx_entry coef vg ii i j) as Hcm.
  { intros ii i j Hii Hi Hj. unfold cell_matrix. apply rd_lookup.
    destruct Hshape as (_ & _ & _ & _ & -> & _). by apply Hent. }
  exists out'. split; [done|]. split.
  - intros ii i j Hii Hi Hj. rewrite !Hcm by done.
    by apply laplace_mtx_entry_comm.
  - intros L O ii Hii Hpos x.
    rewrite (quad_form_ext _ _ (laplace_mtx_entry coef vg ii))
      by (intros; by apply Hcm).
    by apply (laplace_mtx_entry_psd L O).
Qed.

Lemma dw_laplace_matrix_sym_psd_witness :
  (dw_laplace_valid tetra_out tetra_coef tetra_vg
   ∧ ∃ out',
       dw_laplace tetra_out fmf_null tetra_coef tetra_vg 1 false
       = Ok ((RET_OK, out'), false)
       ∧ cell_matrix out' 4 0 1 2 = cell_matrix out' 4 0 2 1
       ∧ fleb f0 (quad_form 4 (cell_matrix out' 4 0)
                    (λ i, Z.of_nat i - 2)%Z) = true)
  ∧ (dw_laplace_valid ftetra_out ftetra_coef ftetra_vg
     ∧ ∃ out',
         dw_laplace ftetra_out fmf_null ftetra_coef ftetra_vg 1 false
         = Ok ((RET_OK, out'), false)
         ∧ cell_matrix out' 4 0 0 3 = cell_matrix out' 4 0 3 0).
Proof.
  assert (dw_laplace_valid tetra_out tetra_coef tetra_vg) as Hvalid.
  { unfold dw_laplace_valid, scalar_field_ok, fmf_wf. simpl.
    repeat split; try done; try lia; try (by right). }
  assert (dw_laplace_valid ftetra_out ftetra_coef ftetra_vg) as Hfvalid.
  { unfold dw_laplace_valid, scalar_field_ok, fmf_wf. simpl.
    repeat split; try done; try lia; try (by right). }
  split; (split; [done|]).
  - destruct (dw_laplace_matrix_sym_psd tetra_out fmf_null tetra_coef tetra_vg
                1%Z (fmul_comm Z_SemiringLaws))
      as (out' & Hrun & Hsym & Hpsd); [done|exact Hvalid|].
    exists out'. split; [exact Hrun|]. split.
    + apply (Hsym 0 1 2); simpl; lia.
    + apply (Hpsd Z_SemiringLaws Z_OrderLaws 0); [simpl; lia|].
      intros q Hq. simpl in Hq. assert (q = 0) as -> by lia. reflexivity.
  - destruct (dw_laplace_matrix_sym_psd ftetra_out fmf_null ftetra_coef
                ftetra_vg 1%Z float_mul_comm)
      as (out' & Hrun & Hsym & _); [done|exact Hfvalid|].
    exists out'. split; [exact Hrun|]. apply (Hsym 0 0 3); simpl; lia.
Defined.

(** ** The kernel builders *)

(** C2, as stated, fails: with a one-row gradient buffer the builder fails,
    but the entry 5 of the output buffer has been overwritten by 0. *)
Lemma laplace_build_gtg_fault_counterexample :
  nRow dim1_gc ≠ 2 ∧ nRow dim1_gc ≠ 3
  ∧ ∃ out',
      laplace_build_gtg dim1_out dim1_gc false = Ok ((RET_Fail, out'), true)
      ∧ val0 out' ≠ val0 dim1_out.
Proof.
  split; [done|]. split; [done|].
  eexists. split; [vm_compute; reflexivity|]. simpl. discriminate.
Qed.

(** C2 (amended). When the row count of the gradient buffer is neither 2
    nor 3, [laplace_build_gtg] returns the failure status and raises the
    error flag, after having filled the current cell of the output buffer
    with zeros; the entries outside the current cell are unchanged. *)
Theorem laplace_build_gtg_fault {F : Type} `{Scalar F} (out gc : FMField F) g :
  nRow gc ≠ 2 → nRow gc ≠ 3 →
  val out + nLev out * nRow out * nCol out ≤ length (val0 out) →
  laplace_build_gtg out gc g
  = Ok ((RET_Fail,
         set_val0 out (splice (val0 out) (val out)
                         (replicate (nLev out * nRow out * nCol out) f0))),
        true).
Proof.
  intros H2 H3 Hlen. unfold laplace_build_gtg.
  erewrite bind_liftR_Ok by (by apply fmf_fillC_spec).
  destruct (nRow gc) as [|[|[|[|?]]]]; try done.
Qed.

Lemma laplace_build_gtg_fault_witness :
  nRow dim1_gc ≠ 2 ∧ nRow dim1_gc ≠ 3
  ∧ laplace_build_gtg dim1_out dim1_gc false
    = Ok ((RET_Fail, mkFMField 1 1 1 1 1 [0%Z] 0), true).
Proof.
  split; [done|]. split; [done|].
  exact (laplace_build_gtg_fault dim1_out dim1_gc false
           ltac:(done) ltac:(done) ltac:(simpl; lia)).
Defined.

(** C4 fails on the code for a matrix with more than one column: the three
    values computed for column [ic] are stored at [pout[ic]], [pout[ic+1]],
    [pout[ic+2]] instead of rows of the [spaceDim x colCount] result, so the
    stores of consecutive columns overlap.  For G = (1 2)^T and M = (1 3) the
    product is (1 3; 2 6), and the code leaves 1, 3, 6 and the old entry. *)
Theorem laplace_act_g_m_two_columns :
  laplace_act_g_m act_out act_G act_M false
  = Ok ((RET_OK, mkFMField 1 1 2 2 4 [1; 3; 6; 9]%Z 0), false)
  ∧ tab 2 (λ d, tab 2 (λ c, gm_entry act_G act_M 0 0 d c))
    = [[1; 3]; [2; 6]]%Z.
Proof. split; vm_compute; reflexivity. Qed.

(** ** Independence of the gradient argument *)

Lemma cell_loop_ext {St} (body1 body2 : nat → St → M St) cells s g :
  (∀ ii s g, body1 ii s g = body2 ii s g) →
  cell_loop body1 cells s g = cell_loop body2 cells s g.
Proof.
  intros Hb. revert s g. induction cells as [|ii cells IH]; intros s g; [done|].
  simpl. unfold mbind, M_bind. rewrite Hb.
  destruct (body2 ii s g) as [[s' g']|e]; [|done].
  simpl. destruct g'; [done|apply IH].
Qed.

(** C10. In matrix mode ([isDiff] nonzero) [dw_laplace] does not depend on
    its [grad] argument: two calls that differ only in [grad] give the same
    result, that is the same fault or the same output buffer, return status
    and error flag. *)
Theorem dw_laplace_matrix_ignores_grad {F : Type} `{Scalar F}
    (out grad1 grad2 coef : FMField F) (vg : VolumeGeometry F) (isDiff : Z) g :
  isDiff ≠ 0%Z →
  dw_laplace out grad1 coef vg isDiff g = dw_laplace out grad2 coef vg isDiff g.
Proof.
  intros HD. unfold dw_laplace. apply M_bind_congr_l. apply cell_loop_ext.
  intros ii [o [gtg gtgu]] g'. unfold dw_laplace_cell.
  by rewrite !decide_True by done.
Qed.

Lemma dw_laplace_matrix_ignores_grad_witness :
  (1 ≠ 0)%Z
  ∧ dw_laplace tetra_out tetra_G tetra_coef tetra_vg 1 false
    = dw_laplace tetra_out fmf_null tetra_coef tetra_vg 1 false.
Proof.
  split; [done|].
  apply (dw_laplace_matrix_ignores_grad tetra_out tetra_G fmf_null). done.
Defined.

(** ** The surface-flux evaluator and broadcast coefficients *)

(** C3 fails on the code for [d_surface_flux]: its cell loop moves the
    cursor of [mtxD] unconditionally, where every other evaluator first
    tests [mtxD->nCell > 1].  With two cells and a one-cell coefficient the
    second cell is read past the end of the coefficient buffer; with the
    coefficient replicated the call succeeds. *)
Theorem d_surface_flux_no_broadcast :
  d_surface_flux flux_out flux_grad flux_D1 flux_sg 0 false = Err OutOfBounds
  ∧ d_surface_flux flux_out flux_grad flux_D2 flux_sg 0 false
    = Ok ((RET_OK, mkFMField 2 1 1 1 1 [2; 8]%Z 1), false).
Proof. split; vm_compute; reflexivity. Qed.

(** ** The mean flux *)

Lemma R_div_law (x a : R) : fis0 a = false → fmul x (fdiv f1 a) = fdiv x a.
Proof. intros _. simpl. unfold Rdiv. ring. Qed.

Lemma R_fis0_false (a : R) : a ≠ 0%R → fis0 a = false.
Proof. intros Ha. simpl. by destruct (Req_EM_T a 0). Qed.

Lemma rflux_valid : d_surface_flux_valid rflux_out rflux_grad rflux_D rflux_sg.
Proof.
  unfold d_surface_flux_valid, fmf_wf. simpl. repeat split; try done; lia.
Qed.

Lemma rflux_areas_nonzero : areas_nonzero rflux_out rflux_sg.
Proof.
  intros ii Hii. simpl in Hii.
  assert (ii = 0 ∨ ii = 1) as [-> | ->] by lia.
  - split; [simpl; lia|]. apply R_fis0_false.
    unfold flux_area, rd. simpl. lra.
  - split; [simpl; lia|]. apply R_fis0_false.
    unfold flux_area, rd. simpl. lra.
Qed.

Lemma fflux_valid : d_surface_flux_valid fflux_out fflux_grad fflux_D fflux_sg.
Proof.
  unfold d_surface_flux_valid, fmf_wf. simpl. repeat split; try done; lia.
Qed.

Lemma fflux_areas_nonzero : areas_nonzero fflux_out fflux_sg.
Proof.
  intros ii Hii. simpl in Hii. assert (ii = 0) as -> by lia.
  split; [simpl; lia|]. vm_compute. reflexivity.
Qed.

(** C6, as stated, fails in binary64: the code does not divide by the
    facet area, it multiplies by the rounded reciprocal [1.0 / area].  For
    the total flux 5 and the area 3 the mean mode leaves
    5 * (1/3) = 1.6666666666666665, and 5 / 3 is 1.6666666666666667. *)
Lemma d_surface_flux_mean_mode_counterexample :
  d_surface_flux_valid fflux_out fflux_grad fflux_D fflux_sg
  ∧ areas_nonzero fflux_out fflux_sg
  ∧ ∃ out0 out1 total mean,
      d_surface_flux fflux_out fflux_grad fflux_D fflux_sg 0 false
      = Ok ((RET_OK, out0), false)
      ∧ d_surface_flux fflux_out fflux_grad fflux_D fflux_sg 1 false
        = Ok ((RET_OK, out1), false)
      ∧ val0 out0 !! 0 = Some total
      ∧ val0 out1 !! 0 = Some mean
      ∧ mean ≠ fdiv total (flux_area fflux_sg 0).
Proof.
  split; [exact fflux_valid|]. split; [exact fflux_areas_nonzero|].
  do 4 eexists. split; [vm_compute; reflexivity|].
  split; [vm_compute; reflexivity|].
  split; [reflexivity|]. split; [reflexivity|].
  intros Heq. apply (f_equal (λ x, PrimFloat.eqb x 0x1.aaaaaaaaaaaaap+0)) in Heq.
  vm_compute in Heq. discriminate.
Qed.

(** C6 (amended). On well-formed inputs with non-zero facet areas, the value
    [d_surface_flux] returns for a cell in mean-flux mode ([mode = 1]) is
    the value it returns in total-flux mode ([mode = 0]) multiplied by the
    reciprocal [1 / area] of the facet area of the cell.  Where multiplying
    by the reciprocal is dividing (in a field: exact arithmetic), this is
    the total flux divided by the area. *)
Theorem d_surface_flux_mean_mode {F : Type} `{Scalar F}
    (out grad mtxD : FMField F) (sg : SurfaceGeometry F) :
  d_surface_flux_valid out grad mtxD sg →
  areas_nonzero out sg →
  ∃ out0 out1,
    d_surface_flux out grad mtxD sg 0 false = Ok ((RET_OK, out0), false)
    ∧ d_surface_flux out grad mtxD sg 1 false = Ok ((RET_OK, out1), false)
    ∧ ∀ ii, ii < nCell out →
        ∃ total,
          val0 out0 !! ii = Some total
          ∧ val0 out1 !! ii
            = Some (fmul total (fdiv f1 (flux_area sg ii)))
          ∧ ((∀ x a : F, fis0 a = false → fmul x (fdiv f1 a) = fdiv x a) →
             val0 out1 !! ii = Some (fdiv total (flux_area sg ii))).
Proof.
  intros Hvalid Harea.
  destruct (d_surface_flux_spec out grad mtxD sg 0 Hvalid)
    as (out0 & Hrun0 & _ & Hent0); [done|].
  destruct (d_surface_flux_spec out grad mtxD sg 1 Hvalid)
    as (out1 & Hrun1 & _ & Hent1); [done|].
  exists out0, out1. split; [done|]. split; [done|].
  intros ii Hii. exists (flux_total grad mtxD sg ii).
  assert (val0 out1 !! ii
          = Some (fmul (flux_total grad mtxD sg ii)
                       (fdiv f1 (flux_area sg ii)))) as Hmean.
  { rewrite Hent1 by done. unfold flux_cell. by rewrite decide_True. }
  split; [by rewrite Hent0|]. split; [exact Hmean|].
  intros Hdiv. rewrite Hmean. f_equal. apply Hdiv. by apply Harea.
Qed.

Lemma d_surface_flux_mean_mode_witness :
  (d_surface_flux_valid fflux_out fflux_grad fflux_D fflux_sg
   ∧ areas_nonzero fflux_out fflux_sg
   ∧ ∃ out0 out1,
       d_surface_flux fflux_out fflux_grad fflux_D fflux_sg 0 false
       = Ok ((RET_OK, out0), false)
       ∧ d_surface_flux fflux_out fflux_grad fflux_D fflux_sg 1 false
         = Ok ((RET_OK, out1), false)
       ∧ ∃ total,
           val0 out0 !! 0 = Some total
           ∧ val0 out1 !! 0
             = Some (fmul total (fdiv f1 (flux_area fflux_sg 0))))
  ∧ (d_surface_flux_valid rflux_out rflux_grad rflux_D rflux_sg
     ∧ areas_nonzero rflux_out rflux_sg
     ∧ ∃ out0 out1,
         d_surface_flux rflux_out rflux_grad rflux_D rflux_sg 0 false
         = Ok ((RET_OK, out0), false)
         ∧ d_surface_flux rflux_out rflux_grad rflux_D rflux_sg 1 false
           = Ok ((RET_OK, out1), false)
         ∧ ∃ total,
             val0 out0 !! 1 = Some total
             ∧ val0 out1 !! 1 = Some (fdiv total (flux_area rflux_sg 1))).
Proof.
  split.
  - split; [exact fflux_valid|]. split; [exact fflux_areas_nonzero|].
    destruct (d_surface_flux_mean_mode fflux_out fflux_grad fflux_D fflux_sg
                fflux_valid fflux_areas_nonzero)
      as (out0 & out1 & Hrun0 & Hrun1 & Hent).
    exists out0, out1. split; [exact Hrun0|]. split; [exact Hrun1|].
    destruct (Hent 0) as (total & Htot & Hmean & _); [simpl; lia|].
    exists total. split; [exact Htot|exact Hmean].
  - split; [exact rflux_valid|]. split; [exact rflux_areas_nonzero|].
    destruct (d_surface_flux_mean_mode rflux_out rflux_grad rflux_D rflux_sg
                rflux_valid rflux_areas_nonzero)
      as (out0 & out1 & Hrun0 & Hrun1 & Hent).
    exists out0, out1. split; [exact Hrun0|]. split; [exact Hrun1|].
    destruct (Hent 1) as (total & Htot & _ & Hdiv); [simpl; lia|].
    exists total. split; [exact Htot|exact (Hdiv R_div_law)].
Defined.

(** ** The division of the mean-flux mode *)

Section NoDiv.
Context {F : Type} `{Scalar F}.

Lemma no_div_Ok {A} (a : A) : no_div (Ok a).
Proof. done. Qed.

Lemma no_div_load {A} (b : list A) i : no_div (load b i).
Proof. unfold load. by destruct (b !! i). Qed.

Lemma no_div_store {A} (b : list A) i v : no_div (store b i v).
Proof. unfold store. by destruct (decide _). Qed.

Lemma no_div_bind {A B} (m : Res A) (f : A → Res B) :
  no_div m → (∀ a, no_div (f a)) → no_div (m ≫= f).
Proof.
  intros Hm Hf. destruct m; [apply Hf|]. intros [= ->]. by apply Hm.
Qed.

Lemma no_div_for {St} n (body : nat → St → Res St) s :
  (∀ i s, no_div (body i s)) → no_div (for_ n body s).
Proof.
  intros Hb. induction n as [|n IH]; [done|].
  rewrite for_S. by apply no_div_bind.
Qed.

Lemma no_div_liftR {A} (r : Res A) g : no_div r → no_div (liftR r g).
Proof. unfold liftR. destruct r; [done|]. intros Hr [= ->]. by apply Hr. Qed.

Lemma no_div_M_bind {A B} (m : M A) (f : A → M B) g :
  no_div (m g) →
  (∀ a g', m g = Ok (a, g') → no_div (f a g')) →
  no_div ((m ≫= f) g).
Proof.
  intros Hm Hf. unfold mbind, M_bind.
  destruct (m g) as [[a g']|e] eqn:E; [by apply Hf|].
  intros [= ->]. by apply Hm.
Qed.

Lemma no_div_cell_loop {St} (body : nat → St → M St) cells s g :
  (∀ ii s g, ii ∈ cells → no_div (body ii s g)) →
  no_div (cell_loop body cells s g).
Proof.
  revert s g. induction cells as [|ii cells IH]; intros s g Hb; [done|].
  simpl. apply no_div_M_bind; [apply Hb; left|].
  intros s' g' _. unfold mbind, M_bind, ERR_Chk.
  destruct g'; [done|]. apply IH. intros. apply Hb. by right.
Qed.

Lemma no_div_fmf_product tA tB (objR objA objB : FMField F) :
  no_div (fmf_product tA tB objR objA objB).
Proof.
  unfold fmf_product. destruct (decide _); [|done].
  apply no_div_bind; [|done].
  apply no_div_for. intros. apply no_div_for. intros. apply no_div_for. intros.
  apply no_div_bind; [apply no_div_store|]. intros.
  apply no_div_for. intros.
  repeat (apply no_div_bind; [apply no_div_load|]; intros).
  apply no_div_store.
Qed.

Lemma no_div_fmf_sumLevelsMulF (objR objA : FMField F) v :
  no_div (fmf_sumLevelsMulF objR objA v).
Proof.
  unfold fmf_sumLevelsMulF.
  apply no_div_bind; [apply no_div_for; intros; apply no_div_store|]. intros.
  apply no_div_bind; [|done].
  apply no_div_for. intros. apply no_div_for. intros.
  repeat (apply no_div_bind; [apply no_div_load|]; intros).
  apply no_div_store.
Qed.

Lemma no_div_fmf_mulC (obj : FMField F) v : no_div (fmf_mulC obj v).
Proof.
  unfold fmf_mulC. apply no_div_bind; [|done].
  apply no_div_for. intros.
  apply no_div_bind; [apply no_div_load|]. intros. apply no_div_store.
Qed.

End NoDiv.

(** Without the precondition the division does fault: a zero facet area
    reaches the unguarded [1.0 / sg->area->val[0]]. *)
Lemma d_surface_flux_zero_area :
  d_surface_flux flux_out flux_grad flux_D2 flux_sg0 1 false = Err DivByZero.
Proof. vm_compute. reflexivity. Qed.

(** C9. [d_surface_flux] divides by the facet area without a guard.  When
    the facet area of every processed cell is non-zero, no call - in either
    mode, on any input - ends in a division by zero: the fault branch of the
    guarded division is unreachable. *)
Theorem d_surface_flux_division_safe {F : Type} `{Scalar F}
    (out grad mtxD : FMField F) (sg : SurfaceGeometry F) (mode : Z) (g : bool) :
  (∀ ii a, ii < nCell out →
     val0 (area sg) !! (ii * cellSize (area sg) + 0) = Some a →
     fis0 a = false) →
  d_surface_flux out grad mtxD sg mode g ≠ Err DivByZero.
Proof.
  intros Harea. unfold d_surface_flux.
  apply no_div_M_bind; [|by intros [ret [o ?]] g' _].
  apply no_div_cell_loop. intros ii [o [dgp ntdgp]] g' Hii.
  apply elem_of_seq in Hii. unfold d_surface_flux_cell.
  apply no_div_M_bind; [apply no_div_liftR, no_div_fmf_product|]. intros dgp' ? _.
  apply no_div_M_bind; [apply no_div_liftR, no_div_fmf_product|]. intros nt' ? _.
  apply no_div_M_bind; [apply no_div_liftR, no_div_fmf_sumLevelsMulF|].
  intros o' ? _.
  apply no_div_M_bind; [|done].
  destruct (decide (mode = 1%Z)); [|done].
  apply no_div_M_bind; [apply no_div_liftR, no_div_load|]. intros a g1 Ha.
  apply no_div_M_bind; [|intros; apply no_div_liftR, no_div_fmf_mulC].
  apply no_div_liftR. unfold fdiv_guarded.
  assert (fis0 a = false) as ->; [|done].
  apply (Harea ii); [lia|]. simpl in Ha. unfold liftR, load in Ha.
  destruct (val0 (area sg) !! (ii * cellSize (area sg) + 0)); [|done].
  by injection Ha as -> _.
Qed.

Lemma d_surface_flux_division_safe_witness :
  (∀ ii a, ii < nCell flux_out →
     val0 (area flux_sg) !! (ii * cellSize (area flux_sg) + 0) = Some a →
     fis0 a = false)
  ∧ d_surface_flux flux_out flux_grad flux_D2 flux_sg 1 false ≠ Err DivByZero.
Proof.
  assert (∀ ii a, ii < nCell flux_out →
     val0 (area flux_sg) !! (ii * cellSize (area flux_sg) + 0) = Some a →
     fis0 a = false) as Harea.
  { intros ii a Hii. simpl in Hii.
    assert (ii = 0 ∨ ii = 1) as [-> | ->] by lia; simpl; by intros [= <-]. }
  split; [exact Harea|].
  exact (d_surface_flux_division_safe flux_out flux_grad flux_D2 flux_sg 1 false
           Harea).
Defined.

(** ** Two runs side by side *)

Section Relational.
Context {A B : Type}.

Lemma rrel_refl (r : Res A) : rrel eq r r.
Proof. by destruct r. Qed.

Lemma rrel_mono (P Q : A → B → Prop) r1 r2 :
  (∀ a b, P a b → Q a b) → rrel P r1 r2 → rrel Q r1 r2.
Proof. intros HPQ. destruct r1, r2; simpl; auto. Qed.

Lemma rrel_bind {A' B'} (P : A → B → Prop) (Q : A' → B' → Prop)
    (m1 : Res A) (m2 : Res B) (f1 : A → Res A') (f2 : B → Res B') :
  rrel P m1 m2 →
  (∀ a b, P a b → rrel Q (f1 a) (f2 b)) →
  rrel Q (m1 ≫= f1) (m2 ≫= f2).
Proof. destruct m1, m2; simpl; try done. auto. Qed.

Lemma rrel_bind_same {C} (Q : A → B → Prop) (m : Res C)
    (f1 : C → Res A) (f2 : C → Res B) :
  (∀ c, rrel Q (f1 c) (f2 c)) → rrel Q (m ≫= f1) (m ≫= f2).
Proof. destruct m; simpl; auto. Qed.

Lemma rrel_for (P : nat → A → B → Prop) n
    (body1 : nat → A → Res A) (body2 : nat → B → Res B) s1 s2 :
  P 0 s1 s2 →
  (∀ i s1 s2, i < n → P i s1 s2 → rrel (P (S i)) (body1 i s1) (body2 i s2)) →
  rrel (P n) (for_ n body1 s1) (for_ n body2 s2).
Proof.
  intros H0 Hstep. induction n as [|n IH]; [done|].
  rewrite !for_S. eapply rrel_bind.
  - apply IH. intros. apply Hstep; [lia|done].
  - intros a b Hab. apply Hstep; [lia|done].
Qed.

Lemma srel_ret (P : A → B → Prop) a b :
  P a b → srel P (mret (M:=M) a false) (mret (M:=M) b false).
Proof. intros HP. by repeat split. Qed.

Lemma srel_bind_liftR {A' B'} (P : A' → B' → Prop) (Q : A → B → Prop)
    (r1 : Res A) (r2 : Res B) (f1 : A → M A') (f2 : B → M B') :
  rrel Q r1 r2 →
  (∀ a b, Q a b → srel P (f1 a false) (f2 b false)) →
  srel P ((liftR r1 ≫= f1) false) ((liftR r2 ≫= f2) false).
Proof.
  intros HQ Hf. unfold mbind, M_bind, liftR.
  destruct r1, r2; simpl in *; try done. by apply Hf.
Qed.

Lemma srel_bind_liftR_same {C} (P : A → B → Prop) (r : Res C)
    (f1 : C → M A) (f2 : C → M B) :
  (∀ c, srel P (f1 c false) (f2 c false)) →
  srel P ((liftR r ≫= f1) false) ((liftR r ≫= f2) false).
Proof.
  intros Hf. unfold mbind, M_bind, liftR. destruct r; simpl; [apply Hf|done].
Qed.

Lemma srel_liftR (Q : A → B → Prop) (r1 : Res A) (r2 : Res B) :
  rrel Q r1 r2 → srel Q (liftR r1 false) (liftR r2 false).
Proof. unfold liftR. destruct r1, r2; simpl; try done. Qed.

Lemma srel_bind {A' B'} (P : A' → B' → Prop) (Q : A → B → Prop)
    (m1 : M A) (m2 : M B) (f1 : A → M A') (f2 : B → M B') :
  srel Q (m1 false) (m2 false) →
  (∀ a b, Q a b → srel P (f1 a false) (f2 b false)) →
  srel P ((m1 ≫= f1) false) ((m2 ≫= f2) false).
Proof.
  intros HQ Hf. unfold mbind, M_bind.
  destruct (m1 false) as [[a g1]|e1], (m2 false) as [[b g2]|e2];
    simpl in *; try done.
  destruct HQ as (-> & -> & HQ). by apply Hf.
Qed.

Lemma srel_eq (r1 r2 : Res (A * bool)) : srel eq r1 r2 → r1 = r2.
Proof.
  destruct r1 as [[a1 g1]|e1], r2 as [[a2 g2]|e2]; simpl; try done.
  - intros (-> & -> & ->). done.
  - by intros ->.
Qed.

Lemma srel_mono (P Q : A → B → Prop) r1 r2 :
  (∀ a b, P a b → Q a b) → srel P r1 r2 → srel Q r1 r2.
Proof.
  intros HPQ. unfold srel.
  destruct r1 as [[a1 g1]|e1], r2 as [[a2 g2]|e2]; simpl; try done.
  intros (? & ? & ?). auto.
Qed.

(** A common prefix that leaves the error flag as it found it. *)
Lemma srel_bind_same {C} (P : A → B → Prop) (m : M C)
    (f1 : C → M A) (f2 : C → M B) :
  (∀ c g', m false = Ok (c, g') → g' = false) →
  (∀ c, srel P (f1 c false) (f2 c false)) →
  srel P ((m ≫= f1) false) ((m ≫= f2) false).
Proof.
  intros Hm Hf. unfold mbind, M_bind.
  destruct (m false) as [[c g']|e] eqn:E; [|done].
  rewrite (Hm c g' eq_refl). apply Hf.
Qed.

End Relational.

Section Agree.
Context {A : Type}.
Implicit Types (b : list A).

Lemma agree_le L k k' b1 b2 : k' ≤ k → agree L k b1 b2 → agree L k' b1 b2.
Proof. intros Hk (? & ? & Ha). repeat split; try done. intros. apply Ha. lia. Qed.

Lemma agree_all L k b1 b2 : L ≤ k → agree L k b1 b2 → b1 = b2.
Proof.
  intros Hk (Hl1 & Hl2 & Ha). apply list_eq. intros j.
  destruct (decide (j < L)).
  - apply Ha. lia.
  - rewrite !lookup_ge_None_2 by lia. done.
Qed.

Lemma agree_load L k b1 b2 i :
  agree L k b1 b2 → i < k → rrel eq (load b1 i) (load b2 i).
Proof.
  intros (Hl1 & Hl2 & Ha) Hi. unfold load. rewrite (Ha i Hi).
  by destruct (b2 !! i).
Qed.

(** A store below or at the frontier extends the agreement. *)
Lemma agree_store L k b1 b2 i v :
  agree L k b1 b2 → i ≤ k →
  rrel (agree L (Nat.max k (S i))) (store b1 i v) (store b2 i v).
Proof.
  intros (Hl1 & Hl2 & Ha) Hi. unfold store. rewrite Hl1, Hl2.
  destruct (decide (i < L)); simpl; [|done].
  split; [by rewrite length_insert|]. split; [by rewrite length_insert|].
  intros j Hj. destruct (decide (j = i)) as [->|].
  - by rewrite !list_lookup_insert_eq by lia.
  - rewrite !list_lookup_insert_ne by done. apply Ha. lia.
Qed.

End Agree.

Section PrimRel.
Context {F : Type} `{Scalar F}.
Implicit Types (o objA : FMField F).

Lemma out_agree_set_cell L k o1 o2 ii :
  out_agree L k o1 o2 → out_agree L k (FMF_SetCell o1 ii) (FMF_SetCell o2 ii).
Proof.
  intros (? & ? & ? & ? & Hcs & ? & ?). unfold out_agree. simpl.
  rewrite Hcs. done.
Qed.

Lemma out_agree_all L k o1 o2 : L ≤ k → out_agree L k o1 o2 → o1 = o2.
Proof.
  destruct o1, o2. intros Hk (? & ? & ? & ? & ? & ? & Hag). simpl in *.
  apply agree_all in Hag; [|done]. by subst.
Qed.

Lemma out_agree_upd L k k' o1 o2 o1' o2' :
  out_agree L k o1 o2 → upd_of o1 o1' → upd_of o2 o2' →
  agree L k' (val0 o1') (val0 o2') → out_agree L k' o1' o2'.
Proof.
  intros (? & ? & ? & ? & ? & ? & _) -> -> Hag. unfold out_agree. simpl. done.
Qed.

(** [fmf_sumLevelsMulF] overwrites the current cell of its result: two
    results that agreed up to the cursor agree up to the end of the cell. *)
Lemma fmf_sumLevelsMulF_rel L o1 o2 objA v :
  out_agree L (val o1) o1 o2 →
  rrel (λ o1' o2', upd_of o1 o1' ∧ upd_of o2 o2'
                   ∧ agree L (val o1 + nRow o1 * nCol o1) (val0 o1') (val0 o2'))
    (fmf_sumLevelsMulF o1 objA v) (fmf_sumLevelsMulF o2 objA v).
Proof.
  intros (H1 & H2 & H3 & H4 & H5 & H6 & Hag). unfold fmf_sumLevelsMulF.
  rewrite <-H3, <-H4, <-H6.
  set (n := nRow o1 * nCol o1). set (k := val o1).
  eapply rrel_bind.
  { apply (rrel_for (λ i, agree L (k + i))).
    - by rewrite Nat.add_0_r.
    - intros i b1 b2 Hi Hb. eapply rrel_mono; [|apply agree_store; [done|lia]].
      intros b1' b2'. apply agree_le. lia. }
  intros b1 b2 Hb. eapply rrel_bind.
  { apply (rrel_for (λ _, agree L (k + n))); [done|].
    intros il b1' b2' Hil Hb'.
    apply (rrel_for (λ _, agree L (k + n))); [done|].
    intros i c1 c2 Hi Hc. eapply rrel_bind.
    { apply (agree_load L (k + n)); [done|lia]. }
    intros x ? <-. apply rrel_bind_same. intros a. apply rrel_bind_same.
    intros w. eapply rrel_mono; [|apply agree_store; [done|lia]].
    intros c1' c2'. apply agree_le. lia. }
  intros b1' b2' Hb'. simpl. done.
Qed.

(** [fmf_mulC] on a one-level result scales the current cell in place. *)
Lemma fmf_mulC_rel L o1 o2 v :
  nLev o1 = 1 →
  out_agree L (val o1 + nRow o1 * nCol o1) o1 o2 →
  rrel (λ o1' o2', upd_of o1 o1' ∧ upd_of o2 o2'
                   ∧ agree L (val o1 + nRow o1 * nCol o1) (val0 o1') (val0 o2'))
    (fmf_mulC o1 v) (fmf_mulC o2 v).
Proof.
  intros HL (H1 & H2 & H3 & H4 & H5 & H6 & Hag). unfold fmf_mulC.
  rewrite <-H2, <-H3, <-H4, <-H6, HL.
  set (n := nRow o1 * nCol o1) in *. set (k := val o1) in *.
  eapply rrel_bind.
  { apply (rrel_for (λ _, agree L (k + n))); [done|].
    intros i c1 c2 Hi Hc. eapply rrel_bind.
    { apply (agree_load L (k + n)); [done|lia]. }
    intros x ? <-. eapply rrel_mono; [|apply agree_store; [done|lia]].
    intros c1' c2'. apply agree_le. lia. }
  intros b1' b2' Hb'. simpl. done.
Qed.

End PrimRel.

(** ** The error flag *)

Section KeepsFlag.
Context {F : Type} `{Scalar F}.

Lemma keeps_flag_liftR {A} (r : Res A) : keeps_flag (liftR r).
Proof. intros a g'. unfold liftR. destruct r; [|done]. by intros [= _ <-]. Qed.

Lemma keeps_flag_ret {A} (a : A) : keeps_flag (mret a).
Proof. intros a' g'. by intros [= _ <-]. Qed.

Lemma keeps_flag_bind {A B} (m : M A) (f : A → M B) :
  keeps_flag m → (∀ a, keeps_flag (f a)) → keeps_flag (m ≫= f).
Proof.
  intros Hm Hf b g'. unfold mbind, M_bind.
  destruct (m false) as [[a g1]|e] eqn:E; [|done].
  rewrite (Hm a g1 E). apply Hf.
Qed.

Lemma laplace_build_gtg_keeps_flag (out gc : FMField F) :
  nRow gc = 2 ∨ nRow gc = 3 → keeps_flag (laplace_build_gtg out gc).
Proof.
  intros Hdim. unfold laplace_build_gtg.
  apply keeps_flag_bind; [apply keeps_flag_liftR|]. intros o.
  destruct Hdim as [-> | ->];
    (apply keeps_flag_bind; [apply keeps_flag_liftR|]);
    intros b; apply keeps_flag_ret.
Qed.

Lemma laplace_act_gt_m_keeps_flag (out gc mtx : FMField F) :
  nRow gc = 2 ∨ nRow gc = 3 → keeps_flag (laplace_act_gt_m out gc mtx).
Proof.
  intros Hdim. unfold laplace_act_gt_m.
  destruct Hdim as [-> | ->];
    (apply keeps_flag_bind; [apply keeps_flag_liftR|]);
    intros b; apply keeps_flag_ret.
Qed.

End KeepsFlag.

(** ** Output buffers are overwritten *)

Lemma cell_loop_rel {St1 St2} (R : nat → St1 → St2 → Prop)
    (body1 : nat → St1 → M St1) (body2 : nat → St2 → M St2) n k s1 s2 :
  R k s1 s2 →
  (∀ i s1 s2, k ≤ i < k + n → R i s1 s2 →
     srel (R (S i)) (body1 i s1 false) (body2 i s2 false)) →
  srel (λ x1 x2, x1.1 = RET_OK ∧ x2.1 = RET_OK ∧ R (k + n) x1.2 x2.2)
    (cell_loop body1 (seq k n) s1 false) (cell_loop body2 (seq k n) s2 false).
Proof.
  revert k s1 s2. induction n as [|n IH]; intros k s1 s2 HR Hstep.
  - simpl. rewrite Nat.add_0_r. done.
  - simpl. unfold mbind at 1 3, M_bind.
    pose proof (Hstep k s1 s2 ltac:(lia) HR) as Hb.
    destruct (body1 k s1 false) as [[a1 g1]|e1],
             (body2 k s2 false) as [[a2 g2]|e2]; simpl in *; try done.
    destruct Hb as (-> & -> & HR'). simpl.
    replace (k + S n) with (S k + n) by lia.
    apply IH; [done|]. intros. apply Hstep; [lia|done].
Qed.

Section Overwrite.
Context {F : Type} `{Scalar F}.

(** One cell of an evaluator: the same computation on the scratch buffers,
    then the reduction over the quadrature points into the output. *)
Lemma sum_step_rel {St} L cs ii (o1 o2 objA : FMField F) v
    (k1 k2 : FMField F → M St) (P : St → St → Prop) :
  out_inv L cs ii o1 o2 →
  (∀ o1' o2', out_inv L cs (S ii) o1' o2' →
     val o1' = ii * cs → srel P (k1 o1' false) (k2 o2' false)) →
  srel P
    ((liftR (fmf_sumLevelsMulF (FMF_SetCell o1 ii) objA v) ≫= k1) false)
    ((liftR (fmf_sumLevelsMulF (FMF_SetCell o2 ii) objA v) ≫= k2) false).
Proof.
  intros (Hag & HL & Hcs & Hrc) Hk.
  eapply srel_bind_liftR.
  - apply (fmf_sumLevelsMulF_rel L). simpl. rewrite Hcs.
    by apply out_agree_set_cell.
  - simpl. intros o1' o2' (Hu1 & Hu2 & Hag'). rewrite Hcs, Hrc in Hag'.
    assert (out_agree L (S ii * cs) o1' o2') as Hag''.
    { eapply out_agree_upd;
        [apply (out_agree_set_cell L (ii * cs) o1 o2 ii), Hag|done..|].
      by replace (S ii * cs) with (ii * cs + cs) by lia. }
    apply Hk.
    + split; [done|]. rewrite Hu1. simpl. done.
    + rewrite Hu1. simpl. by rewrite Hcs.
Qed.

(** The cell loop of an evaluator whose cells treat the output as in
    [sum_step_rel]: the final output does not depend on the initial one. *)
Lemma cell_loop_out_indep {X C} (body : nat → FMField F * X → M (FMField F * X))
    n (o1 o2 : FMField F) sc (fin : int32_ret * (FMField F * X) → M C) :
  out_agree (length (val0 o1)) 0 o1 o2 →
  out_wf o1 n →
  (∀ ii o1 o2 sc, ii < n →
     out_inv (length (val0 o1)) (cellSize o1) ii o1 o2 →
     srel (cell_post (length (val0 o1)) (cellSize o1) ii)
       (body ii (o1, sc) false) (body ii (o2, sc) false)) →
  (cell_loop body (seq 0 n) (o1, sc) ≫= fin) false
  = (cell_loop body (seq 0 n) (o2, sc) ≫= fin) false.
Proof.
  intros Hag (HL & Hcs & Hlen) Hbody.
  set (L := length (val0 o1)) in *. set (cs := cellSize o1) in *.
  apply M_bind_congr_l, srel_eq.
  eapply srel_mono;
    [|apply (cell_loop_rel (λ i s1 s2, s1.2 = s2.2 ∧ out_inv L cs i s1.1 s2.1))].
  - intros [r1 [a1 x1]] [r2 [a2 x2]]. simpl.
    intros (-> & -> & -> & Hinv & _). f_equal. f_equal.
    eapply out_agree_all; [|exact Hinv]. lia.
  - simpl. split; [done|]. split; [done|]. by rewrite <-Hcs.
  - intros ii [a1 x1] [a2 x2] Hii. simpl. intros (-> & Hinv).
    destruct Hinv as (Hag' & HL' & Hcs' & Hrc').
    assert (length (val0 a1) = L) as HLa by apply Hag'.
    pose proof (Hbody ii a1 a2 x2 ltac:(lia)) as Hb.
    rewrite HLa, Hcs' in Hb. apply Hb. done.
Qed.

End Overwrite.

(** Strip the computation the two runs share, then relate the reduction
    into the two outputs. *)
Ltac rel_cell :=
  repeat first
    [ apply srel_bind_liftR_same; intros ?
    | eapply sum_step_rel; [eassumption|]; intros ? ? ? ?
    | apply srel_ret; unfold cell_post; simpl; by auto ].

Section OverwriteCells.
Context {F : Type} `{Scalar F}.
Implicit Types (o : FMField F).

Lemma dw_laplace_cell_rel grad coef (vg : VolumeGeometry F) isDiff L cs ii (o1 o2 : FMField F) sc :
  nRow (bfGM vg) = 2 ∨ nRow (bfGM vg) = 3 →
  out_inv L cs ii o1 o2 →
  srel (cell_post L cs ii)
    (dw_laplace_cell grad coef vg isDiff ii (o1, sc) false)
    (dw_laplace_cell grad coef vg isDiff ii (o2, sc) false).
Proof.
  intros Hdim Hinv. destruct sc as [gtg gtgu]. unfold dw_laplace_cell.
  destruct (decide (isDiff ≠ 0%Z)).
  - apply srel_bind_same; [by apply laplace_build_gtg_keeps_flag|].
    intros [? ?]. rel_cell.
  - apply srel_bind_same; [by apply laplace_act_gt_m_keeps_flag|].
    intros [? ?]. rel_cell.
Qed.

Lemma d_laplace_cell_rel gradP1 gradP2 coef (vg : VolumeGeometry F) L cs ii (o1 o2 : FMField F) sc :
  out_inv L cs ii o1 o2 →
  srel (cell_post L cs ii)
    (d_laplace_cell gradP1 gradP2 coef vg ii (o1, sc) false)
    (d_laplace_cell gradP1 gradP2 coef vg ii (o2, sc) false).
Proof.
  intros Hinv. destruct sc as [dgp2 gp1tdgp2]. unfold d_laplace_cell. rel_cell.
Qed.

Lemma dw_diffusion_cell_rel grad mtxD (vg : VolumeGeometry F) isDiff L cs ii (o1 o2 : FMField F) sc :
  out_inv L cs ii o1 o2 →
  srel (cell_post L cs ii)
    (dw_diffusion_cell grad mtxD vg isDiff ii (o1, sc) false)
    (dw_diffusion_cell grad mtxD vg isDiff ii (o2, sc) false).
Proof.
  intros Hinv. destruct sc as [[[gtd gtdg] dgp] gtdgp]. unfold dw_diffusion_cell.
  destruct (decide (isDiff ≠ 0%Z)); rel_cell.
Qed.

Lemma d_diffusion_cell_rel gradP1 gradP2 mtxD (vg : VolumeGeometry F) L cs ii (o1 o2 : FMField F) sc :
  out_inv L cs ii o1 o2 →
  srel (cell_post L cs ii)
    (d_diffusion_cell gradP1 gradP2 mtxD vg ii (o1, sc) false)
    (d_diffusion_cell gradP1 gradP2 mtxD vg ii (o2, sc) false).
Proof.
  intros Hinv. destruct sc as [dgp2 gp1tdgp2]. unfold d_diffusion_cell. rel_cell.
Qed.

Lemma dw_permeability_r_cell_rel mtxD (vg : VolumeGeometry F) L cs ii (o1 o2 : FMField F) sc :
  out_inv L cs ii o1 o2 →
  srel (cell_post L cs ii)
    (dw_permeability_r_cell mtxD vg ii (o1, sc) false)
    (dw_permeability_r_cell mtxD vg ii (o2, sc) false).
Proof. intros Hinv. unfold dw_permeability_r_cell. rel_cell. Qed.

Lemma dw_diffusion_coupling_cell_rel state mtxD bf (vg : VolumeGeometry F) conn nEP
    elList isDiff mode L cs ii (o1 o2 : FMField F) sc :
  out_inv L cs ii o1 o2 →
  srel (cell_post L cs ii)
    (dw_diffusion_coupling_cell state mtxD bf vg conn nEP elList isDiff mode
       ii (o1, sc) false)
    (dw_diffusion_coupling_cell state mtxD bf vg conn nEP elList isDiff mode
       ii (o2, sc) false).
Proof.
  intros Hinv. unfold dw_diffusion_coupling_cell.
  apply srel_bind_liftR_same. intros iel.
  destruct (decide (isDiff ≠ 0%Z)); [rel_cell|].
  apply srel_bind_liftR_same. intros st.
  apply srel_bind_same.
  { destruct (decide (0 < mode)%Z);
      repeat (apply keeps_flag_bind; [apply keeps_flag_liftR|]; intros ?);
      apply keeps_flag_ret. }
  intros [[gp dgp] gtdgp]. rel_cell.
Qed.

Lemma d_diffusion_coupling_cell_rel stateP stateQ mtxD bf (vg : VolumeGeometry F)
    conn nEP elList mode L cs ii (o1 o2 : FMField F) sc :
  out_inv L cs ii o1 o2 →
  srel (cell_post L cs ii)
    (d_diffusion_coupling_cell stateP stateQ mtxD bf vg conn nEP elList mode
       ii (o1, sc) false)
    (d_diffusion_coupling_cell stateP stateQ mtxD bf vg conn nEP elList mode
       ii (o2, sc) false).
Proof.
  intros Hinv. destruct sc as [[[[st aux1] aux2] aux3] aux4].
  unfold d_diffusion_coupling_cell.
  apply srel_bind_liftR_same. intros iel.
  apply srel_bind_liftR_same. intros st'.
  apply srel_bind_same.
  { destruct (decide (0 < mode)%Z);
      repeat (apply keeps_flag_bind; [apply keeps_flag_liftR|]; intros ?);
      apply keeps_flag_ret. }
  intros [[a1 a2] a3]. rel_cell.
Qed.

Lemma d_surface_flux_cell_rel grad mtxD (sg : SurfaceGeometry F) mode L cs ii (o1 o2 : FMField F) sc :
  out_inv L cs ii o1 o2 →
  srel (cell_post L cs ii)
    (d_surface_flux_cell grad mtxD sg mode ii (o1, sc) false)
    (d_surface_flux_cell grad mtxD sg mode ii (o2, sc) false).
Proof.
  intros Hinv. destruct sc as [dgp ntdgp]. unfold d_surface_flux_cell.
  apply srel_bind_liftR_same. intros dgp'.
  apply srel_bind_liftR_same. intros ntdgp'.
  eapply sum_step_rel; [eassumption|]. intros o1' o2' Hinv' Hval.
  eapply (srel_bind _ (out_inv L cs (S ii)));
    [|intros; by apply srel_ret].
  destruct (decide (mode = 1%Z)); [|by apply srel_ret].
  apply srel_bind_liftR_same. intros a.
  apply srel_bind_liftR_same. intros r.
  apply srel_liftR.
  destruct Hinv' as (Hag & HL & Hcs & Hrc).
  eapply rrel_mono; [|apply (fmf_mulC_rel L); [done|]].
  - simpl. intros p1 p2 (Hu1 & Hu2 & Hag'). split.
    + eapply out_agree_upd; [exact Hag|done..|].
      rewrite Hval, Hrc in Hag'. by replace (S ii * cs) with (ii * cs + cs) by lia.
    + rewrite Hu1. simpl. done.
  - rewrite Hval, Hrc. by replace (ii * cs + cs) with (S ii * cs) by lia.
Qed.

End OverwriteCells.

(** C8. Every evaluator overwrites its output buffer: on an output buffer
    with one level per cell whose allocation holds exactly the processed
    cells ([nCell] cells, or [elList_nRow] cells for the coupling terms),
    started with the error flag clear (and, for [dw_laplace], with space
    dimension 2 or 3), two calls that differ only in the initial contents of
    the output buffer give the same result: the same fault, or the same
    final output buffer, return status and error flag. *)
Theorem output_fully_overwritten {F : Type} `{Scalar F}
    (out1 out2 grad gradP1 gradP2 coef mtxD state stateP stateQ bf : FMField F)
    (vg : VolumeGeometry F) (sg : SurfaceGeometry F)
    (conn elList : list nat) (offset nEl nEP elList_nRow : nat)
    (isDiff mode : Z) :
  out_agree (length (val0 out1)) 0 out1 out2 →
  (out_wf out1 (nCell out1) →
     (nRow (bfGM vg) = 2 ∨ nRow (bfGM vg) = 3 →
        dw_laplace out1 grad coef vg isDiff false
        = dw_laplace out2 grad coef vg isDiff false)
     ∧ d_laplace out1 gradP1 gradP2 coef vg false
       = d_laplace out2 gradP1 gradP2 coef vg false
     ∧ dw_diffusion out1 grad mtxD vg isDiff false
       = dw_diffusion out2 grad mtxD vg isDiff false
     ∧ d_diffusion out1 gradP1 gradP2 mtxD vg false
       = d_diffusion out2 gradP1 gradP2 mtxD vg false
     ∧ dw_permeability_r out1 mtxD vg false
       = dw_permeability_r out2 mtxD vg false
     ∧ d_surface_flux out1 grad mtxD sg mode false
       = d_surface_flux out2 grad mtxD sg mode false)
  ∧ (out_wf out1 elList_nRow →
       dw_diffusion_coupling out1 state offset mtxD bf vg conn nEl nEP
         elList elList_nRow isDiff mode false
       = dw_diffusion_coupling out2 state offset mtxD bf vg conn nEl nEP
           elList elList_nRow isDiff mode false
       ∧ d_diffusion_coupling out1 stateP stateQ mtxD bf vg conn nEl nEP
           elList elList_nRow isDiff mode false
         = d_diffusion_coupling out2 stateP stateQ mtxD bf vg conn nEl nEP
             elList elList_nRow isDiff mode false).
Proof.
  intros Hag.
  assert (nCell out2 = nCell out1) as Hn by (symmetry; apply Hag).
  split; intros Hwf.
  - repeat split.
    + intros Hdim. unfold dw_laplace. rewrite Hn.
      apply cell_loop_out_indep; [done..|].
      intros. by apply dw_laplace_cell_rel.
    + unfold d_laplace. rewrite Hn. apply cell_loop_out_indep; [done..|].
      intros. by apply d_laplace_cell_rel.
    + unfold dw_diffusion. rewrite Hn. apply cell_loop_out_indep; [done..|].
      intros. by apply dw_diffusion_cell_rel.
    + unfold d_diffusion. rewrite Hn. apply cell_loop_out_indep; [done..|].
      intros. by apply d_diffusion_cell_rel.
    + unfold dw_permeability_r. rewrite Hn.
      apply cell_loop_out_indep; [done..|].
      intros. by apply dw_permeability_r_cell_rel.
    + unfold d_surface_flux. rewrite Hn. apply cell_loop_out_indep; [done..|].
      intros. by apply d_surface_flux_cell_rel.
  - split.
    + unfold dw_diffusion_coupling. apply cell_loop_out_indep; [done..|].
      intros. by apply dw_diffusion_coupling_cell_rel.
    + unfold d_diffusion_coupling. apply cell_loop_out_indep; [done..|].
      intros. by apply d_diffusion_coupling_cell_rel.
Qed.

Lemma output_fully_overwritten_witness :
  out_agree (length (val0 tetra_out)) 0 tetra_out tetra_out'
  ∧ out_wf tetra_out (nCell tetra_out)
  ∧ dw_laplace tetra_out fmf_null tetra_coef tetra_vg 1 false
    = dw_laplace tetra_out' fmf_null tetra_coef tetra_vg 1 false
  ∧ d_laplace tetra_out tetra_G tetra_G tetra_coef tetra_vg false
    = d_laplace tetra_out' tetra_G tetra_G tetra_coef tetra_vg false.
Proof.
  assert (out_agree (length (val0 tetra_out)) 0 tetra_out tetra_out') as Hag.
  { repeat split. intros j Hj. lia. }
  assert (out_wf tetra_out (nCell tetra_out)) as Hwf by (by repeat split).
  split; [exact Hag|]. split; [exact Hwf|].
  destruct (output_fully_overwritten tetra_out tetra_out' fmf_null tetra_G tetra_G
              tetra_coef tetra_coef tetra_G tetra_G tetra_G tetra_G tetra_vg
              flux_sg [] [] 0 0 0 0 1%Z 0%Z Hag) as [Hvol _].
  destruct (Hvol Hwf) as (Hlap & Hdlap & _).
  split; [apply Hlap; by right | exact Hdlap].
Defined.

(** ** The two orientations of the coupling matrix *)

Lemma cpl_valid : coupling_valid cpl_out cpl_D cpl_G cpl_vg 2 [0] 1.
Proof.
  unfold coupling_valid, fmf_wf. simpl. repeat split; try done; try lia.
  intros ii Hii. exists 0. assert (ii = 0) as -> by lia. repeat split; lia.
Qed.

Lemma quad_cpl_valid :
  coupling_valid quad_out_m quad_Dv quad_bf quad_vg 2 quad_elList 2.
Proof.
  unfold coupling_valid, fmf_wf. simpl. repeat split; try lia.
  intros ii Hii. destruct ii as [|[|ii]]; [exists 0|exists 1|lia];
    simpl; repeat split; lia.
Qed.

(** C7, as stated, fails for matched spaces in more than one space
    dimension.  With the gradient buffer itself as shape-function buffer
    ([bf] = [quad_G], two rows) the products B^T (G^T D)^T and (G^T D) B of
    lines 475 and 477 do not conform, and neither orientation produces a
    matrix: both calls end in the shape fault of the product. *)
Lemma dw_diffusion_coupling_matched_counterexample :
  bfGM quad_vg = quad_G
  ∧ dw_diffusion_coupling quad_out_m quad_state 0 quad_Dv quad_G quad_vg
      quad_conn 2 2 quad_elList 2 1 1 false
    = Err ShapeMismatch
  ∧ dw_diffusion_coupling quad_out_m quad_state 0 quad_Dv quad_G quad_vg
      quad_conn 2 2 quad_elList 2 1 0 false
    = Err ShapeMismatch.
Proof. split; [reflexivity|]. split; vm_compute; reflexivity. Qed.

(** C7 (amended). In matrix mode and on well-formed inputs, where the
    shape-function buffer [bf] has one row and as many columns as the
    gradient buffer per quadrature point (for matched spaces, [bf] the
    gradient buffer itself, this is one space dimension), the coupling
    matrix [dw_diffusion_coupling] writes for an element with [mode > 0] is
    the transpose of the one it writes with [mode <= 0]. *)
Theorem dw_diffusion_coupling_transpose {F : Type} `{Scalar F}
    (out state mtxD bf : FMField F) (vg : VolumeGeometry F)
    (conn elList : list nat) (offset nEl nEP elList_nRow : nat)
    (isDiff modeP modeN : Z) :
  (∀ x y : F, fmul x y = fmul y x) →
  isDiff ≠ 0%Z → (0 < modeP)%Z → (modeN ≤ 0)%Z →
  coupling_valid out mtxD bf vg nEP elList elList_nRow →
  ∃ outP outN,
    dw_diffusion_coupling out state offset mtxD bf vg conn nEl nEP
      elList elList_nRow isDiff modeP false
    = Ok ((RET_OK, outP), false)
    ∧ dw_diffusion_coupling out state offset mtxD bf vg conn nEl nEP
        elList elList_nRow isDiff modeN false
      = Ok ((RET_OK, outN), false)
    ∧ ∀ ii i j, ii < elList_nRow → i < nEP → j < nEP →
        ∃ v, val0 outP !! (ii * cellSize out + i * nEP + j) = Some v
             ∧ val0 outN !! (ii * cellSize out + j * nEP + i) = Some v.
Proof.
  intros Hcomm HD HP HN Hvalid.
  destruct (dw_diffusion_coupling_matrix_spec out state offset mtxD bf vg conn
              nEl nEP elList elList_nRow isDiff modeP HD Hvalid)
    as (outP & HrunP & _ & HentP).
  destruct (dw_diffusion_coupling_matrix_spec out state offset mtxD bf vg conn
              nEl nEP elList elList_nRow isDiff modeN HD Hvalid)
    as (outN & HrunN & _ & HentN).
  exists outP, outN. split; [done|]. split; [done|].
  intros ii i j Hii Hi Hj.
  exists (coupling_entry mtxD bf vg nEP elList modeP ii i j).
  split; [by apply HentP|]. rewrite HentN by done. f_equal. symmetry.
  by apply (coupling_entry_transpose out mtxD bf vg nEP elList elList_nRow).
Qed.

Lemma dw_diffusion_coupling_transpose_witness :
  (coupling_valid cpl_out cpl_D cpl_G cpl_vg 2 [0] 1
   ∧ ∃ outP outN,
       dw_diffusion_coupling cpl_out fmf_null 0 cpl_D cpl_G cpl_vg [] 1 2 [0] 1
         1 1 false
       = Ok ((RET_OK, outP), false)
       ∧ dw_diffusion_coupling cpl_out fmf_null 0 cpl_D cpl_G cpl_vg [] 1 2 [0]
           1 1 0 false
         = Ok ((RET_OK, outN), false)
       ∧ ∃ v, val0 outP !! 1 = Some v ∧ val0 outN !! 2 = Some v)
  ∧ (coupling_valid quad_out_m quad_Dv quad_bf quad_vg 2 quad_elList 2
     ∧ ∃ outP outN,
         dw_diffusion_coupling quad_out_m quad_state 0 quad_Dv quad_bf quad_vg
           quad_conn 2 2 quad_elList 2 1 1 false
         = Ok ((RET_OK, outP), false)
         ∧ dw_diffusion_coupling quad_out_m quad_state 0 quad_Dv quad_bf
             quad_vg quad_conn 2 2 quad_elList 2 1 0 false
           = Ok ((RET_OK, outN), false)
         ∧ (∃ v, val0 outP !! 5 = Some v ∧ val0 outN !! 6 = Some v)
         ∧ val0 outP !! 5 ≠ val0 outP !! 6).
Proof.
  split.
  - split; [exact cpl_valid|].
    destruct (dw_diffusion_coupling_transpose cpl_out fmf_null cpl_D cpl_G
                cpl_vg [] [0] 0 1 2 1 1%Z 1%Z 0%Z (fmul_comm Z_SemiringLaws))
      as (outP & outN & HrunP & HrunN & Hent);
      [done|done|done|exact cpl_valid|].
    exists outP, outN. split; [exact HrunP|]. split; [exact HrunN|].
    apply (Hent 0 0 1); lia.
  - split; [exact quad_cpl_valid|].
    destruct (dw_diffusion_coupling_transpose quad_out_m quad_state quad_Dv
                quad_bf quad_vg quad_conn quad_elList 0 2 2 2 1%Z 1%Z 0%Z
                (fmul_comm Z_SemiringLaws))
      as (outP & outN & HrunP & HrunN & Hent);
      [done|done|done|exact quad_cpl_valid|].
    exists outP, outN. split; [exact HrunP|]. split; [exact HrunN|].
    split; [exact (Hent 1 0 1 ltac:(lia) ltac:(lia) ltac:(lia))|].
    assert (∃ o, dw_diffusion_coupling quad_out_m quad_state 0 quad_Dv quad_bf
                   quad_vg quad_conn 2 2 quad_elList 2 1 1 false
                 = Ok ((RET_OK, o), false)
                 ∧ val0 o = [7; 10; 14; 20; 38; 44; 76; 88]%Z)
      as (o & Hval & Hcells) by (eexists; split; vm_compute; reflexivity).
    rewrite Hval in HrunP. injection HrunP as <-. rewrite Hcells. discriminate.
Defined.

(** ** Steps of a cell body on scratch buffers *)

Ltac cell_simpl :=
  cbn [nCell nLev nRow nCol cellSize val0 val set_val0 set_val FMF_SetCell
       fmf_createAlloc scratch FMF_val fst snd].

Ltac fmf_simpl_in Hyp :=
  cbn [nCell nLev nRow nCol cellSize val0 val set_val0 set_val FMF_SetCell
       fmf_createAlloc fst snd] in Hyp.

Section CellSteps.
Context {F : Type} `{Scalar F}.
Implicit Types (X A B o out dt : FMField F) (b : list F).

Lemma length_mat_block nR nC (e : nat → nat → F) :
  length (mat_block nR nC e) = nR * nC.
Proof. apply length_concat_tab. intros. apply length_tab. Qed.

Lemma lookup_mat_block nR nC (e : nat → nat → F) r c :
  r < nR → c < nC → mat_block nR nC e !! (r * nC + c) = Some (e r c).
Proof.
  intros. unfold mat_block.
  rewrite (lookup_concat_tab _ nC); [|intros; apply length_tab|done..].
  by apply lookup_tab.
Qed.

Lemma slices_ok_cell X ii nL :
  fmf_wf X → nLev X = nL → ii < nCell X → slices_ok (FMF_SetCell X ii) nL.
Proof.
  intros [Hcs Hlen] HL Hii il Hil. unfold level_slice. fmf_simpl.
  rewrite decide_True by done. rewrite Hlen, Hcs, HL.
  assert (ii * (nL * nRow X * nCol X) + nL * nRow X * nCol X
          ≤ nCell X * (nL * nRow X * nCol X)) by (apply block_bound; lia).
  assert (il * (nRow X * nCol X) + nRow X * nCol X ≤ nL * (nRow X * nCol X))
    by (by apply block_bound).
  lia.
Qed.

Lemma slices_ok_batch X ii n nL nR nC :
  batch_ok X n nL nR nC → ii < n → slices_ok (FMF_SetCell X ii) nL.
Proof.
  intros (Hwf & HL & _ & _ & Hn) Hii. apply slices_ok_cell; [done..|lia].
Qed.

Lemma bcast_shape X ii :
  nCell (FMF_SetCell_bcast X ii) = nCell X
  ∧ nLev (FMF_SetCell_bcast X ii) = nLev X
  ∧ nRow (FMF_SetCell_bcast X ii) = nRow X
  ∧ nCol (FMF_SetCell_bcast X ii) = nCol X
  ∧ val0 (FMF_SetCell_bcast X ii) = val0 X.
Proof. unfold FMF_SetCell_bcast. by destruct (decide (1 < nCell X)). Qed.

Lemma slices_ok_bcast X ii n nL nR nC :
  bcast_ok X n nL nR nC → ii < n → slices_ok (FMF_SetCell_bcast X ii) nL.
Proof.
  intros (Hwf & HL & HR & HC & Hn) Hii. unfold FMF_SetCell_bcast.
  destruct (decide (1 < nCell X)).
  - apply slices_ok_cell; [done..|lia].
  - intros il Hil. unfold level_slice. rewrite decide_True by done.
    rewrite HR, HC.
    assert (il * (nR * nC) + nR * nC ≤ nL * (nR * nC)) by (by apply block_bound).
    lia.
Qed.

Lemma slices_ok_scratch nL nR nC b :
  length b = nL * (nR * nC) → slices_ok (scratch nL nR nC b) nL.
Proof.
  intros Hb il Hil. unfold level_slice. simpl. rewrite decide_True by done.
  assert (il * (nR * nC) + nR * nC ≤ nL * (nR * nC)) by (by apply block_bound).
  lia.
Qed.

(** A product into a scratch buffer. *)
Lemma product_scratch (tA tB : bool) nL nR nC b A B :
  length b = nL * (nR * nC) →
  nR = (if tA then nCol A else nRow A) →
  nC = (if tB then nRow B else nCol B) →
  (if tA then nRow A else nCol A) = (if tB then nCol B else nRow B) →
  slices_ok A nL → slices_ok B nL →
  fmf_product tA tB (scratch nL nR nC b) A B
  = Ok (scratch nL nR nC (product_block tA tB (scratch nL nR nC []) A B)).
Proof.
  intros Hb HR HC Hin HA HB.
  rewrite fmf_product_spec.
  - unfold scratch, set_val0. simpl. do 2 f_equal.
    rewrite splice_full by (rewrite length_product_block; simpl; lia).
    reflexivity.
  - unfold product_ok. simpl. repeat split; try done. lia.
Qed.

(** The entries of a scratch buffer that holds a product. *)
Lemma at_qp_product (tA tB : bool) nL nR nC A B q r c :
  q < nL → r < nR → c < nC →
  at_qp (scratch nL nR nC (product_block tA tB (scratch nL nR nC []) A B))
    nL q r c
  = product_entry tA tB (scratch nL nR nC []) A B q r c.
Proof.
  intros Hq Hr Hc. unfold at_qp, level_slice. simpl.
  rewrite decide_True by done. apply rd_lookup.
  match goal with
  | |- _ !! ?i = _ => replace i with (q * (nR * nC) + r * nC + c) by lia
  end.
  by apply (lookup_product_block tA tB (scratch nL nR nC [])).
Qed.

(** The weighted sum of the levels of a scratch buffer into cell [ii] of
    the output. *)
Lemma sum_scratch o ii nL nR nC b dt :
  nRow o = nR → nCol o = nC → cellSize o = nR * nC →
  ii * (nR * nC) + nR * nC ≤ length (val0 o) →
  length b = nL * (nR * nC) →
  val dt + nL ≤ length (val0 dt) →
  fmf_sumLevelsMulF (FMF_SetCell o ii) (scratch nL nR nC b) (FMF_val dt)
  = Ok (set_val0 (FMF_SetCell o ii)
          (splice (val0 o) (ii * (nR * nC))
             (mat_block nR nC (λ r c,
                fsum nL (λ q, fmul (at_qp (scratch nL nR nC b) nL q r c)
                                   (wt_qp dt q)))))).
Proof.
  intros HR HC Hcs Ho Hb Hdt.
  rewrite fmf_sumLevelsMulF_spec; simpl; rewrite ?HR, ?HC, ?Hcs; try lia.
  - do 3 f_equal. unfold mat_block. apply tab_concat. intros r c Hr Hc.
    unfold fsum. apply fold_left_seq_ext. intros q acc Hq.
    unfold at_qp, level_slice, wt_qp. simpl. rewrite decide_True by done.
    scalar_eq.
  - intros il i Hil Hi.
    assert (il * (nR * nC) + nR * nC ≤ nL * (nR * nC)) by (by apply block_bound).
    lia.
Qed.

(** The cell loop of an evaluator whose body leaves the block
    [entry ii] in cell [ii] of the output and keeps the invariant [Inv] of
    its scratch buffers: the loop succeeds, the processed cells hold the
    entries, and the rest of the allocation is untouched. *)
Lemma cell_loop_entries {X : Type} (body : nat → FMField F * X → M (FMField F * X))
    (Inv : X → Prop) (entry : nat → nat → nat → F) out n nR nC sc0 :
  cellSize out = nR * nC →
  n * (nR * nC) ≤ length (val0 out) →
  Inv sc0 →
  (∀ ii o sc, ii < n → same_shape o out → Inv sc →
     ∃ sc', Inv sc'
       ∧ body ii (o, sc) false
         = Ok ((set_val0 (FMF_SetCell o ii)
                  (splice (val0 o) (ii * (nR * nC)) (mat_block nR nC (entry ii))),
                sc'), false)) →
  ∃ out' sc',
    cell_loop body (seq 0 n) (out, sc0) false = Ok ((RET_OK, (out', sc')), false)
    ∧ same_shape out' out
    ∧ (∀ ii r c, ii < n → r < nR → c < nC →
         val0 out' !! (ii * (nR * nC) + r * nC + c) = Some (entry ii r c))
    ∧ (∀ j, n * (nR * nC) ≤ j → val0 out' !! j = val0 out !! j).
Proof.
  intros Hcs Hlen Hinv Hbody.
  set (P := λ (k : nat) (s : FMField F * X),
         same_shape s.1 out ∧ Inv s.2
         ∧ (∀ ii r c, ii < k → r < nR → c < nC →
              val0 s.1 !! (ii * (nR * nC) + r * nC + c) = Some (entry ii r c))
         ∧ (∀ j, k * (nR * nC) ≤ j → val0 s.1 !! j = val0 out !! j)).
  destruct (cell_loop_inv P body n 0 (out, sc0)) as ([o sc] & Hrun & HP).
  - unfold P. simpl. repeat split; try done. intros; lia.
  - intros ii [o sc] Hii (Ho & Hsc & Hent & Hrest). simpl in *.
    destruct (Hbody ii o sc) as (sc' & Hsc' & Hcell); [lia|done..|].
    eexists. split; [exact Hcell|].
    destruct Ho as (So1 & So2 & So3 & So4 & So5 & So6).
    pose proof (length_mat_block nR nC (entry ii)) as HT.
    assert (ii * (nR * nC) + nR * nC ≤ n * (nR * nC)) by (apply block_bound; lia).
    unfold P. simpl. split; [|split; [done|split]].
    + unfold same_shape. simpl. rewrite length_splice by (rewrite HT; lia).
      done.
    + intros ii' r c Hii' Hr Hc. destruct (decide (ii' = ii)) as [->|Hne].
      * rewrite <-Nat.add_assoc, lookup_splice_in by (rewrite HT; nia).
        by apply lookup_mat_block.
      * assert (ii' * (nR * nC) + nR * nC ≤ ii * (nR * nC))
          by (apply block_bound; lia).
        rewrite lookup_splice_lt by (rewrite ?HT; nia).
        apply Hent; [lia|done..].
    + intros j Hj. rewrite lookup_splice_ge by (rewrite ?HT; lia).
      apply Hrest. lia.
  - destruct HP as (Ho & _ & Hent & Hrest). exists o, sc.
    split; [done|]. split; [done|]. split; [|done].
    intros. by apply Hent.
Qed.

End CellSteps.


(** ** dw_permeability_r on well-formed inputs *)

Section PermeabilitySpec.
Context {F : Type} `{Scalar F}.
Implicit Types (out mtxD o : FMField F) (vg : VolumeGeometry F).

Lemma mat_block_ext nR nC (e e' : nat → nat → F) :
  (∀ r c, r < nR → c < nC → e r c = e' r c) →
  mat_block nR nC e = mat_block nR nC e'.
Proof.
  intros He. unfold mat_block. f_equal. apply tab_ext. intros r Hr.
  apply tab_ext. intros c Hc. by apply He.
Qed.

Lemma dw_permeability_r_cell_spec out mtxD vg ii o b :
  dw_permeability_r_valid out mtxD vg →
  ii < nCell out →
  same_shape o out →
  length b = nLev (bfGM vg) * (nCol (bfGM vg) * 1) →
  ∃ b', length b' = nLev (bfGM vg) * (nCol (bfGM vg) * 1) ∧
    dw_permeability_r_cell mtxD vg ii
      (o, scratch (nLev (bfGM vg)) (nCol (bfGM vg)) 1 b) false
    = Ok ((set_val0 (FMF_SetCell o ii)
             (splice (val0 o) (ii * (nCol (bfGM vg) * 1))
                (mat_block (nCol (bfGM vg)) 1
                   (λ i _, permeability_entry mtxD vg ii i))),
           scratch (nLev (bfGM vg)) (nCol (bfGM vg)) 1 b'), false).
Proof.
  intros (HG & Hdt & HD & ([Hocs Holen] & HoL & HoR & HoC)) Hii
         (So1 & So2 & So3 & So4 & So5 & So6) Hb.
  set (G := bfGM vg) in *. set (nQP := nLev G) in *. set (nEP := nCol G) in *.
  pose proof (bcast_shape mtxD ii) as (_ & _ & HDR' & HDC' & _).
  destruct HD as (HDwf & HDL & HDR & HDC & HDn).
  unfold dw_permeability_r_cell. fold G.
  erewrite bind_liftR_Ok; cycle 1.
  { unfold fmf_mulATB_nn. apply product_scratch; try done.
    - by rewrite HDC'.
    - rewrite HDR'. simpl. done.
    - by apply (slices_ok_batch _ _ (nCell out) _ (nRow G) nEP).
    - by apply (slices_ok_bcast _ _ (nCell out) _ (nRow G) 1). }
  eexists. split; cycle 1.
  - erewrite bind_liftR_Ok; cycle 1.
    { apply sum_scratch.
      - by rewrite So3.
      - by rewrite So4.
      - rewrite So5, Hocs, HoL, HoR, HoC. lia.
      - rewrite So6, Holen, Hocs, HoL, HoR, HoC.
        assert (ii * (1 * nEP * 1) + 1 * nEP * 1 ≤ nCell out * (1 * nEP * 1))
          by (apply block_bound; lia).
        lia.
      - rewrite length_product_block. simpl. done.
      - destruct Hdt as ([Hdcs Hdlen] & HdL & HdR & HdC & Hdn). fmf_simpl.
        rewrite Hdlen, Hdcs, HdL, HdR, HdC. fold nQP.
        assert (ii * (nQP * 1 * 1) + nQP * 1 * 1 ≤ nCell (det vg) * (nQP * 1 * 1))
          by (apply block_bound; lia).
        lia. }
    match goal with
    | |- context [mat_block ?n ?m ?e] =>
        rewrite (mat_block_ext n m e (λ i _, permeability_entry mtxD vg ii i))
    end; [done|].
    intros i c Hi Hc.
    unfold permeability_entry. fold G nQP. unfold fsum at 1.
    apply fold_left_seq_ext. intros q acc Hq. f_equal. f_equal.
    rewrite at_qp_product by lia. assert (c = 0) as -> by lia. reflexivity.
  - rewrite length_product_block. simpl. done.
Qed.

(** [dw_permeability_r] on well-formed inputs: the call succeeds, entry [i]
    of cell [ii] holds [permeability_entry], and nothing else changes. *)
Lemma dw_permeability_r_spec out mtxD vg :
  dw_permeability_r_valid out mtxD vg →
  ∃ out',
    dw_permeability_r out mtxD vg false = Ok ((RET_OK, out'), false)
    ∧ same_shape out' out
    ∧ ∀ ii i, ii < nCell out → i < nCol (bfGM vg) →
        val0 out' !! (ii * nCol (bfGM vg) + i)
        = Some (permeability_entry mtxD vg ii i).
Proof.
  intros Hvalid.
  set (nQP := nLev (bfGM vg)). set (nEP := nCol (bfGM vg)).
  pose proof Hvalid as (_ & _ & _ & ([Hocs Holen] & HoL & HoR & HoC)).
  destruct (cell_loop_entries (dw_permeability_r_cell mtxD vg)
              (λ sc, ∃ b, sc = scratch nQP nEP 1 b ∧ length b = nQP * (nEP * 1))
              (λ ii i _, permeability_entry mtxD vg ii i)
              out (nCell out) nEP 1 (fmf_createAlloc 1 nQP nEP 1))
    as (out' & sc' & Hrun & Hshape & Hent & _).
  - rewrite Hocs, HoL, HoR, HoC. fold nEP. lia.
  - rewrite Holen, Hocs, HoL, HoR, HoC. fold nEP. lia.
  - eexists. split; [reflexivity|]. rewrite length_replicate. lia.
  - intros ii o sc Hii Ho (b & -> & Hb).
    destruct (dw_permeability_r_cell_spec out mtxD vg ii o b)
      as (b' & Hb' & Hcell); try done.
    eexists. split; [|exact Hcell]. eauto.
  - exists out'. split; [|split; [done|]].
    + unfold dw_permeability_r. fold nQP nEP.
      erewrite M_bind_Ok by exact Hrun. done.
    + intros ii i Hii Hi. specialize (Hent ii i 0 Hii Hi).
      rewrite <-Hent by lia. f_equal. lia.
Qed.

End PermeabilitySpec.


Section ActGtM.
Context {F : Type} `{Scalar F}.
Implicit Types (out gc mtx : FMField F).

Lemma length_gt_m_block gc mtx :
  length (gt_m_block gc mtx) = nLev gc * (nCol gc * nCol mtx).
Proof. apply length_concat_tab. intros. apply length_mat_block. Qed.

Lemma lookup_gt_m_block gc mtx iqp iep ii :
  iqp < nLev gc → iep < nCol gc → ii < nCol mtx →
  gt_m_block gc mtx !! (iqp * (nCol gc * nCol mtx) + iep * nCol mtx + ii)
  = Some (gt_m_entry gc mtx iqp iep ii).
Proof.
  intros. unfold gt_m_block. rewrite <-Nat.add_assoc.
  rewrite (lookup_concat_tab _ (nCol gc * nCol mtx));
    [|intros; apply length_mat_block|done|nia].
  by apply lookup_mat_block.
Qed.

Lemma laplace_act_gt_m_spec out gc mtx g :
  nRow gc = 2 ∨ nRow gc = 3 →
  act_gt_m_ok out gc mtx →
  laplace_act_gt_m out gc mtx g
  = Ok ((RET_OK, set_val0 out (splice (val0 out) (val out) (gt_m_block gc mtx))),
        g).
Proof.
  intros Hdim (Hgc & Hmtx & Hstride & Hout). unfold laplace_act_gt_m.
  set (nEP := nCol gc) in *. set (nQP := nLev gc) in *.
  set (nC := nCol mtx) in *.
  assert (∀ body : nat → nat → nat → list F → Res (list F),
    (∀ iqp iep ii b, iqp < nQP → iep < nEP → ii < nC →
       length b = length (val0 out) →
       body iqp iep ii b
       = Ok (<[val out + iqp * (nEP * nC) + iep * nC + ii
               := gt_m_entry gc mtx iqp iep ii]> b)) →
    for_ nQP (λ iqp b, for_ nEP (λ iep b, for_ nC (λ ii b, body iqp iep ii b) b) b)
      (val0 out)
    = Ok (splice (val0 out) (val out) (gt_m_block gc mtx))) as Hloops.
  { intros body Hbody.
    rewrite (for_blocks (nEP * nC) nQP (val out) _
               (λ iqp _, mat_block nEP nC (gt_m_entry gc mtx iqp))).
    - done.
    - lia.
    - intros. apply length_mat_block.
    - intros iqp b Hiqp Hb.
      assert (iqp * (nEP * nC) + nEP * nC ≤ nQP * (nEP * nC))
        by (by apply block_bound).
      rewrite (for_blocks nC nEP (val out + iqp * (nEP * nC)) _
                 (λ iep _, tab nC (λ ii, gt_m_entry gc mtx iqp iep ii))).
      + done.
      + lia.
      + intros. apply length_tab.
      + intros iep b' Hiep Hb'.
        assert (iep * nC + nC ≤ nEP * nC) by (by apply block_bound).
        rewrite (for_points_rd _ (val out + iqp * (nEP * nC) + iep * nC) _
                   (λ ii _, gt_m_entry gc mtx iqp iep ii)).
        * done.
        * lia.
        * intros ii b'' Hii Hb''. apply Hbody; [done..|lia]. }
  assert (∀ iqp d i, iqp < nQP → d < nRow gc → i < nEP →
            FMF_PtrLevel gc iqp + d * nEP + i < length (val0 gc)) as Hin.
  { intros iqp d i Hq Hd Hi. unfold FMF_PtrLevel. fold nEP.
    assert (iqp * (nRow gc * nEP) + nRow gc * nEP ≤ nQP * (nRow gc * nEP))
      by (by apply block_bound).
    assert (d * nEP + nEP ≤ nRow gc * nEP) by (by apply block_bound).
    lia. }
  assert (∀ iqp d i, iqp < nQP → d < nRow gc → i < nC →
            FMF_PtrLevel mtx iqp + (d * nC + i) < length (val0 mtx)) as HinM.
  { intros iqp d i Hq Hd Hi. specialize (Hmtx iqp Hq).
    assert (d * nC + nC ≤ nRow gc * nC) by (by apply block_bound).
    lia. }
  assert (∀ iqp iep ii, iqp < nQP → iep < nEP → ii < nC →
            FMF_PtrLevel out iqp + nC * iep + ii
            = val out + iqp * (nEP * nC) + iep * nC + ii
            ∧ val out + iqp * (nEP * nC) + iep * nC + ii < length (val0 out))
    as Hidx.
  { intros iqp iep ii Hq Hp Hi. unfold FMF_PtrLevel.
    assert (iqp * (nEP * nC) + nEP * nC ≤ nQP * (nEP * nC))
      by (by apply block_bound).
    assert (iep * nC + nC ≤ nEP * nC) by (by apply block_bound).
    rewrite <-Nat.mul_assoc, Hstride. lia. }
  destruct Hdim as [Hd|Hd]; rewrite Hd in *.
  - erewrite bind_liftR_Ok; [reflexivity|].
    apply Hloops. intros iqp iep ii b Hq Hp Hi Hb.
    pose proof (Hin iqp 0 iep Hq). pose proof (Hin iqp 1 iep Hq).
    pose proof (HinM iqp 0 ii Hq). pose proof (HinM iqp 1 ii Hq).
    destruct (Hidx iqp iep ii) as [Hi1 Hi2]; [done..|].
    repeat step_load lia.
    rewrite Hi1, store_lt by lia.
    unfold gt_m_entry, G_entry, M_entry. rewrite Hd. fold nEP nC.
    f_equal. f_equal. scalar_eq.
  - erewrite bind_liftR_Ok; [reflexivity|].
    apply Hloops. intros iqp iep ii b Hq Hp Hi Hb.
    pose proof (Hin iqp 0 iep Hq). pose proof (Hin iqp 1 iep Hq).
    pose proof (Hin iqp 2 iep Hq).
    pose proof (HinM iqp 0 ii Hq). pose proof (HinM iqp 1 ii Hq).
    pose proof (HinM iqp 2 ii Hq).
    destruct (Hidx iqp iep ii) as [Hi1 Hi2]; [done..|].
    repeat step_load lia.
    rewrite Hi1, store_lt by lia.
    unfold gt_m_entry, G_entry, M_entry. rewrite Hd. fold nEP nC.
    f_equal. f_equal. scalar_eq.
Qed.

End ActGtM.


Section ActGM.
Context {F : Type} `{Scalar F}.
Implicit Types (out gc mtx : FMField F).

Lemma for_acc2 n (body : nat → F * F → Res (F * F)) (t1 t2 : nat → F) :
  (∀ k v1 v2, k < n → body k (v1, v2) = Ok (fadd v1 (t1 k), fadd v2 (t2 k))) →
  for_ n body (f0, f0) = Ok (fsum n t1, fsum n t2).
Proof.
  intros Hbody. induction n as [|n IH]; [done|].
  rewrite for_S, IH, Res_bind_Ok by (intros; apply Hbody; lia).
  rewrite Hbody by lia. unfold fsum. by rewrite seq_S, !fold_left_app.
Qed.

Lemma for_acc3 n (body : nat → F * F * F → Res (F * F * F))
    (t1 t2 t3 : nat → F) :
  (∀ k v1 v2 v3, k < n →
     body k (v1, v2, v3) = Ok (fadd v1 (t1 k), fadd v2 (t2 k), fadd v3 (t3 k))) →
  for_ n body (f0, f0, f0) = Ok (fsum n t1, fsum n t2, fsum n t3).
Proof.
  intros Hbody. induction n as [|n IH]; [done|].
  rewrite for_S, IH, Res_bind_Ok by (intros; apply Hbody; lia).
  rewrite Hbody by lia. unfold fsum. by rewrite seq_S, !fold_left_app.
Qed.

Lemma for_1 {St} (body : nat → St → Res St) s : for_ 1 body s = body 0 s.
Proof. unfold for_. simpl. by destruct (body 0 s). Qed.

Lemma splice_snoc (b x : list F) base v :
  base + length x < length b →
  <[base + length x := v]> (splice b base x) = splice b base (x ++ [v]).
Proof.
  intros Hb. rewrite insert_splice by (rewrite length_splice; lia).
  apply splice_app. simpl. lia.
Qed.

Lemma store2_splice (b : list F) p v1 v2 :
  p + 2 ≤ length b →
  (b1 ← store b (p + 0) v1; store b1 (p + 1) v2) = Ok (splice b p [v1; v2]).
Proof.
  intros Hp. rewrite store_lt, Res_bind_Ok by lia.
  rewrite store_lt by (rewrite length_insert; lia). f_equal.
  rewrite Nat.add_0_r, (insert_splice b p) by lia.
  apply (splice_snoc b [v1] p v2). simpl. lia.
Qed.

Lemma store3_splice (b : list F) p v1 v2 v3 :
  p + 3 ≤ length b →
  (b1 ← store b (p + 0) v1; b2 ← store b1 (p + 1) v2; store b2 (p + 2) v3)
  = Ok (splice b p [v1; v2; v3]).
Proof.
  intros Hp. rewrite store_lt, Res_bind_Ok by lia.
  rewrite store_lt, Res_bind_Ok by (rewrite length_insert; lia).
  rewrite store_lt by (rewrite !length_insert; lia). f_equal.
  rewrite Nat.add_0_r, (insert_splice b p) by lia.
  change (p + 1) with (p + length [v1]).
  rewrite (splice_snoc b [v1] p v2) by (simpl; lia).
  apply (splice_snoc b [v1; v2] p v3). simpl. lia.
Qed.

Lemma length_g_m_block gc mtx :
  length (g_m_block gc mtx) = nLev gc * nRow gc.
Proof. apply length_concat_tab. intros. apply length_tab. Qed.

Lemma lookup_g_m_block gc mtx iqp d :
  iqp < nLev gc → d < nRow gc →
  g_m_block gc mtx !! (iqp * nRow gc + d)
  = Some (gm_entry gc mtx (act_g_m_slice gc mtx iqp) iqp d 0).
Proof.
  intros. unfold g_m_block.
  rewrite (lookup_concat_tab _ (nRow gc)); [|intros; apply length_tab|done..].
  by apply (lookup_tab _
              (λ d, gm_entry gc mtx (act_g_m_slice gc mtx iqp) iqp d 0)).
Qed.

Lemma laplace_act_g_m_spec out gc mtx g :
  nRow gc = 2 ∨ nRow gc = 3 →
  nCol mtx = 1 →
  act_g_m_ok out gc mtx →
  laplace_act_g_m out gc mtx g
  = Ok ((RET_OK, set_val0 out (splice (val0 out) (val out) (g_m_block gc mtx))),
        g).
Proof.
  intros Hdim HC (Hgc & Hmtx & Hstride & Hout). unfold laplace_act_g_m.
  rewrite HC.
  set (nEP := nCol gc) in *. set (nQP := nLev gc) in *.
  assert (∀ iqp d i, iqp < nQP → d < nRow gc → i < nEP →
            FMF_PtrLevel gc iqp + d * nEP + i < length (val0 gc)) as Hin.
  { intros iqp d i Hq Hd Hi. unfold FMF_PtrLevel. fold nEP.
    assert (iqp * (nRow gc * nEP) + nRow gc * nEP ≤ nQP * (nRow gc * nEP))
      by (by apply block_bound).
    assert (d * nEP + nEP ≤ nRow gc * nEP) by (by apply block_bound).
    lia. }
  assert (∀ iqp, iqp < nQP →
            FMF_PtrLevel out iqp = val out + iqp * nRow gc
            ∧ val out + iqp * nRow gc + nRow gc ≤ length (val0 out)) as Hidx.
  { intros iqp Hq. unfold FMF_PtrLevel.
    assert (iqp * nRow gc + nRow gc ≤ nQP * nRow gc) by (by apply block_bound).
    rewrite <-Nat.mul_assoc, Hstride. lia. }
  destruct Hdim as [Hd|Hd]; rewrite Hd in *.
  - erewrite bind_liftR_Ok; [reflexivity|].
    rewrite (for_blocks 2 nQP (val out) _
               (λ iqp _, tab 2 (λ d,
                  gm_entry gc mtx (act_g_m_slice gc mtx iqp) iqp d 0))).
    + unfold g_m_block. fold nQP. by rewrite Hd.
    + lia.
    + intros. apply length_tab.
    + intros iqp b Hq Hb. rewrite for_1.
      destruct (Hidx iqp Hq) as [-> Hi2]. specialize (Hmtx iqp Hq).
      unfold act_g_m_slice in Hmtx |- *. unfold nQP in Hmtx |- *.
      set (pm := if decide (nLev mtx = nLev gc) then FMF_PtrLevel mtx iqp
                 else FMF_PtrCurrent mtx) in *.
      rewrite (for_acc2 nEP _
                 (λ k, fmul (G_entry gc iqp 0 k)
                            (rd (val0 mtx) (pm + nCol mtx * k + 0)))
                 (λ k, fmul (G_entry gc iqp 1 k)
                            (rd (val0 mtx) (pm + nCol mtx * k + 0)))),
        Res_bind_Ok.
      * apply store2_splice. lia.
      * intros k v1 v2 Hk.
        pose proof (Hin iqp 0 k Hq). pose proof (Hin iqp 1 k Hq).
        repeat step_load lia.
        unfold G_entry. fold nEP. rewrite HC. unfold mret, Res_ret.
        f_equal. f_equal; scalar_eq.
  - erewrite bind_liftR_Ok; [reflexivity|].
    rewrite (for_blocks 3 nQP (val out) _
               (λ iqp _, tab 3 (λ d,
                  gm_entry gc mtx (act_g_m_slice gc mtx iqp) iqp d 0))).
    + unfold g_m_block. fold nQP. by rewrite Hd.
    + lia.
    + intros. apply length_tab.
    + intros iqp b Hq Hb. rewrite for_1.
      destruct (Hidx iqp Hq) as [-> Hi2]. specialize (Hmtx iqp Hq).
      unfold act_g_m_slice in Hmtx |- *. unfold nQP in Hmtx |- *.
      set (pm := if decide (nLev mtx = nLev gc) then FMF_PtrLevel mtx iqp
                 else FMF_PtrCurrent mtx) in *.
      rewrite (for_acc3 nEP _
                 (λ k, fmul (G_entry gc iqp 0 k)
                            (rd (val0 mtx) (pm + nCol mtx * k + 0)))
                 (λ k, fmul (G_entry gc iqp 1 k)
                            (rd (val0 mtx) (pm + nCol mtx * k + 0)))
                 (λ k, fmul (G_entry gc iqp 2 k)
                            (rd (val0 mtx) (pm + nCol mtx * k + 0)))),
        Res_bind_Ok.
      * apply store3_splice. lia.
      * intros k v1 v2 v3 Hk.
        pose proof (Hin iqp 0 k Hq). pose proof (Hin iqp 1 k Hq).
        pose proof (Hin iqp 2 k Hq).
        repeat step_load lia.
        unfold G_entry. fold nEP. rewrite HC. unfold mret, Res_ret.
        f_equal. f_equal; [f_equal|]; scalar_eq.
Qed.

End ActGM.


Section MulAF.
Context {F : Type} `{Scalar F}.
Implicit Types (A o out dt : FMField F) (b : list F).

(** A scratch buffer that receives the levels of [A] scaled by one scalar
    per level. *)
Lemma mulAF_scratch nL nR nC b A (v : list F * nat) :
  length b = nL * (nR * nC) →
  nLev A = nL → nRow A = nR → nCol A = nC →
  slices_ok A nL →
  v.2 + nL ≤ length v.1 →
  fmf_mulAF (scratch nL nR nC b) A v
  = Ok (scratch nL nR nC
          (concat (tab nL (λ q, mat_block nR nC (λ r c,
             fmul (at_qp A nL q r c) (rd v.1 (v.2 + q))))))).
Proof.
  intros Hb HL HR HC HA Hv. unfold fmf_mulAF. simpl.
  rewrite (for_blocks (nR * nC) nL 0 _
             (λ q _, mat_block nR nC (λ r c,
                fmul (at_qp A nL q r c) (rd v.1 (v.2 + q))))).
  - rewrite Res_bind_Ok. unfold mret, Res_ret, scratch, set_val0. simpl.
    do 2 f_equal. apply splice_full.
    rewrite (length_concat_tab _ (nR * nC)); [lia|].
    intros. apply length_mat_block.
  - lia.
  - intros. apply length_mat_block.
  - intros q b' Hq Hb'.
    assert (q * (nR * nC) + nR * nC ≤ nL * (nR * nC)) by (by apply block_bound).
    specialize (HA q Hq). unfold level_slice in HA.
    rewrite decide_True in HA by done. rewrite HR, HC in *.
    rewrite (for_points_rd _ (nC * nR * q) _
               (λ i _, fmul (rd (val0 A) (val A + nC * nR * q + i))
                            (rd v.1 (v.2 + q)))).
    + f_equal. f_equal; [lia|]. unfold mat_block. apply tab_concat.
      intros r c Hr Hc. unfold at_qp, level_slice.
      rewrite decide_True by done. rewrite HR, HC. scalar_eq.
    + lia.
    + intros i b'' Hi Hb''. step_load lia. step_load lia.
      apply store_lt. lia.
Qed.

Lemma at_qp_levels nL nR nC (e : nat → nat → nat → F) q r c :
  q < nL → r < nR → c < nC →
  at_qp (scratch nL nR nC (concat (tab nL (λ q, mat_block nR nC (e q)))))
    nL q r c
  = e q r c.
Proof.
  intros Hq Hr Hc. unfold at_qp, level_slice. simpl.
  rewrite decide_True by done. apply rd_lookup.
  match goal with
  | |- _ !! ?i = _ => replace i with (q * (nR * nC) + (r * nC + c)) by lia
  end.
  assert (r * nC + nC ≤ nR * nC) by (by apply block_bound).
  rewrite (lookup_concat_tab _ (nR * nC));
    [|intros; apply length_mat_block|done|lia].
  by apply lookup_mat_block.
Qed.

(** [fmf_mulAF] called with the result as operand, on a scratch buffer. *)
Lemma mulAF_self_scratch nL nR nC b (v : list F * nat) :
  length b = nL * (nR * nC) →
  v.2 + nL ≤ length v.1 →
  fmf_mulAF_self (scratch nL nR nC b) v
  = Ok (scratch nL nR nC
          (concat (tab nL (λ q, mat_block nR nC (λ r c,
             fmul (at_qp (scratch nL nR nC b) nL q r c) (rd v.1 (v.2 + q))))))).
Proof.
  intros Hb Hv. rewrite fmf_mulAF_self_spec by (simpl; lia).
  unfold scratch, set_val0. simpl. do 2 f_equal.
  rewrite splice_full.
  - f_equal. apply tab_ext. intros q Hq. unfold mat_block. apply tab_concat.
    intros r c Hr Hc. unfold at_qp, level_slice. simpl.
    rewrite decide_True by done. scalar_eq.
  - rewrite (length_concat_tab _ (nR * nC)); [lia|]. intros. apply length_tab.
Qed.

End MulAF.


Section Spans.
Context {F : Type} `{Scalar F}.
Implicit Types (X : FMField F).

Lemma batch_span X ii n nL nR nC :
  batch_ok X n nL nR nC → ii < n →
  ii * cellSize X + nL * (nR * nC) ≤ length (val0 X).
Proof.
  intros ([Hcs Hlen] & HL & HR & HC & Hn) Hii.
  rewrite Hlen, Hcs, HL, HR, HC.
  assert (ii * (nL * nR * nC) + nL * nR * nC ≤ nCell X * (nL * nR * nC))
    by (apply block_bound; lia).
  lia.
Qed.

Lemma bcast_span X ii n nL nR nC :
  bcast_ok X n nL nR nC → ii < n →
  val (FMF_SetCell_bcast X ii) + nL * (nR * nC)
  ≤ length (val0 (FMF_SetCell_bcast X ii)).
Proof.
  intros (Hwf & HL & HR & HC & Hn) Hii. unfold FMF_SetCell_bcast.
  destruct (decide (1 < nCell X)); [|done]. cell_simpl.
  apply (batch_span X ii n); [|done]. destruct Hwf. repeat split; done.
Qed.

Lemma out_span (o out : FMField F) ii nR nC :
  out_ok out nR nC → same_shape o out → ii < nCell out →
  nRow o = nR ∧ nCol o = nC ∧ cellSize o = nR * nC
  ∧ ii * (nR * nC) + nR * nC ≤ length (val0 o).
Proof.
  intros ([Hocs Holen] & HoL & HoR & HoC) (So1 & So2 & So3 & So4 & So5 & So6) Hii.
  rewrite So3, So4, So5, So6, Holen, Hocs, HoL, HoR, HoC.
  assert (ii * (1 * nR * nC) + 1 * nR * nC ≤ nCell out * (1 * nR * nC))
    by (apply block_bound; lia).
  repeat split; lia.
Qed.

Lemma out_ok_size (out : FMField F) nR nC :
  out_ok out nR nC →
  cellSize out = nR * nC ∧ nCell out * (nR * nC) ≤ length (val0 out).
Proof.
  intros ([Hocs Holen] & HoL & HoR & HoC).
  rewrite Holen, Hocs, HoL, HoR, HoC. split; lia.
Qed.

End Spans.

Section LaplaceResidual.
Context {F : Type} `{Scalar F}.
Implicit Types (out grad coef o : FMField F) (vg : VolumeGeometry F).

Lemma dw_laplace_res_cell_spec out grad coef vg isDiff ii o gtg b :
  isDiff = 0%Z →
  dw_laplace_res_valid out grad coef vg →
  ii < nCell out →
  same_shape o out →
  length b = nLev (bfGM vg) * (nCol (bfGM vg) * 1) →
  ∃ b', length b' = nLev (bfGM vg) * (nCol (bfGM vg) * 1) ∧
    dw_laplace_cell grad coef vg isDiff ii
      (o, (gtg, scratch (nLev (bfGM vg)) (nCol (bfGM vg)) 1 b)) false
    = Ok ((set_val0 (FMF_SetCell o ii)
             (splice (val0 o) (ii * (nCol (bfGM vg) * 1))
                (mat_block (nCol (bfGM vg)) 1
                   (λ i _, laplace_res_entry grad coef vg ii i))),
           (gtg, scratch (nLev (bfGM vg)) (nCol (bfGM vg)) 1 b')), false).
Proof.
  intros -> (Hdim & [HG Hdt] & Hgr & Hcf & Hout) Hii Ho Hb.
  set (G := bfGM vg) in *. set (nQP := nLev G) in *. set (nEP := nCol G) in *.
  destruct (out_span o out ii nEP 1) as (HoR & HoC & Hocs & Hoin); [done..|].
  pose proof (batch_span _ ii _ _ _ _ HG Hii) as HGin.
  pose proof (batch_span _ ii _ _ _ _ Hgr Hii) as Hgrin.
  pose proof (batch_span _ ii _ _ _ _ Hdt Hii) as Hdtin.
  pose proof (bcast_span _ ii _ _ _ _ Hcf Hii) as Hcfin.
  destruct Hgr as (_ & HgL & HgR & HgC & _).
  unfold dw_laplace_cell. rewrite decide_False by (by intros []). fold G.
  erewrite M_bind_Ok; cycle 1.
  { apply laplace_act_gt_m_spec; [done|].
    unfold act_gt_m_ok. cell_simpl. fold nQP nEP. rewrite HgC.
    repeat split; try done; try lia.
    intros iqp Hiqp. unfold FMF_PtrLevel. fmf_simpl. rewrite HgR, HgC.
    assert (iqp * (nRow G * 1) + nRow G * 1 ≤ nQP * (nRow G * 1))
      by (by apply block_bound).
    lia. }
  cbn beta iota. cell_simpl.
  rewrite splice_full by (rewrite length_gt_m_block; fmf_simpl; fold nQP nEP; lia).
  erewrite bind_liftR_Ok; cycle 1.
  { apply (mulAF_self_scratch nQP nEP 1).
    - rewrite length_gt_m_block. fmf_simpl. fold nQP nEP. by rewrite HgC.
    - simpl. lia. }
  eexists. split; cycle 1.
  - erewrite bind_liftR_Ok; cycle 1.
    { apply sum_scratch; try done.
      - rewrite (length_concat_tab _ (nEP * 1)); [done|].
        intros. apply length_mat_block.
      - cell_simpl. lia. }
    match goal with
    | |- context [mat_block ?n ?m ?e] =>
        rewrite (mat_block_ext n m e (λ i _, laplace_res_entry grad coef vg ii i))
    end; [done|].
    intros i c Hi Hc. unfold laplace_res_entry. fold G nQP.
    apply fsum_ext. intros q Hq. f_equal.
    rewrite at_qp_levels by lia. f_equal.
    assert (c = 0) as -> by lia.
    unfold at_qp, level_slice. simpl. rewrite decide_True by done.
    apply rd_lookup.
    match goal with
    | |- _ !! ?idx = _ => replace idx with (q * (nEP * 1) + i * 1 + 0) by lia
    end.
    rewrite <-HgC at 1 2.
    apply (lookup_gt_m_block (FMF_SetCell G ii) (FMF_SetCell grad ii));
      fmf_simpl; lia.
  - rewrite (length_concat_tab _ (nEP * 1)); [done|].
    intros. apply length_mat_block.
Qed.

(** [dw_laplace] in residual mode on well-formed inputs: the call succeeds
    and entry [i] of cell [ii] holds [laplace_res_entry]. *)
Lemma dw_laplace_res_spec out grad coef vg isDiff :
  isDiff = 0%Z →
  dw_laplace_res_valid out grad coef vg →
  ∃ out',
    dw_laplace out grad coef vg isDiff false = Ok ((RET_OK, out'), false)
    ∧ same_shape out' out
    ∧ ∀ ii i, ii < nCell out → i < nCol (bfGM vg) →
        val0 out' !! (ii * nCol (bfGM vg) + i)
        = Some (laplace_res_entry grad coef vg ii i).
Proof.
  intros HD Hvalid.
  set (nQP := nLev (bfGM vg)). set (nEP := nCol (bfGM vg)).
  pose proof Hvalid as (_ & _ & _ & _ & Hout).
  destruct (out_ok_size out nEP 1 Hout) as [Hcs Hlen].
  destruct (cell_loop_entries (dw_laplace_cell grad coef vg isDiff)
              (λ sc, ∃ b, sc = (fmf_null, scratch nQP nEP 1 b)
                          ∧ length b = nQP * (nEP * 1))
              (λ ii i _, laplace_res_entry grad coef vg ii i)
              out (nCell out) nEP 1 (fmf_null, fmf_createAlloc 1 nQP nEP 1))
    as (out' & sc' & Hrun & Hshape & Hent & _); try done.
  - eexists. split; [reflexivity|]. rewrite length_replicate. lia.
  - intros ii o sc Hii Ho (b & -> & Hb).
    destruct (dw_laplace_res_cell_spec out grad coef vg isDiff ii o fmf_null b)
      as (b' & Hb' & Hcell); try done.
    eexists. split; [|exact Hcell]. eauto.
  - exists out'. split; [|split; [done|]].
    + unfold dw_laplace. rewrite !decide_False by (rewrite HD; by intros []).
      fold nQP nEP. erewrite M_bind_Ok by exact Hrun. by destruct sc'.
    + intros ii i Hii Hi. specialize (Hent ii i 0 Hii Hi).
      rewrite <-Hent by lia. f_equal. lia.
Qed.

End LaplaceResidual.


Section DLaplace.
Context {F : Type} `{Scalar F}.
Implicit Types (out coef o : FMField F) (vg : VolumeGeometry F).

Lemma length_levels nL nR nC (e : nat → nat → nat → F) :
  length (concat (tab nL (λ q, mat_block nR nC (e q)))) = nL * (nR * nC).
Proof. apply length_concat_tab. intros. apply length_mat_block. Qed.

Lemma length_pblock (tA tB : bool) nL nR nC (A B : FMField F) :
  length (product_block tA tB (scratch nL nR nC []) A B) = nL * (nR * nC).
Proof. by rewrite length_product_block. Qed.

Lemma product_entry_ff (R A B : FMField F) q r c :
  product_entry false false R A B q r c
  = fsum (nCol A) (λ k, fmul (at_qp A (nLev R) q r k) (at_qp B (nLev R) q k c)).
Proof. reflexivity. Qed.

Lemma product_entry_tf (R A B : FMField F) q r c :
  product_entry true false R A B q r c
  = fsum (nRow A) (λ k, fmul (at_qp A (nLev R) q k r) (at_qp B (nLev R) q k c)).
Proof. reflexivity. Qed.

Lemma product_entry_tt (R A B : FMField F) q r c :
  product_entry true true R A B q r c
  = fsum (nRow A) (λ k, fmul (at_qp A (nLev R) q k r) (at_qp B (nLev R) q c k)).
Proof. reflexivity. Qed.

Lemma d_laplace_cell_spec out (gradP1 gradP2 : FMField F) coef vg ii o b1 b2 :
  d_laplace_valid out gradP1 gradP2 coef vg →
  ii < nCell out →
  same_shape o out →
  length b1 = nLev (bfGM vg) * (nRow (bfGM vg) * 1) →
  length b2 = nLev (bfGM vg) * (1 * 1) →
  ∃ b1' b2',
    length b1' = nLev (bfGM vg) * (nRow (bfGM vg) * 1)
    ∧ length b2' = nLev (bfGM vg) * (1 * 1)
    ∧ d_laplace_cell gradP1 gradP2 coef vg ii
        (o, (scratch (nLev (bfGM vg)) (nRow (bfGM vg)) 1 b1,
             scratch (nLev (bfGM vg)) 1 1 b2)) false
      = Ok ((set_val0 (FMF_SetCell o ii)
               (splice (val0 o) (ii * (1 * 1))
                  (mat_block 1 1
                     (λ _ _, d_laplace_entry gradP1 gradP2 coef vg ii))),
             (scratch (nLev (bfGM vg)) (nRow (bfGM vg)) 1 b1',
              scratch (nLev (bfGM vg)) 1 1 b2')), false).
Proof.
  intros (Hdt & Hp1 & Hp2 & Hcf & Hout) Hii Ho Hb1 Hb2.
  set (nQP := nLev (bfGM vg)) in *. set (dim := nRow (bfGM vg)) in *.
  destruct (out_span o out ii 1 1) as (HoR & HoC & Hocs & Hoin); [done..|].
  pose proof (batch_span _ ii _ _ _ _ Hdt Hii) as Hdtin.
  pose proof (bcast_span _ ii _ _ _ _ Hcf Hii) as Hcfin.
  pose proof (slices_ok_batch _ ii _ _ _ _ Hp1 Hii) as Hs1.
  pose proof (slices_ok_batch _ ii _ _ _ _ Hp2 Hii) as Hs2.
  destruct Hp1 as (_ & H1L & H1R & H1C & _).
  destruct Hp2 as (_ & H2L & H2R & H2C & _).
  unfold d_laplace_cell.
  erewrite bind_liftR_Ok; cycle 1.
  { apply (mulAF_scratch nQP dim 1); try done. cell_simpl. lia. }
  erewrite bind_liftR_Ok; cycle 1.
  { unfold fmf_mulATB_nn.
    apply (product_scratch true false nQP 1 1);
      [done | cell_simpl; lia | cell_simpl; lia | cell_simpl; lia | done
      | apply slices_ok_scratch, length_levels]. }
  erewrite bind_liftR_Ok; cycle 1.
  { apply sum_scratch; try done.
    - apply length_pblock.
    - cell_simpl. lia. }
  do 2 eexists. split; [|split]; cycle 2.
  - match goal with
    | |- context [mat_block ?n ?m ?e] =>
        rewrite (mat_block_ext n m e
                   (λ _ _, d_laplace_entry gradP1 gradP2 coef vg ii))
    end; [done|].
    intros r c Hr Hc. unfold d_laplace_entry. fold nQP.
    apply fsum_ext. intros q Hq. f_equal.
    rewrite at_qp_product by lia.
    assert (r = 0) as -> by lia. assert (c = 0) as -> by lia.
    rewrite product_entry_tf. cell_simpl.
    apply fsum_ext. intros d Hd. f_equal.
    rewrite at_qp_levels by lia. done.
  - apply length_levels.
  - apply length_pblock.
Qed.

End DLaplace.


Section DLaplaceLoop.
Context {F : Type} `{Scalar F}.
Implicit Types (out coef o : FMField F) (vg : VolumeGeometry F).

(** [d_laplace] on well-formed inputs: the call succeeds and cell [ii]
    holds [d_laplace_entry]. *)
Lemma d_laplace_spec out (gradP1 gradP2 : FMField F) coef vg :
  d_laplace_valid out gradP1 gradP2 coef vg →
  ∃ out',
    d_laplace out gradP1 gradP2 coef vg false = Ok ((RET_OK, out'), false)
    ∧ same_shape out' out
    ∧ ∀ ii, ii < nCell out →
        val0 out' !! ii = Some (d_laplace_entry gradP1 gradP2 coef vg ii).
Proof.
  intros Hvalid.
  set (nQP := nLev (bfGM vg)). set (dim := nRow (bfGM vg)).
  pose proof Hvalid as (_ & _ & _ & _ & Hout).
  destruct (out_ok_size out 1 1 Hout) as [Hcs Hlen].
  destruct (cell_loop_entries (d_laplace_cell gradP1 gradP2 coef vg)
              (λ sc, ∃ b1 b2, sc = (scratch nQP dim 1 b1, scratch nQP 1 1 b2)
                              ∧ length b1 = nQP * (dim * 1)
                              ∧ length b2 = nQP * (1 * 1))
              (λ ii _ _, d_laplace_entry gradP1 gradP2 coef vg ii)
              out (nCell out) 1 1
              (fmf_createAlloc 1 nQP dim 1, fmf_createAlloc 1 nQP 1 1))
    as (out' & sc' & Hrun & Hshape & Hent & _); try done.
  - do 2 eexists. split; [reflexivity|]. rewrite !length_replicate. lia.
  - intros ii o sc Hii Ho (b1 & b2 & -> & Hb1 & Hb2).
    destruct (d_laplace_cell_spec out gradP1 gradP2 coef vg ii o b1 b2)
      as (b1' & b2' & Hb1' & Hb2' & Hcell); try done.
    eexists. split; [|exact Hcell]. eauto.
  - exists out'. split; [|split; [done|]].
    + unfold d_laplace. fold nQP dim.
      erewrite M_bind_Ok by exact Hrun. done.
    + intros ii Hii. specialize (Hent ii 0 0 Hii).
      rewrite <-Hent by lia. f_equal. lia.
Qed.

End DLaplaceLoop.

(** ** dw_diffusion and d_diffusion: the cell bodies and the loops *)

Section Diffusion.
Context {F : Type} `{Scalar F}.
Implicit Types (out grad mtxD o : FMField F) (vg : VolumeGeometry F).

Lemma dw_diffusion_mtx_cell_spec out grad mtxD vg isDiff ii o b1 b2 dgp gtdgp :
  isDiff ≠ 0%Z →
  dw_diffusion_mtx_valid out mtxD vg →
  ii < nCell out →
  same_shape o out →
  length b1 = nLev (bfGM vg) * (nCol (bfGM vg) * nRow (bfGM vg)) →
  length b2 = nLev (bfGM vg) * (nCol (bfGM vg) * nCol (bfGM vg)) →
  ∃ b1' b2',
    length b1' = nLev (bfGM vg) * (nCol (bfGM vg) * nRow (bfGM vg))
    ∧ length b2' = nLev (bfGM vg) * (nCol (bfGM vg) * nCol (bfGM vg))
    ∧ dw_diffusion_cell grad mtxD vg isDiff ii
        (o, (scratch (nLev (bfGM vg)) (nCol (bfGM vg)) (nRow (bfGM vg)) b1,
             scratch (nLev (bfGM vg)) (nCol (bfGM vg)) (nCol (bfGM vg)) b2,
             dgp, gtdgp)) false
      = Ok ((set_val0 (FMF_SetCell o ii)
               (splice (val0 o) (ii * (nCol (bfGM vg) * nCol (bfGM vg)))
                  (mat_block (nCol (bfGM vg)) (nCol (bfGM vg))
                     (diffusion_mtx_entry mtxD vg ii))),
             (scratch (nLev (bfGM vg)) (nCol (bfGM vg)) (nRow (bfGM vg)) b1',
              scratch (nLev (bfGM vg)) (nCol (bfGM vg)) (nCol (bfGM vg)) b2',
              dgp, gtdgp)), false).
Proof.
  intros HD ([HG Hdt] & HDv & Hout) Hii Ho Hb1 Hb2.
  set (G := bfGM vg) in *. set (nQP := nLev G) in *. set (nEP := nCol G) in *.
  set (dim := nRow G) in *.
  destruct (out_span o out ii nEP nEP) as (HoR & HoC & Hocs & Hoin); [done..|].
  pose proof (batch_span _ ii _ _ _ _ Hdt Hii) as Hdtin.
  pose proof (slices_ok_batch _ ii _ _ _ _ HG Hii) as HsG.
  pose proof (slices_ok_bcast _ ii _ _ _ _ HDv Hii) as HsD.
  pose proof (bcast_shape mtxD ii) as (_ & _ & HDR' & HDC' & _).
  destruct HDv as (_ & HDL & HDR & HDC & _).
  unfold dw_diffusion_cell. rewrite decide_True by done. fold G.
  erewrite bind_liftR_Ok; cycle 1.
  { unfold fmf_mulATB_nn.
    apply (product_scratch true false nQP nEP dim);
      [done | cell_simpl; lia | lia | cell_simpl; lia | done | done]. }
  erewrite bind_liftR_Ok; cycle 1.
  { unfold fmf_mulAB_nn.
    apply (product_scratch false false nQP nEP nEP);
      [done | cell_simpl; lia | cell_simpl; lia | cell_simpl; lia
      | apply slices_ok_scratch, length_pblock | done]. }
  erewrite bind_liftR_Ok; cycle 1.
  { apply sum_scratch; try done.
    - apply length_pblock.
    - cell_simpl. lia. }
  do 2 eexists. split; [|split]; cycle 2.
  - match goal with
    | |- context [mat_block ?n ?m ?e] =>
        rewrite (mat_block_ext n m e (diffusion_mtx_entry mtxD vg ii))
    end; [done|].
    intros i j Hi Hj. unfold diffusion_mtx_entry. fold G nQP dim.
    apply fsum_ext. intros q Hq. f_equal.
    rewrite at_qp_product, product_entry_ff by lia. cell_simpl.
    apply fsum_ext. intros e He. f_equal.
    rewrite at_qp_product, product_entry_tf by lia. cell_simpl. done.
  - apply length_pblock.
  - apply length_pblock.
Qed.

Lemma dw_diffusion_res_cell_spec out grad mtxD vg isDiff ii o gtd gtdg b1 b2 :
  isDiff = 0%Z →
  dw_diffusion_res_valid out grad mtxD vg →
  ii < nCell out →
  same_shape o out →
  length b1 = nLev (bfGM vg) * (nRow (bfGM vg) * 1) →
  length b2 = nLev (bfGM vg) * (nCol (bfGM vg) * 1) →
  ∃ b1' b2',
    length b1' = nLev (bfGM vg) * (nRow (bfGM vg) * 1)
    ∧ length b2' = nLev (bfGM vg) * (nCol (bfGM vg) * 1)
    ∧ dw_diffusion_cell grad mtxD vg isDiff ii
        (o, (gtd, gtdg,
             scratch (nLev (bfGM vg)) (nRow (bfGM vg)) 1 b1,
             scratch (nLev (bfGM vg)) (nCol (bfGM vg)) 1 b2)) false
      = Ok ((set_val0 (FMF_SetCell o ii)
               (splice (val0 o) (ii * (nCol (bfGM vg) * 1))
                  (mat_block (nCol (bfGM vg)) 1
                     (λ i _, diffusion_res_entry grad mtxD vg ii i))),
             (gtd, gtdg,
              scratch (nLev (bfGM vg)) (nRow (bfGM vg)) 1 b1',
              scratch (nLev (bfGM vg)) (nCol (bfGM vg)) 1 b2')), false).
Proof.
  intros -> ([HG Hdt] & HDv & Hgr & Hout) Hii Ho Hb1 Hb2.
  set (G := bfGM vg) in *. set (nQP := nLev G) in *. set (nEP := nCol G) in *.
  set (dim := nRow G) in *.
  destruct (out_span o out ii nEP 1) as (HoR & HoC & Hocs & Hoin); [done..|].
  pose proof (batch_span _ ii _ _ _ _ Hdt Hii) as Hdtin.
  pose proof (slices_ok_batch _ ii _ _ _ _ HG Hii) as HsG.
  pose proof (slices_ok_batch _ ii _ _ _ _ Hgr Hii) as Hsg.
  pose proof (slices_ok_bcast _ ii _ _ _ _ HDv Hii) as HsD.
  pose proof (bcast_shape mtxD ii) as (_ & _ & HDR' & HDC' & _).
  destruct HDv as (_ & HDL & HDR & HDC & _).
  destruct Hgr as (_ & HgL & HgR & HgC & _).
  unfold dw_diffusion_cell. rewrite decide_False by (by intros []). fold G.
  erewrite bind_liftR_Ok; cycle 1.
  { unfold fmf_mulAB_nn.
    apply (product_scratch false false nQP dim 1);
      [done | lia | cell_simpl; lia | cell_simpl; lia | done | done]. }
  erewrite bind_liftR_Ok; cycle 1.
  { unfold fmf_mulATB_nn.
    apply (product_scratch true false nQP nEP 1);
      [done | cell_simpl; lia | cell_simpl; lia | cell_simpl; lia | done
      | apply slices_ok_scratch, length_pblock]. }
  erewrite bind_liftR_Ok; cycle 1.
  { apply sum_scratch; try done.
    - apply length_pblock.
    - cell_simpl. lia. }
  do 2 eexists. split; [|split]; cycle 2.
  - match goal with
    | |- context [mat_block ?n ?m ?e] =>
        rewrite (mat_block_ext n m e
                   (λ i _, diffusion_res_entry grad mtxD vg ii i))
    end; [done|].
    intros i c Hi Hc. unfold diffusion_res_entry. fold G nQP dim.
    assert (c = 0) as -> by lia.
    apply fsum_ext. intros q Hq. f_equal.
    rewrite at_qp_product, product_entry_tf by lia. cell_simpl. fold dim.
    apply fsum_ext. intros d Hd. f_equal.
    rewrite at_qp_product, product_entry_ff by lia. cell_simpl.
    by rewrite HDC', HDC.
  - apply length_pblock.
  - apply length_pblock.
Qed.

Lemma d_diffusion_cell_spec out (gradP1 gradP2 : FMField F) mtxD vg ii o b1 b2 :
  d_diffusion_valid out gradP1 gradP2 mtxD vg →
  ii < nCell out →
  same_shape o out →
  length b1 = nLev (bfGM vg) * (nRow (bfGM vg) * 1) →
  length b2 = nLev (bfGM vg) * (1 * 1) →
  ∃ b1' b2',
    length b1' = nLev (bfGM vg) * (nRow (bfGM vg) * 1)
    ∧ length b2' = nLev (bfGM vg) * (1 * 1)
    ∧ d_diffusion_cell gradP1 gradP2 mtxD vg ii
        (o, (scratch (nLev (bfGM vg)) (nRow (bfGM vg)) 1 b1,
             scratch (nLev (bfGM vg)) 1 1 b2)) false
      = Ok ((set_val0 (FMF_SetCell o ii)
               (splice (val0 o) (ii * (1 * 1))
                  (mat_block 1 1
                     (λ _ _, d_diffusion_entry gradP1 gradP2 mtxD vg ii))),
             (scratch (nLev (bfGM vg)) (nRow (bfGM vg)) 1 b1',
              scratch (nLev (bfGM vg)) 1 1 b2')), false).
Proof.
  intros (Hdt & Hp1 & Hp2 & HDv & Hout) Hii Ho Hb1 Hb2.
  set (nQP := nLev (bfGM vg)) in *. set (dim := nRow (bfGM vg)) in *.
  destruct (out_span o out ii 1 1) as (HoR & HoC & Hocs & Hoin); [done..|].
  pose proof (batch_span _ ii _ _ _ _ Hdt Hii) as Hdtin.
  pose proof (slices_ok_batch _ ii _ _ _ _ Hp1 Hii) as Hs1.
  pose proof (slices_ok_batch _ ii _ _ _ _ Hp2 Hii) as Hs2.
  pose proof (slices_ok_bcast _ ii _ _ _ _ HDv Hii) as HsD.
  pose proof (bcast_shape mtxD ii) as (_ & _ & HDR' & HDC' & _).
  destruct HDv as (_ & HDL & HDR & HDC & _).
  destruct Hp1 as (_ & H1L & H1R & H1C & _).
  destruct Hp2 as (_ & H2L & H2R & H2C & _).
  unfold d_diffusion_cell.
  erewrite bind_liftR_Ok; cycle 1.
  { unfold fmf_mulAB_nn.
    apply (product_scratch false false nQP dim 1);
      [done | lia | cell_simpl; lia | cell_simpl; lia | done | done]. }
  erewrite bind_liftR_Ok; cycle 1.
  { unfold fmf_mulATB_nn.
    apply (product_scratch true false nQP 1 1);
      [done | cell_simpl; lia | cell_simpl; lia | cell_simpl; lia | done
      | apply slices_ok_scratch, length_pblock]. }
  erewrite bind_liftR_Ok; cycle 1.
  { apply sum_scratch; try done.
    - apply length_pblock.
    - cell_simpl. lia. }
  do 2 eexists. split; [|split]; cycle 2.
  - match goal with
    | |- context [mat_block ?n ?m ?e] =>
        rewrite (mat_block_ext n m e
                   (λ _ _, d_diffusion_entry gradP1 gradP2 mtxD vg ii))
    end; [done|].
    intros r c Hr Hc. unfold d_diffusion_entry. fold nQP dim.
    assert (r = 0) as -> by lia. assert (c = 0) as -> by lia.
    apply fsum_ext. intros q Hq. f_equal.
    rewrite at_qp_product, product_entry_tf by lia. cell_simpl. rewrite H1R.
    apply fsum_ext. intros d Hd. f_equal.
    rewrite at_qp_product, product_entry_ff by lia. cell_simpl.
    by rewrite HDC', HDC.
  - apply length_pblock.
  - apply length_pblock.
Qed.

End Diffusion.


Section DiffusionLoops.
Context {F : Type} `{Scalar F}.
Implicit Types (out grad mtxD o : FMField F) (vg : VolumeGeometry F).

(** [dw_diffusion] in matrix mode on well-formed inputs: the call succeeds
    and entry [(i, j)] of cell [ii] holds [diffusion_mtx_entry]. *)
Lemma dw_diffusion_mtx_spec out grad mtxD vg isDiff :
  isDiff ≠ 0%Z →
  dw_diffusion_mtx_valid out mtxD vg →
  ∃ out',
    dw_diffusion out grad mtxD vg isDiff false = Ok ((RET_OK, out'), false)
    ∧ same_shape out' out
    ∧ ∀ ii i j, ii < nCell out → i < nCol (bfGM vg) → j < nCol (bfGM vg) →
        val0 out' !! (ii * (nCol (bfGM vg) * nCol (bfGM vg))
                      + i * nCol (bfGM vg) + j)
        = Some (diffusion_mtx_entry mtxD vg ii i j).
Proof.
  intros HD Hvalid.
  set (nQP := nLev (bfGM vg)). set (nEP := nCol (bfGM vg)).
  set (dim := nRow (bfGM vg)).
  pose proof Hvalid as (_ & _ & Hout).
  destruct (out_ok_size out nEP nEP Hout) as [Hcs Hlen].
  destruct (cell_loop_entries (dw_diffusion_cell grad mtxD vg isDiff)
              (λ sc, ∃ b1 b2,
                 sc = (scratch nQP nEP dim b1, scratch nQP nEP nEP b2,
                       fmf_null, fmf_null)
                 ∧ length b1 = nQP * (nEP * dim)
                 ∧ length b2 = nQP * (nEP * nEP))
              (diffusion_mtx_entry mtxD vg)
              out (nCell out) nEP nEP
              (fmf_createAlloc 1 nQP nEP dim, fmf_createAlloc 1 nQP nEP nEP,
               fmf_null, fmf_null))
    as (out' & sc' & Hrun & Hshape & Hent & _); try done.
  - do 2 eexists. split; [reflexivity|]. rewrite !length_replicate. lia.
  - intros ii o sc Hii Ho (b1 & b2 & -> & Hb1 & Hb2).
    destruct (dw_diffusion_mtx_cell_spec out grad mtxD vg isDiff ii o b1 b2
                fmf_null fmf_null)
      as (b1' & b2' & Hb1' & Hb2' & Hcell); try done.
    eexists. split; [|exact Hcell]. eauto.
  - exists out'. split; [|split; [done|]].
    + unfold dw_diffusion. rewrite decide_True by done. fold nQP nEP dim.
      erewrite M_bind_Ok by exact Hrun. done.
    + intros ii i j Hii Hi Hj. by apply Hent.
Qed.

(** [dw_diffusion] in residual mode on well-formed inputs. *)
Lemma dw_diffusion_res_spec out grad mtxD vg isDiff :
  isDiff = 0%Z →
  dw_diffusion_res_valid out grad mtxD vg →
  ∃ out',
    dw_diffusion out grad mtxD vg isDiff false = Ok ((RET_OK, out'), false)
    ∧ same_shape out' out
    ∧ ∀ ii i, ii < nCell out → i < nCol (bfGM vg) →
        val0 out' !! (ii * nCol (bfGM vg) + i)
        = Some (diffusion_res_entry grad mtxD vg ii i).
Proof.
  intros HD Hvalid.
  set (nQP := nLev (bfGM vg)). set (nEP := nCol (bfGM vg)).
  set (dim := nRow (bfGM vg)).
  pose proof Hvalid as (_ & _ & _ & Hout).
  destruct (out_ok_size out nEP 1 Hout) as [Hcs Hlen].
  destruct (cell_loop_entries (dw_diffusion_cell grad mtxD vg isDiff)
              (λ sc, ∃ b1 b2,
                 sc = (fmf_null, fmf_null,
                       scratch nQP dim 1 b1, scratch nQP nEP 1 b2)
                 ∧ length b1 = nQP * (dim * 1)
                 ∧ length b2 = nQP * (nEP * 1))
              (λ ii i _, diffusion_res_entry grad mtxD vg ii i)
              out (nCell out) nEP 1
              (fmf_null, fmf_null,
               fmf_createAlloc 1 nQP dim 1, fmf_createAlloc 1 nQP nEP 1))
    as (out' & sc' & Hrun & Hshape & Hent & _); try done.
  - do 2 eexists. split; [reflexivity|]. rewrite !length_replicate. lia.
  - intros ii o sc Hii Ho (b1 & b2 & -> & Hb1 & Hb2).
    destruct (dw_diffusion_res_cell_spec out grad mtxD vg isDiff ii o
                fmf_null fmf_null b1 b2)
      as (b1' & b2' & Hb1' & Hb2' & Hcell); try done.
    eexists. split; [|exact Hcell]. eauto.
  - exists out'. split; [|split; [done|]].
    + unfold dw_diffusion. rewrite decide_False by (rewrite HD; by intros []).
      fold nQP nEP dim. erewrite M_bind_Ok by exact Hrun. done.
    + intros ii i Hii Hi. specialize (Hent ii i 0 Hii Hi).
      rewrite <-Hent by lia. f_equal. lia.
Qed.

(** [d_diffusion] on well-formed inputs. *)
Lemma d_diffusion_spec out (gradP1 gradP2 : FMField F) mtxD vg :
  d_diffusion_valid out gradP1 gradP2 mtxD vg →
  ∃ out',
    d_diffusion out gradP1 gradP2 mtxD vg false = Ok ((RET_OK, out'), false)
    ∧ same_shape out' out
    ∧ ∀ ii, ii < nCell out →
        val0 out' !! ii = Some (d_diffusion_entry gradP1 gradP2 mtxD vg ii).
Proof.
  intros Hvalid.
  set (nQP := nLev (bfGM vg)). set (dim := nRow (bfGM vg)).
  pose proof Hvalid as (_ & _ & _ & _ & Hout).
  destruct (out_ok_size out 1 1 Hout) as [Hcs Hlen].
  destruct (cell_loop_entries (d_diffusion_cell gradP1 gradP2 mtxD vg)
              (λ sc, ∃ b1 b2, sc = (scratch nQP dim 1 b1, scratch nQP 1 1 b2)
                              ∧ length b1 = nQP * (dim * 1)
                              ∧ length b2 = nQP * (1 * 1))
              (λ ii _ _, d_diffusion_entry gradP1 gradP2 mtxD vg ii)
              out (nCell out) 1 1
              (fmf_createAlloc 1 nQP dim 1, fmf_createAlloc 1 nQP 1 1))
    as (out' & sc' & Hrun & Hshape & Hent & _); try done.
  - do 2 eexists. split; [reflexivity|]. rewrite !length_replicate. lia.
  - intros ii o sc Hii Ho (b1 & b2 & -> & Hb1 & Hb2).
    destruct (d_diffusion_cell_spec out gradP1 gradP2 mtxD vg ii o b1 b2)
      as (b1' & b2' & Hb1' & Hb2' & Hcell); try done.
    eexists. split; [|exact Hcell]. eauto.
  - exists out'. split; [|split; [done|]].
    + unfold d_diffusion. fold nQP dim.
      erewrite M_bind_Ok by exact Hrun. done.
    + intros ii Hii. specialize (Hent ii 0 0 Hii).
      rewrite <-Hent by lia. f_equal. lia.
Qed.

End DiffusionLoops.


Section Gather.
Context {F : Type} `{Scalar F}.
Implicit Types (state : FMField F) (b : list F).

Lemma slices_ok_scratch1 nL nR nC b :
  length b = nR * nC → slices_ok (scratch 1 nR nC b) nL.
Proof.
  intros Hb il Hil. unfold level_slice. simpl.
  destruct (decide (1 = nL)) as [<-|]; simpl; [|lia].
  assert (il = 0) as -> by lia. lia.
Qed.

(** Every level of a loop reads the single slice of a one-level scratch
    buffer. *)
Lemma at_qp_scratch1 nL nR nC b q r c :
  q < nL → at_qp (scratch 1 nR nC b) nL q r c = rd b (nC * r + c).
Proof.
  intros Hq. unfold at_qp, level_slice. simpl.
  destruct (decide (1 = nL)) as [<-|]; simpl; [|done].
  assert (q = 0) as -> by lia. f_equal. lia.
Qed.

(** The gather of the nodal values of one element into [st]. *)
Lemma gather_scratch nEP b state (conn : list nat) base :
  length b = nEP →
  (∀ inod, inod < nEP →
     base + inod < length conn
     ∧ val state + nth (base + inod) conn 0 < length (val0 state)) →
  ele_extractNodalValuesNBN (scratch 1 nEP 1 b) state (conn, base)
  = Ok (scratch 1 nEP 1 (tab nEP (nodal state conn base))).
Proof.
  intros Hb Hconn. unfold ele_extractNodalValuesNBN. cell_simpl.
  rewrite (for_points_rd _ 0 _ (λ inod _, nodal state conn base inod)).
  - rewrite Res_bind_Ok. unfold mret, Res_ret, scratch, set_val0. simpl.
    do 2 f_equal. apply splice_full. by rewrite length_tab.
  - simpl. lia.
  - intros inod b' Hi Hb'. destruct (Hconn inod Hi) as [Hc Hs].
    rewrite (load_nth _ _ 0) by done. rewrite Res_bind_Ok, for_1.
    step_load lia. rewrite store_lt by lia. unfold nodal.
    f_equal. f_equal; [lia|]. f_equal. lia.
Qed.

End Gather.


Section CouplingResidual.
Context {F : Type} `{Scalar F}.
Implicit Types (out state mtxD bf o : FMField F) (vg : VolumeGeometry F).

Lemma M_bind_ret {A B} (a : A) (k : A → M B) g : (mret a ≫= k) g = k a g.
Proof. reflexivity. Qed.

Lemma slices_ok_bf bf nL nEP :
  nLev bf = nL → nRow bf = 1 → nCol bf = nEP →
  val bf + nL * (1 * nEP) ≤ length (val0 bf) →
  slices_ok bf nL.
Proof.
  intros HL HR HC Hin il Hil. unfold level_slice.
  rewrite decide_True by done. rewrite HR, HC.
  assert (il * (1 * nEP) + 1 * nEP ≤ nL * (1 * nEP)) by (by apply block_bound).
  lia.
Qed.

Lemma dw_diffusion_coupling_res_cell_pos out state mtxD bf vg conn nEP elList
    n isDiff mode ii o gtd gtdg bs bg bd bt :
  isDiff = 0%Z → (0 < mode)%Z →
  coupling_geom_ok mtxD bf vg nEP elList n →
  gather_ok state conn nEP elList n →
  out_ok out nEP 1 → n ≤ nCell out →
  ii < n →
  same_shape o out →
  length bs = nEP →
  length bg = nLev (bfGM vg) * (nRow (bfGM vg) * 1) →
  length bd = nLev (bfGM vg) * (1 * 1) →
  length bt = nLev (bfGM vg) * (nEP * 1) →
  ∃ bs' bg' bd' bt',
    (length bs' = nEP
     ∧ length bg' = nLev (bfGM vg) * (nRow (bfGM vg) * 1)
     ∧ length bd' = nLev (bfGM vg) * (1 * 1)
     ∧ length bt' = nLev (bfGM vg) * (nEP * 1))
    ∧ dw_diffusion_coupling_cell state mtxD bf vg conn nEP elList isDiff mode ii
        (o, mkCouplingScratch (scratch 1 nEP 1 bs) gtd gtdg
              (scratch (nLev (bfGM vg)) (nRow (bfGM vg)) 1 bg)
              (scratch (nLev (bfGM vg)) 1 1 bd)
              (scratch (nLev (bfGM vg)) nEP 1 bt)) false
      = Ok ((set_val0 (FMF_SetCell o ii)
               (splice (val0 o) (ii * (nEP * 1))
                  (mat_block nEP 1
                     (λ i _, coupling_res_entry state mtxD bf vg conn nEP
                               elList mode ii i))),
             mkCouplingScratch (scratch 1 nEP 1 bs') gtd gtdg
               (scratch (nLev (bfGM vg)) (nRow (bfGM vg)) 1 bg')
               (scratch (nLev (bfGM vg)) 1 1 bd')
               (scratch (nLev (bfGM vg)) nEP 1 bt')), false).
Proof.
  intros -> Hmode (([HGcs HGlen] & HGC) & ([Hdcs Hdlen] & HdL & HdR & HdC)
                   & Hel & HDv
                   & (HbL & HbR & HbC & Hbin))
         Hgather Hout Hn Hii Ho Hbs Hbg Hbd Hbt.
  set (G := bfGM vg) in *. set (nQP := nLev G) in *. set (dim := nRow G) in *.
  destruct (Hel ii Hii) as (iel & Hiel & HielG & Hield).
  assert (nth ii elList 0 = iel) as Hnth by (by apply nth_lookup_Some).
  destruct (out_span o out ii nEP 1) as (HoR & HoC & Hocs & Hoin);
    [done|done|lia|].
  assert (batch_ok G (S iel) nQP dim nEP) as HG by (repeat split; try done; lia).
  assert (batch_ok (det vg) (S iel) nQP 1 1) as Hdt
    by (repeat split; try done; lia).
  pose proof (batch_span _ iel _ _ _ _ Hdt (Nat.lt_succ_diag_r iel)) as Hdtin.
  pose proof (slices_ok_batch _ iel _ _ _ _ HG (Nat.lt_succ_diag_r iel)) as HsG.
  pose proof (slices_ok_bcast _ ii _ _ _ _ HDv Hii) as HsD.
  pose proof (slices_ok_bf bf nQP nEP HbL HbR HbC Hbin) as Hsb.
  pose proof (bcast_shape mtxD ii) as (_ & _ & HDR' & HDC' & _).
  destruct HDv as (_ & HDL & HDR & HDC & _).
  unfold dw_diffusion_coupling_cell.
  erewrite bind_liftR_Ok by (by apply load_Some).
  rewrite decide_False by (by intros []). fold G.
  cbn [cs_st cs_gtd cs_gtdg cs_gp cs_dgp cs_gtdgp].
  erewrite bind_liftR_Ok; cycle 1.
  { apply gather_scratch; [done|]. intros inod Hinod.
    rewrite <-Hnth. by apply Hgather. }
  rewrite decide_True by done.
  rewrite M_bind_assoc.
  erewrite bind_liftR_Ok; cycle 1.
  { unfold fmf_mulAB_n1.
    apply (product_scratch false false nQP dim 1);
      [done | cell_simpl; lia | cell_simpl; lia | cell_simpl; lia | done
      | apply slices_ok_scratch1; rewrite length_tab; lia]. }
  rewrite M_bind_assoc.
  erewrite bind_liftR_Ok; cycle 1.
  { unfold fmf_mulATB_nn.
    apply (product_scratch true false nQP 1 1);
      [done | lia | cell_simpl; lia | cell_simpl; lia | done
      | apply slices_ok_scratch, length_pblock]. }
  rewrite M_bind_assoc.
  erewrite bind_liftR_Ok; cycle 1.
  { unfold fmf_mulATB_nn.
    apply (product_scratch true false nQP nEP 1);
      [done | lia | cell_simpl; lia | cell_simpl; lia | done
      | apply slices_ok_scratch, length_pblock]. }
  rewrite M_bind_ret. cbn beta iota.
  erewrite bind_liftR_Ok; cycle 1.
  { apply sum_scratch; try done.
    - apply length_pblock.
    - cell_simpl. lia. }
  do 4 eexists. split; cycle 1.
  - match goal with
    | |- context [mat_block ?n ?m ?e] =>
        rewrite (mat_block_ext n m e
                   (λ i _, coupling_res_entry state mtxD bf vg conn nEP
                             elList mode ii i))
    end; [done|].
    intros i c Hi Hc. unfold coupling_res_entry. fold G nQP dim.
    rewrite decide_True by done. rewrite Hnth.
    assert (c = 0) as -> by lia.
    apply fsum_ext. intros q Hq. f_equal.
    rewrite at_qp_product, product_entry_tf by lia. cell_simpl. rewrite HbR.
    apply fsum_ext. intros k Hk. f_equal.
    rewrite at_qp_product, product_entry_tf by lia. cell_simpl.
    rewrite HDR', HDR. fold dim.
    apply fsum_ext. intros d Hd. f_equal.
    rewrite at_qp_product, product_entry_ff by lia. cell_simpl. rewrite HGC.
    apply fsum_ext. intros m Hm. f_equal.
    rewrite at_qp_scratch1 by done. rewrite rd_tab by lia. f_equal. lia.
  - rewrite length_tab, !length_pblock. done.
Qed.

Lemma dw_diffusion_coupling_res_cell_neg out state mtxD bf vg conn nEP elList
    n isDiff mode ii o gtd gtdg bs bg bd bt :
  isDiff = 0%Z → (mode ≤ 0)%Z →
  coupling_geom_ok mtxD bf vg nEP elList n →
  gather_ok state conn nEP elList n →
  out_ok out nEP 1 → n ≤ nCell out →
  ii < n →
  same_shape o out →
  length bs = nEP →
  length bg = nLev (bfGM vg) * (1 * 1) →
  length bd = nLev (bfGM vg) * (nRow (bfGM vg) * 1) →
  length bt = nLev (bfGM vg) * (nEP * 1) →
  ∃ bs' bg' bd' bt',
    (length bs' = nEP
     ∧ length bg' = nLev (bfGM vg) * (1 * 1)
     ∧ length bd' = nLev (bfGM vg) * (nRow (bfGM vg) * 1)
     ∧ length bt' = nLev (bfGM vg) * (nEP * 1))
    ∧ dw_diffusion_coupling_cell state mtxD bf vg conn nEP elList isDiff mode ii
        (o, mkCouplingScratch (scratch 1 nEP 1 bs) gtd gtdg
              (scratch (nLev (bfGM vg)) 1 1 bg)
              (scratch (nLev (bfGM vg)) (nRow (bfGM vg)) 1 bd)
              (scratch (nLev (bfGM vg)) nEP 1 bt)) false
      = Ok ((set_val0 (FMF_SetCell o ii)
               (splice (val0 o) (ii * (nEP * 1))
                  (mat_block nEP 1
                     (λ i _, coupling_res_entry state mtxD bf vg conn nEP
                               elList mode ii i))),
             mkCouplingScratch (scratch 1 nEP 1 bs') gtd gtdg
               (scratch (nLev (bfGM vg)) 1 1 bg')
               (scratch (nLev (bfGM vg)) (nRow (bfGM vg)) 1 bd')
               (scratch (nLev (bfGM vg)) nEP 1 bt')), false).
Proof.
  intros -> Hmode (([HGcs HGlen] & HGC) & ([Hdcs Hdlen] & HdL & HdR & HdC)
                   & Hel & HDv
                   & (HbL & HbR & HbC & Hbin))
         Hgather Hout Hn Hii Ho Hbs Hbg Hbd Hbt.
  set (G := bfGM vg) in *. set (nQP := nLev G) in *. set (dim := nRow G) in *.
  destruct (Hel ii Hii) as (iel & Hiel & HielG & Hield).
  assert (nth ii elList 0 = iel) as Hnth by (by apply nth_lookup_Some).
  destruct (out_span o out ii nEP 1) as (HoR & HoC & Hocs & Hoin);
    [done|done|lia|].
  assert (batch_ok G (S iel) nQP dim nEP) as HG by (repeat split; try done; lia).
  assert (batch_ok (det vg) (S iel) nQP 1 1) as Hdt
    by (repeat split; try done; lia).
  pose proof (batch_span _ iel _ _ _ _ Hdt (Nat.lt_succ_diag_r iel)) as Hdtin.
  pose proof (slices_ok_batch _ iel _ _ _ _ HG (Nat.lt_succ_diag_r iel)) as HsG.
  pose proof (slices_ok_bcast _ ii _ _ _ _ HDv Hii) as HsD.
  pose proof (slices_ok_bf bf nQP nEP HbL HbR HbC Hbin) as Hsb.
  pose proof (bcast_shape mtxD ii) as (_ & _ & HDR' & HDC' & _).
  destruct HDv as (_ & HDL & HDR & HDC & _).
  unfold dw_diffusion_coupling_cell.
  erewrite bind_liftR_Ok by (by apply load_Some).
  rewrite decide_False by (by intros []). fold G.
  cbn [cs_st cs_gtd cs_gtdg cs_gp cs_dgp cs_gtdgp].
  erewrite bind_liftR_Ok; cycle 1.
  { apply gather_scratch; [done|]. intros inod Hinod.
    rewrite <-Hnth. by apply Hgather. }
  rewrite decide_False by lia.
  rewrite M_bind_assoc.
  erewrite bind_liftR_Ok; cycle 1.
  { unfold fmf_mulAB_n1.
    apply (product_scratch false false nQP 1 1);
      [done | lia | cell_simpl; lia | cell_simpl; lia | done
      | apply slices_ok_scratch1; rewrite length_tab; lia]. }
  rewrite M_bind_assoc.
  erewrite bind_liftR_Ok; cycle 1.
  { unfold fmf_mulAB_nn.
    apply (product_scratch false false nQP dim 1);
      [done | lia | cell_simpl; lia | cell_simpl; lia | done
      | apply slices_ok_scratch, length_pblock]. }
  rewrite M_bind_assoc.
  erewrite bind_liftR_Ok; cycle 1.
  { unfold fmf_mulATB_nn.
    apply (product_scratch true false nQP nEP 1);
      [done | cell_simpl; lia | cell_simpl; lia | cell_simpl; lia | done
      | apply slices_ok_scratch, length_pblock]. }
  rewrite M_bind_ret. cbn beta iota.
  erewrite bind_liftR_Ok; cycle 1.
  { apply sum_scratch; try done.
    - apply length_pblock.
    - cell_simpl. lia. }
  do 4 eexists. split; cycle 1.
  - match goal with
    | |- context [mat_block ?n ?m ?e] =>
        rewrite (mat_block_ext n m e
                   (λ i _, coupling_res_entry state mtxD bf vg conn nEP
                             elList mode ii i))
    end; [done|].
    intros i c Hi Hc. unfold coupling_res_entry. fold G nQP dim.
    rewrite decide_False by lia. rewrite Hnth.
    assert (c = 0) as -> by lia.
    apply fsum_ext. intros q Hq. f_equal.
    rewrite at_qp_product, product_entry_tf by lia. cell_simpl. fold dim.
    apply fsum_ext. intros d Hd. f_equal.
    rewrite at_qp_product, product_entry_ff by lia. cell_simpl.
    rewrite HDC', HDC.
    apply fsum_ext. intros k Hk. f_equal.
    rewrite at_qp_product, product_entry_ff by lia. cell_simpl. rewrite HbC.
    apply fsum_ext. intros m Hm. f_equal.
    rewrite at_qp_scratch1 by done. rewrite rd_tab by lia. f_equal. lia.
  - rewrite length_tab, !length_pblock. done.
Qed.

End CouplingResidual.


Section CouplingResidualLoop.
Context {F : Type} `{Scalar F}.
Implicit Types (out state mtxD bf o : FMField F) (vg : VolumeGeometry F).

(** [dw_diffusion_coupling] in residual mode on well-formed inputs: the
    call succeeds, entry [i] of the cell of the element listed at [ii] holds
    [coupling_res_entry], and the cells after the listed elements are
    untouched. *)
Lemma dw_diffusion_coupling_res_spec out state offset mtxD bf vg conn nEl nEP
    elList elList_nRow isDiff mode :
  isDiff = 0%Z →
  coupling_geom_ok mtxD bf vg nEP elList elList_nRow →
  gather_ok (set_val state (FMF_PtrFirst state + offset)) conn nEP elList
    elList_nRow →
  out_ok out nEP 1 → elList_nRow ≤ nCell out →
  ∃ out',
    dw_diffusion_coupling out state offset mtxD bf vg conn nEl nEP
      elList elList_nRow isDiff mode false
    = Ok ((RET_OK, out'), false)
    ∧ same_shape out' out
    ∧ (∀ ii i, ii < elList_nRow → i < nEP →
         val0 out' !! (ii * nEP + i)
         = Some (coupling_res_entry
                   (set_val state (FMF_PtrFirst state + offset))
                   mtxD bf vg conn nEP elList mode ii i))
    ∧ (∀ j, elList_nRow * nEP ≤ j → val0 out' !! j = val0 out !! j).
Proof.
  intros HD Hgeom Hgather Hout Hn.
  set (nQP := nLev (bfGM vg)). set (dim := nRow (bfGM vg)).
  set (st := set_val state (FMF_PtrFirst state + offset)) in *.
  destruct (out_ok_size out nEP 1 Hout) as [Hcs Hlen].
  assert (elList_nRow * (nEP * 1) ≤ length (val0 out)) as Hlen' by nia.
  set (gR := if decide (0 < mode)%Z then dim else 1).
  set (dR := if decide (0 < mode)%Z then 1 else dim).
  destruct (cell_loop_entries
              (dw_diffusion_coupling_cell st mtxD bf vg conn nEP elList
                 isDiff mode)
              (λ sc, ∃ bs bg bd bt,
                 sc = mkCouplingScratch (scratch 1 nEP 1 bs) fmf_null fmf_null
                        (scratch nQP gR 1 bg) (scratch nQP dR 1 bd)
                        (scratch nQP nEP 1 bt)
                 ∧ length bs = nEP
                 ∧ length bg = nQP * (gR * 1)
                 ∧ length bd = nQP * (dR * 1)
                 ∧ length bt = nQP * (nEP * 1))
              (λ ii i _, coupling_res_entry st mtxD bf vg conn nEP elList
                           mode ii i)
              out elList_nRow nEP 1
              (mkCouplingScratch (fmf_createAlloc 1 1 nEP 1) fmf_null fmf_null
                 (fmf_createAlloc 1 nQP gR 1) (fmf_createAlloc 1 nQP dR 1)
                 (fmf_createAlloc 1 nQP nEP 1)))
    as (out' & sc' & Hrun & Hshape & Hent & Hrest); try done.
  - do 4 eexists. split; [reflexivity|]. rewrite !length_replicate. lia.
  - intros ii o sc Hii Ho (bs & bg & bd & bt & -> & Hbs & Hbg & Hbd & Hbt).
    unfold gR, dR in *. destruct (decide (0 < mode)%Z) as [Hm|Hm].
    + destruct (dw_diffusion_coupling_res_cell_pos out st mtxD bf vg conn nEP
                  elList elList_nRow isDiff mode ii o fmf_null fmf_null
                  bs bg bd bt)
        as (bs' & bg' & bd' & bt' & (Hbs' & Hbg' & Hbd' & Hbt') & Hcell);
        try done.
      eexists. split; [|exact Hcell]. do 4 eexists. eauto.
    + destruct (dw_diffusion_coupling_res_cell_neg out st mtxD bf vg conn nEP
                  elList elList_nRow isDiff mode ii o fmf_null fmf_null
                  bs bg bd bt)
        as (bs' & bg' & bd' & bt' & (Hbs' & Hbg' & Hbd' & Hbt') & Hcell);
        try done; try lia.
      eexists. split; [|exact Hcell]. do 4 eexists. eauto.
  - exists out'. split; [|split; [done|split]].
    + unfold dw_diffusion_coupling. rewrite decide_False by (rewrite HD; by intros []).
      fold nQP dim st.
      assert ((if decide (0 < mode)%Z then fmf_createAlloc 1 nQP dim 1
               else fmf_createAlloc 1 nQP 1 1)
              = (fmf_createAlloc 1 nQP gR 1 : FMField F)) as ->
        by (unfold gR; by destruct (decide (0 < mode)%Z)).
      assert ((if decide (0 < mode)%Z then fmf_createAlloc 1 nQP 1 1
               else fmf_createAlloc 1 nQP dim 1)
              = (fmf_createAlloc 1 nQP dR 1 : FMField F)) as ->
        by (unfold dR; by destruct (decide (0 < mode)%Z)).
      erewrite M_bind_Ok by exact Hrun. done.
    + intros ii i Hii Hi. specialize (Hent ii i 0 Hii Hi).
      rewrite <-Hent by lia. f_equal. lia.
    + intros j Hj. apply Hrest. lia.
Qed.

End CouplingResidualLoop.


(** ** d_diffusion_coupling and the shapes of its scratch buffers *)

Section CouplingShapes.
Context {F : Type} `{Scalar F}.
Implicit Types (out mtxD bf o : FMField F) (vg : VolumeGeometry F).

(** A product keeps the shape of its result buffer. *)
Lemma fmf_product_shape (tA tB : bool) (objR objA objB r : FMField F) :
  fmf_product tA tB objR objA objB = Ok r →
  nLev r = nLev objR ∧ nRow r = nRow objR ∧ nCol r = nCol objR.
Proof.
  unfold fmf_product. destruct (decide _); [|discriminate].
  destruct (for_ _ _ _) as [b|e]; [|discriminate].
  simpl. by intros [= <-].
Qed.

(** A product whose result buffer has not the rows of its left operand, or
    whose operands have not the same inner dimension, is a shape fault. *)
Lemma fmf_product_rows (tA tB : bool) (objR objA objB : FMField F) :
  nRow objR ≠ (if tA then nCol objA else nRow objA) →
  fmf_product tA tB objR objA objB = Err ShapeMismatch.
Proof.
  intros Hne. unfold fmf_product. rewrite decide_False; [done|].
  by intros (? & _).
Qed.

Lemma fmf_product_inner (tA tB : bool) (objR objA objB : FMField F) :
  (if tA then nRow objA else nCol objA)
  ≠ (if tB then nCol objB else nRow objB) →
  fmf_product tA tB objR objA objB = Err ShapeMismatch.
Proof.
  intros Hne. unfold fmf_product. rewrite decide_False; [done|].
  by intros (_ & _ & ?).
Qed.

Lemma liftR_bind_cases {A B} (r : Res A) (f : A → M B) g :
  (∃ e, r = Err e ∧ (liftR r ≫= f) g = Err e)
  ∨ (∃ a, r = Ok a ∧ (liftR r ≫= f) g = f a g).
Proof. destruct r as [a|e]; [right|left]; eauto. Qed.

(** The cell body of [d_diffusion_coupling] uses [aux2], a [1 x 1] buffer
    per level, as the product G st (mode > 0) or as the right operand of
    G^T aux2 (mode <= 0): when the gradient matrix has not exactly one row,
    the body ends in a fault. *)
Lemma d_diffusion_coupling_cell_fault (stateP stateQ : FMField F) mtxD bf vg
    (conn : list nat) nEP (elList : list nat) mode ii o st aux1 aux2 aux3 aux4 g :
  nRow (bfGM vg) ≠ 1 → nRow aux2 = 1 →
  ∃ e, d_diffusion_coupling_cell stateP stateQ mtxD bf vg conn nEP elList mode
         ii (o, (st, aux1, aux2, aux3, aux4)) g = Err e.
Proof.
  intros Hdim H2. unfold d_diffusion_coupling_cell.
  destruct (liftR_bind_cases (load elList ii)
              (λ iel,
                 st0 ← liftR (ele_extractNodalValuesNBN st stateP
                                (conn, nEP * iel));
                 '(aux5, aux6, aux7) ←
                   (if decide (0 < mode)%Z then
                      aux6 ← liftR (fmf_mulAB_n1 aux2
                                      (FMF_SetCell (bfGM vg) iel) st0);
                      aux5 ← liftR (fmf_mulATB_nn aux1
                                      (FMF_SetCell_bcast mtxD ii) aux6);
                      aux7 ← liftR (fmf_mulATB_nn aux3 bf aux5);
                      mret (aux5, aux6, aux7)
                    else
                      aux5 ← liftR (fmf_mulAB_n1 aux1 bf st0);
                      aux6 ← liftR (fmf_mulAB_nn aux2
                                      (FMF_SetCell_bcast mtxD ii) aux5);
                      aux7 ← liftR (fmf_mulATB_nn aux3
                                      (FMF_SetCell (bfGM vg) iel) aux6);
                      mret (aux5, aux6, aux7));
                 st1 ← liftR (ele_extractNodalValuesNBN st0 stateQ
                                (conn, nEP * iel));
                 aux8 ← liftR (fmf_mulATB_1n aux4 st1 aux7);
                 out0 ← liftR (fmf_sumLevelsMulF (FMF_SetCell o ii) aux8
                                 (FMF_val (FMF_SetCell (det vg) iel)));
                 mret (out0, (st1, aux5, aux6, aux7, aux8))) g)
    as [(e & _ & ->)|(iel & _ & ->)]; [by eexists|].
  match goal with
  | |- ∃ e, (liftR ?r ≫= ?f) g = Err e =>
      destruct (liftR_bind_cases r f g) as [(e & _ & ->)|(st0 & _ & ->)];
        [by eexists|]
  end.
  destruct (decide (0 < mode)%Z).
  - rewrite !M_bind_assoc. erewrite bind_liftR_Err; [by eexists|].
    apply fmf_product_rows. cell_simpl. lia.
  - rewrite !M_bind_assoc.
    match goal with
    | |- ∃ e, (liftR ?r ≫= ?f) g = Err e =>
        destruct (liftR_bind_cases r f g) as [(e & _ & ->)|(a1 & _ & ->)];
          [by eexists|]
    end.
    rewrite !M_bind_assoc.
    match goal with
    | |- ∃ e, (liftR ?r ≫= ?f) g = Err e =>
        destruct (liftR_bind_cases r f g) as [(e & _ & ->)|(a2 & Ha2 & ->)];
          [by eexists|]
    end.
    apply fmf_product_shape in Ha2 as (_ & Ha2 & _).
    rewrite !M_bind_assoc. erewrite bind_liftR_Err; [by eexists|].
    apply fmf_product_inner. cell_simpl. lia.
Qed.

End CouplingShapes.


(** ** d_diffusion_coupling in one space dimension *)

Section CouplingFunctional.
Context {F : Type} `{Scalar F}.
Implicit Types (out mtxD bf o : FMField F) (vg : VolumeGeometry F).

Lemma d_diffusion_coupling_cell_spec out (stateP stateQ : FMField F) mtxD bf vg
    conn nEP elList n mode ii o bs b1 b2 b3 b4 :
  nRow (bfGM vg) = 1 →
  coupling_geom_ok mtxD bf vg nEP elList n →
  gather_ok stateP conn nEP elList n →
  gather_ok stateQ conn nEP elList n →
  out_ok out 1 1 → n ≤ nCell out →
  ii < n →
  same_shape o out →
  length bs = nEP →
  length b1 = nLev (bfGM vg) * (1 * 1) →
  length b2 = nLev (bfGM vg) * (1 * 1) →
  length b3 = nLev (bfGM vg) * (nEP * 1) →
  length b4 = nLev (bfGM vg) * (1 * 1) →
  ∃ bs' b1' b2' b3' b4',
    (length bs' = nEP
     ∧ length b1' = nLev (bfGM vg) * (1 * 1)
     ∧ length b2' = nLev (bfGM vg) * (1 * 1)
     ∧ length b3' = nLev (bfGM vg) * (nEP * 1)
     ∧ length b4' = nLev (bfGM vg) * (1 * 1))
    ∧ d_diffusion_coupling_cell stateP stateQ mtxD bf vg conn nEP elList mode ii
        (o, (scratch 1 nEP 1 bs,
             scratch (nLev (bfGM vg)) 1 1 b1,
             scratch (nLev (bfGM vg)) 1 1 b2,
             scratch (nLev (bfGM vg)) nEP 1 b3,
             scratch (nLev (bfGM vg)) 1 1 b4)) false
      = Ok ((set_val0 (FMF_SetCell o ii)
               (splice (val0 o) (ii * (1 * 1))
                  (mat_block 1 1
                     (λ _ _, d_coupling_entry stateP stateQ mtxD bf vg conn nEP
                               elList mode ii))),
             (scratch 1 nEP 1 bs',
              scratch (nLev (bfGM vg)) 1 1 b1',
              scratch (nLev (bfGM vg)) 1 1 b2',
              scratch (nLev (bfGM vg)) nEP 1 b3',
              scratch (nLev (bfGM vg)) 1 1 b4')), false).
Proof.
  intros Hdim (([HGcs HGlen] & HGC) & ([Hdcs Hdlen] & HdL & HdR & HdC)
               & Hel & HDv & (HbL & HbR & HbC & Hbin))
         HgP HgQ Hout Hn Hii Ho Hbs Hb1 Hb2 Hb3 Hb4.
  set (G := bfGM vg) in *. set (nQP := nLev G) in *.
  destruct (Hel ii Hii) as (iel & Hiel & HielG & Hield).
  assert (nth ii elList 0 = iel) as Hnth by (by apply nth_lookup_Some).
  destruct (out_span o out ii 1 1) as (HoR & HoC & Hocs & Hoin);
    [done|done|lia|].
  assert (batch_ok G (S iel) nQP 1 nEP) as HG by (repeat split; try done; lia).
  assert (batch_ok (det vg) (S iel) nQP 1 1) as Hdt
    by (repeat split; try done; lia).
  pose proof (batch_span _ iel _ _ _ _ Hdt (Nat.lt_succ_diag_r iel)) as Hdtin.
  pose proof (slices_ok_batch _ iel _ _ _ _ HG (Nat.lt_succ_diag_r iel)) as HsG.
  pose proof (slices_ok_bcast _ ii _ _ _ _ HDv Hii) as HsD.
  pose proof (slices_ok_bf bf nQP nEP HbL HbR HbC Hbin) as Hsb.
  pose proof (bcast_shape mtxD ii) as (_ & _ & HDR' & HDC' & _).
  destruct HDv as (_ & HDL & HDR & HDC & _). rewrite Hdim in HDR.
  unfold d_diffusion_coupling_cell.
  erewrite bind_liftR_Ok by (by apply load_Some).
  fold G.
  erewrite bind_liftR_Ok; cycle 1.
  { apply gather_scratch; [done|]. intros inod Hinod.
    rewrite <-Hnth. by apply HgP. }
  destruct (decide (0 < mode)%Z) as [Hm|Hm].
  - rewrite M_bind_assoc.
    erewrite bind_liftR_Ok; cycle 1.
    { unfold fmf_mulAB_n1.
      apply (product_scratch false false nQP 1 1);
        [done | cell_simpl; lia | cell_simpl; lia | cell_simpl; lia | done
        | apply slices_ok_scratch1; rewrite length_tab; lia]. }
    rewrite M_bind_assoc.
    erewrite bind_liftR_Ok; cycle 1.
    { unfold fmf_mulATB_nn.
      apply (product_scratch true false nQP 1 1);
        [done | lia | cell_simpl; lia | cell_simpl; lia | done
        | apply slices_ok_scratch, length_pblock]. }
    rewrite M_bind_assoc.
    erewrite bind_liftR_Ok; cycle 1.
    { unfold fmf_mulATB_nn.
      apply (product_scratch true false nQP nEP 1);
        [done | lia | cell_simpl; lia | cell_simpl; lia | done
        | apply slices_ok_scratch, length_pblock]. }
    rewrite M_bind_ret. cbn beta iota.
    erewrite bind_liftR_Ok; cycle 1.
    { apply gather_scratch; [by rewrite length_tab|]. intros inod Hinod.
      rewrite <-Hnth. by apply HgQ. }
    erewrite bind_liftR_Ok; cycle 1.
    { unfold fmf_mulATB_1n.
      apply (product_scratch true false nQP 1 1);
        [done | cell_simpl; lia | cell_simpl; lia | cell_simpl; lia
        | apply slices_ok_scratch1; rewrite length_tab; lia
        | apply slices_ok_scratch, length_pblock]. }
    erewrite bind_liftR_Ok; cycle 1.
    { apply sum_scratch; try done.
      - apply length_pblock.
      - cell_simpl. lia. }
    do 5 eexists. split; cycle 1.
    + match goal with
      | |- context [mat_block ?n ?m ?e] =>
          rewrite (mat_block_ext n m e
                     (λ _ _, d_coupling_entry stateP stateQ mtxD bf vg conn nEP
                               elList mode ii))
      end; [done|].
      intros r c Hr Hc. unfold d_coupling_entry. fold G nQP.
      rewrite decide_True by done. rewrite Hnth, Hdim.
      assert (r = 0) as -> by lia. assert (c = 0) as -> by lia.
      apply fsum_ext. intros q Hq. f_equal.
      rewrite at_qp_product, product_entry_tf by lia. cell_simpl.
      apply fsum_ext. intros i Hi. rewrite at_qp_scratch1 by done.
      rewrite rd_tab by lia. f_equal; [f_equal; lia|].
      rewrite at_qp_product, product_entry_tf by lia. cell_simpl. rewrite HbR.
      apply fsum_ext. intros k Hk. f_equal.
      rewrite at_qp_product, product_entry_tf by lia. cell_simpl.
      rewrite HDR', HDR.
      apply fsum_ext. intros d Hd. f_equal.
      rewrite at_qp_product, product_entry_ff by lia. cell_simpl. rewrite HGC.
      apply fsum_ext. intros m Hm'. f_equal.
      rewrite at_qp_scratch1 by done. rewrite rd_tab by lia. f_equal. lia.
    + rewrite length_tab, !length_pblock. done.
  - rewrite M_bind_assoc.
    erewrite bind_liftR_Ok; cycle 1.
    { unfold fmf_mulAB_n1.
      apply (product_scratch false false nQP 1 1);
        [done | lia | cell_simpl; lia | cell_simpl; lia | done
        | apply slices_ok_scratch1; rewrite length_tab; lia]. }
    rewrite M_bind_assoc.
    erewrite bind_liftR_Ok; cycle 1.
    { unfold fmf_mulAB_nn.
      apply (product_scratch false false nQP 1 1);
        [done | lia | cell_simpl; lia | cell_simpl; lia | done
        | apply slices_ok_scratch, length_pblock]. }
    rewrite M_bind_assoc.
    erewrite bind_liftR_Ok; cycle 1.
    { unfold fmf_mulATB_nn.
      apply (product_scratch true false nQP nEP 1);
        [done | cell_simpl; lia | cell_simpl; lia | cell_simpl; lia | done
        | apply slices_ok_scratch, length_pblock]. }
    rewrite M_bind_ret. cbn beta iota.
    erewrite bind_liftR_Ok; cycle 1.
    { apply gather_scratch; [by rewrite length_tab|]. intros inod Hinod.
      rewrite <-Hnth. by apply HgQ. }
    erewrite bind_liftR_Ok; cycle 1.
    { unfold fmf_mulATB_1n.
      apply (product_scratch true false nQP 1 1);
        [done | cell_simpl; lia | cell_simpl; lia | cell_simpl; lia
        | apply slices_ok_scratch1; rewrite length_tab; lia
        | apply slices_ok_scratch, length_pblock]. }
    erewrite bind_liftR_Ok; cycle 1.
    { apply sum_scratch; try done.
      - apply length_pblock.
      - cell_simpl. lia. }
    do 5 eexists. split; cycle 1.
    + match goal with
      | |- context [mat_block ?n ?m ?e] =>
          rewrite (mat_block_ext n m e
                     (λ _ _, d_coupling_entry stateP stateQ mtxD bf vg conn nEP
                               elList mode ii))
      end; [done|].
      intros r c Hr Hc. unfold d_coupling_entry. fold G nQP.
      rewrite decide_False by done. rewrite Hnth, Hdim.
      assert (r = 0) as -> by lia. assert (c = 0) as -> by lia.
      apply fsum_ext. intros q Hq. f_equal.
      rewrite at_qp_product, product_entry_tf by lia. cell_simpl.
      apply fsum_ext. intros i Hi. rewrite at_qp_scratch1 by done.
      rewrite rd_tab by lia. f_equal; [f_equal; lia|].
      rewrite at_qp_product, product_entry_tf by lia. cell_simpl.
      fold G. rewrite Hdim.
      apply fsum_ext. intros d Hd. f_equal.
      rewrite at_qp_product, product_entry_ff by lia. cell_simpl.
      rewrite HDC', HDC.
      apply fsum_ext. intros k Hk. f_equal.
      rewrite at_qp_product, product_entry_ff by lia. cell_simpl. rewrite HbC.
      apply fsum_ext. intros m Hm'. f_equal.
      rewrite at_qp_scratch1 by done. rewrite rd_tab by lia. f_equal. lia.
    + rewrite length_tab, !length_pblock. done.
Qed.

End CouplingFunctional.


Section CouplingFunctionalLoop.
Context {F : Type} `{Scalar F}.
Implicit Types (out mtxD bf o : FMField F) (vg : VolumeGeometry F).

(** [d_diffusion_coupling] for a gradient matrix of one row, on
    well-formed inputs: the call succeeds and the cell of the element listed
    at [ii] holds [d_coupling_entry]. *)
Lemma d_diffusion_coupling_spec out (stateP stateQ : FMField F) mtxD bf vg
    conn nEl nEP elList elList_nRow isDiff mode :
  nRow (bfGM vg) = 1 →
  coupling_geom_ok mtxD bf vg nEP elList elList_nRow →
  gather_ok stateP conn nEP elList elList_nRow →
  gather_ok stateQ conn nEP elList elList_nRow →
  out_ok out 1 1 → elList_nRow ≤ nCell out →
  ∃ out',
    d_diffusion_coupling out stateP stateQ mtxD bf vg conn nEl nEP
      elList elList_nRow isDiff mode false
    = Ok ((RET_OK, out'), false)
    ∧ same_shape out' out
    ∧ (∀ ii, ii < elList_nRow →
         val0 out' !! ii
         = Some (d_coupling_entry stateP stateQ mtxD bf vg conn nEP elList
                   mode ii))
    ∧ (∀ j, elList_nRow ≤ j → val0 out' !! j = val0 out !! j).
Proof.
  intros Hdim Hgeom HgP HgQ Hout Hn.
  set (nQP := nLev (bfGM vg)).
  destruct (out_ok_size out 1 1 Hout) as [Hcs Hlen].
  assert (elList_nRow * (1 * 1) ≤ length (val0 out)) as Hlen' by nia.
  destruct (cell_loop_entries
              (d_diffusion_coupling_cell stateP stateQ mtxD bf vg conn nEP
                 elList mode)
              (λ sc, ∃ bs b1 b2 b3 b4,
                 sc = (scratch 1 nEP 1 bs, scratch nQP 1 1 b1,
                       scratch nQP 1 1 b2, scratch nQP nEP 1 b3,
                       scratch nQP 1 1 b4)
                 ∧ length bs = nEP
                 ∧ length b1 = nQP * (1 * 1)
                 ∧ length b2 = nQP * (1 * 1)
                 ∧ length b3 = nQP * (nEP * 1)
                 ∧ length b4 = nQP * (1 * 1))
              (λ ii _ _, d_coupling_entry stateP stateQ mtxD bf vg conn nEP
                           elList mode ii)
              out elList_nRow 1 1
              (fmf_createAlloc 1 1 nEP 1, fmf_createAlloc 1 nQP 1 1,
               fmf_createAlloc 1 nQP 1 1, fmf_createAlloc 1 nQP nEP 1,
               fmf_createAlloc 1 nQP 1 1))
    as (out' & sc' & Hrun & Hshape & Hent & Hrest); try done.
  - do 5 eexists. split; [reflexivity|]. rewrite !length_replicate. lia.
  - intros ii o sc Hii Ho (bs & b1 & b2 & b3 & b4 & -> & Hbs & Hb1 & Hb2 & Hb3
                           & Hb4).
    destruct (d_diffusion_coupling_cell_spec out stateP stateQ mtxD bf vg conn
                nEP elList elList_nRow mode ii o bs b1 b2 b3 b4)
      as (bs' & b1' & b2' & b3' & b4' & (Hbs' & Hb1' & Hb2' & Hb3' & Hb4')
          & Hcell); try done.
    eexists. split; [|exact Hcell]. do 5 eexists. eauto 10.
  - exists out'. split; [|split; [done|split]].
    + unfold d_diffusion_coupling. fold nQP. rewrite Hdim.
      erewrite M_bind_Ok by exact Hrun. done.
    + intros ii Hii. specialize (Hent ii 0 0 Hii).
      rewrite <-Hent by lia. f_equal. lia.
    + intros j Hj. apply Hrest. lia.
Qed.

End CouplingFunctionalLoop.

(** ** dw_laplace on an unsupported space dimension *)

Section LaplaceUnsupported.
Context {F : Type} `{Scalar F}.
Implicit Types (out grad coef o : FMField F) (vg : VolumeGeometry F).

(** On a row count other than 2 and 3 the builder only clears the current
    cell of [out] and raises the error flag. *)
Lemma laplace_build_gtg_default out (gc : FMField F) g :
  nRow gc ≠ 2 → nRow gc ≠ 3 →
  val out + nLev out * nRow out * nCol out ≤ length (val0 out) →
  laplace_build_gtg out gc g
  = Ok ((RET_Fail,
         set_val0 out (splice (val0 out) (val out)
                         (replicate (nLev out * nRow out * nCol out) f0))),
        true).
Proof.
  intros H2 H3 Hlen. unfold laplace_build_gtg.
  erewrite bind_liftR_Ok by (by apply fmf_fillC_spec).
  destruct (nRow gc) as [|[|[|[|?]]]]; try done.
Qed.

(** On a row count other than 2 and 3 the two actions leave [out] as it is
    and raise the error flag. *)
Lemma laplace_act_g_m_default out (gc mtx : FMField F) g :
  nRow gc ≠ 2 → nRow gc ≠ 3 →
  laplace_act_g_m out gc mtx g = Ok ((RET_Fail, out), true).
Proof.
  intros H2 H3. unfold laplace_act_g_m.
  destruct (nRow gc) as [|[|[|[|?]]]]; try done.
Qed.

Lemma laplace_act_gt_m_default out (gc mtx : FMField F) g :
  nRow gc ≠ 2 → nRow gc ≠ 3 →
  laplace_act_gt_m out gc mtx g = Ok ((RET_Fail, out), true).
Proof.
  intros H2 H3. unfold laplace_act_gt_m.
  destruct (nRow gc) as [|[|[|[|?]]]]; try done.
Qed.

Lemma at_qp_zeros nL nR nC q r c :
  q < nL → r < nR → c < nC →
  at_qp (scratch nL nR nC (replicate (nL * nR * nC) (f0 : F))) nL q r c = f0.
Proof.
  intros Hq Hr Hc. unfold at_qp, level_slice. simpl.
  rewrite decide_True by done. apply rd_lookup, lookup_replicate_2.
  assert (q * (nR * nC) + nR * nC ≤ nL * (nR * nC)) by (by apply block_bound).
  assert (r * nC + nC ≤ nR * nC) by (by apply block_bound).
  lia.
Qed.

(** The first cell of [dw_laplace] when the gradient matrix has neither 2
    nor 3 rows: the status of the kernel is ignored, the scaling and the
    weighted sum are done on the scratch buffer, and the error flag is left
    raised.  In matrix mode the scratch buffer has been cleared. *)
Lemma dw_laplace_cell_unsupported out grad coef vg isDiff ii o bm bv g :
  nRow (bfGM vg) ≠ 2 → nRow (bfGM vg) ≠ 3 →
  batch_ok (det vg) (nCell out) (nLev (bfGM vg)) 1 1 →
  bcast_ok coef (nCell out) (nLev (bfGM vg)) 1 1 →
  out_ok out (nCol (bfGM vg))
    (if decide (isDiff ≠ 0%Z) then nCol (bfGM vg) else 1) →
  ii < nCell out →
  same_shape o out →
  length bm = nLev (bfGM vg) * (nCol (bfGM vg) * nCol (bfGM vg)) →
  length bv = nLev (bfGM vg) * (nCol (bfGM vg) * 1) →
  ∃ e sc,
    dw_laplace_cell grad coef vg isDiff ii
      (o, (if decide (isDiff ≠ 0%Z)
           then (scratch (nLev (bfGM vg)) (nCol (bfGM vg)) (nCol (bfGM vg)) bm,
                 fmf_null)
           else (fmf_null,
                 scratch (nLev (bfGM vg)) (nCol (bfGM vg)) 1 bv))) g
    = Ok ((set_val0 (FMF_SetCell o ii)
             (splice (val0 o) (ii * cellSize out)
                (mat_block (nCol (bfGM vg))
                   (if decide (isDiff ≠ 0%Z) then nCol (bfGM vg) else 1) e)),
           sc), true)
    ∧ (isDiff ≠ 0%Z → ∀ i j,
         i < nCol (bfGM vg) → j < nCol (bfGM vg) →
         e i j = fsum (nLev (bfGM vg)) (λ q,
                   fmul (fmul f0 (wt_qp (FMF_SetCell_bcast coef ii) q))
                        (wt_qp (FMF_SetCell (det vg) ii) q))).
Proof.
  intros H2 H3 Hdt Hcf Hout Hii Ho Hbm Hbv.
  set (G := bfGM vg) in *. set (nQP := nLev G) in *. set (nEP := nCol G) in *.
  pose proof (batch_span _ ii _ _ _ _ Hdt Hii) as Hdtin.
  pose proof (bcast_span _ ii _ _ _ _ Hcf Hii) as Hcfin.
  unfold dw_laplace_cell.
  destruct (decide (isDiff ≠ 0%Z)) as [HD|HD].
  - destruct (out_span o out ii nEP nEP) as (HoR & HoC & Hocs & Hoin);
      [done..|].
    destruct (out_ok_size out nEP nEP Hout) as [Hcs _].
    erewrite M_bind_Ok; cycle 1.
    { apply laplace_build_gtg_default; [done..|]. cell_simpl. lia. }
    cbn beta iota. cell_simpl.
    rewrite splice_full by (rewrite length_replicate; lia).
    erewrite bind_liftR_Ok; cycle 1.
    { apply (mulAF_self_scratch nQP nEP nEP).
      - rewrite length_replicate. lia.
      - simpl. lia. }
    erewrite bind_liftR_Ok; cycle 1.
    { apply sum_scratch; try done.
      - apply length_levels.
      - cell_simpl. lia. }
    do 2 eexists. split; [rewrite Hcs; reflexivity|].
    intros _ i j Hi Hj. cbn beta. apply fsum_ext. intros q Hq. f_equal.
    rewrite at_qp_levels by lia. f_equal.
    by apply (at_qp_zeros nQP nEP nEP).
  - destruct (out_span o out ii nEP 1) as (HoR & HoC & Hocs & Hoin);
      [done..|].
    destruct (out_ok_size out nEP 1 Hout) as [Hcs _].
    erewrite M_bind_Ok; cycle 1.
    { apply laplace_act_gt_m_default; done. }
    cbn beta iota.
    erewrite bind_liftR_Ok; cycle 1.
    { apply (mulAF_self_scratch nQP nEP 1); [done|]. simpl. lia. }
    erewrite bind_liftR_Ok; cycle 1.
    { apply sum_scratch; try done.
      - apply length_levels.
      - cell_simpl. lia. }
    do 2 eexists. split; [rewrite Hcs; reflexivity|]. done.
Qed.

End LaplaceUnsupported.


(** ** Algebra of the accumulated sums *)

Section MoreAlgebra.
Context {F : Type} `{Scalar F} (L : SemiringLaws (F:=F)).

Add Ring F_ring_sums : (F_semi_ring L).

Lemma fsum_1 (f : nat → F) : fsum 1 f = f 0.
Proof. rewrite fsum_S, fsum_0. ring. Qed.

(** Sum_d a_d * delta(d, e) * c = a_e * c *)
Lemma fsum_delta n (a : nat → F) (c : F) e :
  e < n →
  fsum n (λ d, fmul (a d) (if decide (d = e) then c else f0)) = fmul (a e) c.
Proof.
  intros He. induction n as [|n IH]; [lia|].
  rewrite fsum_S. destruct (decide (n = e)) as [->|Hne].
  - rewrite (fsum_ext _ _ (λ _, f0)).
    + rewrite (fsum_const_0 L). ring.
    + intros k Hk. rewrite decide_False by lia. ring.
  - rewrite IH by lia. ring.
Qed.

(** Sum_i (Sum_j f i j) * c_i = Sum_j Sum_i f i j * c_i *)
Lemma fsum_exchange_mul n m (f : nat → nat → F) (c : nat → F) :
  fsum n (λ i, fmul (fsum m (λ j, f i j)) (c i))
  = fsum m (λ j, fsum n (λ i, fmul (f i j) (c i))).
Proof.
  rewrite <-(fsum_exchange L). apply fsum_ext. intros i Hi.
  apply (fsum_mul_r L).
Qed.

(** The expression of [laplace_act_gt_m] is the entry of G^T M. *)
Lemma gt_m_entry_sum (gc mtx : FMField F) iqp i c :
  nRow gc = 2 ∨ nRow gc = 3 →
  gt_m_entry gc mtx iqp i c
  = fsum (nRow gc) (λ d, fmul (G_entry gc iqp d i) (M_entry mtx iqp d c)).
Proof.
  unfold gt_m_entry. intros [-> | ->].
  - by rewrite (fsum_2 L).
  - by rewrite (fsum_3 L).
Qed.

(** *** d_laplace is symmetric in its two gradients *)

Lemma d_laplace_entry_sym (gradP1 gradP2 coef : FMField F) vg ii :
  nRow gradP1 = nRow gradP2 →
  d_laplace_entry gradP1 gradP2 coef vg ii
  = d_laplace_entry gradP2 gradP1 coef vg ii.
Proof.
  intros HR. unfold d_laplace_entry. cell_simpl. rewrite HR.
  apply fsum_ext. intros q Hq. f_equal.
  apply fsum_ext. intros d Hd. ring.
Qed.

(** *** dw_diffusion with a symmetric tensor gives a symmetric matrix *)

Lemma diffusion_mtx_entry_sym (mtxD : FMField F) vg ii i j :
  (∀ q d e, q < nLev (bfGM vg) → d < nRow (bfGM vg) → e < nRow (bfGM vg) →
     at_qp (FMF_SetCell_bcast mtxD ii) (nLev (bfGM vg)) q d e
     = at_qp (FMF_SetCell_bcast mtxD ii) (nLev (bfGM vg)) q e d) →
  diffusion_mtx_entry mtxD vg ii i j = diffusion_mtx_entry mtxD vg ii j i.
Proof.
  intros Hsym. unfold diffusion_mtx_entry.
  apply fsum_ext. intros q Hq. f_equal.
  rewrite !fsum_exchange_mul.
  rewrite (fsum_exchange L). apply fsum_ext. intros d Hd.
  apply fsum_ext. intros e He. rewrite (Hsym q e d) by done. ring.
Qed.

(** *** dw_diffusion with the tensor c I is dw_laplace *)

Lemma diffusion_mtx_entry_isotropic (coef mtxD : FMField F) vg ii i j :
  (∀ q d e, q < nLev (bfGM vg) → d < nRow (bfGM vg) → e < nRow (bfGM vg) →
     at_qp (FMF_SetCell_bcast mtxD ii) (nLev (bfGM vg)) q d e
     = if decide (d = e) then wt_qp (FMF_SetCell_bcast coef ii) q else f0) →
  diffusion_mtx_entry mtxD vg ii i j = laplace_matrix coef vg ii i j.
Proof.
  intros HD. unfold diffusion_mtx_entry, laplace_matrix, gramian_entry.
  cell_simpl. apply fsum_ext. intros q Hq.
  transitivity
    (fmul (fsum (nRow (bfGM vg)) (λ e,
             fmul (fmul (at_qp (FMF_SetCell (bfGM vg) ii) (nLev (bfGM vg)) q e i)
                        (wt_qp (FMF_SetCell_bcast coef ii) q))
                  (at_qp (FMF_SetCell (bfGM vg) ii) (nLev (bfGM vg)) q e j)))
          (wt_qp (FMF_SetCell (det vg) ii) q)).
  - f_equal. apply fsum_ext. intros e He. f_equal.
    rewrite <-(fsum_delta (nRow (bfGM vg))
                 (λ d, at_qp (FMF_SetCell (bfGM vg) ii) (nLev (bfGM vg)) q d i)
                 (wt_qp (FMF_SetCell_bcast coef ii) q) e He).
    apply fsum_ext. intros d Hd. by rewrite HD.
  - rewrite (fsum_mul_r L), (fsum_mul_l L). apply fsum_ext. intros d Hd.
    unfold at_qp, G_entry, wt_qp, level_slice, FMF_PtrLevel. cell_simpl.
    rewrite decide_True by done.
    replace (ii * cellSize (bfGM vg) + nCol (bfGM vg) * nRow (bfGM vg) * q
             + (nCol (bfGM vg) * d + i))
      with (ii * cellSize (bfGM vg) + q * nRow (bfGM vg) * nCol (bfGM vg)
            + d * nCol (bfGM vg) + i) by lia.
    replace (ii * cellSize (bfGM vg) + nCol (bfGM vg) * nRow (bfGM vg) * q
             + (nCol (bfGM vg) * d + j))
      with (ii * cellSize (bfGM vg) + q * nRow (bfGM vg) * nCol (bfGM vg)
            + d * nCol (bfGM vg) + j) by lia.
    ring.
Qed.

End MoreAlgebra.


(** ** The coupling residual is the coupling matrix applied to the nodal
    values *)

Section CouplingConsistency.
Context {F : Type} `{Scalar F} (L : SemiringLaws (F:=F)).
Implicit Types (state mtxD bf : FMField F) (vg : VolumeGeometry F).

Add Ring F_ring_coupling : (F_semi_ring L).

(** The entries of the coupling matrix as sums over the quadrature points
    and the space dimension. *)
Lemma coupling_entry_sum mtxD bf vg nEP (elList : list nat) mode ii i j :
  nRow bf = 1 → i < nEP → j < nEP →
  coupling_entry mtxD bf vg nEP elList mode ii i j
  = fsum (nLev (bfGM vg)) (λ q,
      fmul (fmul (at_qp bf (nLev (bfGM vg)) q 0
                    (if decide (0 < mode)%Z then i else j))
                 (fsum (nRow (bfGM vg)) (λ d,
                    fmul (at_qp (FMF_SetCell (bfGM vg) (nth ii elList 0))
                            (nLev (bfGM vg)) q d
                            (if decide (0 < mode)%Z then j else i))
                         (at_qp (FMF_SetCell_bcast mtxD ii)
                            (nLev (bfGM vg)) q d 0))))
           (wt_qp (FMF_SetCell (det vg) (nth ii elList 0)) q)).
Proof.
  intros HbR Hi Hj. unfold coupling_entry.
  apply fsum_ext. intros q Hq. f_equal.
  set (nQP := nLev (bfGM vg)) in *.
  set (G := FMF_SetCell (bfGM vg) (nth ii elList 0)).
  set (D := FMF_SetCell_bcast mtxD ii).
  assert (∀ r c, r < nEP → c < 1 →
            at_qp (coupling_gtd mtxD vg nEP elList ii) nQP q r c
            = fsum (nRow (bfGM vg)) (λ d,
                fmul (at_qp G nQP q d r) (at_qp D nQP q d c))) as Hgtd.
  { intros r c Hr Hc.
    transitivity (product_entry true false (scratch nQP nEP 1 []) G D q r c).
    - exact (at_qp_product true false nQP nEP 1 G D q r c Hq Hr Hc).
    - by rewrite product_entry_tf. }
  unfold coupling_gtdg. fold nQP.
  change (rd (val0 (set_val0 (fmf_createAlloc 1 nQP nEP nEP) ?b))
            (0 + nEP * nEP * q + (i * nEP + j)))
    with (rd b (0 + nEP * nEP * q + (i * nEP + j))).
  destruct (decide (0 < mode)%Z).
  - erewrite rd_lookup; cycle 1.
    { replace (0 + nEP * nEP * q + (i * nEP + j))
        with (q * (nEP * nEP) + i * nEP + j) by lia.
      apply (lookup_product_block true true (fmf_createAlloc 1 nQP nEP nEP));
        simpl; lia. }
    rewrite product_entry_tt. cell_simpl. rewrite HbR, (fsum_1 L).
    f_equal. apply Hgtd; lia.
  - erewrite rd_lookup; cycle 1.
    { replace (0 + nEP * nEP * q + (i * nEP + j))
        with (q * (nEP * nEP) + i * nEP + j) by lia.
      apply (lookup_product_block false false (fmf_createAlloc 1 nQP nEP nEP));
        simpl; lia. }
    rewrite product_entry_ff. cell_simpl.
    change (nCol (coupling_gtd mtxD vg nEP elList ii)) with 1.
    rewrite (fsum_1 L), Hgtd by lia. ring.
Qed.

(** The residual entry with the sums over the single row of [bf] and the
    single column of D resolved. *)
Lemma coupling_res_entry_sum state mtxD bf vg (conn : list nat) nEP
    (elList : list nat) mode ii i :
  coupling_res_entry state mtxD bf vg conn nEP elList mode ii i
  = fsum (nLev (bfGM vg)) (λ q,
      fmul (if decide (0 < mode)%Z then
              fmul (at_qp bf (nLev (bfGM vg)) q 0 i)
                   (fsum (nRow (bfGM vg)) (λ d,
                      fmul (at_qp (FMF_SetCell_bcast mtxD ii)
                              (nLev (bfGM vg)) q d 0)
                           (fsum nEP (λ n,
                              fmul (at_qp (FMF_SetCell (bfGM vg) (nth ii elList 0))
                                      (nLev (bfGM vg)) q d n)
                                   (nodal state conn (nEP * nth ii elList 0) n)))))
            else
              fsum (nRow (bfGM vg)) (λ d,
                fmul (at_qp (FMF_SetCell (bfGM vg) (nth ii elList 0))
                        (nLev (bfGM vg)) q d i)
                     (fmul (at_qp (FMF_SetCell_bcast mtxD ii)
                              (nLev (bfGM vg)) q d 0)
                           (fsum nEP (λ n,
                              fmul (at_qp bf (nLev (bfGM vg)) q 0 n)
                                   (nodal state conn (nEP * nth ii elList 0) n))))))
           (wt_qp (FMF_SetCell (det vg) (nth ii elList 0)) q)).
Proof.
  unfold coupling_res_entry. destruct (decide (0 < mode)%Z).
  - apply fsum_ext. intros q Hq. by rewrite (fsum_1 L).
  - apply fsum_ext. intros q Hq. f_equal. apply fsum_ext. intros d Hd.
    by rewrite (fsum_1 L).
Qed.

(** Sum_j K[i,j] * p_j is the residual entry [i]. *)
Lemma coupling_matrix_times_nodal state mtxD bf vg (conn : list nat) nEP
    (elList : list nat) mode ii i :
  nRow bf = 1 → i < nEP →
  fsum nEP (λ j,
    fmul (coupling_entry mtxD bf vg nEP elList mode ii i j)
         (nodal state conn (nEP * nth ii elList 0) j))
  = coupling_res_entry state mtxD bf vg conn nEP elList mode ii i.
Proof.
  intros HbR Hi.
  rewrite (fsum_ext _ _ (λ j,
             fmul (fsum (nLev (bfGM vg)) (λ q,
                fmul (fmul (at_qp bf (nLev (bfGM vg)) q 0
                              (if decide (0 < mode)%Z then i else j))
                           (fsum (nRow (bfGM vg)) (λ d,
                              fmul (at_qp (FMF_SetCell (bfGM vg) (nth ii elList 0))
                                      (nLev (bfGM vg)) q d
                                      (if decide (0 < mode)%Z then j else i))
                                   (at_qp (FMF_SetCell_bcast mtxD ii)
                                      (nLev (bfGM vg)) q d 0))))
                     (wt_qp (FMF_SetCell (det vg) (nth ii elList 0)) q)))
               (nodal state conn (nEP * nth ii elList 0) j)))
    by (intros j Hj; by rewrite coupling_entry_sum).
  rewrite coupling_res_entry_sum, (fsum_exchange_mul L).
  apply fsum_ext. intros q Hq.
  set (w := wt_qp _ q). set (p := nodal state conn _).
  set (G := FMF_SetCell (bfGM vg) _). set (D := FMF_SetCell_bcast mtxD ii).
  set (nQP := nLev (bfGM vg)). set (dim := nRow (bfGM vg)).
  destruct (decide (0 < mode)%Z).
  - transitivity
      (fmul (fmul (at_qp bf nQP q 0 i)
               (fsum nEP (λ j,
                  fmul (fsum dim (λ d, fmul (at_qp G nQP q d j) (at_qp D nQP q d 0)))
                       (p j))))
            w).
    + rewrite (fsum_mul_l L), (fsum_mul_r L). apply fsum_ext. intros j Hj. ring.
    + f_equal. f_equal. rewrite (fsum_exchange_mul L).
      apply fsum_ext. intros d Hd. rewrite (fsum_mul_l L).
      apply fsum_ext. intros j Hj. ring.
  - transitivity
      (fmul (fsum dim (λ d,
               fmul (fmul (at_qp G nQP q d i) (at_qp D nQP q d 0))
                    (fsum nEP (λ j, fmul (at_qp bf nQP q 0 j) (p j)))))
            w).
    + rewrite (fsum_mul_r L).
      rewrite (fsum_ext _ _ (λ j,
                 fsum dim (λ d,
                   fmul (fmul (fmul (fmul (at_qp G nQP q d i) (at_qp D nQP q d 0))
                                    (at_qp bf nQP q 0 j)) (p j)) w))).
      * rewrite (fsum_exchange L). apply fsum_ext. intros d Hd.
        rewrite (fsum_mul_l L), (fsum_mul_r L).
        apply fsum_ext. intros j Hj. ring.
      * intros j Hj.
        transitivity
          (fmul (fsum dim (λ d,
                   fmul (at_qp G nQP q d i) (at_qp D nQP q d 0)))
                (fmul (fmul (at_qp bf nQP q 0 j) (p j)) w)); [ring|].
        rewrite (fsum_mul_r L). apply fsum_ext. intros d Hd. ring.
    + f_equal. apply fsum_ext. intros d Hd. ring.
Qed.

End CouplingConsistency.


(** ** The Gramian kernel as a generic product *)

Section GtgProduct.
Context {F : Type} `{Scalar F} (L : SemiringLaws (F:=F)).
Implicit Types (out gc : FMField F).

Lemma at_qp_G_entry gc q d i :
  at_qp gc (nLev gc) q d i = G_entry gc q d i.
Proof.
  unfold at_qp, G_entry, level_slice, FMF_PtrLevel.
  rewrite decide_True by done. f_equal. lia.
Qed.

Lemma at_qp_M_entry (mtx : FMField F) q d c :
  at_qp mtx (nLev mtx) q d c = M_entry mtx q d c.
Proof.
  unfold at_qp, M_entry, level_slice, FMF_PtrLevel.
  rewrite decide_True by done. f_equal. lia.
Qed.

Lemma gtg_block_product out gc :
  nRow gc = 2 ∨ nRow gc = 3 →
  nRow out = nCol gc → nCol out = nCol gc → nLev out = nLev gc →
  product_block true false out gc gc = gtg_block gc.
Proof.
  intros Hdim HR HC HL. unfold product_block, gtg_block.
  rewrite HR, HC, HL. f_equal. apply tab_ext. intros q Hq.
  f_equal. apply tab_ext. intros i Hi. apply tab_ext. intros j Hj.
  rewrite product_entry_tf, HL, (gtg_entry_gramian L) by done.
  unfold gramian_entry. apply fsum_ext. intros d Hd.
  by rewrite !at_qp_G_entry.
Qed.

End GtgProduct.

(** ** A coefficient given once, and given once per cell *)

Section Broadcast.
Context {F : Type} `{Scalar F}.
Implicit Types (X : FMField F).

Lemma lookup_concat_replicate (b : list F) n ii k :
  ii < n → k < length b →
  concat (replicate n b) !! (ii * length b + k) = b !! k.
Proof.
  revert ii. induction n as [|n IH]; intros ii Hii Hk; [lia|].
  simpl. destruct ii as [|ii].
  - by rewrite lookup_app_l by lia.
  - rewrite lookup_app_r by lia.
    replace (S ii * length b + k - length b) with (ii * length b + k) by lia.
    apply IH; [lia|done].
Qed.

Lemma length_concat_replicate (b : list F) n :
  length (concat (replicate n b)) = n * length b.
Proof. induction n as [|n IH]; simpl; [done|]. rewrite length_app. lia. Qed.

Lemma bcast_ok_replicate X n nL nR nC :
  bcast_ok X n nL nR nC → nCell X = 1 → 1 < n →
  bcast_ok (replicate_cells X n) n nL nR nC.
Proof.
  intros ([Hcs Hlen] & HL & HR & HC & _) H1 Hn. unfold bcast_ok, fmf_wf. simpl.
  rewrite length_concat_replicate, Hlen, H1, decide_True by done.
  repeat split; try done; lia.
Qed.

(** Reading the replicated buffer at the cell [ii] is reading the single
    cell. *)
Lemma at_qp_replicate_cells X n ii nL q r c :
  fmf_wf X → nCell X = 1 → val X = 0 → nLev X = nL →
  1 < n → ii < n → q < nL → r < nRow X → c < nCol X →
  at_qp (FMF_SetCell_bcast (replicate_cells X n) ii) nL q r c
  = at_qp (FMF_SetCell_bcast X ii) nL q r c.
Proof.
  intros [Hcs Hlen] H1 Hv HL Hn Hii Hq Hr Hc.
  unfold FMF_SetCell_bcast. simpl.
  rewrite decide_True by done. rewrite decide_False by lia.
  unfold at_qp, level_slice. cell_simpl. rewrite !decide_True by done.
  rewrite Hv. unfold rd. rewrite !nth_lookup. f_equal.
  unfold replicate_cells. cell_simpl.
  assert (cellSize X = length (val0 X)) as -> by lia.
  rewrite <-!Nat.add_assoc. apply lookup_concat_replicate; [done|].
  rewrite Hlen, H1, Hcs, HL.
  assert (q * (nRow X * nCol X) + nRow X * nCol X ≤ nL * (nRow X * nCol X))
    by (by apply block_bound).
  assert (r * nCol X + nCol X ≤ nRow X * nCol X) by (by apply block_bound).
  lia.
Qed.

End Broadcast.

(** ** The total flux as a sum *)

Section FluxSum.
Context {F : Type} `{Scalar F}.
Implicit Types (grad mtxD : FMField F) (sg : SurfaceGeometry F).

Lemma flux_total_sum grad mtxD sg ii :
  nCol mtxD = nRow (normal sg) →
  flux_total grad mtxD sg ii = flux_sum grad mtxD sg ii.
Proof.
  intros HDC. unfold flux_total, flux_sum.
  set (nQP := nLev (normal sg)). set (dim := nRow (normal sg)).
  apply fsum_ext. intros q Hq. f_equal.
  transitivity
    (product_entry true false (scratch nQP 1 1 [])
       (FMF_SetCell (normal sg) ii)
       (scratch nQP dim 1
          (product_block false false (scratch nQP dim 1 [])
             (FMF_SetCell mtxD ii) (FMF_SetCell grad ii))) q 0 0).
  - apply rd_lookup.
    replace (0 + 1 * 1 * q + 0) with (q * (1 * 1) + 0 * 1 + 0) by lia.
    apply (lookup_product_block true false (scratch nQP 1 1 [])); simpl; lia.
  - rewrite product_entry_tf. cell_simpl. fold dim.
    apply fsum_ext. intros d Hd. f_equal.
    rewrite at_qp_product, product_entry_ff by lia. cell_simpl.
    by rewrite HDC.
Qed.

End FluxSum.


(** ** The diffusion residual is the diffusion matrix applied to the nodal
    values *)

Section DiffusionConsistency.
Context {F : Type} `{Scalar F} (L : SemiringLaws (F:=F)).

Add Ring F_ring_diffusion : (F_semi_ring L).

(** When the gradient of the state is G u at every quadrature point,
    Sum_j K[i,j] * u_j is the residual entry [i]. *)
Lemma diffusion_matrix_times_nodal (grad mtxD : FMField F)
    (vg : VolumeGeometry F) ii i (u : nat → F) :
  (∀ q e, q < nLev (bfGM vg) → e < nRow (bfGM vg) →
     at_qp (FMF_SetCell grad ii) (nLev (bfGM vg)) q e 0
     = fsum (nCol (bfGM vg)) (λ n,
         fmul (at_qp (FMF_SetCell (bfGM vg) ii) (nLev (bfGM vg)) q e n) (u n))) →
  fsum (nCol (bfGM vg)) (λ j, fmul (diffusion_mtx_entry mtxD vg ii i j) (u j))
  = diffusion_res_entry grad mtxD vg ii i.
Proof.
  intros Hgrad. unfold diffusion_mtx_entry, diffusion_res_entry.
  set (nQP := nLev (bfGM vg)) in *. set (dim := nRow (bfGM vg)) in *.
  set (nEP := nCol (bfGM vg)) in *.
  set (G := FMF_SetCell (bfGM vg) ii) in *.
  set (D := FMF_SetCell_bcast mtxD ii).
  set (gr := FMF_SetCell grad ii) in *.
  set (w := wt_qp (FMF_SetCell (det vg) ii)).
  rewrite (fsum_exchange_mul L). apply fsum_ext. intros q Hq.
  transitivity
    (fmul (fsum nEP (λ j,
             fmul (fsum dim (λ e,
                     fmul (fsum dim (λ d,
                             fmul (at_qp G nQP q d i) (at_qp D nQP q d e)))
                          (at_qp G nQP q e j)))
                  (u j)))
          (w q)).
  { rewrite (fsum_mul_r L). apply fsum_ext. intros j Hj. ring. }
  f_equal. rewrite (fsum_exchange_mul L).
  transitivity
    (fsum dim (λ e,
       fmul (fsum dim (λ d, fmul (at_qp G nQP q d i) (at_qp D nQP q d e)))
            (at_qp gr nQP q e 0))).
  { apply fsum_ext. intros e He. rewrite Hgrad by done.
    rewrite (fsum_mul_l L). apply fsum_ext. intros j Hj. ring. }
  rewrite (fsum_exchange_mul L). apply fsum_ext. intros d Hd.
  rewrite (fsum_mul_l L). apply fsum_ext. intros e He. ring.
Qed.

End DiffusionConsistency.


(** ** Leaving the cell loop *)

Lemma cell_loop_abort {St} (body : nat → St → M St) ii rest s g s' :
  body ii s g = Ok (s', true) →
  cell_loop body (ii :: rest) s g = Ok ((RET_Fail, s'), true).
Proof. intros Hb. simpl. erewrite M_bind_Ok by exact Hb. reflexivity. Qed.

Lemma cell_loop_fault {St} (body : nat → St → M St) ii rest s g e :
  body ii s g = Err e → cell_loop body (ii :: rest) s g = Err e.
Proof. intros Hb. simpl. by erewrite M_bind_Err by exact Hb. Qed.

Section Validity.

Lemma quad_vg_ok : vg_ok quad_vg 2.
Proof. unfold vg_ok, batch_ok, fmf_wf. simpl. repeat split; lia. Qed.

Lemma quad_laplace_res_valid :
  dw_laplace_res_valid quad_out_v quad_gradP quad_coef quad_vg.
Proof.
  unfold dw_laplace_res_valid, vg_ok, batch_ok, bcast_ok, out_ok, fmf_wf.
  simpl. repeat split; lia.
Qed.

Lemma quad_d_laplace_valid :
  d_laplace_valid quad_out_s quad_gradP quad_gradQ quad_coef quad_vg.
Proof.
  unfold d_laplace_valid, batch_ok, bcast_ok, out_ok, fmf_wf.
  simpl. repeat split; lia.
Qed.

Lemma quad_d_laplace_valid' :
  d_laplace_valid quad_out_s quad_gradQ quad_gradP quad_coef quad_vg.
Proof.
  unfold d_laplace_valid, batch_ok, bcast_ok, out_ok, fmf_wf.
  simpl. repeat split; lia.
Qed.

Lemma quad_diffusion_mtx_valid :
  dw_diffusion_mtx_valid quad_out_m quad_D quad_vg.
Proof.
  unfold dw_diffusion_mtx_valid, vg_ok, batch_ok, bcast_ok, out_ok, fmf_wf.
  simpl. repeat split; lia.
Qed.

Lemma quad_diffusion_iso_valid :
  dw_diffusion_mtx_valid quad_out_m quad_D_iso quad_vg.
Proof.
  unfold dw_diffusion_mtx_valid, vg_ok, batch_ok, bcast_ok, out_ok, fmf_wf.
  simpl. repeat split; lia.
Qed.

Lemma quad_diffusion_res_valid :
  dw_diffusion_res_valid quad_out_v quad_gradP quad_D quad_vg.
Proof.
  unfold dw_diffusion_res_valid, vg_ok, batch_ok, bcast_ok, out_ok, fmf_wf.
  simpl. repeat split; lia.
Qed.

Lemma quad_d_diffusion_valid :
  d_diffusion_valid quad_out_s quad_gradP quad_gradQ quad_D quad_vg.
Proof.
  unfold d_diffusion_valid, batch_ok, bcast_ok, out_ok, fmf_wf.
  simpl. repeat split; lia.
Qed.

Lemma quad_permeability_valid :
  dw_permeability_r_valid quad_out_v quad_Dv quad_vg.
Proof.
  unfold dw_permeability_r_valid, batch_ok, bcast_ok, out_ok, fmf_wf.
  simpl. repeat split; lia.
Qed.

Lemma quad_laplace_valid : dw_laplace_valid quad_out_m quad_coef quad_vg.
Proof.
  unfold dw_laplace_valid, scalar_field_ok, fmf_wf. simpl.
  repeat split; try done; lia.
Qed.

Lemma quad_coupling_geom_ok :
  coupling_geom_ok quad_Dv quad_bf quad_vg 2 quad_elList 2.
Proof.
  unfold coupling_geom_ok, bcast_ok, fmf_wf. simpl.
  repeat split; try lia.
  intros ii Hii. destruct ii as [|[|ii]]; [exists 0|exists 1|lia];
    simpl; repeat split; lia.
Qed.

Lemma quad_gather_ok :
  gather_ok (set_val quad_state (FMF_PtrFirst quad_state + 0)) quad_conn 2
    quad_elList 2.
Proof.
  intros ii inod Hii Hinod.
  destruct ii as [|[|ii]]; [| |lia]; destruct inod as [|[|inod]];
    simpl; try lia.
Qed.

Lemma quad_coupling_valid :
  coupling_valid quad_out_m quad_Dv quad_bf quad_vg 2 quad_elList 2.
Proof.
  unfold coupling_valid, fmf_wf. simpl. repeat split; try lia.
  intros ii Hii. destruct ii as [|[|ii]]; [exists 0|exists 1|lia];
    simpl; repeat split; lia.
Qed.

End Validity.


(** ** The kernels on their own *)

(** X1. For a gradient matrix of 2 or 3 rows and allocated operands,
    [laplace_act_gt_m] returns [RET_OK], leaves the error flag as it is and
    writes G^T M for every quadrature point: the entry (iep, ii) of level
    iqp of the result is Sum_d G[d,iep] * M[d,ii].  The rest of the result
    buffer is unchanged. *)
Theorem laplace_act_gt_m_transposed_product {F : Type} `{Scalar F}
    (out gc mtx : FMField F) g :
  SemiringLaws (F:=F) →
  nRow gc = 2 ∨ nRow gc = 3 →
  act_gt_m_ok out gc mtx →
  ∃ b',
    laplace_act_gt_m out gc mtx g = Ok ((RET_OK, set_val0 out b'), g)
    ∧ length b' = length (val0 out)
    ∧ (∀ iqp iep ii, iqp < nLev gc → iep < nCol gc → ii < nCol mtx →
         b' !! (val out + (iqp * (nCol gc * nCol mtx) + iep * nCol mtx + ii))
         = Some (fsum (nRow gc) (λ d,
                   fmul (G_entry gc iqp d iep) (M_entry mtx iqp d ii))))
    ∧ (∀ j, j < val out ∨ val out + nLev gc * (nCol gc * nCol mtx) ≤ j →
         b' !! j = val0 out !! j).
Proof.
  intros L Hdim Hok. pose proof Hok as (_ & _ & _ & Hout).
  pose proof (length_gt_m_block gc mtx) as Hlen.
  eexists. split; [by apply laplace_act_gt_m_spec|].
  split; [apply length_splice; lia|]. split.
  - intros iqp iep ii Hq Hp Hi.
    assert (iqp * (nCol gc * nCol mtx) + nCol gc * nCol mtx
            ≤ nLev gc * (nCol gc * nCol mtx)) by (by apply block_bound).
    assert (iep * nCol mtx + nCol mtx ≤ nCol gc * nCol mtx)
      by (by apply block_bound).
    rewrite lookup_splice_in by lia.
    rewrite lookup_gt_m_block by done. f_equal.
    by apply (gt_m_entry_sum L).
  - intros j [Hj|Hj].
    + apply lookup_splice_lt; lia.
    + apply lookup_splice_ge; lia.
Qed.

Lemma laplace_act_gt_m_transposed_product_witness :
  SemiringLaws (F:=Z)
  ∧ act_gt_m_ok act_out_col quad_G quad_gradP
  ∧ ∃ b',
      laplace_act_gt_m act_out_col quad_G quad_gradP false
      = Ok ((RET_OK, set_val0 act_out_col b'), false)
      ∧ b' !! 1 = Some (fsum 2 (λ d,
                    fmul (G_entry quad_G 0 d 1) (M_entry quad_gradP 0 d 0))).
Proof.
  assert (act_gt_m_ok act_out_col quad_G quad_gradP) as Hok.
  { unfold act_gt_m_ok, FMF_PtrLevel. simpl. repeat split; try lia.
    all: try (intros iqp Hiqp; assert (iqp = 0) as -> by lia; simpl; lia). }
  split; [exact Z_SemiringLaws|]. split; [exact Hok|].
  destruct (laplace_act_gt_m_transposed_product act_out_col quad_G quad_gradP
              false Z_SemiringLaws)
    as (b' & Hrun & _ & Hent & _); [by left|exact Hok|].
  exists b'. split; [exact Hrun|]. apply (Hent 0 1 0); simpl; lia.
Defined.

(** X2. For a one-column matrix [mtx], a gradient matrix of 2 or 3 rows
    and allocated operands, [laplace_act_g_m] returns [RET_OK] and writes
    the column G M for every quadrature point: the entry d of level iqp is
    Sum_k G[d,k] * M[k].  A matrix with another number of levels than the
    gradient is read at its current slice for every quadrature point. *)
Theorem laplace_act_g_m_one_column {F : Type} `{Scalar F}
    (out gc mtx : FMField F) g :
  nRow gc = 2 ∨ nRow gc = 3 →
  nCol mtx = 1 →
  act_g_m_ok out gc mtx →
  ∃ b',
    laplace_act_g_m out gc mtx g = Ok ((RET_OK, set_val0 out b'), g)
    ∧ length b' = length (val0 out)
    ∧ (∀ iqp d, iqp < nLev gc → d < nRow gc →
         b' !! (val out + (iqp * nRow gc + d))
         = Some (fsum (nCol gc) (λ k,
                   fmul (G_entry gc iqp d k)
                        (rd (val0 mtx)
                            ((if decide (nLev mtx = nLev gc)
                              then FMF_PtrLevel mtx iqp
                              else FMF_PtrCurrent mtx) + k)))))
    ∧ (∀ j, j < val out ∨ val out + nLev gc * nRow gc ≤ j →
         b' !! j = val0 out !! j).
Proof.
  intros Hdim HC Hok. pose proof Hok as (_ & _ & _ & Hout).
  pose proof (length_g_m_block gc mtx) as Hlen.
  eexists. split; [by apply laplace_act_g_m_spec|].
  split; [apply length_splice; lia|]. split.
  - intros iqp d Hq Hd.
    assert (iqp * nRow gc + nRow gc ≤ nLev gc * nRow gc)
      by (by apply block_bound).
    rewrite lookup_splice_in by lia.
    rewrite lookup_g_m_block by done. f_equal.
    unfold gm_entry, act_g_m_slice. apply fsum_ext. intros k Hk.
    rewrite HC. scalar_eq.
  - intros j [Hj|Hj].
    + apply lookup_splice_lt; lia.
    + apply lookup_splice_ge; lia.
Qed.

Lemma laplace_act_g_m_one_column_witness :
  act_g_m_ok act_out_col quad_G act_col
  ∧ ∃ b',
      laplace_act_g_m act_out_col quad_G act_col false
      = Ok ((RET_OK, set_val0 act_out_col b'), false)
      ∧ b' !! 1 = Some 7%Z.
Proof.
  assert (act_g_m_ok act_out_col quad_G act_col) as Hok.
  { unfold act_g_m_ok, act_g_m_slice, FMF_PtrLevel. simpl.
    repeat split; try lia.
    all: try (intros iqp Hiqp; assert (iqp = 0) as -> by lia; simpl; lia). }
  split; [exact Hok|].
  destruct (laplace_act_g_m_one_column act_out_col quad_G act_col false)
    as (b' & Hrun & _ & Hent & _); [by left|done|exact Hok|].
  exists b'. split; [exact Hrun|]. apply (Hent 0 1); simpl; lia.
Defined.

(** X3. When the gradient matrix has neither 2 nor 3 rows,
    [laplace_act_g_m] and [laplace_act_gt_m] return [RET_Fail] and raise
    the error flag without reading an operand or writing the result
    buffer: the result buffer is returned as it was. *)
Theorem laplace_act_unsupported_dim {F : Type} `{Scalar F}
    (out gc mtx : FMField F) g :
  nRow gc ≠ 2 → nRow gc ≠ 3 →
  laplace_act_g_m out gc mtx g = Ok ((RET_Fail, out), true)
  ∧ laplace_act_gt_m out gc mtx g = Ok ((RET_Fail, out), true).
Proof.
  intros H2 H3. split.
  - by apply laplace_act_g_m_default.
  - by apply laplace_act_gt_m_default.
Qed.

Lemma laplace_act_unsupported_dim_witness :
  nRow dim1_gc ≠ 2 ∧ nRow dim1_gc ≠ 3
  ∧ laplace_act_g_m dim1_out dim1_gc fmf_null false
    = Ok ((RET_Fail, dim1_out), true)
  ∧ laplace_act_gt_m dim1_out dim1_gc fmf_null false
    = Ok ((RET_Fail, dim1_out), true).
Proof.
  split; [done|]. split; [done|].
  exact (laplace_act_unsupported_dim dim1_out dim1_gc fmf_null false
           ltac:(done) ltac:(done)).
Defined.

(** X4. For a gradient matrix of 2 or 3 rows, a result buffer of the shape
    [nEP x nEP] with one level per quadrature point and allocated operands,
    the hand-written kernel [laplace_build_gtg] and the generic product
    [fmf_mulATB_nn( out, gc, gc )] leave the same result buffer. *)
Theorem laplace_build_gtg_is_product {F : Type} `{Scalar F}
    (out gc : FMField F) g :
  SemiringLaws (F:=F) →
  nRow gc = 2 ∨ nRow gc = 3 →
  nRow out = nCol gc → nCol out = nCol gc → nLev out = nLev gc →
  val gc + nLev gc * (nRow gc * nCol gc) ≤ length (val0 gc) →
  val out + nLev gc * (nCol gc * nCol gc) ≤ length (val0 out) →
  ∃ out',
    fmf_mulATB_nn out gc gc = Ok out'
    ∧ laplace_build_gtg out gc g = Ok ((RET_OK, out'), g).
Proof.
  intros L Hdim HR HC HL Hgc Hout.
  eexists. split; [|by apply laplace_build_gtg_spec].
  unfold fmf_mulATB_nn. rewrite fmf_product_spec.
  - by rewrite (gtg_block_product L).
  - unfold product_ok. rewrite HR, HC, HL. repeat split; try done.
    + intros il Hil. unfold level_slice. rewrite decide_True by done.
      assert (il * (nRow gc * nCol gc) + nRow gc * nCol gc
              ≤ nLev gc * (nRow gc * nCol gc)) by (by apply block_bound).
      lia.
    + intros il Hil. unfold level_slice. rewrite decide_True by done.
      assert (il * (nRow gc * nCol gc) + nRow gc * nCol gc
              ≤ nLev gc * (nRow gc * nCol gc)) by (by apply block_bound).
      lia.
Qed.

Lemma laplace_build_gtg_is_product_witness :
  SemiringLaws (F:=Z)
  ∧ ∃ out',
      fmf_mulATB_nn gtg_out quad_G quad_G = Ok out'
      ∧ laplace_build_gtg gtg_out quad_G false = Ok ((RET_OK, out'), false).
Proof.
  split; [exact Z_SemiringLaws|].
  apply (laplace_build_gtg_is_product gtg_out quad_G false Z_SemiringLaws);
    simpl; try done; lia.
Defined.


(** ** The Laplace evaluators *)

Lemma laplace_res_entry_residual {F : Type} `{Scalar F}
    (grad coef : FMField F) (vg : VolumeGeometry F) ii i :
  SemiringLaws (F:=F) →
  nRow (bfGM vg) = 2 ∨ nRow (bfGM vg) = 3 →
  nLev grad = nLev (bfGM vg) →
  laplace_res_entry grad coef vg ii i = laplace_residual grad coef vg ii i.
Proof.
  intros L Hdim HgL. unfold laplace_res_entry, laplace_residual.
  apply fsum_ext. intros q Hq. f_equal. f_equal.
  rewrite (gt_m_entry_sum L) by done.
  apply fsum_ext. intros d Hd.
  rewrite <-at_qp_G_entry, <-at_qp_M_entry. cell_simpl. by rewrite HgL.
Qed.

(** X5. In residual mode ([isDiff] = 0) and on well-formed inputs (space
    dimension 2 or 3, a gradient of the state per quadrature point)
    [dw_laplace] succeeds and leaves, at entry i of every cell,
    Sum_q ((Sum_d G_q[d,i] * grad_q[d]) * coef_q) * w_q. *)
Theorem dw_laplace_residual_mode {F : Type} `{Scalar F}
    (out grad coef : FMField F) (vg : VolumeGeometry F) (isDiff : Z) :
  SemiringLaws (F:=F) →
  isDiff = 0%Z →
  dw_laplace_res_valid out grad coef vg →
  ∃ out',
    dw_laplace out grad coef vg isDiff false = Ok ((RET_OK, out'), false)
    ∧ same_shape out' out
    ∧ ∀ ii i, ii < nCell out → i < nCol (bfGM vg) →
        val0 out' !! (ii * nCol (bfGM vg) + i)
        = Some (laplace_residual grad coef vg ii i).
Proof.
  intros L HD Hvalid.
  destruct (dw_laplace_res_spec out grad coef vg isDiff HD Hvalid)
    as (out' & Hrun & Hshape & Hent).
  exists out'. split; [done|]. split; [done|].
  intros ii i Hii Hi. rewrite Hent by done. f_equal.
  destruct Hvalid as (Hdim & _ & (_ & HgL & _) & _).
  by apply laplace_res_entry_residual.
Qed.

Lemma dw_laplace_residual_mode_witness :
  SemiringLaws (F:=Z)
  ∧ dw_laplace_res_valid quad_out_v quad_gradP quad_coef quad_vg
  ∧ ∃ out',
      dw_laplace quad_out_v quad_gradP quad_coef quad_vg 0 false
      = Ok ((RET_OK, out'), false)
      ∧ val0 out' !! 3
        = Some (laplace_residual quad_gradP quad_coef quad_vg 1 1).
Proof.
  split; [exact Z_SemiringLaws|]. split; [exact quad_laplace_res_valid|].
  destruct (dw_laplace_residual_mode quad_out_v quad_gradP quad_coef quad_vg
              0%Z Z_SemiringLaws)
    as (out' & Hrun & _ & Hent); [done|exact quad_laplace_res_valid|].
  exists out'. split; [exact Hrun|]. apply (Hent 1 1); simpl; lia.
Defined.

(** X6. When the gradient matrix has neither 2 nor 3 rows and there is at
    least one cell, [dw_laplace] ignores the status of its kernel, finishes
    the first cell and then leaves the loop: it returns [RET_Fail] with the
    error flag raised, the cells after the first are untouched, and in
    matrix mode the first cell has been overwritten with zeros.  (The
    gradient matrix itself is never read.) *)
Theorem dw_laplace_unsupported_dim {F : Type} `{Scalar F}
    (out grad coef : FMField F) (vg : VolumeGeometry F) (isDiff : Z) :
  SemiringLaws (F:=F) →
  nRow (bfGM vg) ≠ 2 → nRow (bfGM vg) ≠ 3 →
  0 < nCell out →
  batch_ok (det vg) (nCell out) (nLev (bfGM vg)) 1 1 →
  bcast_ok coef (nCell out) (nLev (bfGM vg)) 1 1 →
  out_ok out (nCol (bfGM vg))
    (if decide (isDiff ≠ 0%Z) then nCol (bfGM vg) else 1) →
  ∃ out',
    dw_laplace out grad coef vg isDiff false = Ok ((RET_Fail, out'), true)
    ∧ same_shape out' out
    ∧ (∀ j, cellSize out ≤ j → val0 out' !! j = val0 out !! j)
    ∧ (isDiff ≠ 0%Z → ∀ i j, i < nCol (bfGM vg) → j < nCol (bfGM vg) →
         val0 out' !! (i * nCol (bfGM vg) + j) = Some f0).
Proof.
  intros L H2 H3 Hn Hdt Hcf Hout.
  set (nQP := nLev (bfGM vg)) in *. set (nEP := nCol (bfGM vg)) in *.
  set (nC := if decide (isDiff ≠ 0%Z) then nEP else 1) in *.
  destruct (out_ok_size out nEP nC Hout) as [Hcs Hlen].
  destruct (dw_laplace_cell_unsupported out grad coef vg isDiff 0 out
              (replicate (1 * (nQP * nEP * nEP)) f0)
              (replicate (1 * (nQP * nEP * 1)) f0) false)
    as (e & sc & Hcell & He); try done;
    try (rewrite length_replicate; unfold nQP, nEP; lia).
  fold nQP nEP nC in Hcell, He.
  pose proof (length_mat_block nEP nC e) as HT.
  assert (0 * cellSize out + nEP * nC ≤ length (val0 out)) as Hin.
  { assert (1 * (nEP * nC) ≤ nCell out * (nEP * nC)) by nia. lia. }
  eexists. split; [|split; [|split]].
  - unfold dw_laplace. fold nQP nEP.
    destruct (nCell out) as [|n] eqn:HnC; [lia|].
    change (seq 0 (S n)) with (0 :: seq 1 n).
    erewrite M_bind_Ok; cycle 1.
    { apply cell_loop_abort. rewrite <-Hcell.
      unfold fmf_createAlloc, scratch.
      by destruct (decide (isDiff ≠ 0%Z)). }
    reflexivity.
  - unfold same_shape. simpl. rewrite length_splice by (rewrite HT; lia). done.
  - intros j Hj. simpl. apply lookup_splice_ge; rewrite HT; lia.
  - intros HD i j Hi Hj. simpl.
    unfold nC in *. rewrite decide_True in * by done.
    replace (i * nEP + j) with (0 * cellSize out + (i * nEP + j)) by lia.
    assert (i * nEP + nEP ≤ nEP * nEP) by (by apply block_bound).
    rewrite lookup_splice_in by (rewrite HT; lia).
    rewrite lookup_mat_block by done. f_equal.
    rewrite He by done.
    rewrite (fsum_ext _ _ (λ _, f0)); [apply (fsum_const_0 L)|].
    intros q Hq. by rewrite (fmul_0_l L), (fmul_0_l L).
Qed.

Lemma dw_laplace_unsupported_dim_witness :
  SemiringLaws (F:=Z)
  ∧ nRow (bfGM line_vg) ≠ 2 ∧ nRow (bfGM line_vg) ≠ 3
  ∧ ∃ out',
      dw_laplace line_out_m fmf_null quad_coef line_vg 1 false
      = Ok ((RET_Fail, out'), true)
      ∧ val0 out' !! 3 = Some 0%Z.
Proof.
  split; [exact Z_SemiringLaws|]. split; [done|]. split; [done|].
  destruct (dw_laplace_unsupported_dim line_out_m fmf_null quad_coef line_vg
              1%Z Z_SemiringLaws)
    as (out' & Hrun & _ & _ & Hzero);
    [done|done|simpl; lia
    |unfold batch_ok, fmf_wf; simpl; repeat split; lia
    |unfold bcast_ok, fmf_wf; simpl; repeat split; lia
    |unfold out_ok, fmf_wf; simpl; repeat split; lia|].
  exists out'. split; [exact Hrun|]. apply (Hzero ltac:(done) 1 1); simpl; lia.
Defined.

(** X7. On well-formed inputs [d_laplace] succeeds and leaves, for every
    cell, the scalar Sum_q (Sum_d gradP1_q[d] * (gradP2_q[d] * coef_q)) * w_q;
    it works for every space dimension, and reads no basis-function
    gradient. *)
Theorem d_laplace_value {F : Type} `{Scalar F}
    (out gradP1 gradP2 coef : FMField F) (vg : VolumeGeometry F) :
  d_laplace_valid out gradP1 gradP2 coef vg →
  ∃ out',
    d_laplace out gradP1 gradP2 coef vg false = Ok ((RET_OK, out'), false)
    ∧ same_shape out' out
    ∧ ∀ ii, ii < nCell out →
        val0 out' !! ii
        = Some (fsum (nLev (bfGM vg)) (λ q,
                  fmul (fsum (nRow (bfGM vg)) (λ d,
                          fmul (at_qp (FMF_SetCell gradP1 ii) (nLev (bfGM vg)) q d 0)
                               (fmul (at_qp (FMF_SetCell gradP2 ii)
                                        (nLev (bfGM vg)) q d 0)
                                     (wt_qp (FMF_SetCell_bcast coef ii) q))))
                       (wt_qp (FMF_SetCell (det vg) ii) q))).
Proof.
  intros Hvalid.
  destruct (d_laplace_spec out gradP1 gradP2 coef vg Hvalid)
    as (out' & Hrun & Hshape & Hent).
  exists out'. split; [done|]. split; [done|].
  intros ii Hii. rewrite Hent by done. f_equal.
  destruct Hvalid as (_ & (_ & _ & H1R & _) & _).
  unfold d_laplace_entry. cell_simpl. by rewrite H1R.
Qed.

Lemma d_laplace_value_witness :
  d_laplace_valid quad_out_s quad_gradP quad_gradQ quad_coef quad_vg
  ∧ ∃ out',
      d_laplace quad_out_s quad_gradP quad_gradQ quad_coef quad_vg false
      = Ok ((RET_OK, out'), false)
      ∧ val0 out' !! 1 = Some 60%Z.
Proof.
  split; [exact quad_d_laplace_valid|].
  destruct (d_laplace_value quad_out_s quad_gradP quad_gradQ quad_coef quad_vg
              quad_d_laplace_valid)
    as (out' & Hrun & _ & Hent).
  exists out'. split; [exact Hrun|]. apply (Hent 1). simpl. lia.
Defined.

(** X8. [d_laplace] is symmetric in its two gradient arguments: on
    well-formed inputs and over a commutative semiring of scalars, the two
    calls with the gradients exchanged succeed and leave the same value for
    every cell. *)
Theorem d_laplace_symmetric {F : Type} `{Scalar F}
    (out gradP1 gradP2 coef : FMField F) (vg : VolumeGeometry F) :
  SemiringLaws (F:=F) →
  d_laplace_valid out gradP1 gradP2 coef vg →
  ∃ out12 out21,
    d_laplace out gradP1 gradP2 coef vg false = Ok ((RET_OK, out12), false)
    ∧ d_laplace out gradP2 gradP1 coef vg false = Ok ((RET_OK, out21), false)
    ∧ ∀ ii, ii < nCell out → val0 out12 !! ii = val0 out21 !! ii.
Proof.
  intros L Hvalid.
  assert (d_laplace_valid out gradP2 gradP1 coef vg) as Hvalid'.
  { destruct Hvalid as (Hdt & Hp1 & Hp2 & Hcf & Hout).
    exact (conj Hdt (conj Hp2 (conj Hp1 (conj Hcf Hout)))). }
  destruct (d_laplace_spec out gradP1 gradP2 coef vg Hvalid)
    as (out12 & Hrun12 & _ & Hent12).
  destruct (d_laplace_spec out gradP2 gradP1 coef vg Hvalid')
    as (out21 & Hrun21 & _ & Hent21).
  exists out12, out21. split; [done|]. split; [done|].
  intros ii Hii. rewrite Hent12, Hent21 by done. f_equal.
  apply (d_laplace_entry_sym L).
  destruct Hvalid as (_ & (_ & _ & -> & _) & (_ & _ & -> & _) & _). done.
Qed.

Lemma d_laplace_symmetric_witness :
  SemiringLaws (F:=Z)
  ∧ d_laplace_valid quad_out_s quad_gradP quad_gradQ quad_coef quad_vg
  ∧ ∃ out12 out21,
      d_laplace quad_out_s quad_gradP quad_gradQ quad_coef quad_vg false
      = Ok ((RET_OK, out12), false)
      ∧ d_laplace quad_out_s quad_gradQ quad_gradP quad_coef quad_vg false
        = Ok ((RET_OK, out21), false)
      ∧ val0 out12 !! 0 = val0 out21 !! 0.
Proof.
  split; [exact Z_SemiringLaws|]. split; [exact quad_d_laplace_valid|].
  destruct (d_laplace_symmetric quad_out_s quad_gradP quad_gradQ quad_coef
              quad_vg Z_SemiringLaws quad_d_laplace_valid)
    as (out12 & out21 & Hrun12 & Hrun21 & Hent).
  exists out12, out21. split; [exact Hrun12|]. split; [exact Hrun21|].
  apply (Hent 0). simpl. lia.
Defined.


(** ** The diffusion evaluators *)

(** X9. In matrix mode and on well-formed inputs (any space dimension; the
    tensor given per cell or once for all cells) [dw_diffusion] succeeds and
    leaves, at entry (i, j) of every cell, the entry of
    Sum_q (G_q^T D_q G_q) * w_q, that is
    Sum_q (Sum_e (Sum_d G_q[d,i] * D_q[d,e]) * G_q[e,j]) * w_q. *)
Theorem dw_diffusion_matrix_mode {F : Type} `{Scalar F}
    (out grad mtxD : FMField F) (vg : VolumeGeometry F) (isDiff : Z) :
  isDiff ≠ 0%Z →
  dw_diffusion_mtx_valid out mtxD vg →
  ∃ out',
    dw_diffusion out grad mtxD vg isDiff false = Ok ((RET_OK, out'), false)
    ∧ same_shape out' out
    ∧ ∀ ii i j, ii < nCell out → i < nCol (bfGM vg) → j < nCol (bfGM vg) →
        val0 out' !! (ii * (nCol (bfGM vg) * nCol (bfGM vg))
                      + i * nCol (bfGM vg) + j)
        = Some (fsum (nLev (bfGM vg)) (λ q,
                  fmul (fsum (nRow (bfGM vg)) (λ e,
                          fmul (fsum (nRow (bfGM vg)) (λ d,
                                  fmul (at_qp (FMF_SetCell (bfGM vg) ii)
                                          (nLev (bfGM vg)) q d i)
                                       (at_qp (FMF_SetCell_bcast mtxD ii)
                                          (nLev (bfGM vg)) q d e)))
                               (at_qp (FMF_SetCell (bfGM vg) ii)
                                  (nLev (bfGM vg)) q e j)))
                       (wt_qp (FMF_SetCell (det vg) ii) q))).
Proof.
  intros HD Hvalid.
  destruct (dw_diffusion_mtx_spec out grad mtxD vg isDiff HD Hvalid)
    as (out' & Hrun & Hshape & Hent).
  exists out'. split; [done|]. split; [done|].
  intros ii i j Hii Hi Hj. by rewrite Hent.
Qed.

Lemma dw_diffusion_matrix_mode_witness :
  (1 ≠ 0)%Z
  ∧ dw_diffusion_mtx_valid quad_out_m quad_D quad_vg
  ∧ ∃ out',
      dw_diffusion quad_out_m fmf_null quad_D quad_vg 1 false
      = Ok ((RET_OK, out'), false)
      ∧ val0 out' !! 1 = Some 50%Z.
Proof.
  split; [done|]. split; [exact quad_diffusion_mtx_valid|].
  destruct (dw_diffusion_matrix_mode quad_out_m fmf_null quad_D quad_vg 1%Z)
    as (out' & Hrun & _ & Hent); [done|exact quad_diffusion_mtx_valid|].
  exists out'. split; [exact Hrun|]. apply (Hent 0 0 1); simpl; lia.
Defined.

(** X10. In residual mode and on well-formed inputs [dw_diffusion] succeeds
    and leaves, at entry i of every cell,
    Sum_q (Sum_d G_q[d,i] * (Sum_e D_q[d,e] * grad_q[e])) * w_q. *)
Theorem dw_diffusion_residual_mode {F : Type} `{Scalar F}
    (out grad mtxD : FMField F) (vg : VolumeGeometry F) (isDiff : Z) :
  isDiff = 0%Z →
  dw_diffusion_res_valid out grad mtxD vg →
  ∃ out',
    dw_diffusion out grad mtxD vg isDiff false = Ok ((RET_OK, out'), false)
    ∧ same_shape out' out
    ∧ ∀ ii i, ii < nCell out → i < nCol (bfGM vg) →
        val0 out' !! (ii * nCol (bfGM vg) + i)
        = Some (fsum (nLev (bfGM vg)) (λ q,
                  fmul (fsum (nRow (bfGM vg)) (λ d,
                          fmul (at_qp (FMF_SetCell (bfGM vg) ii)
                                  (nLev (bfGM vg)) q d i)
                               (fsum (nRow (bfGM vg)) (λ e,
                                  fmul (at_qp (FMF_SetCell_bcast mtxD ii)
                                          (nLev (bfGM vg)) q d e)
                                       (at_qp (FMF_SetCell grad ii)
                                          (nLev (bfGM vg)) q e 0)))))
                       (wt_qp (FMF_SetCell (det vg) ii) q))).
Proof.
  intros HD Hvalid.
  destruct (dw_diffusion_res_spec out grad mtxD vg isDiff HD Hvalid)
    as (out' & Hrun & Hshape & Hent).
  exists out'. split; [done|]. split; [done|].
  intros ii i Hii Hi. by rewrite Hent.
Qed.

Lemma dw_diffusion_residual_mode_witness :
  dw_diffusion_res_valid quad_out_v quad_gradP quad_D quad_vg
  ∧ ∃ out',
      dw_diffusion quad_out_v quad_gradP quad_D quad_vg 0 false
      = Ok ((RET_OK, out'), false)
      ∧ val0 out' !! 0 = Some 25%Z.
Proof.
  split; [exact quad_diffusion_res_valid|].
  destruct (dw_diffusion_residual_mode quad_out_v quad_gradP quad_D quad_vg 0%Z)
    as (out' & Hrun & _ & Hent); [done|exact quad_diffusion_res_valid|].
  exists out'. split; [exact Hrun|]. apply (Hent 0 0); simpl; lia.
Defined.

(** X11. When the tensor coefficient is symmetric at every quadrature
    point, every cell matrix written by [dw_diffusion] in matrix mode is
    symmetric (scalars in a commutative semiring). *)
Theorem dw_diffusion_matrix_symmetric {F : Type} `{Scalar F}
    (out grad mtxD : FMField F) (vg : VolumeGeometry F) (isDiff : Z) :
  SemiringLaws (F:=F) →
  isDiff ≠ 0%Z →
  dw_diffusion_mtx_valid out mtxD vg →
  (∀ ii q d e, ii < nCell out → q < nLev (bfGM vg) →
     d < nRow (bfGM vg) → e < nRow (bfGM vg) →
     at_qp (FMF_SetCell_bcast mtxD ii) (nLev (bfGM vg)) q d e
     = at_qp (FMF_SetCell_bcast mtxD ii) (nLev (bfGM vg)) q e d) →
  ∃ out',
    dw_diffusion out grad mtxD vg isDiff false = Ok ((RET_OK, out'), false)
    ∧ ∀ ii i j, ii < nCell out → i < nCol (bfGM vg) → j < nCol (bfGM vg) →
        val0 out' !! (ii * (nCol (bfGM vg) * nCol (bfGM vg))
                      + i * nCol (bfGM vg) + j)
        = val0 out' !! (ii * (nCol (bfGM vg) * nCol (bfGM vg))
                        + j * nCol (bfGM vg) + i).
Proof.
  intros L HD Hvalid Hsym.
  destruct (dw_diffusion_mtx_spec out grad mtxD vg isDiff HD Hvalid)
    as (out' & Hrun & Hshape & Hent).
  exists out'. split; [done|].
  intros ii i j Hii Hi Hj. rewrite !Hent by done. f_equal.
  apply (diffusion_mtx_entry_sym L). intros q d e. by apply Hsym.
Qed.

Lemma dw_diffusion_matrix_symmetric_witness :
  SemiringLaws (F:=Z)
  ∧ dw_diffusion_mtx_valid quad_out_m quad_D quad_vg
  ∧ ∃ out',
      dw_diffusion quad_out_m fmf_null quad_D quad_vg 1 false
      = Ok ((RET_OK, out'), false)
      ∧ val0 out' !! 5 = val0 out' !! 6.
Proof.
  split; [exact Z_SemiringLaws|]. split; [exact quad_diffusion_mtx_valid|].
  destruct (dw_diffusion_matrix_symmetric quad_out_m fmf_null quad_D quad_vg
              1%Z Z_SemiringLaws)
    as (out' & Hrun & Hsym); [done|exact quad_diffusion_mtx_valid| |].
  - intros ii q d e Hii Hq Hd He. simpl in Hq, Hd, He.
    assert (q = 0) as -> by lia.
    destruct d as [|[|d]]; [| |lia]; destruct e as [|[|e]]; try lia;
      reflexivity.
  - exists out'. split; [exact Hrun|]. apply (Hsym 1 0 1); simpl; lia.
Defined.

(** X12. On well-formed inputs [d_diffusion] succeeds and leaves, for every
    cell, the scalar
    Sum_q (Sum_d gradP1_q[d] * (Sum_e D_q[d,e] * gradP2_q[e])) * w_q. *)
Theorem d_diffusion_value {F : Type} `{Scalar F}
    (out gradP1 gradP2 mtxD : FMField F) (vg : VolumeGeometry F) :
  d_diffusion_valid out gradP1 gradP2 mtxD vg →
  ∃ out',
    d_diffusion out gradP1 gradP2 mtxD vg false = Ok ((RET_OK, out'), false)
    ∧ same_shape out' out
    ∧ ∀ ii, ii < nCell out →
        val0 out' !! ii
        = Some (fsum (nLev (bfGM vg)) (λ q,
                  fmul (fsum (nRow (bfGM vg)) (λ d,
                          fmul (at_qp (FMF_SetCell gradP1 ii)
                                  (nLev (bfGM vg)) q d 0)
                               (fsum (nRow (bfGM vg)) (λ e,
                                  fmul (at_qp (FMF_SetCell_bcast mtxD ii)
                                          (nLev (bfGM vg)) q d e)
                                       (at_qp (FMF_SetCell gradP2 ii)
                                          (nLev (bfGM vg)) q e 0)))))
                       (wt_qp (FMF_SetCell (det vg) ii) q))).
Proof.
  intros Hvalid.
  destruct (d_diffusion_spec out gradP1 gradP2 mtxD vg Hvalid)
    as (out' & Hrun & Hshape & Hent).
  exists out'. split; [done|]. split; [done|].
  intros ii Hii. by rewrite Hent.
Qed.

Lemma d_diffusion_value_witness :
  d_diffusion_valid quad_out_s quad_gradP quad_gradQ quad_D quad_vg
  ∧ ∃ out',
      d_diffusion quad_out_s quad_gradP quad_gradQ quad_D quad_vg false
      = Ok ((RET_OK, out'), false)
      ∧ val0 out' !! 0 = Some 37%Z.
Proof.
  split; [exact quad_d_diffusion_valid|].
  destruct (d_diffusion_value quad_out_s quad_gradP quad_gradQ quad_D quad_vg
              quad_d_diffusion_valid)
    as (out' & Hrun & _ & Hent).
  exists out'. split; [exact Hrun|]. apply (Hent 0). simpl. lia.
Defined.

(** X13. On well-formed inputs (the coefficient a [dim x 1] vector per
    quadrature point, given per cell or once for all cells)
    [dw_permeability_r] succeeds and leaves, at entry i of every cell,
    Sum_q (Sum_d G_q[d,i] * D_q[d]) * w_q. *)
Theorem dw_permeability_r_value {F : Type} `{Scalar F}
    (out mtxD : FMField F) (vg : VolumeGeometry F) :
  dw_permeability_r_valid out mtxD vg →
  ∃ out',
    dw_permeability_r out mtxD vg false = Ok ((RET_OK, out'), false)
    ∧ same_shape out' out
    ∧ ∀ ii i, ii < nCell out → i < nCol (bfGM vg) →
        val0 out' !! (ii * nCol (bfGM vg) + i)
        = Some (fsum (nLev (bfGM vg)) (λ q,
                  fmul (fsum (nRow (bfGM vg)) (λ d,
                          fmul (at_qp (FMF_SetCell (bfGM vg) ii)
                                  (nLev (bfGM vg)) q d i)
                               (at_qp (FMF_SetCell_bcast mtxD ii)
                                  (nLev (bfGM vg)) q d 0)))
                       (wt_qp (FMF_SetCell (det vg) ii) q))).
Proof.
  intros Hvalid.
  destruct (dw_permeability_r_spec out mtxD vg Hvalid)
    as (out' & Hrun & Hshape & Hent).
  exists out'. split; [done|]. split; [done|].
  intros ii i Hii Hi. by rewrite Hent.
Qed.

Lemma dw_permeability_r_value_witness :
  dw_permeability_r_valid quad_out_v quad_Dv quad_vg
  ∧ ∃ out',
      dw_permeability_r quad_out_v quad_Dv quad_vg false
      = Ok ((RET_OK, out'), false)
      ∧ val0 out' !! 2 = Some 38%Z.
Proof.
  split; [exact quad_permeability_valid|].
  destruct (dw_permeability_r_value quad_out_v quad_Dv quad_vg
              quad_permeability_valid)
    as (out' & Hrun & _ & Hent).
  exists out'. split; [exact Hrun|]. apply (Hent 1 0); simpl; lia.
Defined.


(** X14. [dw_diffusion] broadcasts a tensor coefficient that has a single
    cell: in matrix mode the call with the single cell and the call with
    the buffer that repeats this cell once per processed cell succeed and
    leave the same entries in every cell. *)
Theorem dw_diffusion_broadcast {F : Type} `{Scalar F}
    (out grad mtxD : FMField F) (vg : VolumeGeometry F) (isDiff : Z) :
  isDiff ≠ 0%Z →
  dw_diffusion_mtx_valid out mtxD vg →
  nCell mtxD = 1 → val mtxD = 0 → 1 < nCell out →
  ∃ out1 outn,
    dw_diffusion out grad mtxD vg isDiff false = Ok ((RET_OK, out1), false)
    ∧ dw_diffusion out grad (replicate_cells mtxD (nCell out)) vg isDiff false
      = Ok ((RET_OK, outn), false)
    ∧ ∀ ii i j, ii < nCell out → i < nCol (bfGM vg) → j < nCol (bfGM vg) →
        val0 out1 !! (ii * (nCol (bfGM vg) * nCol (bfGM vg))
                      + i * nCol (bfGM vg) + j)
        = val0 outn !! (ii * (nCol (bfGM vg) * nCol (bfGM vg))
                        + i * nCol (bfGM vg) + j).
Proof.
  intros HD Hvalid H1 Hv Hn.
  pose proof Hvalid as (Hvg & HDv & Hout).
  assert (dw_diffusion_mtx_valid out (replicate_cells mtxD (nCell out)) vg)
    as Hvalidn.
  { split; [done|]. split; [|done]. by apply bcast_ok_replicate. }
  destruct (dw_diffusion_mtx_spec out grad mtxD vg isDiff HD Hvalid)
    as (out1 & Hrun1 & _ & Hent1).
  destruct (dw_diffusion_mtx_spec out grad _ vg isDiff HD Hvalidn)
    as (outn & Hrunn & _ & Hentn).
  exists out1, outn. split; [done|]. split; [done|].
  intros ii i j Hii Hi Hj. rewrite Hent1, Hentn by done. f_equal.
  unfold diffusion_mtx_entry. apply fsum_ext. intros q Hq. f_equal.
  apply fsum_ext. intros e He. f_equal. apply fsum_ext. intros d Hd. f_equal.
  destruct HDv as (Hwf & HL & HR & HC & _).
  symmetry. apply at_qp_replicate_cells; try done; lia.
Qed.

Lemma dw_diffusion_broadcast_witness :
  dw_diffusion_mtx_valid quad_out_m quad_D quad_vg
  ∧ ∃ out1 outn,
      dw_diffusion quad_out_m fmf_null quad_D quad_vg 1 false
      = Ok ((RET_OK, out1), false)
      ∧ dw_diffusion quad_out_m fmf_null
          (mkFMField 2 1 2 2 4 [2; 1; 1; 3; 2; 1; 1; 3]%Z 0) quad_vg 1 false
        = Ok ((RET_OK, outn), false)
      ∧ val0 out1 !! 7 = val0 outn !! 7.
Proof.
  split; [exact quad_diffusion_mtx_valid|].
  destruct (dw_diffusion_broadcast quad_out_m fmf_null quad_D quad_vg 1%Z)
    as (out1 & outn & Hrun1 & Hrunn & Hent);
    [done|exact quad_diffusion_mtx_valid|done|done|simpl; lia|].
  exists out1, outn. split; [exact Hrun1|]. split; [exact Hrunn|].
  apply (Hent 1 1 1); simpl; lia.
Defined.

(** X15. The Laplace term is the diffusion term of an isotropic tensor:
    when the tensor holds coef_q on its diagonal and zero elsewhere, at
    every quadrature point, [dw_diffusion] and [dw_laplace] in matrix mode
    succeed and leave the same entries in every cell (space dimension 2 or
    3, scalars in a commutative semiring). *)
Theorem dw_diffusion_isotropic_is_laplace {F : Type} `{Scalar F}
    (out grad coef mtxD : FMField F) (vg : VolumeGeometry F) (isDiff : Z) :
  SemiringLaws (F:=F) →
  isDiff ≠ 0%Z →
  dw_laplace_valid out coef vg →
  dw_diffusion_mtx_valid out mtxD vg →
  (∀ ii q d e, ii < nCell out → q < nLev (bfGM vg) →
     d < nRow (bfGM vg) → e < nRow (bfGM vg) →
     at_qp (FMF_SetCell_bcast mtxD ii) (nLev (bfGM vg)) q d e
     = if decide (d = e) then wt_qp (FMF_SetCell_bcast coef ii) q else f0) →
  ∃ outL outD,
    dw_laplace out grad coef vg isDiff false = Ok ((RET_OK, outL), false)
    ∧ dw_diffusion out grad mtxD vg isDiff false = Ok ((RET_OK, outD), false)
    ∧ ∀ ii i j, ii < nCell out → i < nCol (bfGM vg) → j < nCol (bfGM vg) →
        val0 outL !! (ii * (nCol (bfGM vg) * nCol (bfGM vg))
                      + i * nCol (bfGM vg) + j)
        = val0 outD !! (ii * (nCol (bfGM vg) * nCol (bfGM vg))
                        + i * nCol (bfGM vg) + j).
Proof.
  intros L HD HvalidL HvalidD Hiso.
  destruct (dw_laplace_matrix_spec out grad coef vg isDiff HD HvalidL)
    as (outL & HrunL & _ & HentL).
  destruct (dw_diffusion_mtx_spec out grad mtxD vg isDiff HD HvalidD)
    as (outD & HrunD & _ & HentD).
  exists outL, outD. split; [done|]. split; [done|].
  intros ii i j Hii Hi Hj.
  destruct HvalidD as (_ & _ & Hout).
  destruct (out_ok_size out _ _ Hout) as [Hcs _].
  rewrite <-Hcs, HentL by done. rewrite Hcs, HentD by done. f_equal.
  rewrite (laplace_mtx_entry_matrix L) by apply HvalidL.
  symmetry. apply (diffusion_mtx_entry_isotropic L).
  intros q d e. by apply Hiso.
Qed.

Lemma dw_diffusion_isotropic_is_laplace_witness :
  SemiringLaws (F:=Z)
  ∧ dw_laplace_valid quad_out_m quad_coef quad_vg
  ∧ dw_diffusion_mtx_valid quad_out_m quad_D_iso quad_vg
  ∧ ∃ outL outD,
      dw_laplace quad_out_m fmf_null quad_coef quad_vg 1 false
      = Ok ((RET_OK, outL), false)
      ∧ dw_diffusion quad_out_m fmf_null quad_D_iso quad_vg 1 false
        = Ok ((RET_OK, outD), false)
      ∧ val0 outL !! 6 = val0 outD !! 6.
Proof.
  split; [exact Z_SemiringLaws|]. split; [exact quad_laplace_valid|].
  split; [exact quad_diffusion_iso_valid|].
  destruct (dw_diffusion_isotropic_is_laplace quad_out_m fmf_null quad_coef
              quad_D_iso quad_vg 1%Z Z_SemiringLaws)
    as (outL & outD & HrunL & HrunD & Hent);
    [done|exact quad_laplace_valid|exact quad_diffusion_iso_valid| |].
  - intros ii q d e Hii Hq Hd He. simpl in Hq, Hd, He.
    assert (q = 0) as -> by lia.
    destruct d as [|[|d]]; [| |lia]; destruct e as [|[|e]]; try lia;
      reflexivity.
  - exists outL, outD. split; [exact HrunL|]. split; [exact HrunD|].
    apply (Hent 1 1 0); simpl; lia.
Defined.


(** ** The coupling evaluators *)

(** X16. In residual mode and on well-formed inputs [dw_diffusion_coupling]
    succeeds; with p the nodal values of the state vector gathered through
    the connectivity of the listed element, entry i of the cell of the
    element listed at ii is
    Sum_q B_q[i] * (Sum_d D_q[d] * (Sum_n G_q[d,n] * p_n)) * w_q for
    [mode > 0] and Sum_q (Sum_d G_q[d,i] * D_q[d] * (Sum_n B_q[n] * p_n)) * w_q
    otherwise.  The loop runs over the element list, not over the output:
    the cells of the output after the listed elements are untouched. *)
Theorem dw_diffusion_coupling_residual_mode {F : Type} `{Scalar F}
    (out state mtxD bf : FMField F) (vg : VolumeGeometry F)
    (conn elList : list nat) (offset nEl nEP elList_nRow : nat)
    (isDiff mode : Z) :
  SemiringLaws (F:=F) →
  isDiff = 0%Z →
  coupling_geom_ok mtxD bf vg nEP elList elList_nRow →
  gather_ok (set_val state (FMF_PtrFirst state + offset)) conn nEP elList
    elList_nRow →
  out_ok out nEP 1 → elList_nRow ≤ nCell out →
  ∃ out',
    dw_diffusion_coupling out state offset mtxD bf vg conn nEl nEP
      elList elList_nRow isDiff mode false
    = Ok ((RET_OK, out'), false)
    ∧ same_shape out' out
    ∧ (∀ ii i, ii < elList_nRow → i < nEP →
         let nQP := nLev (bfGM vg) in
         let iel := nth ii elList 0 in
         let G := FMF_SetCell (bfGM vg) iel in
         let D := FMF_SetCell_bcast mtxD ii in
         let p := nodal (set_val state (FMF_PtrFirst state + offset)) conn
                    (nEP * iel) in
         val0 out' !! (ii * nEP + i)
         = Some (fsum nQP (λ q,
             fmul (if decide (0 < mode)%Z then
                     fmul (at_qp bf nQP q 0 i)
                          (fsum (nRow (bfGM vg)) (λ d,
                             fmul (at_qp D nQP q d 0)
                                  (fsum nEP (λ n,
                                     fmul (at_qp G nQP q d n) (p n)))))
                   else
                     fsum (nRow (bfGM vg)) (λ d,
                       fmul (at_qp G nQP q d i)
                            (fmul (at_qp D nQP q d 0)
                                  (fsum nEP (λ n,
                                     fmul (at_qp bf nQP q 0 n) (p n))))))
                  (wt_qp (FMF_SetCell (det vg) iel) q))))
    ∧ (∀ j, elList_nRow * nEP ≤ j → val0 out' !! j = val0 out !! j).
Proof.
  intros L HD Hgeom Hgather Hout Hn.
  destruct (dw_diffusion_coupling_res_spec out state offset mtxD bf vg conn nEl
              nEP elList elList_nRow isDiff mode HD Hgeom Hgather Hout Hn)
    as (out' & Hrun & Hshape & Hent & Hrest).
  exists out'. split; [done|]. split; [done|]. split; [|done].
  intros ii i Hii Hi. cbn zeta. rewrite Hent by done. f_equal.
  apply (coupling_res_entry_sum L).
Qed.

Lemma dw_diffusion_coupling_residual_mode_witness :
  SemiringLaws (F:=Z)
  ∧ coupling_geom_ok quad_Dv quad_bf quad_vg 2 quad_elList 2
  ∧ ∃ out',
      dw_diffusion_coupling quad_out_v3 quad_state 0 quad_Dv quad_bf quad_vg
        quad_conn 2 2 quad_elList 2 0 1 false
      = Ok ((RET_OK, out'), false)
      ∧ val0 out' !! 1 = Some 190%Z
      ∧ val0 out' !! 5 = val0 quad_out_v3 !! 5.
Proof.
  split; [exact Z_SemiringLaws|]. split; [exact quad_coupling_geom_ok|].
  destruct (dw_diffusion_coupling_residual_mode quad_out_v3 quad_state quad_Dv
              quad_bf quad_vg quad_conn quad_elList 0 2 2 2 0%Z 1%Z
              Z_SemiringLaws)
    as (out' & Hrun & _ & Hent & Hrest);
    [done|exact quad_coupling_geom_ok|exact quad_gather_ok
    |unfold out_ok, fmf_wf; simpl; repeat split; lia|simpl; lia|].
  exists out'. split; [exact Hrun|]. split.
  - apply (Hent 0 1); lia.
  - apply (Hrest 5). lia.
Defined.

(** X17. The residual of [dw_diffusion_coupling] is its matrix applied to
    the gathered nodal values: on well-formed inputs and for either
    orientation [mode], entry i of a residual cell is Sum_j K[i,j] * p_j,
    where K is the cell that the call in matrix mode writes and p_j is the
    value of the state vector at the local node j of the element. *)
Theorem dw_diffusion_coupling_consistent {F : Type} `{Scalar F}
    (outM outR state mtxD bf : FMField F) (vg : VolumeGeometry F)
    (conn elList : list nat) (offset nEl nEP elList_nRow : nat)
    (isDiff mode : Z) :
  SemiringLaws (F:=F) →
  isDiff ≠ 0%Z →
  coupling_valid outM mtxD bf vg nEP elList elList_nRow →
  coupling_geom_ok mtxD bf vg nEP elList elList_nRow →
  gather_ok (set_val state (FMF_PtrFirst state + offset)) conn nEP elList
    elList_nRow →
  out_ok outR nEP 1 → elList_nRow ≤ nCell outR →
  ∃ outM' outR',
    dw_diffusion_coupling outM state offset mtxD bf vg conn nEl nEP
      elList elList_nRow isDiff mode false
    = Ok ((RET_OK, outM'), false)
    ∧ dw_diffusion_coupling outR state offset mtxD bf vg conn nEl nEP
        elList elList_nRow 0 mode false
      = Ok ((RET_OK, outR'), false)
    ∧ ∀ ii i, ii < elList_nRow → i < nEP →
        val0 outR' !! (ii * nEP + i)
        = Some (fsum nEP (λ j,
                  fmul (rd (val0 outM') (ii * (nEP * nEP) + i * nEP + j))
                       (nodal (set_val state (FMF_PtrFirst state + offset))
                          conn (nEP * nth ii elList 0) j))).
Proof.
  intros L HD Hvalid Hgeom Hgather Hout Hn.
  destruct (dw_diffusion_coupling_matrix_spec outM state offset mtxD bf vg conn
              nEl nEP elList elList_nRow isDiff mode HD Hvalid)
    as (outM' & HrunM & _ & HentM).
  destruct (dw_diffusion_coupling_res_spec outR state offset mtxD bf vg conn nEl
              nEP elList elList_nRow 0%Z mode eq_refl Hgeom Hgather Hout Hn)
    as (outR' & HrunR & _ & HentR & _).
  exists outM', outR'. split; [done|]. split; [done|].
  intros ii i Hii Hi. rewrite HentR by done. f_equal.
  destruct Hvalid as (_ & _ & _ & _ & (_ & HbR & _) & (_ & _ & _ & Hcs & _)).
  rewrite <-(coupling_matrix_times_nodal L) by done.
  apply fsum_ext. intros j Hj. f_equal. symmetry.
  apply rd_lookup. rewrite <-Hcs. by apply HentM.
Qed.

Lemma dw_diffusion_coupling_consistent_witness :
  SemiringLaws (F:=Z)
  ∧ coupling_valid quad_out_m quad_Dv quad_bf quad_vg 2 quad_elList 2
  ∧ ∃ outM' outR',
      dw_diffusion_coupling quad_out_m quad_state 0 quad_Dv quad_bf quad_vg
        quad_conn 2 2 quad_elList 2 1 0 false
      = Ok ((RET_OK, outM'), false)
      ∧ dw_diffusion_coupling quad_out_v quad_state 0 quad_Dv quad_bf quad_vg
          quad_conn 2 2 quad_elList 2 0 0 false
        = Ok ((RET_OK, outR'), false)
      ∧ val0 outR' !! 2
        = Some (rd (val0 outM') 4 * 6 + rd (val0 outM') 5 * 7)%Z.
Proof.
  split; [exact Z_SemiringLaws|]. split; [exact quad_coupling_valid|].
  destruct (dw_diffusion_coupling_consistent quad_out_m quad_out_v quad_state
              quad_Dv quad_bf quad_vg quad_conn quad_elList 0 2 2 2 1%Z 0%Z
              Z_SemiringLaws)
    as (outM' & outR' & HrunM & HrunR & Hent);
    [done|exact quad_coupling_valid|exact quad_coupling_geom_ok
    |exact quad_gather_ok
    |unfold out_ok, fmf_wf; simpl; repeat split; lia|simpl; lia|].
  exists outM', outR'. split; [exact HrunM|]. split; [exact HrunR|].
  exact (Hent 1 0 ltac:(lia) ltac:(lia)).
Defined.

(** X18. [d_diffusion_coupling] allocates [aux2] with one row per level
    and uses it as G st ([mode] > 0) or as the right operand of G^T aux2
    ([mode] <= 0), which have as many rows as the gradient matrix: whenever
    the gradient matrix has not exactly one row and at least one element is
    listed, the call ends in a fault (a shape fault of the product at the
    latest) and returns no status. *)
Theorem d_diffusion_coupling_needs_one_row {F : Type} `{Scalar F}
    (out stateP stateQ mtxD bf : FMField F) (vg : VolumeGeometry F)
    (conn elList : list nat) (nEl nEP elList_nRow : nat) (isDiff mode : Z) g :
  nRow (bfGM vg) ≠ 1 → 0 < elList_nRow →
  ∃ e, d_diffusion_coupling out stateP stateQ mtxD bf vg conn nEl nEP
         elList elList_nRow isDiff mode g = Err e.
Proof.
  intros Hdim Hn. unfold d_diffusion_coupling.
  destruct elList_nRow as [|n]; [lia|].
  change (seq 0 (S n)) with (0 :: seq 1 n).
  edestruct (d_diffusion_coupling_cell_fault stateP stateQ mtxD bf vg conn nEP
               elList mode 0 out) as [e He]; [exact Hdim| |].
  2: { exists e. erewrite M_bind_Err; [done|].
       apply cell_loop_fault. exact He. }
  done.
Qed.

Lemma d_diffusion_coupling_needs_one_row_witness :
  nRow (bfGM quad_vg) ≠ 1 ∧ 0 < 2
  ∧ ∃ e, d_diffusion_coupling quad_out_s quad_state quad_state quad_Dv quad_bf
           quad_vg quad_conn 2 2 quad_elList 2 0 1 false = Err e.
Proof.
  split; [simpl; lia|]. split; [lia|].
  apply (d_diffusion_coupling_needs_one_row quad_out_s quad_state quad_state
           quad_Dv quad_bf quad_vg quad_conn quad_elList 2 2 2 0%Z 1%Z false);
    simpl; lia.
Defined.


(** X19. In matrix mode and on well-formed inputs, entry (i, j) of the
    cell that [dw_diffusion_coupling] writes for the element listed at ii
    is Sum_q B_q[i] * (Sum_d G_q[d,j] * D_q[d]) * w_q for [mode > 0], and
    Sum_q B_q[j] * (Sum_d G_q[d,i] * D_q[d]) * w_q otherwise; the geometry
    is read at the listed element, the coefficient at the position in the
    list. *)
Theorem dw_diffusion_coupling_matrix_mode {F : Type} `{Scalar F}
    (out state mtxD bf : FMField F) (vg : VolumeGeometry F)
    (conn elList : list nat) (offset nEl nEP elList_nRow : nat)
    (isDiff mode : Z) :
  SemiringLaws (F:=F) →
  isDiff ≠ 0%Z →
  coupling_valid out mtxD bf vg nEP elList elList_nRow →
  ∃ out',
    dw_diffusion_coupling out state offset mtxD bf vg conn nEl nEP
      elList elList_nRow isDiff mode false
    = Ok ((RET_OK, out'), false)
    ∧ ∀ ii i j, ii < elList_nRow → i < nEP → j < nEP →
        val0 out' !! (ii * (nEP * nEP) + i * nEP + j)
        = Some (fsum (nLev (bfGM vg)) (λ q,
            fmul (fmul (at_qp bf (nLev (bfGM vg)) q 0
                          (if decide (0 < mode)%Z then i else j))
                       (fsum (nRow (bfGM vg)) (λ d,
                          fmul (at_qp (FMF_SetCell (bfGM vg) (nth ii elList 0))
                                  (nLev (bfGM vg)) q d
                                  (if decide (0 < mode)%Z then j else i))
                               (at_qp (FMF_SetCell_bcast mtxD ii)
                                  (nLev (bfGM vg)) q d 0))))
                 (wt_qp (FMF_SetCell (det vg) (nth ii elList 0)) q))).
Proof.
  intros L HD Hvalid.
  destruct (dw_diffusion_coupling_matrix_spec out state offset mtxD bf vg conn
              nEl nEP elList elList_nRow isDiff mode HD Hvalid)
    as (out' & Hrun & _ & Hent).
  exists out'. split; [done|].
  intros ii i j Hii Hi Hj.
  destruct Hvalid as (_ & _ & _ & _ & (_ & HbR & _) & (_ & _ & _ & Hcs & _)).
  rewrite <-Hcs, Hent by done. f_equal.
  by apply (coupling_entry_sum L).
Qed.

Lemma dw_diffusion_coupling_matrix_mode_witness :
  SemiringLaws (F:=Z)
  ∧ coupling_valid quad_out_m quad_Dv quad_bf quad_vg 2 quad_elList 2
  ∧ ∃ out',
      dw_diffusion_coupling quad_out_m quad_state 0 quad_Dv quad_bf quad_vg
        quad_conn 2 2 quad_elList 2 1 1 false
      = Ok ((RET_OK, out'), false)
      ∧ val0 out' !! 6 = Some 76%Z.
Proof.
  split; [exact Z_SemiringLaws|]. split; [exact quad_coupling_valid|].
  destruct (dw_diffusion_coupling_matrix_mode quad_out_m quad_state quad_Dv
              quad_bf quad_vg quad_conn quad_elList 0 2 2 2 1%Z 1%Z
              Z_SemiringLaws)
    as (out' & Hrun & Hent); [done|exact quad_coupling_valid|].
  exists out'. split; [exact Hrun|]. apply (Hent 1 1 0); lia.
Defined.

(** ** The surface flux without the mean *)

(** X20. For every [mode] other than 1 and on well-formed inputs,
    [d_surface_flux] succeeds and leaves for the facet ii the total flux
    Sum_q (Sum_d n_q[d] * (Sum_e D_q[d,e] * grad_q[e])) * w_q; the facet
    areas are not read, so the area buffer may be anything. *)
Theorem d_surface_flux_total_mode {F : Type} `{Scalar F}
    (out grad mtxD : FMField F) (sg : SurfaceGeometry F) (mode : Z) :
  mode ≠ 1%Z →
  d_surface_flux_valid out grad mtxD sg →
  ∃ out',
    d_surface_flux out grad mtxD sg mode false = Ok ((RET_OK, out'), false)
    ∧ same_shape out' out
    ∧ ∀ ii, ii < nCell out →
        val0 out' !! ii = Some (flux_sum grad mtxD sg ii).
Proof.
  intros Hmode Hvalid.
  destruct (d_surface_flux_spec out grad mtxD sg mode Hvalid)
    as (out' & Hrun & Hshape & Hent); [done|].
  exists out'. split; [done|]. split; [done|].
  intros ii Hii. rewrite Hent by done. f_equal.
  unfold flux_cell. rewrite decide_False by done.
  apply flux_total_sum.
  by destruct Hvalid as (_ & _ & _ & (_ & _ & _ & ? & _) & _).
Qed.

Lemma d_surface_flux_total_mode_witness :
  (0 ≠ 1)%Z
  ∧ d_surface_flux_valid flux_out flux_grad flux_D2
      (mkSurfaceGeometry (normal flux_sg) (sdet flux_sg) fmf_null)
  ∧ ∃ out',
      d_surface_flux flux_out flux_grad flux_D2
        (mkSurfaceGeometry (normal flux_sg) (sdet flux_sg) fmf_null) 0 false
      = Ok ((RET_OK, out'), false)
      ∧ val0 out' !! 1 = Some 8%Z.
Proof.
  assert (d_surface_flux_valid flux_out flux_grad flux_D2
            (mkSurfaceGeometry (normal flux_sg) (sdet flux_sg) fmf_null))
    as Hvalid.
  { unfold d_surface_flux_valid, fmf_wf. simpl. repeat split; lia. }
  split; [done|]. split; [exact Hvalid|].
  destruct (d_surface_flux_total_mode flux_out flux_grad flux_D2
              (mkSurfaceGeometry (normal flux_sg) (sdet flux_sg) fmf_null) 0%Z)
    as (out' & Hrun & _ & Hent); [done|exact Hvalid|].
  exists out'. split; [exact Hrun|]. apply (Hent 1). simpl. lia.
Defined.


(** X21. The residual of [dw_diffusion] is its matrix applied to the nodal
    values: when the gradient buffer holds G u at every quadrature point of
    every cell, for nodal values u of the cells, entry i of a residual cell
    is Sum_j K[i,j] * u_j, where K is the cell written in matrix mode. *)
Theorem dw_diffusion_consistent {F : Type} `{Scalar F}
    (outM outR grad mtxD : FMField F) (vg : VolumeGeometry F) (isDiff : Z)
    (u : nat → nat → F) :
  SemiringLaws (F:=F) →
  isDiff ≠ 0%Z →
  dw_diffusion_mtx_valid outM mtxD vg →
  dw_diffusion_res_valid outR grad mtxD vg →
  nCell outR = nCell outM →
  (∀ ii q e, ii < nCell outR → q < nLev (bfGM vg) → e < nRow (bfGM vg) →
     at_qp (FMF_SetCell grad ii) (nLev (bfGM vg)) q e 0
     = fsum (nCol (bfGM vg)) (λ n,
         fmul (at_qp (FMF_SetCell (bfGM vg) ii) (nLev (bfGM vg)) q e n)
              (u ii n))) →
  ∃ outM' outR',
    dw_diffusion outM grad mtxD vg isDiff false = Ok ((RET_OK, outM'), false)
    ∧ dw_diffusion outR grad mtxD vg 0 false = Ok ((RET_OK, outR'), false)
    ∧ ∀ ii i, ii < nCell outR → i < nCol (bfGM vg) →
        val0 outR' !! (ii * nCol (bfGM vg) + i)
        = Some (fsum (nCol (bfGM vg)) (λ j,
                  fmul (rd (val0 outM')
                          (ii * (nCol (bfGM vg) * nCol (bfGM vg))
                           + i * nCol (bfGM vg) + j))
                       (u ii j))).
Proof.
  intros L HD HvalidM HvalidR Hcells Hgrad.
  destruct (dw_diffusion_mtx_spec outM grad mtxD vg isDiff HD HvalidM)
    as (outM' & HrunM & _ & HentM).
  destruct (dw_diffusion_res_spec outR grad mtxD vg 0%Z eq_refl HvalidR)
    as (outR' & HrunR & _ & HentR).
  exists outM', outR'. split; [done|]. split; [done|].
  intros ii i Hii Hi. rewrite HentR by done. f_equal.
  rewrite <-(diffusion_matrix_times_nodal L grad mtxD vg ii i (u ii))
    by (intros q e; by apply Hgrad).
  apply fsum_ext. intros j Hj. f_equal. symmetry.
  apply rd_lookup. apply HentM; [lia|done..].
Qed.

Lemma dw_diffusion_consistent_witness :
  SemiringLaws (F:=Z)
  ∧ dw_diffusion_mtx_valid quad_out_m quad_D quad_vg
  ∧ dw_diffusion_res_valid quad_out_v quad_gradU quad_D quad_vg
  ∧ ∃ outM' outR',
      dw_diffusion quad_out_m quad_gradU quad_D quad_vg 1 false
      = Ok ((RET_OK, outM'), false)
      ∧ dw_diffusion quad_out_v quad_gradU quad_D quad_vg 0 false
        = Ok ((RET_OK, outR'), false)
      ∧ val0 outR' !! 3
        = Some (rd (val0 outM') 6 * 1 + rd (val0 outM') 7 * 1)%Z.
Proof.
  assert (dw_diffusion_res_valid quad_out_v quad_gradU quad_D quad_vg)
    as HvalidR.
  { unfold dw_diffusion_res_valid, vg_ok, batch_ok, bcast_ok, out_ok, fmf_wf.
    simpl. repeat split; lia. }
  split; [exact Z_SemiringLaws|]. split; [exact quad_diffusion_mtx_valid|].
  split; [exact HvalidR|].
  destruct (dw_diffusion_consistent quad_out_m quad_out_v quad_gradU quad_D
              quad_vg 1%Z (λ _ _, 1%Z) Z_SemiringLaws)
    as (outM' & outR' & HrunM & HrunR & Hent);
    [done|exact quad_diffusion_mtx_valid|exact HvalidR|done| |].
  - intros ii q e Hii Hq He. simpl in Hii, Hq, He.
    assert (q = 0) as -> by lia.
    destruct ii as [|[|ii]]; [| |lia]; destruct e as [|[|e]]; try lia;
      reflexivity.
  - exists outM', outR'. split; [exact HrunM|]. split; [exact HrunR|].
    exact (Hent 1 1 ltac:(simpl; lia) ltac:(simpl; lia)).
Defined.


(** X22. For a gradient matrix of one row (one space dimension) and on
    well-formed inputs [d_diffusion_coupling] succeeds; with p and r the
    nodal values of [stateP] and [stateQ] of the listed element, it leaves
    Sum_q (Sum_i r_i * B_q[i] * D_q * (Sum_n G_q[n] * p_n)) * w_q for
    [mode > 0] and Sum_q (Sum_i r_i * G_q[i] * D_q * (Sum_n B_q[n] * p_n)) * w_q
    otherwise.  The arguments [isDiff] and [nEl] are not used. *)
Theorem d_diffusion_coupling_one_row {F : Type} `{Scalar F}
    (out stateP stateQ mtxD bf : FMField F) (vg : VolumeGeometry F)
    (conn elList : list nat) (nEl nEP elList_nRow : nat) (isDiff mode : Z) :
  SemiringLaws (F:=F) →
  nRow (bfGM vg) = 1 →
  coupling_geom_ok mtxD bf vg nEP elList elList_nRow →
  gather_ok stateP conn nEP elList elList_nRow →
  gather_ok stateQ conn nEP elList elList_nRow →
  out_ok out 1 1 → elList_nRow ≤ nCell out →
  ∃ out',
    d_diffusion_coupling out stateP stateQ mtxD bf vg conn nEl nEP
      elList elList_nRow isDiff mode false
    = Ok ((RET_OK, out'), false)
    ∧ same_shape out' out
    ∧ ∀ ii, ii < elList_nRow →
        let nQP := nLev (bfGM vg) in
        let iel := nth ii elList 0 in
        let G := FMF_SetCell (bfGM vg) iel in
        let D := FMF_SetCell_bcast mtxD ii in
        let p := nodal stateP conn (nEP * iel) in
        let r := nodal stateQ conn (nEP * iel) in
        let X := if decide (0 < mode)%Z then bf else G in
        let Y := if decide (0 < mode)%Z then G else bf in
        val0 out' !! ii
        = Some (fsum nQP (λ q,
            fmul (fsum nEP (λ i,
                    fmul (r i)
                         (fmul (at_qp X nQP q 0 i)
                               (fmul (at_qp D nQP q 0 0)
                                     (fsum nEP (λ n,
                                        fmul (at_qp Y nQP q 0 n) (p n)))))))
                 (wt_qp (FMF_SetCell (det vg) iel) q))).
Proof.
  intros L Hdim Hgeom HgP HgQ Hout Hn.
  destruct (d_diffusion_coupling_spec out stateP stateQ mtxD bf vg conn nEl nEP
              elList elList_nRow isDiff mode Hdim Hgeom HgP HgQ Hout Hn)
    as (out' & Hrun & Hshape & Hent & _).
  exists out'. split; [done|]. split; [done|].
  intros ii Hii. cbn zeta. rewrite Hent by done. f_equal.
  unfold d_coupling_entry. rewrite Hdim.
  destruct (decide (0 < mode)%Z).
  - apply fsum_ext. intros q Hq. f_equal. apply fsum_ext. intros i Hi. f_equal.
    by rewrite !(fsum_1 L).
  - apply fsum_ext. intros q Hq. f_equal. apply fsum_ext. intros i Hi. f_equal.
    by rewrite !(fsum_1 L).
Qed.

Lemma d_diffusion_coupling_one_row_witness :
  SemiringLaws (F:=Z)
  ∧ nRow (bfGM cpl_vg) = 1
  ∧ coupling_geom_ok cpl_D cpl_G cpl_vg 2 [0] 1
  ∧ ∃ out',
      d_diffusion_coupling line_out_s quad_state quad_state cpl_D cpl_G cpl_vg
        quad_conn 1 2 [0] 1 0 1 false
      = Ok ((RET_OK, out'), false)
      ∧ val0 out' !! 0 = Some 4050%Z.
Proof.
  assert (coupling_geom_ok cpl_D cpl_G cpl_vg 2 [0] 1) as Hgeom.
  { unfold coupling_geom_ok, bcast_ok, fmf_wf. simpl. repeat split; try lia.
    intros ii Hii. exists 0. assert (ii = 0) as -> by lia.
    repeat split; lia. }
  assert (gather_ok quad_state quad_conn 2 [0] 1) as Hg.
  { intros ii inod Hii Hinod. assert (ii = 0) as -> by lia.
    destruct inod as [|[|inod]]; simpl; lia. }
  split; [exact Z_SemiringLaws|]. split; [done|]. split; [exact Hgeom|].
  destruct (d_diffusion_coupling_one_row line_out_s quad_state quad_state
              cpl_D cpl_G cpl_vg quad_conn [0] 1 2 1 0%Z 1%Z Z_SemiringLaws)
    as (out' & Hrun & _ & Hent);
    [done|exact Hgeom|exact Hg|exact Hg
    |unfold out_ok, fmf_wf; simpl; repeat split; lia|simpl; lia|].
  exists out'. split; [exact Hrun|]. apply (Hent 0). lia.
Defined.

